(** * Multi-cut Benders decomposition for two-stage stochastic cloud provisioning

    A shallow embedding of [algo/multiBenders.py]: the master builder
    [buildMP], the subproblem builder [buildSP], the scenario evaluator
    [modifyAndSolveSP] and the driver [multiBenders].

    Conventions of the embedding.
    - Python floats are exact rationals ([Q]); the values that the data may
      hold as [float('inf')] (the four capacity tables) live in [PyFloat.t],
      which adds the IEEE special values with their arithmetic.  Rounding
      is not modelled.
    - Identifiers of users, VM types, providers, routers and scenarios are
      strings: the program splits constraint names on '[' and ',' and
      tests the first character of an arc tail.
    - The LP/MILP engine is an external collaborator; it is a function
      [optimize] from a model to the attributes the program reads back.
    - Python exceptions are the [Err] case of [Res]; the [while] loop of
      the driver takes fuel.  Printing and the wall clock are left out. *)

From Stdlib Require Import QArith Qabs Lqa Lia Sorted Ascii String.
From stdpp Require Import gmap strings list fin_maps.

Local Open Scope Q_scope.

(** ** Python floats with the IEEE special values *)

Module PyFloat.

Inductive t : Type :=
| Fin (q : Q)
| PInf
| NInf
| NaN.

Definition Qltb (a b : Q) : bool := negb (Qle_bool b a).

Definition is_finite (a : t) : bool :=
  match a with Fin _ => true | _ => false end.

(** [q * inf] by the sign of [q]; [0 * inf] is not a number. *)
Definition scale_inf (q : Q) (pos neg : t) : t :=
  match q ?= 0 with
  | Gt => pos
  | Lt => neg
  | Eq => NaN
  end.

Definition mul (a b : t) : t :=
  match a, b with
  | NaN, _ | _, NaN => NaN
  | Fin x, Fin y => Fin (x * y)
  | Fin x, PInf | PInf, Fin x => scale_inf x PInf NInf
  | Fin x, NInf | NInf, Fin x => scale_inf x NInf PInf
  | PInf, PInf | NInf, NInf => PInf
  | PInf, NInf | NInf, PInf => NInf
  end.

Definition add (a b : t) : t :=
  match a, b with
  | NaN, _ | _, NaN => NaN
  | Fin x, Fin y => Fin (x + y)
  | PInf, NInf | NInf, PInf => NaN
  | PInf, _ | _, PInf => PInf
  | NInf, _ | _, NInf => NInf
  end.

Definition opp (a : t) : t :=
  match a with
  | Fin x => Fin (- x)
  | PInf => NInf
  | NInf => PInf
  | NaN => NaN
  end.

Definition sub (a b : t) : t := add a (opp b).

Definition abs (a : t) : t :=
  match a with
  | Fin x => Fin (Qabs x)
  | PInf | NInf => PInf
  | NaN => NaN
  end.

(** [a < b]; every comparison with a NaN is false. *)
Definition ltb (a b : t) : bool :=
  match a, b with
  | NaN, _ | _, NaN => false
  | Fin x, Fin y => Qltb x y
  | NInf, (Fin _ | PInf) => true
  | Fin _, PInf => true
  | _, _ => false
  end.

(** [a != float('inf')] *)
Definition neq_inf (a : t) : bool :=
  match a with PInf => false | _ => true end.

(** Python's [sum]: start from 0 and add left to right. *)
Definition sum (l : list t) : t := fold_left add l (Fin 0).

End PyFloat.

Abbreviation float := PyFloat.t.
Abbreviation Fin := PyFloat.Fin.
Abbreviation PInf := PyFloat.PInf.
Abbreviation NInf := PyFloat.NInf.
Abbreviation NaN := PyFloat.NaN.

(** [sum] over rationals, as Python folds it. *)
Definition Qsum (l : list Q) : Q := fold_left Qplus l 0.

(** [min(a, b)]: the first argument unless the second is strictly smaller. *)
Definition py_min (a b : Q) : Q := if PyFloat.Qltb b a then b else a.

(** ** Python string operations used on constraint names *)

Module PyStr.

(** [s.split(sep)] for a one-character separator. *)
Fixpoint split (sep : ascii) (s : string) : list string :=
  match s with
  | EmptyString => [EmptyString]
  | String c s' =>
      if Ascii.eqb c sep then EmptyString :: split sep s'
      else match split sep s' with
           | h :: tl => String c h :: tl
           | [] => [String c EmptyString]
           end
  end.

(** [s[:-1]] *)
Fixpoint drop_last (s : string) : string :=
  match s with
  | EmptyString => EmptyString
  | String c EmptyString => EmptyString
  | String c s' => String c (drop_last s')
  end.

(** [sep.join(l)] *)
Fixpoint join (sep : string) (l : list string) : string :=
  match l with
  | [] => EmptyString
  | [a] => a
  | a :: l' => a +:+ sep +:+ join sep l'
  end.

(** [s[0] == c]; indexing the empty string raises. *)
Definition head_is (c : ascii) (s : string) : option bool :=
  match s with
  | EmptyString => None
  | String c' _ => Some (Ascii.eqb c' c)
  end.

End PyStr.

(** ** Exceptions *)

Inductive exn : Type :=
| AssertionError (msg : string)
| KeyError
| ValueError
| IndexError
| UnboundLocalError.

Inductive Res (A : Type) : Type :=
| Ok (a : A)
| Err (e : exn).
Arguments Ok {A} a.
Arguments Err {A} e.

#[global] Instance Res_ret : MRet Res := fun A a => Ok a.
#[global] Instance Res_bind : MBind Res := fun A B f m =>
  match m with
  | Ok a => f a
  | Err e => Err e
  end.

(** [d[k]] on a dict built by the program. *)
Definition getitem `{Countable K} {V} (m : gmap K V) (k : K) : Res V :=
  match m !! k with
  | Some v => Ok v
  | None => Err KeyError
  end.

(** [assert b, msg] *)
Definition assert_ (b : bool) (msg : string) : Res unit :=
  if b then Ok tt else Err (AssertionError msg).

(** Run a fallible action over a list, left to right, stopping at the
    first exception. *)
Fixpoint mapM {A B} (f : A → Res B) (l : list A) : Res (list B) :=
  match l with
  | [] => Ok []
  | a :: l' => b ← f a; bs ← mapM f l'; Ok (b :: bs)
  end.

Fixpoint foldM {A S} (f : S → A → Res S) (l : list A) (s : S) : Res S :=
  match l with
  | [] => Ok s
  | a :: l' => s' ← f s a; foldM f l' s'
  end.

(** ** The engine's model objects *)

Inductive VType : Type := CONTINUOUS | INTEGER.
Inductive Sense : Type := LESS_EQUAL | GREATER_EQUAL | EQUAL.
Inductive ObjSense : Type := MINIMIZE | MAXIMIZE.

(** A variable is the key of its tupledict: the family name given to
    [addVars] and the index tuple. *)
Record Var : Type := mkVar { varFamily : string; varIndex : list string }.

#[global] Instance Var_eq_dec : EqDecision Var.
Proof. solve_decision. Defined.

Record VarDecl : Type := mkVarDecl {
  vd_var : Var;
  vd_vtype : VType;
  vd_lb : float;
  vd_ub : float
}.

Record LinExpr : Type := mkLinExpr {
  terms : list (Q * Var);
  const : float
}.

(** A constraint [lhs sense rhs_terms + rhs].  The sides are kept as the
    source writes them; [rhs] is the constant that [constr.rhs = ...]
    overwrites. *)
Record Constr : Type := mkConstr {
  constrName : string;
  lhs : list (Q * Var);
  sense : Sense;
  rhs_terms : list (Q * Var);
  rhs : float
}.

Record Model : Type := mkModel {
  modelName : string;
  vars : list VarDecl;
  constrs : list Constr;
  objective : LinExpr;
  modelSense : ObjSense
}.

(** What the program reads back after [optimize()]. *)
Record Solution : Type := mkSolution {
  objVal : Q;
  X : Var → Q;
  Pi : nat → Q
}.

(** [GRB.INFINITY] is the finite float 1e100. *)
Definition GRB_INFINITY : Q := (10 ^ 100)%Z # 1.

(** [Model.addVars(..., vtype=..., name=...)]: lower bound 0 and upper
    bound [GRB.INFINITY] are the defaults of the call. *)
Definition addVars (indices : list (list string)) (vtype : VType)
    (name : string) : list VarDecl :=
  map (fun idx => mkVarDecl (mkVar name idx) vtype (Fin 0) (Fin GRB_INFINITY))
      indices.

(** The name [addConstrs(..., name=...)] gives the constraint generated
    for the values [idx] of the generator's loop variables. *)
Definition indexed_name (name : string) (idx : list string) : string :=
  name +:+ "[" +:+ PyStr.join "," idx +:+ "]".

Definition setObjective (M : Model) (obj : LinExpr) : Model :=
  mkModel (modelName M) (vars M) (constrs M) obj (modelSense M).

Definition addConstr (M : Model) (c : Constr) : Model :=
  mkModel (modelName M) (vars M) (constrs M ++ [c]) (objective M)
          (modelSense M).

Definition set_rhs (c : Constr) (v : float) : Constr :=
  mkConstr (constrName c) (lhs c) (sense c) (rhs_terms c) v.

(** ** The problem instance *)

(** Modelled from the spec: the class of the problem instance [d] is not
    in the repository source.  It holds the index sets, the cost tables,
    the per-scenario demand and the capacities; a capacity may be
    [float('inf')].  The tables are total on identifiers. *)
Record Instance : Type := mkInstance {
  users : list string;
  VMs : list string;
  providers : list string;
  routers : list string;
  arcs : list (string * string);
  scenarios : list string;
  VM_rcost : string → Q;
  R_rcost : string → Q;
  prob : string → Q;
  VM_ucost : string → string → Q;
  R_ucost : string → string → Q;
  VM_ocost : string → string → Q;
  R_ocost : string → string → Q;
  VM_demands : string → string → string → Q;
  VM_CDemand : string → Q;
  VM_SDemand : string → Q;
  VM_MDemand : string → Q;
  VM_BDemand : string → Q;
  P_CCapacity : string → float;
  P_SCapacity : string → float;
  P_MCapacity : string → float;
  R_BCapacity : string → float
}.

(** The tupledicts of variables. *)
Definition xr (u v p : string) : Var := mkVar "xr" [u; v; p].
Definition yr (u r : string) : Var := mkVar "yr" [u; r].
Definition n (s : string) : Var := mkVar "eta" [s].
Definition xu (u v p : string) : Var := mkVar "xu" [u; v; p].
Definition yu (u r : string) : Var := mkVar "yu" [u; r].
Definition xo (u v p : string) : Var := mkVar "xo" [u; v; p].
Definition yo (u r : string) : Var := mkVar "yo" [u; r].
Definition f (u e_out e_in : string) : Var := mkVar "f" [u; e_out; e_in].

(** Index tuples in the order [addVars] enumerates them. *)
Definition product3 (a b c : list string) : list (list string) :=
  flat_map (fun x => flat_map (fun y => map (fun z => [x; y; z]) c) b) a.
Definition product2 (a b : list string) : list (list string) :=
  flat_map (fun x => map (fun y => [x; y]) b) a.
Definition product_arcs (a : list string) (e : list (string * string))
    : list (list string) :=
  flat_map (fun x => map (fun '(e_out, e_in) => [x; e_out; e_in]) e) a.

(** ** buildMP *)

Section Builders.

Variable d : Instance.

(** [... for p in d.providers for v in d.VMs for u in d.users] *)
Definition for_pvu {A} (g : string → string → string → A) : list A :=
  flat_map (fun p => flat_map (fun v => map (fun u => g u v p) (users d))
                              (VMs d)) (providers d).

(** [... for r in d.routers for u in d.users] *)
Definition for_ru {A} (g : string → string → A) : list A :=
  flat_map (fun r => map (fun u => g u r) (users d)) (routers d).

(** [... for v in d.VMs for u in d.users] *)
Definition for_vu {A} (g : string → string → A) : list A :=
  flat_map (fun v => map (fun u => g u v) (users d)) (VMs d).

Definition MP_objective : LinExpr :=
  mkLinExpr
    (for_pvu (fun u v p => (VM_rcost d v, xr u v p))
     ++ for_ru (fun u r => (R_rcost d r, yr u r))
     ++ map (fun s => (prob d s, n s)) (scenarios d))
    (Fin 0).

Definition buildMP : Model :=
  mkModel "MP"
    (addVars (product3 (users d) (VMs d) (providers d)) INTEGER "xr"
     ++ addVars (product2 (users d) (routers d)) CONTINUOUS "yr"
     ++ addVars (map (fun s => [s]) (scenarios d)) CONTINUOUS "eta")
    []
    MP_objective
    MINIMIZE.

End Builders.

(** ** buildSP *)

Section SubproblemBuilder.

Variable d : Instance.

(** [quicksum(f[u,e_out,e_in] for e_out, e_in in d.arcs if test)] *)
Definition flow_sum (u : string) (test : string → string → bool)
    : list (Q * Var) :=
  map (fun '(e_out, e_in) => (1, f u e_out e_in))
      (List.filter (fun '(e_out, e_in) => test e_out e_in) (arcs d)).

(** The same sum under the test [e_out[0] == 'P'], which raises on an
    empty tail. *)
Fixpoint flow_sum_from_P (u : string) (l : list (string * string))
    : Res (list (Q * Var)) :=
  match l with
  | [] => Ok []
  | (e_out, e_in) :: l' =>
      match PyStr.head_is "P" e_out with
      | None => Err IndexError
      | Some b =>
          rest ← flow_sum_from_P u l';
          Ok (if b then (1, f u e_out e_in) :: rest else rest)
      end
  end.

(** [quicksum(c[v] * (xu[u,v,p] + xo[u,v,p]) for u in d.users for v in d.VMs)] *)
Definition load_sum (c : string → Q) (p : string) : list (Q * Var) :=
  flat_map (fun u => flat_map (fun v => [(c v, xu u v p); (c v, xo u v p)])
                              (VMs d)) (users d).

Definition VM_utilization_bound : list Constr :=
  for_pvu d (fun u v p =>
    mkConstr (indexed_name "VM utilization bound" [p; v; u])
             [(1, xu u v p)] LESS_EQUAL [] (Fin 0)).

Definition R_utilization_bound : list Constr :=
  for_ru d (fun u r =>
    mkConstr (indexed_name "R utilization bound" [r; u])
             [(1, yu u r)] LESS_EQUAL [] (Fin 0)).

Definition capacity (name : string) (c : string → Q) (cap : string → float)
    : list Constr :=
  map (fun p => mkConstr (indexed_name name [p]) (load_sum c p)
                         LESS_EQUAL [] (cap p))
      (providers d).

Definition Bandwidth_capacity : list Constr :=
  map (fun r =>
         mkConstr (indexed_name "Bandwidth capacity" [r])
                  (flat_map (fun u => [(1, yu u r); (1, yo u r)]) (users d))
                  LESS_EQUAL [] (R_BCapacity d r))
      (routers d).

Definition VM_demand : list Constr :=
  for_vu d (fun u v =>
    mkConstr (indexed_name "VM demand" [v; u])
             (flat_map (fun p => [(1, xu u v p); (1, xo u v p)])
                       (providers d))
             GREATER_EQUAL [] (Fin 0)).

(** [... for u in d.users for r in d.routers] *)
Definition for_ur {A} (g : string → string → A) : list A :=
  flat_map (fun u => map (fun r => g u r) (routers d)) (users d).

Definition R_balance : list Constr :=
  for_ur (fun u r =>
    mkConstr (indexed_name "R balance" [u; r])
             (flow_sum u (fun e_out e_in => String.eqb e_in r))
             EQUAL
             (flow_sum u (fun e_out e_in => String.eqb e_out r))
             (Fin 0)).

Definition R_usage : list Constr :=
  for_ur (fun u r =>
    mkConstr (indexed_name "R usage" [u; r])
             (flow_sum u (fun e_out e_in => String.eqb e_out r))
             EQUAL
             [(1, yu u r); (1, yo u r)]
             (Fin 0)).

Definition R_demand : list Constr :=
  flat_map (fun p => map (fun u =>
    mkConstr (indexed_name "R demand" [p; u])
             (flow_sum u (fun e_out e_in => String.eqb e_out p))
             GREATER_EQUAL
             (flat_map (fun v => [(VM_BDemand d v, xu u v p);
                                  (VM_BDemand d v, xo u v p)]) (VMs d))
             (Fin 0)) (users d)) (providers d).

Definition U_balance_of (u : string) : Res Constr :=
  from_P ← flow_sum_from_P u (arcs d);
  Ok (mkConstr (indexed_name "U balance" [u])
               (flow_sum u (fun e_out e_in => String.eqb e_in u))
               EQUAL from_P (Fin 0)).

Definition U_balance : Res (list Constr) := mapM U_balance_of (users d).

Definition SP_vars : list VarDecl :=
  addVars (product3 (users d) (VMs d) (providers d)) CONTINUOUS "xu"
  ++ addVars (product2 (users d) (routers d)) CONTINUOUS "yu"
  ++ addVars (product3 (users d) (VMs d) (providers d)) CONTINUOUS "xo"
  ++ addVars (product2 (users d) (routers d)) CONTINUOUS "yo"
  ++ addVars (product_arcs (users d) (arcs d)) CONTINUOUS "f".

Definition buildSP : Res Model :=
  ub ← U_balance;
  Ok (mkModel "SP" SP_vars
        (VM_utilization_bound
         ++ R_utilization_bound
         ++ capacity "CPU capacity" (VM_CDemand d) (P_CCapacity d)
         ++ capacity "Storage capacity" (VM_SDemand d) (P_SCapacity d)
         ++ capacity "Memory capacity" (VM_MDemand d) (P_MCapacity d)
         ++ Bandwidth_capacity
         ++ VM_demand
         ++ R_balance
         ++ R_usage
         ++ R_demand
         ++ ub)
        (mkLinExpr [] (Fin 0))
        MINIMIZE).

End SubproblemBuilder.

(** ** modifyAndSolveSP *)

(** The dual prices by constraint family, as the evaluator returns them. *)
Record Duals : Type := mkDuals {
  vu_pisol : gmap (string * string * string) Q;
  ru_pisol : gmap (string * string) Q;
  c_pisol : gmap string Q;
  s_pisol : gmap string Q;
  m_pisol : gmap string Q;
  b_pisol : gmap string Q;
  d_pisol : gmap (string * string) Q
}.

Definition no_duals : Duals := mkDuals ∅ ∅ ∅ ∅ ∅ ∅ ∅.

(** [name, index = constr.constrName[:-1].split('[')] *)
Definition split_name (cn : string) : Res (string * string) :=
  match PyStr.split "[" (PyStr.drop_last cn) with
  | [name; index] => Ok (name, index)
  | _ => Err ValueError
  end.

Section Evaluator.

Variable optimize : Model → Solution.
Variable d : Instance.

(** The body of the first loop over [SP.getConstrs()]. *)
Definition modify_rhs (s : string)
    (xrsol : gmap (string * string * string) Q)
    (yrsol : gmap (string * string) Q) (constr : Constr) : Res Constr :=
  '(name, index) ← split_name (constrName constr);
  let index := PyStr.split "," index in
  if String.eqb name "VM utilization bound" then
    match index with
    | [p; v; u] => q ← getitem xrsol (u, v, p); Ok (set_rhs constr (Fin q))
    | _ => Err ValueError
    end
  else if String.eqb name "R utilization bound" then
    match index with
    | [r; u] => q ← getitem yrsol (u, r); Ok (set_rhs constr (Fin q))
    | _ => Err ValueError
    end
  else if String.eqb name "VM demand" then
    match index with
    | [v; u] => Ok (set_rhs constr (Fin (VM_demands d s u v)))
    | _ => Err ValueError
    end
  else Ok constr.

Definition SP_objective (s : string) : LinExpr :=
  mkLinExpr
    (for_pvu d (fun u v p => (VM_ucost d s v, xu u v p))
     ++ for_ru d (fun u r => (R_ucost d s r, yu u r))
     ++ for_pvu d (fun u v p => (VM_ocost d s v, xo u v p))
     ++ for_ru d (fun u r => (R_ocost d s r, yo u r)))
    (Fin 0).

(** The body of the second loop over [SP.getConstrs()]; [pi] is the
    dual price of the constraint at hand. *)
Definition record_dual (acc : Duals) (cp : Constr * Q) : Res Duals :=
  let '(constr, pi) := cp in
  '(name, index) ← split_name (constrName constr);
  if String.eqb name "VM utilization bound" then
    match PyStr.split "," index with
    | [p; v; u] =>
        Ok (mkDuals (<[(u, v, p) := pi]> (vu_pisol acc)) (ru_pisol acc)
              (c_pisol acc) (s_pisol acc) (m_pisol acc) (b_pisol acc)
              (d_pisol acc))
    | _ => Err ValueError
    end
  else if String.eqb name "R utilization bound" then
    match PyStr.split "," index with
    | [r; u] =>
        Ok (mkDuals (vu_pisol acc) (<[(u, r) := pi]> (ru_pisol acc))
              (c_pisol acc) (s_pisol acc) (m_pisol acc) (b_pisol acc)
              (d_pisol acc))
    | _ => Err ValueError
    end
  else if String.eqb name "CPU capacity" then
    Ok (mkDuals (vu_pisol acc) (ru_pisol acc) (<[index := pi]> (c_pisol acc))
          (s_pisol acc) (m_pisol acc) (b_pisol acc) (d_pisol acc))
  else if String.eqb name "Storage capacity" then
    Ok (mkDuals (vu_pisol acc) (ru_pisol acc) (c_pisol acc)
          (<[index := pi]> (s_pisol acc)) (m_pisol acc) (b_pisol acc)
          (d_pisol acc))
  else if String.eqb name "Memory capacity" then
    Ok (mkDuals (vu_pisol acc) (ru_pisol acc) (c_pisol acc) (s_pisol acc)
          (<[index := pi]> (m_pisol acc)) (b_pisol acc) (d_pisol acc))
  else if String.eqb name "Bandwidth capacity" then
    Ok (mkDuals (vu_pisol acc) (ru_pisol acc) (c_pisol acc) (s_pisol acc)
          (m_pisol acc) (<[index := pi]> (b_pisol acc)) (d_pisol acc))
  else if String.eqb name "VM demand" then
    match PyStr.split "," index with
    | [v; u] =>
        Ok (mkDuals (vu_pisol acc) (ru_pisol acc) (c_pisol acc)
              (s_pisol acc) (m_pisol acc) (b_pisol acc)
              (<[(u, v) := pi]> (d_pisol acc)))
    | _ => Err ValueError
    end
  else Ok acc.

(** Each constraint with the dual price of its row. *)
Definition with_pi (sol : Solution) (cs : list Constr) : list (Constr * Q) :=
  imap (fun i c => (c, Pi sol i)) cs.

(** Returns the mutated model next to the values the source returns. *)
Definition modifyAndSolveSP (s : string)
    (xrsol : gmap (string * string * string) Q)
    (yrsol : gmap (string * string) Q) (SP : Model)
    : Res (Model * (Q * Duals)) :=
  cs ← mapM (modify_rhs s xrsol yrsol) (constrs SP);
  let SP1 := mkModel (modelName SP) (vars SP) cs (objective SP)
                     (modelSense SP) in
  let SP2 := setObjective SP1 (SP_objective s) in
  let sol := optimize SP2 in
  let SPobj := objVal sol in
  duals ← foldM record_dual (with_pi sol (constrs SP2)) no_duals;
  Ok (SP2, (SPobj, duals)).

End Evaluator.

(** ** multiBenders *)

(** What the [for s in d.scenarios] loop updates. *)
Record Iter : Type := mkIter {
  it_MP : Model;
  it_SP : Model;
  it_UB : Q;
  it_cutFound : bool;
  it_noCuts : nat
}.

(** The driver's variables that live across iterations; [MPobj] and [UB]
    are unbound before the first iteration. *)
Record State : Type := mkState {
  MP : Model;
  SP : Model;
  bestUB : Q;
  cutFound : bool;
  noIters : nat;
  noCuts : nat;
  MPobj : option Q;
  UB : option Q
}.

Inductive Outcome (A : Type) : Type :=
| Returned (a : A)
| Raised (e : exn)
| OutOfFuel.
Arguments Returned {A} a.
Arguments Raised {A} e.
Arguments OutOfFuel {A}.

(** [sum(g for ...)] where evaluating an item may raise. *)
Definition Qsum_of (l : list (Res Q)) : Res Q :=
  qs ← mapM id l; Ok (Qsum qs).
Definition fsum_of (l : list (Res float)) : Res float :=
  xs ← mapM id l; Ok (PyFloat.sum xs).

Definition keys_uvp (d : Instance) : list (string * string * string) :=
  flat_map (fun u => flat_map (fun v => map (fun p => (u, v, p)) (providers d))
                              (VMs d)) (users d).
Definition keys_ur (d : Instance) : list (string * string) :=
  flat_map (fun u => map (fun r => (u, r)) (routers d)) (users d).

Section Driver.

Variable optimize : Model → Solution.
Variable d : Instance.
Variable cutViolationTolerance : Q.
Variable epsilon : Q.

Definition get_xrsol (sol : Solution) : gmap (string * string * string) Q :=
  fold_left (fun m '(u, v, p) => <[(u, v, p) := X sol (xr u v p)]> m)
            (keys_uvp d) ∅.
Definition get_yrsol (sol : Solution) : gmap (string * string) Q :=
  fold_left (fun m '(u, r) => <[(u, r) := X sol (yr u r)]> m) (keys_ur d) ∅.
Definition get_nsol (sol : Solution) : gmap string Q :=
  fold_left (fun m s => <[s := X sol (n s)]> m) (scenarios d) ∅.

Section Iteration.

Variable xrsol : gmap (string * string * string) Q.
Variable yrsol : gmap (string * string) Q.
Variable nsol : gmap string Q.

(** current upper bound (first part) *)
Definition first_stage_cost : Res Q :=
  a ← Qsum_of (for_pvu d (fun u v p =>
         q ← getitem xrsol (u, v, p); Ok (VM_rcost d v * q)));
  b ← Qsum_of (for_ru d (fun u r =>
         q ← getitem yrsol (u, r); Ok (R_rcost d r * q)));
  Ok (a + b).

(** [pisol[p] * cap[p] if cap[p] != float('inf') else 0] *)
Definition guarded_capacity_term (pisol : gmap string Q)
    (cap : string → float) (p : string) : Res float :=
  if PyFloat.neq_inf (cap p)
  then pi ← getitem pisol p; Ok (PyFloat.mul (Fin pi) (cap p))
  else Ok (Fin 0).

(** [b_pisol[r] * d.R_BCapacity[r]] *)
Definition bandwidth_term (pisol : gmap string Q) (r : string)
    : Res float :=
  pi ← getitem pisol r; Ok (PyFloat.mul (Fin pi) (R_BCapacity d r)).

Definition CPU_constant (du : Duals) : Res float :=
  fsum_of (map (guarded_capacity_term (c_pisol du) (P_CCapacity d))
               (providers d)).
Definition Storage_constant (du : Duals) : Res float :=
  fsum_of (map (guarded_capacity_term (s_pisol du) (P_SCapacity d))
               (providers d)).
Definition Memory_constant (du : Duals) : Res float :=
  fsum_of (map (guarded_capacity_term (m_pisol du) (P_MCapacity d))
               (providers d)).
Definition Bandwidth_constant (du : Duals) : Res float :=
  fsum_of (map (bandwidth_term (b_pisol du)) (routers d)).
Definition demand_constant (s : string) (du : Duals) : Res float :=
  fsum_of (for_vu d (fun u v =>
    pi ← getitem (d_pisol du) (u, v); Ok (Fin (pi * VM_demands d s u v)))).

Definition dualSPobj (s : string) (du : Duals) : Res float :=
  t1 ← fsum_of (for_pvu d (fun u v p =>
          q ← getitem xrsol (u, v, p);
          pi ← getitem (vu_pisol du) (u, v, p); Ok (Fin (q * pi))));
  t2 ← fsum_of (for_ru d (fun u r =>
          q ← getitem yrsol (u, r);
          pi ← getitem (ru_pisol du) (u, r); Ok (Fin (q * pi))));
  t3 ← CPU_constant du;
  t4 ← Storage_constant du;
  t5 ← Memory_constant du;
  t6 ← Bandwidth_constant du;
  t7 ← demand_constant s du;
  Ok (PyFloat.add (PyFloat.add (PyFloat.add (PyFloat.add (PyFloat.add
        (PyFloat.add t1 t2) t3) t4) t5) t6) t7).

(** The right-hand side of the cut, a linear expression over the
    master's variables. *)
Definition expr (s : string) (du : Duals) : Res LinExpr :=
  l1 ← mapM id (for_pvu d (fun u v p =>
          pi ← getitem (vu_pisol du) (u, v, p); Ok (pi, xr u v p)));
  l2 ← mapM id (for_ru d (fun u r =>
          pi ← getitem (ru_pisol du) (u, r); Ok (pi, yr u r)));
  t3 ← CPU_constant du;
  t4 ← Storage_constant du;
  t5 ← Memory_constant du;
  t6 ← Bandwidth_constant du;
  t7 ← demand_constant s du;
  Ok (mkLinExpr (l1 ++ l2)
        (PyFloat.add (PyFloat.add (PyFloat.add (PyFloat.add (PyFloat.add
           (Fin 0) t3) t4) t5) t6) t7)).

(** [n[s] >= expr]; the program gives the cut no name. *)
Definition cut (s : string) (e : LinExpr) : Constr :=
  mkConstr "" [(1, n s)] GREATER_EQUAL (terms e) (const e).

(** [abs(dualSPobj - qvalue) < 1e-4] *)
Definition strong_duality (dual : float) (qvalue : Q) : bool :=
  PyFloat.ltb (PyFloat.abs (PyFloat.sub dual (Fin qvalue)))
              (Fin (1 # 10000)).

(** The loop body after the assertion. *)
Definition after_check (s : string) (it : Iter) (SP' : Model)
    (qvalue : Q) (du : Duals) : Res Iter :=
  let UB := it_UB it + prob d s * qvalue in
  eta ← getitem nsol s;
  let cutFound_s := PyFloat.Qltb eta (qvalue - cutViolationTolerance) in
  e ← expr s du;
  if cutFound_s
  then Ok (mkIter (addConstr (it_MP it) (cut s e)) SP' UB true
                  (S (it_noCuts it)))
  else Ok (mkIter (it_MP it) SP' UB (it_cutFound it) (it_noCuts it)).

(** The body of [for s in d.scenarios]. *)
Definition scenario_step (it : Iter) (s : string) : Res Iter :=
  '(SP', (qvalue, du)) ←
      modifyAndSolveSP optimize d s xrsol yrsol (it_SP it);
  dual ← dualSPobj s du;
  _ ← assert_ (strong_duality dual qvalue) "Strong duality";
  after_check s it SP' qvalue du.

End Iteration.

(** [(bestUB - MPobj) / (1 + abs(bestUB))] *)
Definition gap (bestUB MPobj : Q) : Q :=
  (bestUB - MPobj) / (1 + Qabs bestUB).

(** One pass through the body of [while cutFound]; the boolean tells
    whether it left through [break]. *)
Definition body (st : State) : Res (State * bool) :=
  let sol := optimize (MP st) in
  let xrsol := get_xrsol sol in
  let yrsol := get_yrsol sol in
  let nsol := get_nsol sol in
  UB0 ← first_stage_cost xrsol yrsol;
  it ← foldM (scenario_step xrsol yrsol nsol) (scenarios d)
             (mkIter (MP st) (SP st) UB0 false (noCuts st));
  let bestUB' := py_min (it_UB it) (bestUB st) in
  Ok (mkState (it_MP it) (it_SP it) bestUB' (it_cutFound it)
              (S (noIters st)) (it_noCuts it) (Some (objVal sol))
              (Some (it_UB it)),
      Qle_bool (gap bestUB' (objVal sol)) epsilon).

Fixpoint while_cutFound (fuel : nat) (st : State) : Outcome State :=
  if cutFound st then
    match fuel with
    | O => OutOfFuel
    | S fuel' =>
        match body st with
        | Err e => Raised e
        | Ok (st', true) => Returned st'
        | Ok (st', false) => while_cutFound fuel' st'
        end
    end
  else Returned st.

Definition init : Res State :=
  SP0 ← buildSP d;
  Ok (mkState (buildMP d) SP0 GRB_INFINITY true 0 0 None None).

(** The driver up to the end of the loop. *)
Definition run (fuel : nat) : Outcome State :=
  match init with
  | Err e => Raised e
  | Ok st0 => while_cutFound fuel st0
  end.

(** Returns [(MPobj, noIters, noCuts)]; the elapsed time is left out. *)
Definition multiBenders (fuel : nat) : Outcome (Q * nat * nat) :=
  match run fuel with
  | Returned st =>
      match MPobj st with
      | Some o => Returned (o, noIters st, noCuts st)
      | None => Raised UnboundLocalError
      end
  | Raised e => Raised e
  | OutOfFuel => OutOfFuel
  end.

End Driver.

(** ** A small instance and an engine for it

    One user, one VM type, one provider, one router and one scenario.
    Reserving a VM or a unit of bandwidth costs 1; on demand they cost 3
    and 2; the demand is one VM, which needs one unit of bandwidth. *)

Module Small.

Definition inst (provs : list string) (cpu bandwidth : float) (ocost : Q)
    (demand : Q) : Instance :=
  mkInstance ["U1"%string] ["V1"%string] provs ["R1"%string]
    [("P1"%string, "R1"%string); ("R1"%string, "U1"%string)]
    ["S1"%string]
    (fun _ => 1) (fun _ => 1) (fun _ => 1)
    (fun _ _ => 0) (fun _ _ => 0) (fun _ _ => ocost) (fun _ _ => 2)
    (fun _ _ _ => demand)
    (fun _ => 1) (fun _ => 1) (fun _ => 1) (fun _ => 1)
    (fun _ => cpu) (fun _ => PInf) (fun _ => PInf)
    (fun _ => bandwidth).

Definition d : Instance := inst ["P1"%string] PInf (Fin 10) 3 1.

(** The same network with a router of unlimited bandwidth. *)
Definition d_unlimited : Instance := inst ["P1"%string] PInf PInf 3 1.

(** On-demand VMs that pay the user, up to five of them: the recourse
    cost is negative. *)
Definition d_negative : Instance :=
  inst ["P1"%string] (Fin 5) (Fin 10) (- (3)) 1.

(** A second provider, not yet linked to the network. *)
Definition d_unlinked : Instance :=
  inst ["P1"%string; "Q2"%string] PInf (Fin 10) 3 1.

(** No demand at all: nothing to buy in the second stage. *)
Definition d_idle : Instance := inst ["P1"%string] PInf (Fin 10) 3 0.

(** The point the engine reports for the master of [d] with 0, 1 and 2
    cuts. *)
Definition master_point (k : nat) : Q * Q * Q :=
  match k with
  | O => (0, 0, 0)
  | S O => (2, 0, 0)
  | _ => (1, 1, 0)
  end.

Definition rhs_value (c : option Constr) : Q :=
  match c with
  | Some (mkConstr _ _ _ _ (Fin q)) => q
  | _ => 0
  end.

(** The subproblem has a closed-form optimum: use what is reserved, buy
    the rest of the demand on demand.  The model's rows 0, 1 and 6 are
    the VM bound, the router bound and the demand. *)
Definition optimize (M : Model) : Solution :=
  if String.eqb (modelName M) "MP" then
    let '(a, b, e) := master_point (length (constrs M)) in
    mkSolution (a + b + e)
      (fun v => if decide (v = xr "U1" "V1" "P1") then a
                else if decide (v = yr "U1" "R1") then b
                else if decide (v = n "S1") then e else 0)
      (fun _ => 0)
  else
    let x := rhs_value (constrs M !! 0%nat) in
    let y := rhs_value (constrs M !! 1%nat) in
    let dem := rhs_value (constrs M !! 6%nat) in
    let pv := if PyFloat.Qltb x dem then - (3) else 0 in
    let pr := if PyFloat.Qltb y dem then - (2) else 0 in
    mkSolution
      ((if PyFloat.Qltb x dem then 3 * (dem - x) else 0)
       + (if PyFloat.Qltb y dem then 2 * (dem - y) else 0))
      (fun _ => 0)
      (fun i => match i with
                | 0%nat => pv
                | 1%nat => pr
                | 6%nat => - pv - pr
                | _ => 0
                end).

End Small.

(** ** Reading a model: points, feasibility, optimality *)

Definition eval_terms (x : Var → Q) (l : list (Q * Var)) : Q :=
  Qsum (map (fun '(c, v) => c * x v) l).

(** The order of the extended reals; a NaN is related to nothing. *)
Definition fle (a b : float) : Prop :=
  match a, b with
  | Fin x, Fin y => x <= y
  | NInf, (Fin _ | PInf | NInf) => True
  | (Fin _ | PInf), PInf => True
  | _, _ => False
  end.

Definition sat_constr (x : Var → Q) (c : Constr) : Prop :=
  let l := Fin (eval_terms x (lhs c)) in
  let r := PyFloat.add (Fin (eval_terms x (rhs_terms c))) (rhs c) in
  match sense c with
  | LESS_EQUAL => fle l r
  | GREATER_EQUAL => fle r l
  | EQUAL => fle l r ∧ fle r l
  end.

Definition in_domain (x : Var → Q) (vd : VarDecl) : Prop :=
  fle (vd_lb vd) (Fin (x (vd_var vd)))
  ∧ fle (Fin (x (vd_var vd))) (vd_ub vd)
  ∧ (vd_vtype vd = INTEGER → ∃ z : Z, x (vd_var vd) == inject_Z z).

Definition feasible (M : Model) (x : Var → Q) : Prop :=
  Forall (in_domain x) (vars M) ∧ Forall (sat_constr x) (constrs M).

Definition objective_at (M : Model) (x : Var → Q) : float :=
  PyFloat.add (Fin (eval_terms x (terms (objective M)))) (const (objective M)).

(** The reported objective is the objective at the reported point. *)
Definition consistent (M : Model) (sol : Solution) : Prop :=
  fle (Fin (objVal sol)) (objective_at M (X sol))
  ∧ fle (objective_at M (X sol)) (Fin (objVal sol)).

(** The engine's answer solves a minimisation model to optimality. *)
Definition reports_optimum (M : Model) (sol : Solution) : Prop :=
  feasible M (X sol)
  ∧ consistent M sol
  ∧ ∀ y, feasible M y → fle (Fin (objVal sol)) (objective_at M y).

(** A variable has no lower bound: minus infinity, or at most
    [-GRB.INFINITY], which the engine reads as such. *)
Definition unrestricted_below (vd : VarDecl) : Prop :=
  match vd_lb vd with
  | NInf => True
  | Fin q => q <= - GRB_INFINITY
  | _ => False
  end.

(** Every unit cost of the second stage is non-negative, so that no
    recourse cost can be negative. *)
Definition recourse_costs_nonneg (d : Instance) : Prop :=
  ∀ s x, 0 <= VM_ucost d s x ∧ 0 <= VM_ocost d s x
         ∧ 0 <= R_ucost d s x ∧ 0 <= R_ocost d s x.

(** What [modifyAndSolveSP] may do to one constraint: the right-hand side
    of a placeholder family is set, nothing else moves. *)
Definition mutated_row (d : Instance) (s : string)
    (xrsol : gmap (string * string * string) Q)
    (yrsol : gmap (string * string) Q) (c c' : Constr) : Prop :=
  constrName c' = constrName c ∧ lhs c' = lhs c ∧ sense c' = sense c
  ∧ rhs_terms c' = rhs_terms c
  ∧ ∃ name index, split_name (constrName c) = Ok (name, index)
    ∧ (name = "VM utilization bound"%string →
       ∃ p v u q, PyStr.split "," index = [p; v; u]
                  ∧ xrsol !! (u, v, p) = Some q ∧ rhs c' = Fin q)
    ∧ (name = "R utilization bound"%string →
       ∃ r u q, PyStr.split "," index = [r; u]
                ∧ yrsol !! (u, r) = Some q ∧ rhs c' = Fin q)
    ∧ (name = "VM demand"%string →
       ∃ v u, PyStr.split "," index = [v; u]
              ∧ rhs c' = Fin (VM_demands d s u v))
    ∧ (name ≠ "VM utilization bound"%string →
       name ≠ "R utilization bound"%string →
       name ≠ "VM demand"%string → rhs c' = rhs c).

(** The user balance as the specification words it: the flow into the
    user equals the flow on the arcs that leave a provider. *)
Definition U_balance_intended (d : Instance) (u : string) : Constr :=
  mkConstr (indexed_name "U balance" [u])
           (flow_sum d u (fun e_out e_in => String.eqb e_in u))
           EQUAL
           (flow_sum d u (fun e_out e_in =>
              bool_decide (e_out ∈ providers d)))
           (Fin 0).

Section DriverSpec.

Variable optimize : Model → Solution.
Variable d : Instance.
Variable cutViolationTolerance : Q.
Variable epsilon : Q.

(** What one scenario yields in an iteration that starts with the
    subproblem model [SP0]: recourse cost, dual prices, the cut's
    right-hand side and whether the cut is violated. *)
Definition scenario_outcome (SP0 : Model)
    (xrsol : gmap (string * string * string) Q)
    (yrsol : gmap (string * string) Q) (nsol : gmap string Q)
    (s : string) : Res (Q * Duals * LinExpr * bool) :=
  '(_, (qvalue, du)) ← modifyAndSolveSP optimize d s xrsol yrsol SP0;
  dual ← dualSPobj d xrsol yrsol s du;
  _ ← assert_ (strong_duality dual qvalue) "Strong duality";
  eta ← getitem nsol s;
  e ← expr d s du;
  Ok (qvalue, du, e, PyFloat.Qltb eta (qvalue - cutViolationTolerance)).

(** The subproblem model [M] answers every evaluation as [SP0] does. *)
Definition answers_as (SP0 : Model)
    (xrsol : gmap (string * string * string) Q)
    (yrsol : gmap (string * string) Q) (M : Model) : Prop :=
  ∀ s, modifyAndSolveSP optimize d s xrsol yrsol M
       = modifyAndSolveSP optimize d s xrsol yrsol SP0.

(** The cuts of the violated scenarios, in scenario order. *)
Definition violated_cuts (l : list (string * (Q * Duals * LinExpr * bool)))
    : list Constr :=
  flat_map (fun '(s, (_, _, e, viol)) => if viol : bool then [cut s e] else [])
           l.

(** [UB += d.prob[s] * qvalue] over the scenarios. *)
Definition plus_recourse (UB0 : Q)
    (l : list (string * (Q * Duals * LinExpr * bool))) : Q :=
  fold_left (fun acc '(s, (q, _, _, _)) => acc + prob d s * q) l UB0.

(** One iteration of the [while] loop; the flag of a configuration
    tells whether the loop has been left through [break]. *)
Inductive loop_step : State * bool → State * bool → Prop :=
| loop_iter st st' b :
    cutFound st = true →
    body optimize d cutViolationTolerance epsilon st = Ok (st', b) →
    loop_step (st, false) (st', b).

End DriverSpec.

(** The master model once the cuts [cuts] have been appended. *)
Definition master_with_cuts (d : Instance) (cuts : list Constr) : Model :=
  mkModel "MP" (vars (buildMP d)) cuts (MP_objective d) MINIMIZE.

(** The test [e_out[0] == 'P'] where it does not raise. *)
Definition tail_starts_P (e_out : string) : bool :=
  match PyStr.head_is "P" e_out with
  | Some b => b
  | None => false
  end.

(** ** Well-named instances *)

(** A string without the character [c]. *)
Fixpoint lacks (c : ascii) (s : string) : bool :=
  match s with
  | EmptyString => true
  | String c' s' => negb (Ascii.eqb c' c) && lacks c s'
  end.

(** An identifier that survives the round trip through a constraint
    name: it holds neither '[' nor ','. *)
Definition plain (s : string) : Prop :=
  lacks "[" s = true ∧ lacks "," s = true.

Definition well_named (d : Instance) : Prop :=
  Forall plain (users d) ∧ Forall plain (VMs d)
  ∧ Forall plain (providers d) ∧ Forall plain (routers d)
  ∧ Forall (fun '(e_out, e_in) => e_out ≠ EmptyString) (arcs d).

(** The rows of the subproblem with the placeholders filled in. *)
Definition SP_rows_at (d : Instance) (xv : string → string → string → Q)
    (yv : string → string → Q) (dem : string → string → Q)
    (ub : list Constr) : list Constr :=
  for_pvu d (fun u v p =>
    mkConstr (indexed_name "VM utilization bound" [p; v; u])
             [(1, xu u v p)] LESS_EQUAL [] (Fin (xv u v p)))
  ++ for_ru d (fun u r =>
       mkConstr (indexed_name "R utilization bound" [r; u])
                [(1, yu u r)] LESS_EQUAL [] (Fin (yv u r)))
  ++ capacity d "CPU capacity" (VM_CDemand d) (P_CCapacity d)
  ++ capacity d "Storage capacity" (VM_SDemand d) (P_SCapacity d)
  ++ capacity d "Memory capacity" (VM_MDemand d) (P_MCapacity d)
  ++ Bandwidth_capacity d
  ++ for_vu d (fun u v =>
       mkConstr (indexed_name "VM demand" [v; u])
                (flat_map (fun p => [(1, xu u v p); (1, xo u v p)])
                          (providers d))
                GREATER_EQUAL [] (Fin (dem u v)))
  ++ R_balance d
  ++ R_usage d
  ++ R_demand d
  ++ ub.

(** The dual price of the row [c] has been stored under the key that
    the driver will look up. *)
Definition dual_recorded (du : Duals) (c : Constr) : Prop :=
  match split_name (constrName c) with
  | Ok (name, index) =>
      if String.eqb name "VM utilization bound" then
        match PyStr.split "," index with
        | [p; v; u] => is_Some (vu_pisol du !! (u, v, p))
        | _ => False
        end
      else if String.eqb name "R utilization bound" then
        match PyStr.split "," index with
        | [r; u] => is_Some (ru_pisol du !! (u, r))
        | _ => False
        end
      else if String.eqb name "CPU capacity" then
        is_Some (c_pisol du !! index)
      else if String.eqb name "Storage capacity" then
        is_Some (s_pisol du !! index)
      else if String.eqb name "Memory capacity" then
        is_Some (m_pisol du !! index)
      else if String.eqb name "Bandwidth capacity" then
        is_Some (b_pisol du !! index)
      else if String.eqb name "VM demand" then
        match PyStr.split "," index with
        | [v; u] => is_Some (d_pisol du !! (u, v))
        | _ => False
        end
      else True
  | Err _ => False
  end.

(** The subproblem model with the placeholders filled in and the
    objective [obj]. *)
Definition SP_at (d : Instance) (xv : string → string → string → Q)
    (yv : string → string → Q) (dem : string → string → Q)
    (ub : list Constr) (obj : LinExpr) : Model :=
  mkModel "SP" (SP_vars d) (SP_rows_at d xv yv dem ub) obj MINIMIZE.

(** Every dual price the driver looks up is in the maps. *)
Definition duals_complete (d : Instance) (du : Duals) : Prop :=
  (∀ u v p, In u (users d) → In v (VMs d) → In p (providers d) →
            is_Some (vu_pisol du !! (u, v, p)))
  ∧ (∀ u r, In u (users d) → In r (routers d) →
            is_Some (ru_pisol du !! (u, r)))
  ∧ (∀ p, In p (providers d) →
          is_Some (c_pisol du !! p) ∧ is_Some (s_pisol du !! p)
          ∧ is_Some (m_pisol du !! p))
  ∧ (∀ r, In r (routers d) → is_Some (b_pisol du !! r))
  ∧ (∀ u v, In u (users d) → In v (VMs d) →
            is_Some (d_pisol du !! (u, v))).

(** The subproblem model as the loop keeps it: the built rows with some
    values in the placeholders. *)
Definition SP_kept (d : Instance) (ub : list Constr) (M : Model) : Prop :=
  ∃ xv yv dem obj, M = SP_at d xv yv dem ub obj.

(** ** Counting characters *)

(** How often the character [c] occurs in [s]. *)
Fixpoint occurrences (c : ascii) (s : string) : nat :=
  match s with
  | EmptyString => 0
  | String c' s' => (if Ascii.eqb c' c then 1 else 0) + occurrences c s'
  end.

(** ** Instances at the edges *)

Module Edge.

(** [d] over another network. *)
Definition with_arcs (d : Instance) (a : list (string * string)) : Instance :=
  mkInstance (users d) (VMs d) (providers d) (routers d) a (scenarios d)
    (VM_rcost d) (R_rcost d) (prob d) (VM_ucost d) (R_ucost d) (VM_ocost d)
    (R_ocost d) (VM_demands d) (VM_CDemand d) (VM_SDemand d) (VM_MDemand d)
    (VM_BDemand d) (P_CCapacity d) (P_SCapacity d) (P_MCapacity d)
    (R_BCapacity d).

(** [d] for other users. *)
Definition with_users (d : Instance) (us : list string) : Instance :=
  mkInstance us (VMs d) (providers d) (routers d) (arcs d) (scenarios d)
    (VM_rcost d) (R_rcost d) (prob d) (VM_ucost d) (R_ucost d) (VM_ocost d)
    (R_ocost d) (VM_demands d) (VM_CDemand d) (VM_SDemand d) (VM_MDemand d)
    (VM_BDemand d) (P_CCapacity d) (P_SCapacity d) (P_MCapacity d)
    (R_BCapacity d).

(** An arc whose tail is the empty string. *)
Definition d_no_tail : Instance :=
  with_arcs Small.d [(EmptyString, "R1"%string); ("R1"%string, "U1"%string)].

(** A user whose identifier holds a comma. *)
Definition d_comma : Instance := with_users Small.d ["U,1"%string].

End Edge.

(** ** Dual prices and the bound they give *)

(** A right-hand side as a number; an infinite one counts as 0, as in
    the guarded terms of the driver. *)
Definition finite_part (a : float) : Q :=
  match a with
  | PyFloat.Fin b => b
  | _ => 0
  end.

(** A row as a linear form: its left-hand side minus the variable terms
    of its right-hand side. *)
Definition row_form (y : Var → Q) (c : Constr) : Q :=
  eval_terms y (lhs c) - eval_terms y (rhs_terms c).

(** The sign of the price of a row of a minimisation, as the engine
    reports [constr.pi]; a row without a finite right-hand side has
    price 0. *)
Definition price_admissible (c : Constr) (pi : Q) : Prop :=
  match sense c with
  | LESS_EQUAL => pi <= 0
  | GREATER_EQUAL => 0 <= pi
  | EQUAL => True
  end
  ∧ (PyFloat.is_finite (rhs c) = false → pi == 0).

(** The prices of [sol] are feasible for the dual of the model [M]:
    they have the right signs and, weighted by them, the rows stay below
    the objective at every point of the variables' domain. *)
Definition dual_feasible (M : Model) (sol : Solution) : Prop :=
  Forall (fun cp : Constr * Q => price_admissible cp.1 cp.2)
         (with_pi sol (constrs M))
  ∧ ∀ y, Forall (in_domain y) (vars M) →
         Qsum (map (fun cp : Constr * Q => cp.2 * row_form y cp.1)
                   (with_pi sol (constrs M)))
         <= eval_terms y (terms (objective M)).

(** Two rows that differ at most in a finite right-hand side. *)
Definition same_form (c c' : Constr) : Prop :=
  constrName c' = constrName c ∧ lhs c' = lhs c ∧ sense c' = sense c
  ∧ rhs_terms c' = rhs_terms c
  ∧ PyFloat.is_finite (rhs c') = PyFloat.is_finite (rhs c).

(** ** The price recorded for a row *)

(** The families whose prices [modifyAndSolveSP] returns. *)
Definition priced_family (name : string) : bool :=
  String.eqb name "VM utilization bound"
  || String.eqb name "R utilization bound"
  || String.eqb name "CPU capacity"
  || String.eqb name "Storage capacity"
  || String.eqb name "Memory capacity"
  || String.eqb name "Bandwidth capacity"
  || String.eqb name "VM demand".

(** The price that the driver finds for the row named [cn], under the
    key that the row's name parses to. *)
Definition recorded_price (du : Duals) (cn : string) : option Q :=
  match split_name cn with
  | Ok (name, index) =>
      if String.eqb name "VM utilization bound" then
        match PyStr.split "," index with
        | [p; v; u] => vu_pisol du !! (u, v, p)
        | _ => None
        end
      else if String.eqb name "R utilization bound" then
        match PyStr.split "," index with
        | [r; u] => ru_pisol du !! (u, r)
        | _ => None
        end
      else if String.eqb name "CPU capacity" then c_pisol du !! index
      else if String.eqb name "Storage capacity" then s_pisol du !! index
      else if String.eqb name "Memory capacity" then m_pisol du !! index
      else if String.eqb name "Bandwidth capacity" then b_pisol du !! index
      else if String.eqb name "VM demand" then
        match PyStr.split "," index with
        | [v; u] => d_pisol du !! (u, v)
        | _ => None
        end
      else None
  | Err _ => None
  end.

(** No identifier occurs twice in its index set. *)
Definition distinct_ids (d : Instance) : Prop :=
  NoDup (users d) ∧ NoDup (VMs d) ∧ NoDup (providers d) ∧ NoDup (routers d).

(** The family name a parsed constraint name carries. *)
Definition family_of (k : Res (string * string)) : string :=
  match k with
  | Ok (name, _) => name
  | Err _ => EmptyString
  end.

(** The contribution of a row to the dual bound, at the price found
    under its name. *)
Definition priced_rhs (du : Duals) (c : Constr) : Q :=
  default 0 (recorded_price du (constrName c)) * finite_part (rhs c).

(** The dual bound of the subproblem with the reservations [xv], [yv]
    and the demand [dem] in the placeholders: each recorded price times
    the right-hand side of its row. *)
Definition dual_bound (d : Instance) (du : Duals)
    (xv : string → string → string → Q) (yv dem : string → string → Q) : Q :=
  Qsum (for_pvu d (fun u v p =>
          default 0 (vu_pisol du !! (u, v, p)) * xv u v p))
  + Qsum (for_ru d (fun u r => default 0 (ru_pisol du !! (u, r)) * yv u r))
  + Qsum (map (fun p => default 0 (c_pisol du !! p)
                        * finite_part (P_CCapacity d p)) (providers d))
  + Qsum (map (fun p => default 0 (s_pisol du !! p)
                        * finite_part (P_SCapacity d p)) (providers d))
  + Qsum (map (fun p => default 0 (m_pisol du !! p)
                        * finite_part (P_MCapacity d p)) (providers d))
  + Qsum (map (fun r => default 0 (b_pisol du !! r)
                        * finite_part (R_BCapacity d r)) (routers d))
  + Qsum (for_vu d (fun u v => default 0 (d_pisol du !! (u, v)) * dem u v)).

(** The engine answers every subproblem of the instance with prices
    that are feasible for its dual. *)
Definition prices_dual_feasible (optimize : Model → Solution) (d : Instance)
    (ub : list Constr) : Prop :=
  ∀ xv yv s, s ∈ scenarios d →
    dual_feasible
      (SP_at d xv yv (VM_demands d s) ub (SP_objective d s))
      (optimize (SP_at d xv yv (VM_demands d s) ub (SP_objective d s))).

(** A first-stage point [x] with, for every scenario, a feasible
    recourse whose cost the point's [eta] covers. *)
Definition covered_plan (d : Instance) (ub : list Constr) (x : Var → Q)
    (ys : string → Var → Q) : Prop :=
  ∀ s, s ∈ scenarios d →
    feasible (SP_at d (fun u v p => x (xr u v p)) (fun u r => x (yr u r))
                    (VM_demands d s) ub (SP_objective d s)) (ys s)
    ∧ eval_terms (ys s) (terms (SP_objective d s)) <= x (n s).

(** ** Plans of the two-stage problem *)

(** The subproblem of scenario [s] at the first-stage point [x]. *)
Definition SP_of (d : Instance) (ub : list Constr) (x : Var → Q)
    (s : string) : Model :=
  SP_at d (fun u v p => x (xr u v p)) (fun u r => x (yr u r))
        (VM_demands d s) ub (SP_objective d s).

(** The reservation variables as [buildMP] declares them. *)
Definition first_stage_vars (d : Instance) : list VarDecl :=
  addVars (product3 (users d) (VMs d) (providers d)) INTEGER "xr"
  ++ addVars (product2 (users d) (routers d)) CONTINUOUS "yr".

(** The cost of the recourse [y] in scenario [s]. *)
Definition recourse_cost (d : Instance) (s : string) (y : Var → Q) : Q :=
  eval_terms y (terms (SP_objective d s)).

(** A plan of the two-stage problem: reservations [x] within the bounds
    of their variables and, for every scenario, a recourse that is
    feasible for the subproblem at [x].  No [eta] takes part. *)
Definition two_stage_plan (d : Instance) (ub : list Constr) (x : Var → Q)
    (ys : string → Var → Q) : Prop :=
  Forall (in_domain x) (first_stage_vars d)
  ∧ ∀ s, s ∈ scenarios d → feasible (SP_of d ub x s) (ys s).

(** What a plan costs: the reservations and the probability-weighted
    costs of its recourses. *)
Definition two_stage_cost (d : Instance) (x : Var → Q)
    (ys : string → Var → Q) : Q :=
  Qsum (for_pvu d (fun u v p => VM_rcost d v * x (xr u v p)))
  + Qsum (for_ru d (fun u r => R_rcost d r * x (yr u r)))
  + Qsum (map (fun s => prob d s * recourse_cost d s (ys s)) (scenarios d)).

(** The point [x] with the [eta] of every scenario set by [q]. *)
Definition with_eta (x : Var → Q) (q : string → Q) (v : Var) : Q :=
  if String.eqb (varFamily v) "eta" then
    match varIndex v with
    | [s] => q s
    | _ => x v
    end
  else x v.

(** The objective of the master at a point of its variables: the
    reservations and the probability-weighted [eta]. *)
Definition plan_cost (d : Instance) (x : Var → Q) : Q :=
  Qsum (for_pvu d (fun u v p => VM_rcost d v * x (xr u v p)))
  + Qsum (for_ru d (fun u r => R_rcost d r * x (yr u r)))
  + Qsum (map (fun s => prob d s * x (n s)) (scenarios d)).

(** ** An engine with the prices of every row *)

Module Priced.

(** The engine of [Small] with the recourse behind its optimum and with
    prices for the flow rows as well: rows 8, 9 and 10 of the subproblem
    are the router usage, the bandwidth demand and the user balance. *)
Definition solve (M : Model) : Solution :=
  let sol := Small.optimize M in
  if String.eqb (modelName M) "MP" then sol
  else
    let x := Small.rhs_value (constrs M !! 0%nat) in
    let y := Small.rhs_value (constrs M !! 1%nat) in
    let dem := Small.rhs_value (constrs M !! 6%nat) in
    let used_x := if PyFloat.Qltb x dem then x else dem in
    let used_y := if PyFloat.Qltb y dem then y else dem in
    mkSolution (objVal sol)
      (fun v => if decide (v = xu "U1" "V1" "P1") then used_x
                else if decide (v = xo "U1" "V1" "P1") then dem - used_x
                else if decide (v = yu "U1" "R1") then used_y
                else if decide (v = yo "U1" "R1") then dem - used_y
                else if decide (v = f "U1" "P1" "R1") then dem
                else if decide (v = f "U1" "R1" "U1") then dem else 0)
      (fun i => match i with
                | 8%nat => Pi sol 1
                | 9%nat => - Pi sol 1
                | 10%nat => - Pi sol 1
                | _ => Pi sol i
                end).

(** One reserved VM and one reserved unit of bandwidth, no recourse
    cost expected. *)
Definition plan (v : Var) : Q :=
  if decide (v = xr "U1" "V1" "P1") then 1
  else if decide (v = yr "U1" "R1") then 1 else 0.

(** The recourse that uses what [plan] reserves. *)
Definition recourse (v : Var) : Q :=
  if decide (v = xu "U1" "V1" "P1") then 1
  else if decide (v = yu "U1" "R1") then 1
  else if decide (v = f "U1" "P1" "R1") then 1
  else if decide (v = f "U1" "R1" "U1") then 1 else 0.

End Priced.

(** ** The plan behind an upper bound *)

(** The engine answers the subproblems of the point [x] with a feasible
    recourse and its cost, at most the upper bound of [eta]. *)
Definition recourse_solved (optimize : Model → Solution) (d : Instance)
    (ub : list Constr) (x : Var → Q) : Prop :=
  ∀ s, s ∈ scenarios d →
    feasible (SP_of d ub x s) (X (optimize (SP_of d ub x s)))
    ∧ consistent (SP_of d ub x s) (optimize (SP_of d ub x s))
    ∧ objVal (optimize (SP_of d ub x s)) <= GRB_INFINITY.

(** What an iteration that starts in [st] relies on: the master solved
    to optimality and, at its point, the subproblems solved. *)
Definition solved_at (optimize : Model → Solution) (d : Instance)
    (ub : list Constr) (st : State) : Prop :=
  reports_optimum (MP st) (optimize (MP st))
  ∧ recourse_solved optimize d ub (X (optimize (MP st))).

(** The recourse an iteration evaluates: the engine's answer to the
    subproblem of each scenario at the master's point. *)
Definition iteration_recourse (optimize : Model → Solution) (d : Instance)
    (ub : list Constr) (st : State) (s : string) : Var → Q :=
  X (optimize (SP_of d ub (X (optimize (MP st))) s)).

(** ** When the assertion holds *)

(** A capacity is a number or [float('inf')]. *)
Definition number_or_inf (a : float) : Prop :=
  match a with
  | Fin _ | PInf => True
  | _ => False
  end.

(** The capacities of the providers are numbers or infinite, those of
    the routers are numbers. *)
Definition proper_capacities (d : Instance) : Prop :=
  (∀ p, In p (providers d) →
        number_or_inf (P_CCapacity d p) ∧ number_or_inf (P_SCapacity d p)
        ∧ number_or_inf (P_MCapacity d p))
  ∧ ∀ r, In r (routers d) → PyFloat.is_finite (R_BCapacity d r) = true.

(** The dual objective of the engine's answer: its prices times the
    right-hand sides of their rows. *)
Definition dual_objective (M : Model) (sol : Solution) : Q :=
  Qsum (map (fun cp : Constr * Q => cp.2 * finite_part (rhs cp.1))
            (with_pi sol (constrs M))).

(** The engine answers every subproblem of the instance with prices
    whose dual objective is within 1e-4 of the objective value. *)
Definition engine_strong_duality (optimize : Model → Solution)
    (d : Instance) (ub : list Constr) : Prop :=
  ∀ xv yv s, s ∈ scenarios d →
    Qabs (dual_objective
            (SP_at d xv yv (VM_demands d s) ub (SP_objective d s))
            (optimize (SP_at d xv yv (VM_demands d s) ub (SP_objective d s)))
          - objVal (optimize
                      (SP_at d xv yv (VM_demands d s) ub (SP_objective d s))))
    < 1 # 10000.

(** The network of [Small.d] with no scenario. *)
Definition d_no_scenario : Instance :=
  mkInstance (users Small.d) (VMs Small.d) (providers Small.d)
    (routers Small.d) (arcs Small.d) []
    (VM_rcost Small.d) (R_rcost Small.d) (prob Small.d)
    (VM_ucost Small.d) (R_ucost Small.d) (VM_ocost Small.d)
    (R_ocost Small.d) (VM_demands Small.d)
    (VM_CDemand Small.d) (VM_SDemand Small.d) (VM_MDemand Small.d)
    (VM_BDemand Small.d)
    (P_CCapacity Small.d) (P_SCapacity Small.d) (P_MCapacity Small.d)
    (R_BCapacity Small.d).

(** ** The instance with a negative recourse cost *)

Module Negative.

(** An engine for [Small.d_negative] at the start of the run.  The
    master has no cut and its optimum is the origin.  At the origin the
    subproblem buys five on-demand VMs, all that the provider's CPU
    allows, and the bandwidth they need: objective -5 = -3 * 5 + 2 * 5.
    The prices are those of that optimum: -2 on the router utilization
    bound (row 1), -1 on the CPU capacity (row 2), -2, 2 and 2 on the
    router usage, the bandwidth demand and the user balance (rows 8 to
    10). *)
Definition engine (M : Model) : Solution :=
  if String.eqb (modelName M) "MP" then
    mkSolution 0 (fun _ => 0) (fun _ => 0)
  else
    mkSolution (- (5))
      (fun v => if decide (v = xo "U1" "V1" "P1") then 5
                else if decide (v = yo "U1" "R1") then 5
                else if decide (v = f "U1" "P1" "R1") then 5
                else if decide (v = f "U1" "R1" "U1") then 5 else 0)
      (fun i => match i with
                | 1%nat => - (2)
                | 2%nat => - (1)
                | 8%nat => - (2)
                | 9%nat => 2
                | 10%nat => 2
                | _ => 0
                end).

(** Five units of reserved bandwidth and no reserved VM. *)
Definition reservation (v : Var) : Q :=
  if decide (v = yr "U1" "R1") then 5 else 0.

(** Five on-demand VMs on the reserved bandwidth. *)
Definition on_demand (v : Var) : Q :=
  if decide (v = xo "U1" "V1" "P1") then 5
  else if decide (v = yu "U1" "R1") then 5
  else if decide (v = f "U1" "P1" "R1") then 5
  else if decide (v = f "U1" "R1" "U1") then 5 else 0.

End Negative.

(** * Properties *)

(** ** Exceptions: inversion *)

Lemma bind_Ok {A B} (m : Res A) (k : A → Res B) (b : B) :
  (m ≫= k) = Ok b → ∃ a, m = Ok a ∧ k a = Ok b.
Proof. destruct m as [a|e]; simpl; [eauto | discriminate]. Qed.

Ltac inv_bind H :=
  let a := fresh "a" in
  let H1 := fresh H in
  apply bind_Ok in H; destruct H as (a & H1 & H).

Tactic Notation "bind_inv" hyp(H) "as" simple_intropattern(a) ident(H1) :=
  apply bind_Ok in H; destruct H as (a & H1 & H).

Lemma mapM_length {A B} (g : A → Res B) l bs :
  mapM g l = Ok bs → length bs = length l.
Proof.
  revert bs. induction l as [|a l IH]; intros bs H; simpl in *.
  - by simplify_eq.
  - inv_bind H. inv_bind H. simplify_eq. simpl. by rewrite (IH a1).
Qed.

Lemma mapM_Forall2 {A B} (g : A → Res B) l bs :
  mapM g l = Ok bs → Forall2 (fun a b => g a = Ok b) l bs.
Proof.
  revert bs. induction l as [|a l IH]; intros bs H; simpl in *.
  - simplify_eq. constructor.
  - inv_bind H. inv_bind H. simplify_eq. constructor; auto.
Qed.

Section EvaluatorFacts.

Variable optimize : Model → Solution.
Variable d : Instance.

Lemma modify_rhs_row s x y c c' :
  modify_rhs d s x y c = Ok c' → mutated_row d s x y c c'.
Proof.
  unfold modify_rhs, mutated_row. intros H.
  destruct (split_name (constrName c)) as [[name index]|e] eqn:Hn;
    simpl in H; [|discriminate].
  destruct (String.eqb name "VM utilization bound") eqn:E1.
  { apply String.eqb_eq in E1.
    destruct (PyStr.split "," index) as [|p [|v [|u [|? ?]]]] eqn:Hi;
      try discriminate.
    inv_bind H. simplify_eq. unfold getitem in H0.
    destruct (x !! (u, v, p)) eqn:Hx; simplify_eq.
    repeat split; try done. exists "VM utilization bound"%string, index.
    repeat split; try done. intros _. by exists p, v, u, a. }
  destruct (String.eqb name "R utilization bound") eqn:E2.
  { apply String.eqb_eq in E2.
    destruct (PyStr.split "," index) as [|r [|u [|? ?]]] eqn:Hi;
      try discriminate.
    inv_bind H. simplify_eq. unfold getitem in H0.
    destruct (y !! (u, r)) eqn:Hy; simplify_eq.
    repeat split; try done. exists "R utilization bound"%string, index.
    repeat split; try done. intros _. by exists r, u, a. }
  destruct (String.eqb name "VM demand") eqn:E3.
  { apply String.eqb_eq in E3.
    destruct (PyStr.split "," index) as [|v [|u [|? ?]]] eqn:Hi;
      try discriminate.
    simplify_eq.
    repeat split; try done. exists "VM demand"%string, index.
    repeat split; try done. intros _. by exists v, u. }
  apply String.eqb_neq in E1, E2, E3. simplify_eq.
  repeat split; try done. exists name, index. repeat split; done.
Qed.

Lemma modify_rhs_absorb s1 x1 y1 s2 x2 y2 c c1 :
  modify_rhs d s1 x1 y1 c = Ok c1 →
  modify_rhs d s2 x2 y2 c1 = modify_rhs d s2 x2 y2 c.
Proof.
  unfold modify_rhs. intros H.
  destruct (split_name (constrName c)) as [[name index]|e] eqn:Hn;
    simpl in H; [|discriminate].
  simpl.
  destruct (String.eqb name "VM utilization bound") eqn:E1.
  { destruct (PyStr.split "," index) as [|p [|v [|u [|? ?]]]] eqn:Hi;
      try discriminate.
    inv_bind H. simplify_eq. simpl. rewrite Hn. simpl.
    rewrite E1, Hi. done. }
  destruct (String.eqb name "R utilization bound") eqn:E2.
  { destruct (PyStr.split "," index) as [|p [|v [|? ?]]] eqn:Hi;
      try discriminate.
    inv_bind H. simplify_eq. simpl. rewrite Hn. simpl.
    rewrite E1, E2, Hi. done. }
  destruct (String.eqb name "VM demand") eqn:E3.
  { destruct (PyStr.split "," index) as [|p [|v [|? ?]]] eqn:Hi;
      try discriminate.
    simplify_eq. simpl. rewrite Hn. simpl. rewrite E1, E2, E3, Hi. done. }
  simplify_eq. rewrite Hn. simpl. rewrite E1, E2, E3. done.
Qed.

Lemma mapM_modify_absorb s1 x1 y1 s2 x2 y2 cs cs1 :
  mapM (modify_rhs d s1 x1 y1) cs = Ok cs1 →
  mapM (modify_rhs d s2 x2 y2) cs1 = mapM (modify_rhs d s2 x2 y2) cs.
Proof.
  revert cs1. induction cs as [|c cs IH]; intros cs1 H; simpl in *.
  - by simplify_eq.
  - inv_bind H. inv_bind H. simplify_eq. simpl.
    erewrite modify_rhs_absorb by eassumption.
    by erewrite IH by eassumption.
Qed.

Lemma modifyAndSolveSP_absorb s1 x1 y1 s2 x2 y2 SP SPa r :
  modifyAndSolveSP optimize d s1 x1 y1 SP = Ok (SPa, r) →
  modifyAndSolveSP optimize d s2 x2 y2 SPa
  = modifyAndSolveSP optimize d s2 x2 y2 SP.
Proof.
  unfold modifyAndSolveSP. intros H. inv_bind H. inv_bind H. simplify_eq.
  simpl. by erewrite mapM_modify_absorb by eassumption.
Qed.

(** The frame of a call: only right-hand sides of placeholder rows and
    the objective move. *)
Lemma modifyAndSolveSP_frame s xrsol yrsol SP SP' out :
  modifyAndSolveSP optimize d s xrsol yrsol SP = Ok (SP', out) →
  modelName SP' = modelName SP
  ∧ vars SP' = vars SP
  ∧ modelSense SP' = modelSense SP
  ∧ objective SP' = SP_objective d s
  ∧ Forall2 (mutated_row d s xrsol yrsol) (constrs SP) (constrs SP').
Proof.
  unfold modifyAndSolveSP. intros H. inv_bind H. inv_bind H. simplify_eq.
  simpl. repeat split; try done.
  apply mapM_Forall2 in H0.
  eapply Forall2_impl; [exact H0|]. intros c c'. apply modify_rhs_row.
Qed.

(** C9: evaluating the same scenario with the same first-stage values
    a second time returns the same model, objective value and dual-price
    maps; and the result does not depend on the scenario and values the
    model was last modified for. *)
Theorem C9_reevaluation s xrsol yrsol SP SP1 out :
  modifyAndSolveSP optimize d s xrsol yrsol SP = Ok (SP1, out) →
  modifyAndSolveSP optimize d s xrsol yrsol SP1 = Ok (SP1, out)
  ∧ ∀ s' x' y' SP0 out0,
      modifyAndSolveSP optimize d s' x' y' SP0 = Ok (SP, out0) →
      modifyAndSolveSP optimize d s xrsol yrsol SP0 = Ok (SP1, out).
Proof.
  intros H. split.
  - by rewrite (modifyAndSolveSP_absorb _ _ _ _ _ _ _ _ _ H).
  - intros s' x' y' SP0 out0 H0.
    by rewrite <- (modifyAndSolveSP_absorb _ _ _ _ _ _ _ _ _ H0).
Qed.

End EvaluatorFacts.

Section DriverFacts.

Variable optimize : Model → Solution.
Variable d : Instance.
Variable tol : Q.
Variable epsilon : Q.

Section OneIteration.

Variable SP0 : Model.
Variable xrsol : gmap (string * string * string) Q.
Variable yrsol : gmap (string * string) Q.
Variable nsol : gmap string Q.

Local Abbreviation answers_as := (answers_as optimize d SP0 xrsol yrsol).

Lemma scenario_step_outcome it s it' :
  answers_as (it_SP it) →
  scenario_step optimize d tol xrsol yrsol nsol it s = Ok it' →
  ∃ q du e viol,
    scenario_outcome optimize d tol SP0 xrsol yrsol nsol s
      = Ok (q, du, e, viol)
    ∧ it_MP it' = (if viol then addConstr (it_MP it) (cut s e)
                   else it_MP it)
    ∧ it_UB it' = it_UB it + prob d s * q
    ∧ it_cutFound it' = it_cutFound it || viol
    ∧ it_noCuts it' = (if viol then S (it_noCuts it) else it_noCuts it)
    ∧ answers_as (it_SP it').
Proof.
  intros Heq H. unfold scenario_step in H. unfold scenario_outcome.
  rewrite <- Heq.
  bind_inv H as [SP' [q du]] H0. rewrite H0. simpl.
  bind_inv H as dual H1. rewrite H1. simpl.
  bind_inv H as [] H2. rewrite H2. simpl.
  unfold after_check in H.
  bind_inv H as eta H3. rewrite H3. simpl.
  bind_inv H as e H4. rewrite H4. simpl.
  exists q, du, e, (PyFloat.Qltb eta (q - tol)). split; [done|].
  assert (Ha : answers_as SP').
  { intros s'. rewrite <- Heq. eapply modifyAndSolveSP_absorb; eauto. }
  destruct (PyFloat.Qltb eta (q - tol)); simplify_eq; simpl;
    rewrite ?orb_true_r, ?orb_false_r; done.
Qed.

Lemma scenario_loop_outcome ss : ∀ it it',
  answers_as (it_SP it) →
  foldM (scenario_step optimize d tol xrsol yrsol nsol) ss it = Ok it' →
  ∃ outs,
    mapM (scenario_outcome optimize d tol SP0 xrsol yrsol nsol) ss
      = Ok outs
    ∧ it_MP it' = fold_left addConstr (violated_cuts (zip ss outs))
                            (it_MP it)
    ∧ it_UB it' = plus_recourse d (it_UB it) (zip ss outs)
    ∧ it_cutFound it'
      = it_cutFound it || existsb (fun o => o.2) outs
    ∧ it_noCuts it'
      = (it_noCuts it + length (violated_cuts (zip ss outs)))%nat
    ∧ answers_as (it_SP it').
Proof.
  induction ss as [|s ss IH]; intros it it' Heq H; simpl in H.
  - simplify_eq. exists []. simpl. rewrite orb_false_r.
    repeat split; try done.
  - inv_bind H.
    destruct (scenario_step_outcome _ _ _ Heq H0)
      as (q & du & e & viol & Ho & HMP & HUB & Hcf & Hnc & Ha).
    destruct (IH _ _ Ha H) as (outs & Hm & HMP' & HUB' & Hcf' & Hnc' & Ha').
    exists ((q, du, e, viol) :: outs). simpl. rewrite Ho, Hm. simpl.
    rewrite HMP', HUB', Hcf', Hnc', HMP, HUB, Hcf, Hnc.
    split; [done|].
    destruct viol; simpl; rewrite ?orb_true_r, ?orb_false_r, ?length_app;
      repeat split; try done; simpl; try lia.
Qed.

End OneIteration.

Lemma fold_addConstr_constrs cs M :
  constrs (fold_left addConstr cs M) = constrs M ++ cs.
Proof.
  revert M. induction cs as [|c cs IH]; intros M; simpl.
  - by rewrite app_nil_r.
  - rewrite IH. simpl. by rewrite <- app_assoc.
Qed.

Lemma fold_addConstr_frame cs M :
  modelName (fold_left addConstr cs M) = modelName M
  ∧ vars (fold_left addConstr cs M) = vars M
  ∧ objective (fold_left addConstr cs M) = objective M
  ∧ modelSense (fold_left addConstr cs M) = modelSense M.
Proof.
  revert M. induction cs as [|c cs IH]; intros M; simpl; [done|].
  destruct (IH (addConstr M c)) as (-> & -> & -> & ->). done.
Qed.

(** What one pass through the loop body computes. *)
Lemma body_outcome st st' b :
  body optimize d tol epsilon st = Ok (st', b) →
  let sol := optimize (MP st) in
  ∃ UB0 outs,
    first_stage_cost d (get_xrsol d sol) (get_yrsol d sol) = Ok UB0
    ∧ mapM (scenario_outcome optimize d tol (SP st) (get_xrsol d sol)
              (get_yrsol d sol) (get_nsol d sol)) (scenarios d) = Ok outs
    ∧ MP st' = fold_left addConstr (violated_cuts (zip (scenarios d) outs))
                         (MP st)
    ∧ UB st' = Some (plus_recourse d UB0 (zip (scenarios d) outs))
    ∧ bestUB st'
      = py_min (plus_recourse d UB0 (zip (scenarios d) outs)) (bestUB st)
    ∧ cutFound st' = existsb (fun o => o.2) outs
    ∧ noIters st' = S (noIters st)
    ∧ noCuts st'
      = (noCuts st + length (violated_cuts (zip (scenarios d) outs)))%nat
    ∧ MPobj st' = Some (objVal sol)
    ∧ b = Qle_bool (gap (bestUB st') (objVal sol)) epsilon.
Proof.
  intros H. cbv zeta. unfold body in H. cbv zeta in H.
  set (sol := optimize (MP st)) in *.
  bind_inv H as UB0 H0. bind_inv H as it H1.
  eapply scenario_loop_outcome in H1; [|intros s; reflexivity].
  destruct H1 as (outs & Hm & HMP & HUB & Hcf & Hnc & _).
  simpl in *. simplify_eq. simpl.
  exists UB0, outs. rewrite HMP, HUB, Hcf, Hnc. done.
Qed.

End DriverFacts.

Lemma fold_insert_lookup `{Countable K} {V} (ins : gmap K V → K → gmap K V)
    (g : K → V) (l : list K) (m : gmap K V) (k : K) :
  (∀ m k, ins m k = <[k := g k]> m) →
  fold_left ins l m !! k = if decide (k ∈ l) then Some (g k) else m !! k.
Proof.
  intros Hins.
  revert m. induction l as [|a l IH]; intros m; cbn [fold_left].
  - case_decide as Hk; [|done]. by apply elem_of_nil in Hk.
  - rewrite IH, Hins. repeat case_decide; try done.
    + exfalso. match goal with H : ¬ _ |- _ => apply H end. by right.
    + match goal with H : _ ∈ _ :: _ |- _ =>
        apply elem_of_cons in H as [->|?]; [|done] end.
      apply lookup_insert_eq.
    + apply lookup_insert_ne. intros ->.
      match goal with H : ¬ _ ∈ _ :: _ |- _ => apply H end. by left.
Qed.

Section OutcomeFacts.
Variable optimize : Model → Solution.
Variable d : Instance.
Variable tol : Q.
Variable epsilon : Q.

Lemma get_nsol_lookup sol s :
  s ∈ scenarios d → get_nsol d sol !! s = Some (X sol (n s)).
Proof.
  intros Hs. unfold get_nsol.
  rewrite (fold_insert_lookup _ (fun s => X sol (n s))) by done.
  by rewrite decide_True.
Qed.

Lemma get_xrsol_lookup sol u v p :
  (u, v, p) ∈ keys_uvp d →
  get_xrsol d sol !! (u, v, p) = Some (X sol (xr u v p)).
Proof.
  intros Hs. unfold get_xrsol.
  rewrite (fold_insert_lookup _ (fun '(u, v, p) => X sol (xr u v p))).
  - by rewrite decide_True.
  - by intros m [[? ?] ?].
Qed.

Lemma get_yrsol_lookup sol u r :
  (u, r) ∈ keys_ur d →
  get_yrsol d sol !! (u, r) = Some (X sol (yr u r)).
Proof.
  intros Hs. unfold get_yrsol.
  rewrite (fold_insert_lookup _ (fun '(u, r) => X sol (yr u r))).
  - by rewrite decide_True.
  - by intros m [? ?].
Qed.

Lemma scenario_outcome_inv SP0 xrsol yrsol nsol s q du e viol :
  scenario_outcome optimize d tol SP0 xrsol yrsol nsol s
    = Ok (q, du, e, viol) →
  ∃ SP' dual eta,
    modifyAndSolveSP optimize d s xrsol yrsol SP0 = Ok (SP', (q, du))
    ∧ dualSPobj d xrsol yrsol s du = Ok dual
    ∧ strong_duality dual q = true
    ∧ nsol !! s = Some eta
    ∧ expr d s du = Ok e
    ∧ viol = PyFloat.Qltb eta (q - tol).
Proof.
  unfold scenario_outcome. intros H.
  bind_inv H as [SP' [q' du']] H0. bind_inv H as dual H1.
  bind_inv H as [] H2. bind_inv H as eta H3. bind_inv H as e' H4.
  simplify_eq. exists SP', dual, eta.
  unfold assert_ in H2. destruct (strong_duality dual q) eqn:Hsd; [|done].
  unfold getitem in H3. destruct (nsol !! s) eqn:Hn; simplify_eq. done.
Qed.

Lemma elem_of_violated_cuts l c :
  c ∈ violated_cuts l
  ↔ ∃ s q du e, (s, (q, du, e, true)) ∈ l ∧ c = cut s e.
Proof.
  unfold violated_cuts. split.
  - intros Hc. apply list_elem_of_In, in_flat_map in Hc.
    destruct Hc as ([s [[[q du] e] viol]] & Hin & Hc).
    apply list_elem_of_In in Hin.
    destruct viol; simpl in Hc; [|done]. destruct Hc as [<-|[]].
    by exists s, q, du, e.
  - intros (s & q & du & e & Hin & ->).
    apply list_elem_of_In, in_flat_map.
    exists (s, (q, du, e, true)). split; [by apply list_elem_of_In|].
    by left.
Qed.

End OutcomeFacts.

Section LoopFacts.
Variable optimize : Model → Solution.
Variable d : Instance.
Variable tol : Q.
Variable epsilon : Q.

Local Abbreviation body := (body optimize d tol epsilon).
Local Abbreviation loop_step := (loop_step optimize d tol epsilon).
Local Abbreviation while_cutFound := (while_cutFound optimize d tol epsilon).

Lemma body_constrs st st' b :
  body st = Ok (st', b) →
  ∃ more, constrs (MP st') = constrs (MP st) ++ more
          ∧ modelName (MP st') = modelName (MP st)
          ∧ vars (MP st') = vars (MP st)
          ∧ objective (MP st') = objective (MP st)
          ∧ modelSense (MP st') = modelSense (MP st).
Proof.
  intros H. apply body_outcome in H.
  destruct H as (UB0 & outs & _ & _ & HMP & _).
  rewrite HMP, fold_addConstr_constrs.
  destruct (fold_addConstr_frame
              (violated_cuts (zip (scenarios d) outs)) (MP st))
    as (-> & -> & -> & ->). eexists. repeat split; reflexivity.
Qed.

Lemma loop_steps_constrs c1 c2 :
  rtc loop_step c1 c2 →
  ∃ more, constrs (MP c2.1) = constrs (MP c1.1) ++ more
          ∧ modelName (MP c2.1) = modelName (MP c1.1)
          ∧ vars (MP c2.1) = vars (MP c1.1)
          ∧ objective (MP c2.1) = objective (MP c1.1)
          ∧ modelSense (MP c2.1) = modelSense (MP c1.1).
Proof.
  induction 1 as [c|c1 c2 c3 Hstep _ IH].
  - exists []. by rewrite app_nil_r.
  - destruct Hstep as [st st' b _ Hb]. simpl in *.
    destruct (body_constrs _ _ _ Hb) as (m1 & E1 & E2 & E3 & E4 & E5).
    destruct IH as (m2 & F1 & F2 & F3 & F4 & F5).
    exists (m1 ++ m2).
    rewrite F1, F2, F3, F4, F5, E1, E2, E3, E4, E5.
    by rewrite app_assoc.
Qed.

(** What each recorded outcome stands for. *)
Lemma outcomes_decided SP0 sol outs :
  mapM (scenario_outcome optimize d tol SP0 (get_xrsol d sol)
          (get_yrsol d sol) (get_nsol d sol)) (scenarios d) = Ok outs →
  ∀ i s q du e viol,
    scenarios d !! i = Some s → outs !! i = Some (q, du, e, viol) →
    (∃ SP', modifyAndSolveSP optimize d s (get_xrsol d sol)
              (get_yrsol d sol) SP0 = Ok (SP', (q, du)))
    ∧ expr d s du = Ok e
    ∧ viol = PyFloat.Qltb (X sol (n s)) (q - tol).
Proof.
  intros Hm i s q du e viol Hs Ho.
  apply mapM_Forall2 in Hm.
  pose proof (Forall2_lookup_lr _ _ _ _ _ _ Hm Hs Ho) as Hout.
  apply scenario_outcome_inv in Hout
    as (SP' & dual & eta & HSP & _ & _ & Hn & He & Hv).
  rewrite get_nsol_lookup in Hn.
  - simplify_eq. eauto.
  - by eapply list_elem_of_lookup_2.
Qed.

Lemma foldM_app {A S} (g : S → A → Res S) l1 l2 s0 :
  foldM g (l1 ++ l2) s0 = foldM g l1 s0 ≫= foldM g l2.
Proof.
  revert s0. induction l1 as [|a l1 IH]; intros s0; simpl; [done|].
  destruct (g s0 a); simpl; [apply IH|done].
Qed.

Lemma Qltb_lt a b : PyFloat.Qltb a b = true ↔ a < b.
Proof.
  unfold PyFloat.Qltb. rewrite negb_true_iff.
  destruct (Qle_bool b a) eqn:E.
  - apply Qle_bool_iff in E. split; [done|]. intros Hlt.
    exfalso. by apply (Qlt_not_le _ _ Hlt).
  - split; [|done]. intros _. apply Qnot_le_lt. intros Hle.
    apply Qle_bool_iff in Hle. congruence.
Qed.

Lemma strong_duality_spec dual q :
  strong_duality dual q = true
  ↔ ∃ v, dual = Fin v ∧ Qabs (v - q) < 1 # 10000.
Proof.
  unfold strong_duality. destruct dual as [v| | |]; simpl.
  - rewrite Qltb_lt. split; [eauto|]. by intros (v' & [= <-] & Hv).
  - split; [done|]. by intros (v' & [=] & _).
  - split; [done|]. by intros (v' & [=] & _).
  - split; [done|]. by intros (v' & [=] & _).
Qed.

Lemma while_cutFound_raises st e fuel :
  cutFound st = true → body st = Err e →
  while_cutFound (S fuel) st = Raised e.
Proof. intros Hc Hb. simpl. by rewrite Hc, Hb. Qed.

(** C4: when the scenario loop reaches scenario [s], the evaluator has
    returned [q] and the dual prices, and the dual objective rebuilt from
    them is [dual], the assertion passes exactly when [dual] is a finite
    number with [|dual - q| < 1e-4]; when it fails, the iteration and
    the whole loop end at that point with the assertion error 'Strong
    duality'; when it passes, the step is the rest of the loop body. *)
Theorem C4_strong_duality_assertion st pre s post UB0 it SP' q du dual :
  scenarios d = pre ++ s :: post →
  first_stage_cost d (get_xrsol d (optimize (MP st)))
    (get_yrsol d (optimize (MP st))) = Ok UB0 →
  foldM (scenario_step optimize d tol (get_xrsol d (optimize (MP st)))
           (get_yrsol d (optimize (MP st))) (get_nsol d (optimize (MP st))))
        pre (mkIter (MP st) (SP st) UB0 false (noCuts st)) = Ok it →
  modifyAndSolveSP optimize d s (get_xrsol d (optimize (MP st)))
    (get_yrsol d (optimize (MP st))) (it_SP it) = Ok (SP', (q, du)) →
  dualSPobj d (get_xrsol d (optimize (MP st)))
    (get_yrsol d (optimize (MP st))) s du = Ok dual →
  (strong_duality dual q = true
   ↔ ∃ v, dual = Fin v ∧ Qabs (v - q) < 1 # 10000)
  ∧ (strong_duality dual q = false →
     body st = Err (AssertionError "Strong duality")
     ∧ (cutFound st = true →
        ∀ fuel, while_cutFound (S fuel) st
                = Raised (AssertionError "Strong duality")))
  ∧ (strong_duality dual q = true →
     scenario_step optimize d tol (get_xrsol d (optimize (MP st)))
       (get_yrsol d (optimize (MP st))) (get_nsol d (optimize (MP st)))
       it s
     = after_check d tol (get_nsol d (optimize (MP st))) s it SP' q du).
Proof.
  intros Hss HUB Hpre HSP Hdual. split; [apply strong_duality_spec|].
  split.
  - intros Hsd.
    assert (Hb : body st = Err (AssertionError "Strong duality")).
    { unfold body. cbv zeta. rewrite HUB. simpl.
      rewrite Hss, foldM_app, Hpre. simpl.
      unfold scenario_step. rewrite HSP. simpl. rewrite Hdual. simpl.
      rewrite Hsd. done. }
    split; [done|]. intros Hc fuel. by apply while_cutFound_raises.
  - intros Hsd. unfold scenario_step. rewrite HSP. simpl.
    rewrite Hdual. simpl. by rewrite Hsd.
Qed.

(** C6: if an iteration completes and no scenario has its eta value
    below its objective minus the tolerance, the master is unchanged, no
    cut is counted, and the loop ends with that iteration; started from
    the initial state the driver returns after exactly one iteration
    with no cut. *)
Theorem C6_no_violation_one_iteration st st' b outs :
  cutFound st = true →
  body st = Ok (st', b) →
  mapM (scenario_outcome optimize d tol (SP st)
          (get_xrsol d (optimize (MP st))) (get_yrsol d (optimize (MP st)))
          (get_nsol d (optimize (MP st)))) (scenarios d) = Ok outs →
  (∀ i s q du e viol,
     scenarios d !! i = Some s → outs !! i = Some (q, du, e, viol) →
     ¬ X (optimize (MP st)) (n s) < q - tol) →
  MP st' = MP st
  ∧ noCuts st' = noCuts st
  ∧ cutFound st' = false
  ∧ (∀ fuel, while_cutFound (S fuel) st = Returned st')
  ∧ (init d = Ok st →
     ∀ fuel, multiBenders optimize d tol epsilon (S fuel)
             = Returned (objVal (optimize (MP st)), 1%nat, 0%nat)).
Proof.
  intros Hc Hb Hm Hnv.
  pose proof (outcomes_decided _ _ _ Hm) as Hviol.
  pose proof (body_outcome _ _ _ _ _ _ _ Hb) as Ho. cbv zeta in Ho.
  destruct Ho as (UB0 & outs' & _ & Hm' & HMP & _ & _ & Hcf & Hni & Hnc
                  & Hobj & _).
  rewrite Hm in Hm'. injection Hm' as <-.
  assert (Hall : Forall (fun o => o.2 = false) outs).
  { apply Forall_lookup_2. intros i [[[q du] e] viol] Ho. simpl.
    apply mapM_length in Hm.
    destruct (lookup_lt_is_Some_2 (scenarios d) i) as [s Hs].
    { rewrite <- Hm. by eapply lookup_lt_Some. }
    destruct (Hviol _ _ _ _ _ _ Hs Ho) as (_ & _ & ->).
    apply not_true_is_false. rewrite Qltb_lt. by eapply Hnv. }
  assert (Hcuts : violated_cuts (zip (scenarios d) outs) = []).
  { clear -Hall. revert Hall. generalize (scenarios d).
    induction outs as [|[[[q du] e] viol] outs IH]; intros ss Hall.
    - by destruct ss.
    - destruct ss as [|s ss]; [done|]. simpl.
      apply Forall_cons in Hall as [Hv Hall]. simpl in Hv. subst viol.
      simpl. by apply IH. }
  assert (Hcf' : cutFound st' = false).
  { rewrite Hcf. clear -Hall. induction Hall as [|o os Ho _ IH]; [done|].
    simpl. by rewrite Ho, IH. }
  rewrite Hcuts in HMP, Hnc. simpl in HMP, Hnc.
  assert (Hw : ∀ fuel, while_cutFound (S fuel) st = Returned st').
  { intros fuel. simpl. rewrite Hc, Hb. destruct b; [done|].
    destruct fuel; simpl; by rewrite Hcf'. }
  repeat split; try done; [lia|].
  intros Hinit fuel. unfold multiBenders, run. rewrite Hinit.
  fold (while_cutFound (S fuel) st). rewrite Hw, Hobj, Hni, Hnc.
  unfold init in Hinit. bind_inv Hinit as SP0 HSP0. simplify_eq. done.
Qed.

End LoopFacts.

(** ** The user balance of [buildSP] *)

Lemma filter_eq_iff {A} (P Q : A → bool) (l : list A) :
  List.filter P l = List.filter Q l ↔ ∀ a, In a l → P a = Q a.
Proof.
  induction l as [|a l IH]; simpl.
  - split; [intros _ ? []|done].
  - split.
    + intros Heq.
      assert (Ha : P a = Q a).
      { destruct (P a) eqn:EP, (Q a) eqn:EQ; try done.
        - assert (Hin : In a (List.filter Q l)) by (rewrite <- Heq; by left).
          apply filter_In in Hin as [_ Hin]. congruence.
        - assert (Hin : In a (List.filter P l)) by (rewrite Heq; by left).
          apply filter_In in Hin as [_ Hin]. congruence. }
      intros b [<-|Hb]; [done|]. apply IH; [|done].
      rewrite Ha in Heq. destruct (Q a); congruence.
    + intros Hall. rewrite (Hall a) by (by left).
      destruct (Q a); [f_equal|]; apply IH; intros b Hb; apply Hall; by right.
Qed.

Section UserBalance.

Variable d : Instance.

Lemma flow_sum_from_P_Ok u l r :
  flow_sum_from_P u l = Ok r →
  r = map (fun '(e_out, e_in) => (1, f u e_out e_in))
          (List.filter (fun '(e_out, e_in) => tail_starts_P e_out) l).
Proof.
  revert r. induction l as [|[e_out e_in] l IH]; intros r H; simpl in *.
  - by simplify_eq.
  - unfold tail_starts_P.
    destruct (PyStr.head_is "P" e_out) as [b|]; [|done].
    bind_inv H as rest Hr. simplify_eq. rewrite (IH rest) by done.
    by destruct b.
Qed.

Lemma flow_terms_inj u (l1 l2 : list (string * string)) :
  map (fun '(e_out, e_in) => (1, f u e_out e_in)) l1
  = map (fun '(e_out, e_in) => (1, f u e_out e_in)) l2 → l1 = l2.
Proof.
  revert l2. induction l1 as [|[a b] l1 IH]; intros [|[a' b'] l2] H;
    simpl in H; try done.
  injection H as -> -> H. f_equal. by apply IH.
Qed.

(** C10: the user balance that [buildSP] constructs is the intended
    one (inflow to the user equals the flow on the arcs leaving a
    provider) exactly when, among the arc tails, those whose first
    character is 'P' are the providers; this holds in particular when
    every provider identifier begins with 'P', no router identifier
    does, and every arc leaves a provider or a router. *)
Theorem C10_user_balance_matches u c :
  U_balance_of d u = Ok c →
  (c = U_balance_intended d u
   ↔ ∀ e_out e_in, In (e_out, e_in) (arcs d) →
       tail_starts_P e_out = bool_decide (e_out ∈ providers d))
  ∧ ((∀ p, p ∈ providers d → PyStr.head_is "P" p = Some true) →
     (∀ r, r ∈ routers d → PyStr.head_is "P" r ≠ Some true) →
     (∀ e_out e_in, In (e_out, e_in) (arcs d) →
        e_out ∈ providers d ∨ e_out ∈ routers d) →
     c = U_balance_intended d u).
Proof.
  intros H. unfold U_balance_of in H. bind_inv H as from_P HP.
  apply flow_sum_from_P_Ok in HP. simplify_eq.
  assert (Hiff :
    mkConstr (indexed_name "U balance" [u])
      (flow_sum d u (fun _ e_in => String.eqb e_in u)) EQUAL
      (map (fun '(e_out, e_in) => (1, f u e_out e_in))
         (List.filter (fun '(e_out, _) => tail_starts_P e_out) (arcs d)))
      (Fin 0) = U_balance_intended d u
    ↔ ∀ e_out e_in, In (e_out, e_in) (arcs d) →
        tail_starts_P e_out = bool_decide (e_out ∈ providers d)).
  { unfold U_balance_intended, flow_sum. split.
    - intros Heq. injection Heq as Heq. apply flow_terms_inj in Heq.
      intros e_out e_in Hin.
      by apply (proj1 (filter_eq_iff _ _ _) Heq (e_out, e_in)).
    - intros Hall. do 2 f_equal. apply filter_eq_iff.
      intros [e_out e_in] Hin. exact (Hall e_out e_in Hin). }
  split; [exact Hiff|].
  intros Hprov Hrout Harcs. apply Hiff. intros e_out e_in Hin.
  unfold tail_starts_P.
  destruct (Harcs _ _ Hin) as [Hp|Hr].
  - rewrite (Hprov _ Hp). by rewrite bool_decide_eq_true_2.
  - specialize (Hrout _ Hr).
    destruct (decide (e_out ∈ providers d)) as [Hp|Hp].
    + rewrite (Hprov _ Hp). by rewrite bool_decide_eq_true_2.
    + rewrite bool_decide_eq_false_2 by done.
      destruct (PyStr.head_is "P" e_out) as [[]|]; done.
Qed.

End UserBalance.

Lemma C10_counterexample :
  ∃ c, U_balance_of Small.d_unlinked "U1" = Ok c
       ∧ c = U_balance_intended Small.d_unlinked "U1"
       ∧ "Q2"%string ∈ providers Small.d_unlinked
       ∧ PyStr.head_is "P" "Q2" = Some false.
Proof.
  eexists. split; [reflexivity|]. split; [|split; [|reflexivity]].
  - vm_compute. reflexivity.
  - right. left.
Qed.

Lemma C10_witness :
  U_balance_of Small.d "U1" = Ok (U_balance_intended Small.d "U1").
Proof.
  assert (H : ∃ c, U_balance_of Small.d "U1" = Ok c) by (eexists; reflexivity).
  destruct H as [c Hc]. rewrite Hc. f_equal.
  apply (proj1 (C10_user_balance_matches Small.d "U1" c Hc)).
  intros e_out e_in [[= <- <-]|[[= <- <-]|[]]]; vm_compute; reflexivity.
Defined.

(** ** Sums *)

Lemma fold_Qplus a l : fold_left Qplus l a == a + Qsum l.
Proof.
  unfold Qsum. revert a. induction l as [|b l IH]; intros a; simpl.
  - lra.
  - rewrite IH, (IH (0 + b)). lra.
Qed.

Lemma Qsum_cons a l : Qsum (a :: l) == a + Qsum l.
Proof. unfold Qsum at 1. simpl. rewrite fold_Qplus. lra. Qed.

Lemma Qsum_app l1 l2 : Qsum (l1 ++ l2) == Qsum l1 + Qsum l2.
Proof.
  induction l1 as [|a l1 IH]; simpl.
  - unfold Qsum at 2. simpl. lra.
  - rewrite !Qsum_cons, IH. lra.
Qed.

Lemma eval_terms_app x l1 l2 :
  eval_terms x (l1 ++ l2) == eval_terms x l1 + eval_terms x l2.
Proof. unfold eval_terms. rewrite map_app. apply Qsum_app. Qed.

Lemma map_flat_map {A B C} (g : B → C) (h : A → list B) l :
  map g (flat_map h l) = flat_map (fun a => map g (h a)) l.
Proof.
  induction l as [|a l IH]; simpl; [done|]. by rewrite map_app, IH.
Qed.

Section Comprehensions.
Variable d : Instance.

Lemma map_for_pvu {A B} (g : A → B) (h : string → string → string → A) :
  map g (for_pvu d h) = for_pvu d (fun u v p => g (h u v p)).
Proof.
  unfold for_pvu. rewrite map_flat_map. apply flat_map_ext. intros p.
  rewrite map_flat_map. apply flat_map_ext. intros v. apply map_map.
Qed.

Lemma map_for_ru {A B} (g : A → B) (h : string → string → A) :
  map g (for_ru d h) = for_ru d (fun u r => g (h u r)).
Proof.
  unfold for_ru. rewrite map_flat_map. apply flat_map_ext. intros r.
  apply map_map.
Qed.

Lemma elem_of_product3 (a b c : list string) idx :
  idx ∈ product3 a b c ↔ ∃ x y z, x ∈ a ∧ y ∈ b ∧ z ∈ c ∧ idx = [x; y; z].
Proof.
  unfold product3. rewrite list_elem_of_In, in_flat_map. split.
  - intros (x & Hx & H). apply in_flat_map in H as (y & Hy & H).
    apply in_map_iff in H as (z & <- & Hz).
    exists x, y, z. by rewrite !list_elem_of_In.
  - intros (x & y & z & Hx & Hy & Hz & ->).
    exists x. split; [by apply list_elem_of_In|].
    apply in_flat_map. exists y. split; [by apply list_elem_of_In|].
    apply in_map_iff. exists z. split; [done|]. by apply list_elem_of_In.
Qed.

Lemma elem_of_product2 (a b : list string) idx :
  idx ∈ product2 a b ↔ ∃ x y, x ∈ a ∧ y ∈ b ∧ idx = [x; y].
Proof.
  unfold product2. rewrite list_elem_of_In, in_flat_map. split.
  - intros (x & Hx & H). apply in_map_iff in H as (y & <- & Hy).
    exists x, y. by rewrite !list_elem_of_In.
  - intros (x & y & Hx & Hy & ->).
    exists x. split; [by apply list_elem_of_In|].
    apply in_map_iff. exists y. split; [done|]. by apply list_elem_of_In.
Qed.

Lemma elem_of_addVars indices vtype name vd :
  vd ∈ addVars indices vtype name
  ↔ ∃ idx, idx ∈ indices
           ∧ vd = mkVarDecl (mkVar name idx) vtype (Fin 0) (Fin GRB_INFINITY).
Proof.
  unfold addVars. rewrite list_elem_of_In, in_map_iff.
  split; intros (idx & H1 & H2); exists idx.
  - by rewrite list_elem_of_In.
  - by rewrite <- list_elem_of_In.
Qed.

(** The variables of the model [buildMP] returns are exactly the
    integer [xr[u,v,p]], the continuous [yr[u,r]] and the continuous
    [eta[s]], every one with lower bound 0 and upper bound
    [GRB.INFINITY]; the model minimises the sum of reservation cost times
    [xr], router cost times [yr] and probability times [eta]; it has no
    constraint. *)
Lemma buildMP_model :
  (∀ vd, vd ∈ vars (buildMP d)
     ↔ (∃ u v p, u ∈ users d ∧ v ∈ VMs d ∧ p ∈ providers d
                 ∧ vd = mkVarDecl (xr u v p) INTEGER (Fin 0)
                                  (Fin GRB_INFINITY))
       ∨ (∃ u r, u ∈ users d ∧ r ∈ routers d
                 ∧ vd = mkVarDecl (yr u r) CONTINUOUS (Fin 0)
                                  (Fin GRB_INFINITY))
       ∨ (∃ s, s ∈ scenarios d
               ∧ vd = mkVarDecl (n s) CONTINUOUS (Fin 0)
                                (Fin GRB_INFINITY)))
  ∧ modelSense (buildMP d) = MINIMIZE
  ∧ const (objective (buildMP d)) = Fin 0
  ∧ (∀ x, eval_terms x (terms (objective (buildMP d)))
          == Qsum (for_pvu d (fun u v p => VM_rcost d v * x (xr u v p)))
             + Qsum (for_ru d (fun u r => R_rcost d r * x (yr u r)))
             + Qsum (map (fun s => prob d s * x (n s)) (scenarios d)))
  ∧ constrs (buildMP d) = [].
Proof.
  split; [|split; [done|split; [done|split; [|done]]]].
  - intros vd. simpl. rewrite !elem_of_app, !elem_of_addVars. split.
    + intros [(idx & Hi & ->)|[(idx & Hi & ->)|(idx & Hi & ->)]].
      * apply elem_of_product3 in Hi as (u & v & p & ? & ? & ? & ->).
        left. by exists u, v, p.
      * apply elem_of_product2 in Hi as (u & r & ? & ? & ->).
        right; left. by exists u, r.
      * apply list_elem_of_In, in_map_iff in Hi as (s & <- & Hs).
        right; right. exists s. by rewrite list_elem_of_In.
    + intros [(u & v & p & ? & ? & ? & ->)|[(u & r & ? & ? & ->)
                                            |(s & ? & ->)]].
      * left. exists [u; v; p]. split; [|done].
        apply elem_of_product3. by exists u, v, p.
      * right; left. exists [u; r]. split; [|done].
        apply elem_of_product2. by exists u, r.
      * right; right. exists [s]. split; [|done].
        apply list_elem_of_In, in_map_iff. exists s.
        by rewrite <- list_elem_of_In.
  - intros x. simpl. rewrite !eval_terms_app. unfold eval_terms.
    rewrite map_for_pvu, map_for_ru, map_map. lra.
Qed.

End Comprehensions.

(** ** Infinite capacities *)

Lemma add_finite a b :
  PyFloat.is_finite (PyFloat.add a b) = true →
  PyFloat.is_finite a = true ∧ PyFloat.is_finite b = true.
Proof. by destruct a, b. Qed.

Lemma fold_add_finite l a :
  PyFloat.is_finite (fold_left PyFloat.add l a) = true →
  PyFloat.is_finite a = true ∧ Forall (fun x => PyFloat.is_finite x = true) l.
Proof.
  revert a. induction l as [|b l IH]; intros a H; simpl in *; [done|].
  apply IH in H as [H1 H2]. apply add_finite in H1 as [Ha Hb].
  split; [done|]. by constructor.
Qed.

Lemma mul_inf_not_finite q : PyFloat.is_finite (PyFloat.mul (Fin q) PInf) = false.
Proof. simpl. unfold PyFloat.scale_inf. by destruct (q ?= 0). Qed.

Lemma strong_duality_finite dual q :
  strong_duality dual q = true → PyFloat.is_finite dual = true.
Proof. by destruct dual. Qed.

Section InfiniteCapacity.

Variable optimize : Model → Solution.
Variable d : Instance.
Variable tol : Q.

Lemma guarded_capacity_term_inf pisol cap p :
  cap p = PInf → guarded_capacity_term pisol cap p = Ok (Fin 0).
Proof. unfold guarded_capacity_term. by intros ->. Qed.

Lemma bandwidth_term_inf pisol r v :
  R_BCapacity d r = PInf →
  bandwidth_term d pisol r = Ok v → PyFloat.is_finite v = false.
Proof.
  unfold bandwidth_term. intros Hcap H. bind_inv H as pi Hpi.
  simplify_eq. rewrite Hcap. apply mul_inf_not_finite.
Qed.

Lemma mapM_id_map_elem {A B} (g : A → Res B) l bs a :
  mapM id (map g l) = Ok bs → a ∈ l → ∃ b, g a = Ok b ∧ b ∈ bs.
Proof.
  revert bs. induction l as [|a' l IH]; intros bs H Ha; simpl in *.
  - by apply elem_of_nil in Ha.
  - bind_inv H as b Hb. bind_inv H as bs' Hbs. simplify_eq.
    apply elem_of_cons in Ha as [->|Ha].
    + exists b. split; [done|]. by left.
    + destruct (IH _ Hbs Ha) as (b' & ? & ?). exists b'.
      split; [done|]. by right.
Qed.

Lemma Bandwidth_constant_inf du r t :
  r ∈ routers d → R_BCapacity d r = PInf →
  Bandwidth_constant d du = Ok t → PyFloat.is_finite t = false.
Proof.
  unfold Bandwidth_constant, fsum_of. intros Hr Hcap H.
  bind_inv H as xs Hxs. simplify_eq.
  destruct (mapM_id_map_elem _ _ _ _ Hxs Hr) as (v & Hv & Hin).
  apply bandwidth_term_inf in Hv; [|done].
  apply not_true_is_false. intros Hfin.
  apply fold_add_finite in Hfin as [_ Hall].
  rewrite Forall_forall in Hall. specialize (Hall _ Hin). congruence.
Qed.

(** With a router of infinite bandwidth the assertion cannot pass. *)
Lemma infinite_bandwidth_fails_check xrsol yrsol s du dual q r :
  r ∈ routers d → R_BCapacity d r = PInf →
  dualSPobj d xrsol yrsol s du = Ok dual →
  strong_duality dual q = false.
Proof.
  intros Hr Hcap H. unfold dualSPobj in H.
  bind_inv H as t1 H1. bind_inv H as t2 H2. bind_inv H as t3 H3.
  bind_inv H as t4 H4. bind_inv H as t5 H5. bind_inv H as t6 H6.
  bind_inv H as t7 H7. simplify_eq.
  apply (Bandwidth_constant_inf _ _ _ Hr Hcap) in H6.
  apply not_true_is_false. intros Hsd. apply strong_duality_finite in Hsd.
  apply add_finite in Hsd as [Hsd _]. apply add_finite in Hsd as [_ Hsd].
  congruence.
Qed.

Lemma infinite_bandwidth_step_raises xrsol yrsol nsol it s r :
  r ∈ routers d → R_BCapacity d r = PInf →
  ∃ e, scenario_step optimize d tol xrsol yrsol nsol it s = Err e.
Proof.
  intros Hr Hcap. unfold scenario_step.
  destruct (modifyAndSolveSP optimize d s xrsol yrsol (it_SP it))
    as [[SP' [q du]]|e]; simpl; [|eauto].
  destruct (dualSPobj d xrsol yrsol s du) as [dual|e] eqn:Hd; simpl; [|eauto].
  rewrite (infinite_bandwidth_fails_check _ _ _ _ _ q _ Hr Hcap Hd).
  simpl. eauto.
Qed.

(** With a router of infinite bandwidth and a scenario to evaluate, the
    first iteration raises, whatever the engine answers. *)
Lemma infinite_bandwidth_never_returns epsilon r fuel :
  r ∈ routers d → R_BCapacity d r = PInf → scenarios d ≠ [] →
  ∃ e, multiBenders optimize d tol epsilon (S fuel) = Raised e.
Proof.
  intros Hr Hcap Hss. unfold multiBenders, run.
  destruct (init d) as [st0|e] eqn:Hinit; [|eauto].
  assert (Hc : cutFound st0 = true).
  { unfold init in Hinit. bind_inv Hinit as SP0 HSP. by simplify_eq. }
  simpl. rewrite Hc. unfold body. cbv zeta.
  destruct (first_stage_cost _ _ _) as [UB0|e]; simpl; [|eauto].
  destruct (scenarios d) as [|s ss]; [done|]. simpl.
  edestruct infinite_bandwidth_step_raises as [e He]; [exact Hr|exact Hcap|].
  rewrite He. simpl. eauto.
Qed.

End InfiniteCapacity.


(** ** The bounds *)

Lemma fle_trans a b c : fle a b → fle b c → fle a c.
Proof.
  destruct a, b, c; simpl; try done. apply Qle_trans.
Qed.

Lemma py_min_le_r a b : py_min a b <= b.
Proof.
  unfold py_min. destruct (PyFloat.Qltb b a) eqn:E.
  - apply Qle_refl.
  - apply Qnot_lt_le. intros Hlt. apply Qltb_lt in Hlt. congruence.
Qed.

Lemma py_min_le_l a b : py_min a b <= a.
Proof.
  unfold py_min. destruct (PyFloat.Qltb b a) eqn:E.
  - apply Qltb_lt in E. by apply Qlt_le_weak.
  - apply Qle_refl.
Qed.

Lemma mapM_app {A B} (g : A → Res B) l1 l2 :
  mapM g (l1 ++ l2)
  = (b1 ← mapM g l1; b2 ← mapM g l2; Ok (b1 ++ b2)).
Proof.
  induction l1 as [|a l1 IH]; simpl.
  - by destruct (mapM g l2).
  - destruct (g a); simpl; [|done]. rewrite IH.
    destruct (mapM g l1); simpl; [|done]. by destruct (mapM g l2).
Qed.

Lemma mapM_id_map {A B} (h : A → Res B) (g : A → B) l :
  (∀ a, In a l → h a = Ok (g a)) → mapM id (map h l) = Ok (map g l).
Proof.
  induction l as [|a l IH]; intros Hall; simpl; [done|].
  rewrite (Hall a) by (by left). simpl. rewrite IH; [done|].
  intros b Hb. apply Hall. by right.
Qed.

Lemma mapM_id_flat_map {A B} (h : A → list (Res B)) (g : A → list B) l :
  (∀ a, In a l → mapM id (h a) = Ok (g a)) →
  mapM id (flat_map h l) = Ok (flat_map g l).
Proof.
  induction l as [|a l IH]; intros Hall; simpl; [done|].
  rewrite mapM_app, (Hall a) by (by left). simpl. rewrite IH; [done|].
  intros b Hb. apply Hall. by right.
Qed.

Section Bounds.

Variable optimize : Model → Solution.
Variable d : Instance.
Variable tol : Q.
Variable epsilon : Q.

Local Abbreviation body := (body optimize d tol epsilon).
Local Abbreviation loop_step := (loop_step optimize d tol epsilon).

Lemma mapM_id_for_pvu {B} (h : string → string → string → Res B) g :
  (∀ u v p, In u (users d) → In v (VMs d) → In p (providers d) →
            h u v p = Ok (g u v p)) →
  mapM id (for_pvu d h) = Ok (for_pvu d g).
Proof.
  intros Hall. unfold for_pvu.
  apply mapM_id_flat_map. intros p Hp.
  apply mapM_id_flat_map. intros v Hv.
  apply mapM_id_map. intros u Hu. by apply Hall.
Qed.

Lemma mapM_id_for_ru {B} (h : string → string → Res B) g :
  (∀ u r, In u (users d) → In r (routers d) → h u r = Ok (g u r)) →
  mapM id (for_ru d h) = Ok (for_ru d g).
Proof.
  intros Hall. unfold for_ru.
  apply mapM_id_flat_map. intros r Hr.
  apply mapM_id_map. intros u Hu. by apply Hall.
Qed.

Lemma elem_of_keys_uvp u v p :
  In u (users d) → In v (VMs d) → In p (providers d) →
  (u, v, p) ∈ keys_uvp d.
Proof.
  intros Hu Hv Hp. unfold keys_uvp. apply list_elem_of_In, in_flat_map.
  exists u. split; [done|]. apply in_flat_map. exists v. split; [done|].
  apply in_map_iff. by exists p.
Qed.

Lemma elem_of_keys_ur u r :
  In u (users d) → In r (routers d) → (u, r) ∈ keys_ur d.
Proof.
  intros Hu Hr. unfold keys_ur. apply list_elem_of_In, in_flat_map.
  exists u. split; [done|]. apply in_map_iff. by exists r.
Qed.

(** The first part of the upper bound is the reservation cost of the
    point the master reports. *)
Lemma first_stage_cost_value sol :
  first_stage_cost d (get_xrsol d sol) (get_yrsol d sol)
  = Ok (Qsum (for_pvu d (fun u v p => VM_rcost d v * X sol (xr u v p)))
        + Qsum (for_ru d (fun u r => R_rcost d r * X sol (yr u r)))).
Proof.
  unfold first_stage_cost, Qsum_of.
  rewrite (mapM_id_for_pvu _
             (fun u v p => VM_rcost d v * X sol (xr u v p))).
  2:{ intros u v p Hu Hv Hp. unfold getitem.
      by rewrite get_xrsol_lookup by by apply elem_of_keys_uvp. }
  simpl.
  rewrite (mapM_id_for_ru _ (fun u r => R_rcost d r * X sol (yr u r))).
  2:{ intros u r Hu Hr. unfold getitem.
      by rewrite get_yrsol_lookup by by apply elem_of_keys_ur. }
  done.
Qed.

Lemma plus_recourse_sum a l :
  plus_recourse d a l
  == a + Qsum (map (fun '(s, (q, _, _, _)) => prob d s * q) l).
Proof.
  unfold plus_recourse. revert a.
  induction l as [|[s [[[q du] e] viol]] l IH]; intros a; simpl.
  - unfold Qsum. simpl. lra.
  - rewrite IH, Qsum_cons. lra.
Qed.

Lemma loop_step_bestUB c1 c2 :
  loop_step c1 c2 → bestUB c2.1 <= bestUB c1.1.
Proof.
  intros [st st' b _ Hb]. simpl.
  apply body_outcome in Hb. cbv zeta in Hb.
  destruct Hb as (UB0 & outs & _ & _ & _ & _ & -> & _).
  apply py_min_le_r.
Qed.

Lemma loop_steps_bestUB c1 c2 :
  rtc loop_step c1 c2 → bestUB c2.1 <= bestUB c1.1.
Proof.
  induction 1 as [c|c1 c2 c3 Hstep _ IH]; [apply Qle_refl|].
  eapply Qle_trans; [exact IH|]. by apply loop_step_bestUB.
Qed.

Lemma feasible_prefix M M' more y :
  vars M' = vars M → constrs M' = constrs M ++ more →
  feasible M' y → feasible M y.
Proof.
  unfold feasible. intros -> ->. rewrite Forall_app. tauto.
Qed.

(** C5: take two iterations of one run, A and a later one B.  The
    upper bound of iteration A is the reservation cost of the master's
    point plus the probability-weighted recourse costs of the scenarios,
    and the best upper bound becomes the minimum of it and the previous
    best: it is one of the two and at most both; the best upper bound
    never increases from one iteration to a later one, and after B it
    is at most the upper bound of A; and if the engine solves the master
    of A to optimality and reports a feasible point with its objective
    for the master of B, the master objective of B is at least that of
    A. *)
Theorem C5_bounds_monotone stA stA' bA stB stB' bB :
  loop_step (stA, false) (stA', bA) →
  rtc loop_step (stA', bA) (stB, false) →
  loop_step (stB, false) (stB', bB) →
  (∃ UB0 outs,
     first_stage_cost d (get_xrsol d (optimize (MP stA)))
       (get_yrsol d (optimize (MP stA))) = Ok UB0
     ∧ UB0 == Qsum (for_pvu d (fun u v p =>
                      VM_rcost d v * X (optimize (MP stA)) (xr u v p)))
              + Qsum (for_ru d (fun u r =>
                        R_rcost d r * X (optimize (MP stA)) (yr u r)))
     ∧ mapM (scenario_outcome optimize d tol (SP stA)
               (get_xrsol d (optimize (MP stA)))
               (get_yrsol d (optimize (MP stA)))
               (get_nsol d (optimize (MP stA)))) (scenarios d) = Ok outs
     ∧ UB stA' = Some (plus_recourse d UB0 (zip (scenarios d) outs))
     ∧ plus_recourse d UB0 (zip (scenarios d) outs)
       == UB0 + Qsum (map (fun '(s, (q, _, _, _)) => prob d s * q)
                          (zip (scenarios d) outs))
     ∧ bestUB stA'
       = py_min (plus_recourse d UB0 (zip (scenarios d) outs))
                (bestUB stA)
     ∧ bestUB stA' <= plus_recourse d UB0 (zip (scenarios d) outs)
     ∧ (bestUB stA' = plus_recourse d UB0 (zip (scenarios d) outs)
        ∨ bestUB stA' = bestUB stA)
     ∧ bestUB stB' <= plus_recourse d UB0 (zip (scenarios d) outs))
  ∧ bestUB stA' <= bestUB stA
  ∧ bestUB stB' <= bestUB stA'
  ∧ (reports_optimum (MP stA) (optimize (MP stA)) →
     feasible (MP stB) (X (optimize (MP stB))) →
     consistent (MP stB) (optimize (MP stB)) →
     ∃ oA oB, MPobj stA' = Some oA ∧ MPobj stB' = Some oB ∧ oA <= oB).
Proof.
  intros HA HAB HB.
  pose proof (loop_step_bestUB _ _ HA) as HbA.
  pose proof (loop_steps_bestUB _ _ HAB) as HbAB.
  pose proof (loop_step_bestUB _ _ HB) as HbB.
  pose proof (loop_steps_constrs _ _ _ _ _ _ HAB) as HcAB.
  simpl in *.
  inversion HA as [? ? ? _ HbodyA]; subst.
  inversion HB as [? ? ? _ HbodyB]; subst.
  pose proof (body_constrs _ _ _ _ _ _ _ HbodyA) as HcA.
  apply body_outcome in HbodyA, HbodyB. cbv zeta in HbodyA, HbodyB.
  destruct HbodyA as (UB0 & outs & HUB0 & Hm & _ & HUB & Hbest & _ & _ & _
                      & HobjA & _).
  destruct HbodyB as (_ & _ & _ & _ & _ & _ & _ & _ & _ & _ & HobjB & _).
  split; [|split; [done|split; [by eapply Qle_trans|]]].
  - exists UB0, outs. rewrite first_stage_cost_value in HUB0.
    injection HUB0 as <-.
    repeat split; try done.
    + apply first_stage_cost_value.
    + apply plus_recourse_sum.
    + rewrite Hbest. apply py_min_le_l.
    + rewrite Hbest. unfold py_min. destruct (PyFloat.Qltb _ _); auto.
    + eapply Qle_trans; [exact HbB|]. eapply Qle_trans; [exact HbAB|].
      rewrite Hbest. apply py_min_le_l.
  - intros (_ & _ & Hopt) Hfeas [_ Hcons].
    exists (objVal (optimize (MP stA))), (objVal (optimize (MP stB))).
    split; [done|]. split; [done|].
    destruct HcA as (m1 & Hc1 & _ & Hv1 & Ho1 & _).
    destruct HcAB as (m2 & Hc2 & _ & Hv2 & Ho2 & _).
    assert (HfA : feasible (MP stA) (X (optimize (MP stB)))).
    { eapply (feasible_prefix _ _ (m1 ++ m2)); [| |exact Hfeas].
      - by rewrite Hv2, Hv1.
      - by rewrite Hc2, Hc1, app_assoc. }
    apply Hopt in HfA.
    assert (Heq : objective_at (MP stA) (X (optimize (MP stB)))
                  = objective_at (MP stB) (X (optimize (MP stB)))).
    { unfold objective_at. by rewrite Ho2, Ho1. }
    rewrite Heq in HfA.
    exact (fle_trans _ _ _ HfA Hcons).
Qed.

End Bounds.

(** ** Termination and the gap *)

Section Gap.

Variable optimize : Model → Solution.
Variable d : Instance.
Variable tol : Q.
Variable epsilon : Q.

Local Abbreviation body := (body optimize d tol epsilon).
Local Abbreviation while_cutFound := (while_cutFound optimize d tol epsilon).
Local Abbreviation run := (run optimize d tol epsilon).
Local Abbreviation multiBenders := (multiBenders optimize d tol epsilon).

Lemma MP_objective_eval x :
  eval_terms x (terms (MP_objective d))
  == Qsum (for_pvu d (fun u v p => VM_rcost d v * x (xr u v p)))
     + Qsum (for_ru d (fun u r => R_rcost d r * x (yr u r)))
     + Qsum (map (fun s => prob d s * x (n s)) (scenarios d)).
Proof.
  simpl. rewrite !eval_terms_app. unfold eval_terms.
  rewrite map_for_pvu, map_for_ru, map_map. lra.
Qed.

Lemma body_master st st' b cuts :
  MP st = master_with_cuts d cuts → body st = Ok (st', b) →
  MP st' = master_with_cuts d (constrs (MP st')).
Proof.
  intros HM Hb. destruct (body_constrs _ _ _ _ _ _ _ Hb)
    as (more & Hc & Hn & Hv & Ho & Hs).
  rewrite HM in Hn, Hv, Ho, Hs. simpl in *.
  destruct (MP st') as [nm vs cs ob se]. simpl in *. by subst.
Qed.

Lemma gap_le_epsilon bUB o :
  0 <= epsilon → bUB - o <= epsilon → gap bUB o <= epsilon.
Proof.
  intros He Hle. unfold gap.
  assert (Hpos : 0 < 1 + Qabs bUB).
  { pose proof (Qabs_nonneg bUB). lra. }
  apply Qle_shift_div_r; [done|].
  pose proof (Qabs_nonneg bUB). nra.
Qed.

Section Contract.

Hypothesis prob_nonneg : ∀ s, s ∈ scenarios d → 0 <= prob d s.
Hypothesis prob_total : Qsum (map (prob d) (scenarios d)) <= 1.
Hypothesis tol_nonneg : 0 <= tol.
Hypothesis tol_le_epsilon : tol <= epsilon.

Lemma plus_recourse_no_violation (eta : string → Q) ss outs a :
  Forall2 (fun s (o : Q * Duals * LinExpr * bool) =>
             o.1.1.1 - tol <= eta s ∧ 0 <= prob d s) ss outs →
  plus_recourse d a (zip ss outs)
  <= a + Qsum (map (fun s => prob d s * eta s) ss)
       + tol * Qsum (map (prob d) ss).
Proof.
  intros H. revert a.
  induction H as [|s [[[q du] e] viol] ss outs [Hq Hp] _ IH]; intros a.
  - unfold plus_recourse, Qsum. simpl. lra.
  - simpl in Hq. change (plus_recourse d a (zip (s :: ss) ((q, du, e, viol) :: outs)))
      with (plus_recourse d (a + prob d s * q) (zip ss outs)).
    simpl. rewrite !Qsum_cons.
    eapply Qle_trans; [apply IH|]. nra.
Qed.

Lemma outcomes_no_violation sol SP0 ss outs :
  (∀ s, s ∈ ss → s ∈ scenarios d) →
  Forall2 (fun s o =>
             scenario_outcome optimize d tol SP0 (get_xrsol d sol)
               (get_yrsol d sol) (get_nsol d sol) s = Ok o) ss outs →
  existsb (fun o => o.2) outs = false →
  Forall2 (fun s (o : Q * Duals * LinExpr * bool) =>
             o.1.1.1 - tol <= X sol (n s) ∧ 0 <= prob d s) ss outs.
Proof.
  intros Hin Hm.
  induction Hm as [|s [[[q du] e] viol] ss' outs Ho _ IH]; intros Hcf.
  - constructor.
  - simpl in Hcf. apply orb_false_iff in Hcf as [Hv Hcf]. subst viol.
    constructor.
    + split; [|apply prob_nonneg, Hin; by left]. simpl.
      apply scenario_outcome_inv in Ho
        as (SP' & dual & eta & _ & _ & _ & Hn & _ & Hv).
      rewrite get_nsol_lookup in Hn by (apply Hin; by left).
      simplify_eq. symmetry in Hv.
      apply Qnot_lt_le. intros Hlt. apply Qltb_lt in Hlt. congruence.
    + apply IH; [|done]. intros s' Hs'. apply Hin. by right.
Qed.

(** An iteration that finds no cut passes the convergence check. *)
Lemma no_cut_within_gap st st' b cuts :
  MP st = master_with_cuts d cuts →
  consistent (MP st) (optimize (MP st)) →
  body st = Ok (st', b) → cutFound st' = false →
  b = true.
Proof.
  intros HM [Hc1 Hc2] Hb Hcf.
  pose proof (body_outcome _ _ _ _ _ _ _ Hb) as Ho. cbv zeta in Ho.
  destruct Ho as (UB0 & outs & HUB0 & Hm & _ & _ & Hbest & Hcf' & _ & _
                  & _ & ->).
  apply Qle_bool_iff. apply gap_le_epsilon; [lra|].
  set (sol := optimize (MP st)) in *.
  rewrite first_stage_cost_value in HUB0. injection HUB0 as HUB0.
  unfold objective_at in Hc1, Hc2. rewrite HM in Hc1, Hc2.
  cbn [objective master_with_cuts const MP_objective] in Hc1, Hc2.
  change (terms (mkLinExpr ?t ?c)) with t in Hc1, Hc2.
  simpl in Hc1, Hc2.
  pose proof (MP_objective_eval (X sol)) as Hev. simpl in Hev.
  assert (Hall : Forall2 (fun s (o : Q * Duals * LinExpr * bool) =>
             o.1.1.1 - tol <= X sol (n s) ∧ 0 <= prob d s)
            (scenarios d) outs).
  { apply mapM_Forall2 in Hm. rewrite Hcf' in Hcf.
    by eapply outcomes_no_violation. }
  pose proof (plus_recourse_no_violation (fun s => X sol (n s)) _ _ UB0
                Hall) as Hbound.
  pose proof (py_min_le_l (plus_recourse d UB0 (zip (scenarios d) outs))
                (bestUB st)) as Hmin.
  rewrite <- Hbest in Hmin.
  assert (tol * Qsum (map (prob d) (scenarios d)) <= tol) by nra.
  subst UB0. cbv beta in Hbound. lra.
Qed.

End Contract.

(** How the loop can have ended. *)
Lemma while_cutFound_returned fuel : ∀ st st' cuts,
  MP st = master_with_cuts d cuts →
  while_cutFound fuel st = Returned st' →
  (cutFound st = false ∧ st' = st)
  ∨ ∃ stp cutsp b, MP stp = master_with_cuts d cutsp
                   ∧ body stp = Ok (st', b)
                   ∧ (b = true ∨ cutFound st' = false).
Proof.
  induction fuel as [|fuel IH]; intros st st' cuts HM H; simpl in H.
  - destruct (cutFound st); [done|]. left. by simplify_eq.
  - destruct (cutFound st) eqn:Hc; [|left; by simplify_eq].
    destruct (body st) as [[st1 [|]]|e] eqn:Hb; [| |done].
    + injection H as <-. right. exists st, cuts, true.
      split; [done|]. split; [done|]. by left.
    + pose proof (body_master _ _ _ _ HM Hb) as HM1.
      destruct (IH _ _ _ HM1 H) as [[Hc1 ->]|Hr]; [|by right].
      right. exists st, cuts, false.
      split; [done|]. split; [done|]. by right.
Qed.

(** The loop is left through [break] only within the gap. *)
Lemma break_within_gap st st' :
  body st = Ok (st', true) →
  ∃ o, MPobj st' = Some o ∧ gap (bestUB st') o <= epsilon.
Proof.
  intros Hb. apply body_outcome in Hb. cbv zeta in Hb.
  destruct Hb as (UB0 & outs & _ & _ & _ & _ & _ & _ & _ & _ & Hobj & Hbrk).
  exists (objVal (optimize (MP st))). split; [done|].
  symmetry in Hbrk. by apply Qle_bool_iff in Hbrk.
Qed.

(** C1: when the loop has ended and the driver returns the last master
    objective, either the relative gap (bestUB - MPobj) / (1 + |bestUB|)
    is at most epsilon or the last iteration found no violated cut; the
    loop is left through [break], where convergence is reported, only
    with the gap at most epsilon; and when the probabilities are
    non-negative and sum to at most 1, the cut-violation tolerance lies
    between 0 and epsilon, and the engine reports for every master the
    objective of the point it returns, the gap is at most epsilon
    whenever the driver returns. *)
Theorem C1_returns_within_gap fuel st :
  run fuel = Returned st →
  ∃ o, MPobj st = Some o
       ∧ multiBenders fuel = Returned (o, noIters st, noCuts st)
       ∧ (gap (bestUB st) o <= epsilon ∨ cutFound st = false)
       ∧ (∀ stp st', body stp = Ok (st', true) →
                     ∃ o', MPobj st' = Some o'
                           ∧ gap (bestUB st') o' <= epsilon)
       ∧ ((∀ s, s ∈ scenarios d → 0 <= prob d s) →
          Qsum (map (prob d) (scenarios d)) <= 1 →
          0 <= tol → tol <= epsilon →
          (∀ cuts, consistent (master_with_cuts d cuts)
                     (optimize (master_with_cuts d cuts))) →
          gap (bestUB st) o <= epsilon).
Proof.
  intros Hrun. unfold multiBenders. rewrite Hrun.
  unfold run in Hrun.
  destruct (init d) as [st0|e] eqn:Hinit; [|done].
  unfold init in Hinit. bind_inv Hinit as SP0 HSP0. simplify_eq.
  apply (while_cutFound_returned _ _ _ []) in Hrun; [|done].
  destruct Hrun as [[Hc _]|(stp & cutsp & b & HM & Hb & Hend)]; [done|].
  pose proof (body_outcome _ _ _ _ _ _ _ Hb) as Ho. cbv zeta in Ho.
  destruct Ho as (UB0 & outs & _ & _ & _ & _ & _ & _ & _ & _ & Hobj & Hbrk).
  exists (objVal (optimize (MP stp))). rewrite Hobj.
  split; [done|]. split; [done|]. split; [|split].
  - destruct Hend as [->|Hcf]; [|by right]. left.
    symmetry in Hbrk. by apply Qle_bool_iff in Hbrk.
  - intros stq st' Hq. by eapply break_within_gap.
  - intros Hp Ht Htol Hte Hcons.
    assert (Hb' : b = true).
    { destruct Hend as [->|Hcf]; [done|].
      eapply no_cut_within_gap; try eassumption.
      rewrite HM. apply Hcons. }
    rewrite Hb' in Hbrk. symmetry in Hbrk. by apply Qle_bool_iff in Hbrk.
Qed.

End Gap.

(** ** Constraint names: the round trip *)

Lemma split_lacks sep s : lacks sep s = true → PyStr.split sep s = [s].
Proof.
  induction s as [|c s IH]; simpl; [done|].
  intros [Hc Hs]%andb_true_iff. apply negb_true_iff in Hc. rewrite Hc.
  by rewrite IH.
Qed.

Lemma append_cons x (a b : string) : String x a +:+ b = String x (a +:+ b).
Proof. reflexivity. Qed.

Lemma append_nil (b : string) : EmptyString +:+ b = b.
Proof. reflexivity. Qed.

Lemma split_app sep a b :
  lacks sep a = true →
  PyStr.split sep (a +:+ String sep b) = a :: PyStr.split sep b.
Proof.
  induction a as [|c a IH].
  - intros _. rewrite append_nil. cbn [PyStr.split].
    by rewrite Ascii.eqb_refl.
  - intros H. cbn [lacks] in H. apply andb_true_iff in H as [Hc Ha].
    apply negb_true_iff in Hc.
    rewrite append_cons. cbn [PyStr.split]. rewrite Hc. by rewrite IH.
Qed.

Lemma drop_last_app a c : PyStr.drop_last (a +:+ String c EmptyString) = a.
Proof.
  induction a as [|c' a IH]; [done|].
  rewrite append_cons. cbn [PyStr.drop_last]. rewrite IH.
  destruct a; [done|]. by rewrite append_cons.
Qed.

Lemma lacks_app c a b : lacks c (a +:+ b) = lacks c a && lacks c b.
Proof.
  induction a as [|c' a IH]; [done|].
  rewrite append_cons. cbn [lacks]. rewrite IH. by rewrite andb_assoc.
Qed.

Lemma append_assoc (a b c : string) : (a +:+ b) +:+ c = a +:+ (b +:+ c).
Proof.
  induction a as [|x a IH]; [done|]. rewrite !append_cons. by rewrite IH.
Qed.

Lemma split_name_indexed name idx :
  lacks "[" name = true → lacks "[" (PyStr.join "," idx) = true →
  split_name (indexed_name name idx) = Ok (name, PyStr.join "," idx).
Proof.
  intros Hn Hi. unfold split_name, indexed_name.
  assert (E : (name +:+ "[" +:+ PyStr.join "," idx +:+ "]")%string
              = ((name +:+ String "[" (PyStr.join "," idx)) +:+ "]")%string).
  { rewrite append_assoc. reflexivity. }
  rewrite E, drop_last_app, split_app by done. by rewrite split_lacks.
Qed.

Lemma split_join1 a : lacks "," a = true → PyStr.split "," (PyStr.join "," [a]) = [a].
Proof. simpl. apply split_lacks. Qed.

Lemma split_join2 a b :
  lacks "," a = true → lacks "," b = true →
  PyStr.split "," (PyStr.join "," [a; b]) = [a; b].
Proof.
  intros Ha Hb. cbn [PyStr.join].
  change (a +:+ "," +:+ b)%string with (a +:+ String "," b)%string.
  rewrite split_app by done. by rewrite split_lacks.
Qed.

Lemma split_join3 a b c :
  lacks "," a = true → lacks "," b = true → lacks "," c = true →
  PyStr.split "," (PyStr.join "," [a; b; c]) = [a; b; c].
Proof.
  intros Ha Hb Hc. cbn [PyStr.join].
  change (a +:+ "," +:+ b +:+ "," +:+ c)%string
    with (a +:+ String "," (b +:+ String "," c))%string.
  rewrite split_app by done. rewrite split_app by done.
  by rewrite split_lacks.
Qed.

(** ** The evaluator on a freshly built model *)

Lemma mapM_as_map {A B} (g : A → Res B) l : mapM g l = mapM id (map g l).
Proof.
  induction l as [|a l IH]; simpl; [done|]. by rewrite IH.
Qed.

Lemma plain_join1 a : plain a → lacks "[" (PyStr.join "," [a]) = true.
Proof. by intros [? ?]. Qed.

Lemma plain_join2 a b :
  plain a → plain b → lacks "[" (PyStr.join "," [a; b]) = true.
Proof.
  intros [Ha _] [Hb _]. cbn [PyStr.join]. rewrite !lacks_app, Ha, Hb. done.
Qed.

Lemma plain_join3 a b c :
  plain a → plain b → plain c →
  lacks "[" (PyStr.join "," [a; b; c]) = true.
Proof.
  intros [Ha _] [Hb _] [Hc _]. cbn [PyStr.join].
  rewrite !lacks_app, Ha, Hb, Hc. done.
Qed.

Section BuiltModel.

Variable optimize : Model → Solution.
Variable d : Instance.
Hypothesis Hwn : well_named d.

Lemma plain_user u : In u (users d) → plain u.
Proof.
  destruct Hwn as (H & _). rewrite Forall_forall in H.
  intros Hu. apply H. by apply list_elem_of_In.
Qed.
Lemma plain_VM v : In v (VMs d) → plain v.
Proof.
  destruct Hwn as (_ & H & _). rewrite Forall_forall in H.
  intros Hu. apply H. by apply list_elem_of_In.
Qed.
Lemma plain_provider p : In p (providers d) → plain p.
Proof.
  destruct Hwn as (_ & _ & H & _). rewrite Forall_forall in H.
  intros Hu. apply H. by apply list_elem_of_In.
Qed.
Lemma plain_router r : In r (routers d) → plain r.
Proof.
  destruct Hwn as (_ & _ & _ & H & _). rewrite Forall_forall in H.
  intros Hu. apply H. by apply list_elem_of_In.
Qed.

Lemma mapM_for_pvu {A B} (g : A → Res B) h h' :
  (∀ u v p, In u (users d) → In v (VMs d) → In p (providers d) →
            g (h u v p) = Ok (h' u v p)) →
  mapM g (for_pvu d h) = Ok (for_pvu d h').
Proof.
  intros H. rewrite mapM_as_map, map_for_pvu. by apply mapM_id_for_pvu.
Qed.

Lemma mapM_for_ru {A B} (g : A → Res B) h h' :
  (∀ u r, In u (users d) → In r (routers d) → g (h u r) = Ok (h' u r)) →
  mapM g (for_ru d h) = Ok (for_ru d h').
Proof.
  intros H. rewrite mapM_as_map, map_for_ru. by apply mapM_id_for_ru.
Qed.

Lemma mapM_Ok_same {A} (g : A → Res A) l :
  (∀ a, In a l → g a = Ok a) → mapM g l = Ok l.
Proof.
  induction l as [|a l IH]; intros H; simpl; [done|].
  rewrite (H a) by (by left). simpl. rewrite IH; [done|].
  intros b Hb. apply H. by right.
Qed.

(** A row outside the three placeholder families is left as it is. *)
Lemma modify_rhs_other s x y c name idx :
  constrName c = indexed_name name idx →
  lacks "[" name = true → lacks "[" (PyStr.join "," idx) = true →
  String.eqb name "VM utilization bound" = false →
  String.eqb name "R utilization bound" = false →
  String.eqb name "VM demand" = false →
  modify_rhs d s x y c = Ok c.
Proof.
  intros Hc Hn Hi E1 E2 E3. unfold modify_rhs.
  rewrite Hc, split_name_indexed by done. simpl. by rewrite E1, E2, E3.
Qed.

Lemma mapM_app_Ok {A B} (g : A → Res B) l1 l2 b1 b2 :
  mapM g l1 = Ok b1 → mapM g l2 = Ok b2 → mapM g (l1 ++ l2) = Ok (b1 ++ b2).
Proof. intros H1 H2. by rewrite mapM_app, H1, H2. Qed.

Lemma mapM_elem {A B} (g : A → Res B) l bs b :
  mapM g l = Ok bs → In b bs → ∃ a, In a l ∧ g a = Ok b.
Proof.
  revert bs. induction l as [|a l IH]; intros bs H Hb; simpl in H.
  - by simplify_eq.
  - bind_inv H as b' Hb'. bind_inv H as bs' Hbs'. simplify_eq.
    destruct Hb as [->|Hb].
    + exists a. split; [by left|done].
    + destruct (IH _ Hbs' Hb) as (a' & ? & ?). exists a'.
      split; [by right|done].
Qed.

Lemma modify_VM_utilization_row s xrsol yrsol u v p q0 q :
  plain u → plain v → plain p → xrsol !! (u, v, p) = Some q →
  modify_rhs d s xrsol yrsol
    (mkConstr (indexed_name "VM utilization bound" [p; v; u])
              [(1, xu u v p)] LESS_EQUAL [] (Fin q0))
  = Ok (mkConstr (indexed_name "VM utilization bound" [p; v; u])
                 [(1, xu u v p)] LESS_EQUAL [] (Fin q)).
Proof.
  intros Hu Hv Hp Hx. unfold modify_rhs. cbn [constrName].
  rewrite split_name_indexed; [|done|by apply plain_join3].
  cbv beta iota zeta delta [mbind Res_bind].
  rewrite split_join3; [|apply Hp|apply Hv|apply Hu].
  unfold getitem. rewrite Hx. reflexivity.
Qed.

Lemma modify_R_utilization_row s xrsol yrsol u r q0 q :
  plain u → plain r → yrsol !! (u, r) = Some q →
  modify_rhs d s xrsol yrsol
    (mkConstr (indexed_name "R utilization bound" [r; u])
              [(1, yu u r)] LESS_EQUAL [] (Fin q0))
  = Ok (mkConstr (indexed_name "R utilization bound" [r; u])
                 [(1, yu u r)] LESS_EQUAL [] (Fin q)).
Proof.
  intros Hu Hr Hy. unfold modify_rhs. cbn [constrName].
  rewrite split_name_indexed; [|done|by apply plain_join2].
  cbv beta iota zeta delta [mbind Res_bind].
  rewrite split_join2; [|apply Hr|apply Hu].
  unfold getitem. rewrite Hy. reflexivity.
Qed.

Lemma modify_VM_demand_row s xrsol yrsol u v l q0 :
  plain u → plain v →
  modify_rhs d s xrsol yrsol
    (mkConstr (indexed_name "VM demand" [v; u]) l GREATER_EQUAL []
              (Fin q0))
  = Ok (mkConstr (indexed_name "VM demand" [v; u]) l GREATER_EQUAL []
                 (Fin (VM_demands d s u v))).
Proof.
  intros Hu Hv. unfold modify_rhs. cbn [constrName].
  rewrite split_name_indexed; [|done|by apply plain_join2].
  cbv beta iota zeta delta [mbind Res_bind].
  rewrite split_join2; [|apply Hv|apply Hu]. reflexivity.
Qed.

Lemma mapM_for_vu {A B} (g : A → Res B) h h' :
  (∀ u v, In u (users d) → In v (VMs d) → g (h u v) = Ok (h' u v)) →
  mapM g (for_vu d h) = Ok (for_vu d h').
Proof.
  intros H. rewrite mapM_as_map. unfold for_vu. rewrite map_flat_map.
  apply mapM_id_flat_map. intros v Hv. rewrite map_map.
  apply mapM_id_map. intros u Hu. by apply H.
Qed.

Lemma modify_capacity s xrsol yrsol name c cap :
  lacks "[" name = true →
  String.eqb name "VM utilization bound" = false →
  String.eqb name "R utilization bound" = false →
  String.eqb name "VM demand" = false →
  mapM (modify_rhs d s xrsol yrsol) (capacity d name c cap)
  = Ok (capacity d name c cap).
Proof.
  intros Hn E1 E2 E3. apply mapM_Ok_same. intros a Ha.
  unfold capacity in Ha. apply in_map_iff in Ha as (p & <- & Hp).
  eapply modify_rhs_other; [reflexivity|done| |done|done|done].
  apply plain_join1. by apply plain_provider.
Qed.

Lemma modify_Bandwidth_capacity s xrsol yrsol :
  mapM (modify_rhs d s xrsol yrsol) (Bandwidth_capacity d)
  = Ok (Bandwidth_capacity d).
Proof.
  apply mapM_Ok_same. intros a Ha.
  unfold Bandwidth_capacity in Ha. apply in_map_iff in Ha as (r & <- & Hr).
  eapply modify_rhs_other; [reflexivity|done| |done|done|done].
  apply plain_join1. by apply plain_router.
Qed.

Lemma modify_for_ur s xrsol yrsol name (row : string → string → Constr) :
  (∀ u r, constrName (row u r) = indexed_name name [u; r]) →
  lacks "[" name = true →
  String.eqb name "VM utilization bound" = false →
  String.eqb name "R utilization bound" = false →
  String.eqb name "VM demand" = false →
  mapM (modify_rhs d s xrsol yrsol) (for_ur d row) = Ok (for_ur d row).
Proof.
  intros Hrow Hn E1 E2 E3. apply mapM_Ok_same. intros a Ha.
  unfold for_ur in Ha. apply in_flat_map in Ha as (u & Hu & Ha).
  apply in_map_iff in Ha as (r & <- & Hr).
  eapply modify_rhs_other; [apply Hrow|done| |done|done|done].
  apply plain_join2; [by apply plain_user|by apply plain_router].
Qed.

Lemma modify_R_demand s xrsol yrsol :
  mapM (modify_rhs d s xrsol yrsol) (R_demand d) = Ok (R_demand d).
Proof.
  apply mapM_Ok_same. intros a Ha.
  unfold R_demand in Ha. apply in_flat_map in Ha as (p & Hp & Ha).
  apply in_map_iff in Ha as (u & <- & Hu).
  eapply modify_rhs_other; [reflexivity|done| |done|done|done].
  apply plain_join2; [by apply plain_provider|by apply plain_user].
Qed.

Lemma modify_U_balance s xrsol yrsol ub :
  mapM (U_balance_of d) (users d) = Ok ub →
  mapM (modify_rhs d s xrsol yrsol) ub = Ok ub.
Proof.
  intros Hub. apply mapM_Ok_same. intros a Ha.
  destruct (mapM_elem _ _ _ _ Hub Ha) as (u & Hu & Hrow).
  unfold U_balance_of in Hrow. bind_inv Hrow as from_P HP. simplify_eq.
  eapply modify_rhs_other; [reflexivity|done| |done|done|done].
  apply plain_join1. by apply plain_user.
Qed.

Lemma modify_SP_rows (s : string)
    (xrsol : gmap (string * string * string) Q)
    (yrsol : gmap (string * string) Q) (xv a : string → string → string → Q)
    (yv b : string → string → Q) (c : string → string → Q)
    (ub : list Constr) :
  (∀ u v p, In u (users d) → In v (VMs d) → In p (providers d) →
            xrsol !! (u, v, p) = Some (xv u v p)) →
  (∀ u r, In u (users d) → In r (routers d) →
          yrsol !! (u, r) = Some (yv u r)) →
  mapM (U_balance_of d) (users d) = Ok ub →
  mapM (modify_rhs d s xrsol yrsol) (SP_rows_at d a b c ub)
  = Ok (SP_rows_at d xv yv (VM_demands d s) ub).
Proof.
  intros Hx Hy Hub. unfold SP_rows_at.
  repeat apply mapM_app_Ok.
  - apply mapM_for_pvu. intros u v p Hu Hv Hp.
    apply modify_VM_utilization_row; auto using plain_user, plain_VM,
      plain_provider.
  - apply mapM_for_ru. intros u r Hu Hr.
    apply modify_R_utilization_row; auto using plain_user, plain_router.
  - by apply modify_capacity.
  - by apply modify_capacity.
  - by apply modify_capacity.
  - apply modify_Bandwidth_capacity.
  - apply mapM_for_vu. intros u v Hu Hv.
    apply modify_VM_demand_row; auto using plain_user, plain_VM.
  - by apply (modify_for_ur s xrsol yrsol "R balance").
  - by apply (modify_for_ur s xrsol yrsol "R usage").
  - apply modify_R_demand.
  - by apply modify_U_balance.
Qed.

End BuiltModel.

(** ** The dual-price maps *)

Lemma insert_is_Some `{Countable K} {V} (m : gmap K V) k k' v :
  is_Some (m !! k') → is_Some (<[k := v]> m !! k').
Proof. intros Hs. apply lookup_insert_is_Some'. by right. Qed.

Lemma insert_is_Some_eq `{Countable K} {V} (m : gmap K V) k v :
  is_Some (<[k := v]> m !! k).
Proof. apply lookup_insert_is_Some'. by left. Qed.

Lemma record_dual_records acc c pi acc' :
  record_dual acc (c, pi) = Ok acc' → dual_recorded acc' c.
Proof.
  unfold record_dual, dual_recorded.
  destruct (split_name (constrName c)) as [[name index]|e]; simpl; [|done].
  repeat (case_match; try done); intros [= <-]; simpl;
    apply insert_is_Some_eq.
Qed.

Lemma record_dual_keeps acc c pi acc' c0 :
  record_dual acc (c, pi) = Ok acc' →
  dual_recorded acc c0 → dual_recorded acc' c0.
Proof.
  unfold record_dual.
  destruct (split_name (constrName c)) as [[name index]|e]; simpl; [|done].
  intros H. unfold dual_recorded.
  destruct (split_name (constrName c0)) as [[name0 index0]|e0]; [|done].
  repeat (case_match; try done); simplify_eq; simpl; try done;
    try apply insert_is_Some.
Qed.

Lemma foldM_record_dual l : ∀ acc acc',
  foldM record_dual l acc = Ok acc' →
  (∀ c0, dual_recorded acc c0 → dual_recorded acc' c0)
  ∧ ∀ c pi, In (c, pi) l → dual_recorded acc' c.
Proof.
  induction l as [|[c pi] l IH]; intros acc acc' H; simpl in H.
  - simplify_eq. split; [done|]. by intros ? ? [].
  - bind_inv H as acc1 H1. destruct (IH _ _ H) as [Hk Hr]. split.
    + intros c0 Hc0. apply Hk. by eapply record_dual_keeps.
    + intros c0 pi0 [[= <- <-]|Hin].
      * apply Hk. by eapply record_dual_records.
      * by eapply Hr.
Qed.

Lemma foldM_total {A S} (g : S → A → Res S) l :
  (∀ a, In a l → ∀ acc, ∃ acc', g acc a = Ok acc') →
  ∀ acc, ∃ acc', foldM g l acc = Ok acc'.
Proof.
  induction l as [|a l IH]; intros H acc; simpl; [eauto|].
  destruct (H a (or_introl eq_refl) acc) as [acc1 ->]. simpl.
  apply IH. intros b Hb. apply H. by right.
Qed.

Section EvaluatorTotal.

Variable optimize : Model → Solution.
Variable d : Instance.

Lemma record_dual_total s x y c0 c acc pi :
  modify_rhs d s x y c0 = Ok c → ∃ acc', record_dual acc (c, pi) = Ok acc'.
Proof.
  intros H. apply modify_rhs_row in H.
  destruct H as (Hn & _ & _ & _ & name & index & Hs & H1 & H2 & H3 & _).
  unfold record_dual. rewrite Hn, Hs. simpl.
  destruct (String.eqb name "VM utilization bound") eqn:E1.
  { apply String.eqb_eq in E1. destruct (H1 E1) as (p & v & u & q & -> & _).
    eauto. }
  destruct (String.eqb name "R utilization bound") eqn:E2.
  { apply String.eqb_eq in E2. destruct (H2 E2) as (r & u & q & -> & _).
    eauto. }
  destruct (String.eqb name "CPU capacity"); [eauto|].
  destruct (String.eqb name "Storage capacity"); [eauto|].
  destruct (String.eqb name "Memory capacity"); [eauto|].
  destruct (String.eqb name "Bandwidth capacity"); [eauto|].
  destruct (String.eqb name "VM demand") eqn:E3; [|eauto].
  apply String.eqb_eq in E3. destruct (H3 E3) as (v & u & -> & _). eauto.
Qed.

Lemma modifyAndSolveSP_Ok s x y SP cs :
  mapM (modify_rhs d s x y) (constrs SP) = Ok cs →
  ∃ du,
    modifyAndSolveSP optimize d s x y SP
    = Ok (mkModel (modelName SP) (vars SP) cs (SP_objective d s)
                  (modelSense SP),
          (objVal (optimize (mkModel (modelName SP) (vars SP) cs
                               (SP_objective d s) (modelSense SP))), du))
    ∧ ∀ c, In c cs → dual_recorded du c.
Proof.
  intros Hm. unfold modifyAndSolveSP. rewrite Hm. simpl.
  set (SP2 := setObjective _ _).
  destruct (foldM_total record_dual (with_pi (optimize SP2) cs))
    with (acc := no_duals) as [du Hdu].
  { intros [c pi] Hin acc. unfold with_pi in Hin.
    apply list_elem_of_In, elem_of_lookup_imap in Hin
      as (i & c' & [= -> ->] & Hi).
    apply mapM_Forall2 in Hm.
    destruct (Forall2_lookup_r _ _ _ _ _ Hm Hi) as (c0 & _ & Hc0).
    by eapply record_dual_total. }
  exists du. rewrite Hdu. split; [done|].
  intros c Hc. apply list_elem_of_In, list_elem_of_lookup in Hc as [i Hi].
  apply foldM_record_dual in Hdu as [_ Hr].
  apply (Hr c (Pi (optimize SP2) i)).
  apply list_elem_of_In, elem_of_lookup_imap. by exists i, c.
Qed.

End EvaluatorTotal.

(** ** No exception but the assertion on well-named instances *)

Section WellNamed.

Variable optimize : Model → Solution.
Variable d : Instance.
Variable tol : Q.
Variable epsilon : Q.
Hypothesis Hwn : well_named d.

Lemma flow_sum_from_P_total u l :
  Forall (fun '(e_out, e_in) => e_out ≠ EmptyString) l →
  ∃ r, flow_sum_from_P u l = Ok r.
Proof.
  induction 1 as [|[e_out e_in] l Hne _ [r IH]]; simpl; [eauto|].
  destruct e_out as [|c e]; [done|]. simpl. rewrite IH. simpl. eauto.
Qed.

Lemma mapM_total {A B} (g : A → Res B) l :
  (∀ a, In a l → ∃ b, g a = Ok b) → ∃ bs, mapM g l = Ok bs.
Proof.
  induction l as [|a l IH]; intros H; simpl; [eauto|].
  destruct (H a (or_introl eq_refl)) as [b ->]. simpl.
  destruct IH as [bs ->]; [|simpl; eauto].
  intros a' Ha'. apply H. by right.
Qed.

Lemma U_balance_total : ∃ ub, mapM (U_balance_of d) (users d) = Ok ub.
Proof.
  apply mapM_total. intros u _. unfold U_balance_of.
  destruct (flow_sum_from_P_total u (arcs d)) as [r ->]; [|simpl; eauto].
  apply Hwn.
Qed.

Lemma buildSP_well_named ub :
  mapM (U_balance_of d) (users d) = Ok ub →
  buildSP d = Ok (SP_at d (fun _ _ _ => 0) (fun _ _ => 0) (fun _ _ => 0) ub
                        (mkLinExpr [] (Fin 0))).
Proof. intros H. unfold buildSP, U_balance. by rewrite H. Qed.

Lemma in_for_pvu {A} (h : string → string → string → A) u v p :
  In u (users d) → In v (VMs d) → In p (providers d) →
  In (h u v p) (for_pvu d h).
Proof.
  intros Hu Hv Hp. unfold for_pvu. apply in_flat_map. exists p.
  split; [done|]. apply in_flat_map. exists v. split; [done|].
  apply in_map_iff. by exists u.
Qed.

Lemma in_for_ru {A} (h : string → string → A) u r :
  In u (users d) → In r (routers d) → In (h u r) (for_ru d h).
Proof.
  intros Hu Hr. unfold for_ru. apply in_flat_map. exists r.
  split; [done|]. apply in_map_iff. by exists u.
Qed.

Lemma in_for_vu {A} (h : string → string → A) u v :
  In u (users d) → In v (VMs d) → In (h u v) (for_vu d h).
Proof.
  intros Hu Hv. unfold for_vu. apply in_flat_map. exists v.
  split; [done|]. apply in_map_iff. by exists u.
Qed.

Lemma recorded_complete du xv yv dem ub :
  (∀ c, In c (SP_rows_at d xv yv dem ub) → dual_recorded du c) →
  duals_complete d du.
Proof.
  intros H. unfold SP_rows_at in H. repeat split.
  - intros u v p Hu Hv Hp.
    specialize (H (mkConstr (indexed_name "VM utilization bound" [p; v; u])
                     [(1, xu u v p)] LESS_EQUAL [] (Fin (xv u v p)))).
    unfold dual_recorded in H. cbn [constrName] in H.
    rewrite split_name_indexed in H;
      [|done|apply plain_join3;
               [exact (plain_provider d Hwn _ Hp)|exact (plain_VM d Hwn _ Hv)
               |exact (plain_user d Hwn _ Hu)]].
    cbv beta iota in H.
    rewrite split_join3 in H;
      [|exact (proj2 (plain_provider d Hwn _ Hp))|exact (proj2 (plain_VM d Hwn _ Hv))
       |exact (proj2 (plain_user d Hwn _ Hu))].
    apply H. apply in_or_app. left.
    by apply (in_for_pvu (fun u v p =>
      mkConstr (indexed_name "VM utilization bound" [p; v; u])
               [(1, xu u v p)] LESS_EQUAL [] (Fin (xv u v p)))).
  - intros u r Hu Hr.
    specialize (H (mkConstr (indexed_name "R utilization bound" [r; u])
                     [(1, yu u r)] LESS_EQUAL [] (Fin (yv u r)))).
    unfold dual_recorded in H. cbn [constrName] in H.
    rewrite split_name_indexed in H;
      [|done|apply plain_join2;
               [exact (plain_router d Hwn _ Hr)|exact (plain_user d Hwn _ Hu)]].
    cbv beta iota in H.
    rewrite split_join2 in H;
      [|exact (proj2 (plain_router d Hwn _ Hr))|exact (proj2 (plain_user d Hwn _ Hu))].
    apply H. apply in_or_app. right. apply in_or_app. left.
    by apply (in_for_ru (fun u r =>
      mkConstr (indexed_name "R utilization bound" [r; u])
               [(1, yu u r)] LESS_EQUAL [] (Fin (yv u r)))).
  - specialize (H (mkConstr (indexed_name "CPU capacity" [p])
                     (load_sum d (VM_CDemand d) p) LESS_EQUAL []
                     (P_CCapacity d p))).
    unfold dual_recorded in H. cbn [constrName] in H.
    rewrite split_name_indexed in H;
      [|done|apply plain_join1; by apply (plain_provider d Hwn)].
    apply H. do 2 (apply in_or_app; right). apply in_or_app. left.
    unfold capacity. apply in_map_iff. by exists p.
  - specialize (H (mkConstr (indexed_name "Storage capacity" [p])
                     (load_sum d (VM_SDemand d) p) LESS_EQUAL []
                     (P_SCapacity d p))).
    unfold dual_recorded in H. cbn [constrName] in H.
    rewrite split_name_indexed in H;
      [|done|apply plain_join1; by apply (plain_provider d Hwn)].
    apply H. do 3 (apply in_or_app; right). apply in_or_app. left.
    unfold capacity. apply in_map_iff. by exists p.
  - specialize (H (mkConstr (indexed_name "Memory capacity" [p])
                     (load_sum d (VM_MDemand d) p) LESS_EQUAL []
                     (P_MCapacity d p))).
    unfold dual_recorded in H. cbn [constrName] in H.
    rewrite split_name_indexed in H;
      [|done|apply plain_join1; by apply (plain_provider d Hwn)].
    apply H. do 4 (apply in_or_app; right). apply in_or_app. left.
    unfold capacity. apply in_map_iff. by exists p.
  - intros r Hr.
    specialize (H (mkConstr (indexed_name "Bandwidth capacity" [r])
                     (flat_map (fun u => [(1, yu u r); (1, yo u r)])
                               (users d))
                     LESS_EQUAL [] (R_BCapacity d r))).
    unfold dual_recorded in H. cbn [constrName] in H.
    rewrite split_name_indexed in H;
      [|done|apply plain_join1; by apply (plain_router d Hwn)].
    apply H. do 5 (apply in_or_app; right). apply in_or_app. left.
    unfold Bandwidth_capacity. apply in_map_iff. by exists r.
  - intros u v Hu Hv.
    specialize (H (mkConstr (indexed_name "VM demand" [v; u])
                     (flat_map (fun p => [(1, xu u v p); (1, xo u v p)])
                               (providers d))
                     GREATER_EQUAL [] (Fin (dem u v)))).
    unfold dual_recorded in H. cbn [constrName] in H.
    rewrite split_name_indexed in H;
      [|done|apply plain_join2;
               [exact (plain_VM d Hwn _ Hv)|exact (plain_user d Hwn _ Hu)]].
    cbv beta iota in H.
    rewrite split_join2 in H;
      [|exact (proj2 (plain_VM d Hwn _ Hv))|exact (proj2 (plain_user d Hwn _ Hu))].
    apply H. do 6 (apply in_or_app; right). apply in_or_app. left.
    by apply (in_for_vu (fun u v =>
      mkConstr (indexed_name "VM demand" [v; u])
               (flat_map (fun p => [(1, xu u v p); (1, xo u v p)])
                         (providers d))
               GREATER_EQUAL [] (Fin (dem u v)))).
Qed.

Lemma evaluate_well_named ub M sol s :
  mapM (U_balance_of d) (users d) = Ok ub → SP_kept d ub M →
  ∃ SP' q du,
    modifyAndSolveSP optimize d s (get_xrsol d sol) (get_yrsol d sol) M
    = Ok (SP', (q, du))
    ∧ SP' = SP_at d (fun u v p => X sol (xr u v p))
                  (fun u r => X sol (yr u r))
                  (fun u v => VM_demands d s u v) ub (SP_objective d s)
    ∧ q = objVal (optimize SP')
    ∧ duals_complete d du.
Proof.
  intros Hub (xv & yv & dem & obj & ->).
  destruct (modifyAndSolveSP_Ok optimize d s (get_xrsol d sol)
              (get_yrsol d sol) (SP_at d xv yv dem ub obj)
              (SP_rows_at d (fun u v p => X sol (xr u v p))
                 (fun u r => X sol (yr u r))
                 (fun u v => VM_demands d s u v) ub))
    as (du & Hm & Hrec).
  { cbn [constrs SP_at]. apply modify_SP_rows; [done| | |done].
    - intros u v p Hu Hv Hp. apply get_xrsol_lookup.
      by apply elem_of_keys_uvp.
    - intros u r Hu Hr. apply get_yrsol_lookup. by apply elem_of_keys_ur. }
  eexists _, _, du. split; [exact Hm|]. split; [reflexivity|].
  split; [reflexivity|]. by eapply recorded_complete.
Qed.

Lemma mapM_id_for_pvu_total {B} (h : string → string → string → Res B) :
  (∀ u v p, In u (users d) → In v (VMs d) → In p (providers d) →
            ∃ b, h u v p = Ok b) →
  ∃ bs, mapM id (for_pvu d h) = Ok bs.
Proof.
  intros H. unfold for_pvu.
  apply mapM_total. intros a Ha.
  apply in_flat_map in Ha as (p & Hp & Ha).
  apply in_flat_map in Ha as (v & Hv & Ha).
  apply in_map_iff in Ha as (u & <- & Hu). by apply H.
Qed.

Lemma mapM_id_for_ru_total {B} (h : string → string → Res B) :
  (∀ u r, In u (users d) → In r (routers d) → ∃ b, h u r = Ok b) →
  ∃ bs, mapM id (for_ru d h) = Ok bs.
Proof.
  intros H. unfold for_ru.
  apply mapM_total. intros a Ha.
  apply in_flat_map in Ha as (r & Hr & Ha).
  apply in_map_iff in Ha as (u & <- & Hu). by apply H.
Qed.

Lemma mapM_id_for_vu_total {B} (h : string → string → Res B) :
  (∀ u v, In u (users d) → In v (VMs d) → ∃ b, h u v = Ok b) →
  ∃ bs, mapM id (for_vu d h) = Ok bs.
Proof.
  intros H. unfold for_vu.
  apply mapM_total. intros a Ha.
  apply in_flat_map in Ha as (v & Hv & Ha).
  apply in_map_iff in Ha as (u & <- & Hu). by apply H.
Qed.

Lemma mapM_id_map_total {A B} (h : A → Res B) l :
  (∀ a, In a l → ∃ b, h a = Ok b) → ∃ bs, mapM id (map h l) = Ok bs.
Proof.
  intros H. apply mapM_total. intros a Ha.
  apply in_map_iff in Ha as (a' & <- & Ha'). by apply H.
Qed.

Lemma getitem_Some `{Countable K} {V} (m : gmap K V) k v :
  m !! k = Some v → getitem m k = Ok v.
Proof. intros Hv. unfold getitem. by rewrite Hv. Qed.

Lemma getitem_is_Some `{Countable K} {V} (m : gmap K V) k :
  is_Some (m !! k) → ∃ v, getitem m k = Ok v.
Proof. intros [v Hv]. exists v. unfold getitem. by rewrite Hv. Qed.

Lemma guarded_capacity_term_total pisol cap p :
  is_Some (pisol !! p) → ∃ t, guarded_capacity_term pisol cap p = Ok t.
Proof.
  intros Hs. unfold guarded_capacity_term.
  destruct (PyFloat.neq_inf (cap p)); [|eauto].
  destruct (getitem_is_Some _ _ Hs) as [v ->]. simpl. eauto.
Qed.

Lemma constants_total s du :
  duals_complete d du →
  ∃ t3 t4 t5 t6 t7,
    CPU_constant d du = Ok t3 ∧ Storage_constant d du = Ok t4
    ∧ Memory_constant d du = Ok t5 ∧ Bandwidth_constant d du = Ok t6
    ∧ demand_constant d s du = Ok t7.
Proof.
  intros (_ & _ & Hc & Hb & Hd).
  unfold CPU_constant, Storage_constant, Memory_constant,
    Bandwidth_constant, demand_constant, fsum_of.
  destruct (mapM_id_map_total
              (guarded_capacity_term (c_pisol du) (P_CCapacity d))
              (providers d)) as [x3 ->].
  { intros p Hp. apply guarded_capacity_term_total. by apply Hc. }
  destruct (mapM_id_map_total
              (guarded_capacity_term (s_pisol du) (P_SCapacity d))
              (providers d)) as [x4 ->].
  { intros p Hp. apply guarded_capacity_term_total. by apply Hc. }
  destruct (mapM_id_map_total
              (guarded_capacity_term (m_pisol du) (P_MCapacity d))
              (providers d)) as [x5 ->].
  { intros p Hp. apply guarded_capacity_term_total. by apply Hc. }
  destruct (mapM_id_map_total (bandwidth_term d (b_pisol du)) (routers d))
    as [x6 ->].
  { intros r Hr. unfold bandwidth_term.
    destruct (getitem_is_Some _ _ (Hb r Hr)) as [v ->]. simpl. eauto. }
  destruct (mapM_id_for_vu_total (fun u v =>
              pi ← getitem (d_pisol du) (u, v);
              Ok (Fin (pi * VM_demands d s u v)))) as [x7 ->].
  { intros u v Hu Hv.
    destruct (getitem_is_Some _ _ (Hd u v Hu Hv)) as [pi ->]. simpl. eauto. }
  simpl. eauto 10.
Qed.

Lemma dualSPobj_total sol s du :
  duals_complete d du →
  ∃ dual, dualSPobj d (get_xrsol d sol) (get_yrsol d sol) s du = Ok dual.
Proof.
  intros Hdu.
  destruct (constants_total s du Hdu)
    as (t3 & t4 & t5 & t6 & t7 & H3 & H4 & H5 & H6 & H7).
  destruct Hdu as (Hvu & Hru & _).
  unfold dualSPobj, fsum_of.
  destruct (mapM_id_for_pvu_total (fun u v p =>
              q ← getitem (get_xrsol d sol) (u, v, p);
              pi ← getitem (vu_pisol du) (u, v, p); Ok (Fin (q * pi))))
    as [x1 ->].
  { intros u v p Hu Hv Hp.
    rewrite (getitem_Some _ _ _ (get_xrsol_lookup d sol u v p
               (elem_of_keys_uvp d u v p Hu Hv Hp))). simpl.
    destruct (getitem_is_Some _ _ (Hvu u v p Hu Hv Hp)) as [pi ->].
    simpl. eauto. }
  destruct (mapM_id_for_ru_total (fun u r =>
              q ← getitem (get_yrsol d sol) (u, r);
              pi ← getitem (ru_pisol du) (u, r); Ok (Fin (q * pi))))
    as [x2 ->].
  { intros u r Hu Hr.
    rewrite (getitem_Some _ _ _ (get_yrsol_lookup d sol u r
               (elem_of_keys_ur d u r Hu Hr))). simpl.
    destruct (getitem_is_Some _ _ (Hru u r Hu Hr)) as [pi ->].
    simpl. eauto. }
  simpl. rewrite H3, H4, H5, H6, H7. simpl. eauto.
Qed.

Lemma expr_total s du :
  duals_complete d du → ∃ e, expr d s du = Ok e.
Proof.
  intros Hdu.
  destruct (constants_total s du Hdu)
    as (t3 & t4 & t5 & t6 & t7 & H3 & H4 & H5 & H6 & H7).
  destruct Hdu as (Hvu & Hru & _).
  unfold expr.
  destruct (mapM_id_for_pvu_total (fun u v p =>
              pi ← getitem (vu_pisol du) (u, v, p); Ok (pi, xr u v p)))
    as [x1 ->].
  { intros u v p Hu Hv Hp.
    destruct (getitem_is_Some _ _ (Hvu u v p Hu Hv Hp)) as [pi ->].
    simpl. eauto. }
  destruct (mapM_id_for_ru_total (fun u r =>
              pi ← getitem (ru_pisol du) (u, r); Ok (pi, yr u r)))
    as [x2 ->].
  { intros u r Hu Hr.
    destruct (getitem_is_Some _ _ (Hru u r Hu Hr)) as [pi ->].
    simpl. eauto. }
  simpl. rewrite H3, H4, H5, H6, H7. simpl. eauto.
Qed.

(** One scenario: the step completes, keeping the subproblem's rows, or
    raises the assertion. *)
Lemma scenario_step_well_named ub sol it s :
  mapM (U_balance_of d) (users d) = Ok ub → SP_kept d ub (it_SP it) →
  s ∈ scenarios d →
  (∃ it', scenario_step optimize d tol (get_xrsol d sol) (get_yrsol d sol)
            (get_nsol d sol) it s = Ok it'
          ∧ SP_kept d ub (it_SP it'))
  ∨ scenario_step optimize d tol (get_xrsol d sol) (get_yrsol d sol)
      (get_nsol d sol) it s = Err (AssertionError "Strong duality").
Proof.
  intros Hub Hkept Hs.
  destruct (evaluate_well_named ub (it_SP it) sol s Hub Hkept)
    as (SP' & q & du & Hm & HSP' & _ & Hdu).
  destruct (dualSPobj_total sol s du Hdu) as [dual Hdual].
  destruct (expr_total s du Hdu) as [e He].
  unfold scenario_step. rewrite Hm. simpl. rewrite Hdual. simpl.
  destruct (strong_duality dual q); simpl; [|by right].
  left. unfold after_check.
  rewrite (getitem_Some _ _ _ (get_nsol_lookup d sol s Hs)). simpl.
  rewrite He. simpl.
  assert (HK : SP_kept d ub SP') by (rewrite HSP'; by repeat eexists).
  destruct (PyFloat.Qltb _ _); eexists; (split; [reflexivity|exact HK]).
Qed.

Lemma scenario_loop_well_named ub sol ss : ∀ it,
  mapM (U_balance_of d) (users d) = Ok ub → SP_kept d ub (it_SP it) →
  (∀ s, s ∈ ss → s ∈ scenarios d) →
  (∃ it', foldM (scenario_step optimize d tol (get_xrsol d sol)
                   (get_yrsol d sol) (get_nsol d sol)) ss it = Ok it'
          ∧ SP_kept d ub (it_SP it'))
  ∨ foldM (scenario_step optimize d tol (get_xrsol d sol)
             (get_yrsol d sol) (get_nsol d sol)) ss it
    = Err (AssertionError "Strong duality").
Proof.
  induction ss as [|s ss IH]; intros it Hub Hkept Hin; simpl.
  - left. eauto.
  - destruct (scenario_step_well_named ub sol it s Hub Hkept)
      as [(it1 & -> & Hk1)| ->]; [apply Hin; by left| |by right].
    simpl. apply IH; [done|done|]. intros s' Hs'. apply Hin. by right.
Qed.

(** An iteration on a well-named instance completes or raises the
    assertion; no look-up and no unpacking can fail. *)
Lemma body_well_named ub st :
  mapM (U_balance_of d) (users d) = Ok ub → SP_kept d ub (SP st) →
  (∃ st' b, body optimize d tol epsilon st = Ok (st', b)
            ∧ SP_kept d ub (SP st'))
  ∨ body optimize d tol epsilon st = Err (AssertionError "Strong duality").
Proof.
  intros Hub Hkept. unfold body. cbv zeta.
  rewrite first_stage_cost_value. simpl.
  match goal with
  | |- context [foldM _ _ ?it] =>
      destruct (scenario_loop_well_named ub (optimize (MP st)) (scenarios d)
                  it Hub Hkept) as [(it' & -> & Hk)| ->]; [done| |by right]
  end.
  simpl. left. eauto.
Qed.

Lemma while_cutFound_well_named ub fuel : ∀ st e,
  mapM (U_balance_of d) (users d) = Ok ub → SP_kept d ub (SP st) →
  while_cutFound optimize d tol epsilon fuel st = Raised e →
  e = AssertionError "Strong duality".
Proof.
  induction fuel as [|fuel IH]; intros st e Hub Hkept H; simpl in H.
  - by destruct (cutFound st).
  - destruct (cutFound st); [|done].
    destruct (body_well_named ub st Hub Hkept)
      as [(st' & b & Hb & Hk)|Hb]; rewrite Hb in H.
    + destruct b; [done|]. by eapply IH.
    + by injection H as <-.
Qed.

(** On a well-named instance the driver returns, runs out of fuel, or
    stops on the strong-duality assertion: no other exception occurs. *)
Theorem well_named_raises_only_strong_duality fuel e :
  multiBenders optimize d tol epsilon fuel = Raised e →
  e = AssertionError "Strong duality".
Proof.
  unfold multiBenders, run, init. intros H.
  destruct U_balance_total as [ub Hub].
  rewrite (buildSP_well_named ub Hub) in H. simpl in H.
  destruct (while_cutFound _ _ _ _ _ _) as [st|e'|] eqn:Hw; [| |done].
  - exfalso.
    apply (while_cutFound_returned _ _ _ _ _ _ _ []) in Hw; [|done].
    destruct Hw as [[Hc _]|(stp & cutsp & b & _ & Hb & _)]; [done|].
    apply body_outcome in Hb. cbv zeta in Hb.
    destruct Hb as (? & ? & _ & _ & _ & _ & _ & _ & _ & _ & Hobj & _).
    by rewrite Hobj in H.
  - injection H as <-.
    eapply while_cutFound_well_named; [exact Hub| |exact Hw].
    by repeat eexists.
Qed.

End WellNamed.

(** ** Infinite capacities in the dual objective and the cut *)

Section InfiniteBandwidth.

Variable optimize : Model → Solution.
Variable d : Instance.
Variable tol : Q.
Variable epsilon : Q.

(** C2: a CPU, storage or memory capacity that is [float('inf')]
    contributes exactly 0 to the dual objective and to the cut constant,
    whatever the dual price (even a missing one); a bandwidth capacity
    that is [float('inf')] contributes the product of the price and
    infinity, which is NaN, -inf or +inf and never 0; and on a well-named
    instance with such a router and at least one scenario, the driver
    stops in its first iteration on the assertion 'Strong duality'. *)
Theorem C2_infinite_capacity_terms :
  (∀ pisol cap p,
     cap p = PInf → guarded_capacity_term pisol cap p = Ok (Fin 0))
  ∧ (∀ pisol r price,
       R_BCapacity d r = PInf → pisol !! r = Some price →
       ∃ v, bandwidth_term d pisol r = Ok v
            ∧ PyFloat.is_finite v = false
            ∧ v = (match price ?= 0 with
                   | Eq => NaN
                   | Lt => NInf
                   | Gt => PInf
                   end))
  ∧ (well_named d →
     ∀ r, r ∈ routers d → R_BCapacity d r = PInf → scenarios d ≠ [] →
          ∀ fuel, multiBenders optimize d tol epsilon (S fuel)
                  = Raised (AssertionError "Strong duality")).
Proof.
  split; [|split].
  - intros pisol cap p. apply guarded_capacity_term_inf.
  - intros pisol r price Hcap Hp. unfold bandwidth_term, getitem.
    rewrite Hp, Hcap. simpl. eexists. split; [reflexivity|].
    unfold PyFloat.scale_inf. by destruct (price ?= 0).
  - intros Hwn r Hr Hcap Hss fuel.
    destruct (infinite_bandwidth_never_returns optimize d tol epsilon r fuel
                Hr Hcap Hss) as [e He].
    rewrite He. f_equal.
    by eapply well_named_raises_only_strong_duality.
Qed.

End InfiniteBandwidth.

(** ** The frame of the evaluator *)

Section EvaluatorFrame.

Variable optimize : Model → Solution.
Variable d : Instance.

(** C8: a call to [modifyAndSolveSP] leaves the model's name, variables
    (with their bounds) and sense as they are, replaces the objective by
    the scenario's costs, the sum over users, VMs and providers of
    utilization cost times [xu] and on-demand cost times [xo] and over
    users and routers of utilization cost times [yu] and on-demand cost
    times [yo], with no constant, and keeps every
    constraint's name, sides and sense; the right-hand side of a
    constraint changes only in the families 'VM utilization bound' (set
    to the reservation value), 'R utilization bound' (set to the router
    reservation value) and 'VM demand' (set to the scenario's demand).
    On the model [buildSP] builds for a well-named instance, whatever the
    placeholders held before, the result is that model with the
    reservation values and the scenario's demand in the placeholders:
    capacity and flow-balance rows are those [buildSP] wrote. *)
Theorem C8_modify_frame s xrsol yrsol SP SP' out :
  modifyAndSolveSP optimize d s xrsol yrsol SP = Ok (SP', out) →
  (modelName SP' = modelName SP
   ∧ vars SP' = vars SP
   ∧ modelSense SP' = modelSense SP
   ∧ objective SP' = SP_objective d s
   ∧ terms (objective SP')
     = for_pvu d (fun u v p => (VM_ucost d s v, xu u v p))
       ++ for_ru d (fun u r => (R_ucost d s r, yu u r))
       ++ for_pvu d (fun u v p => (VM_ocost d s v, xo u v p))
       ++ for_ru d (fun u r => (R_ocost d s r, yo u r))
   ∧ const (objective SP') = Fin 0
   ∧ (∀ y, eval_terms y (terms (objective SP'))
           == Qsum (for_pvu d (fun u v p => VM_ucost d s v * y (xu u v p)))
              + Qsum (for_ru d (fun u r => R_ucost d s r * y (yu u r)))
              + Qsum (for_pvu d (fun u v p => VM_ocost d s v * y (xo u v p)))
              + Qsum (for_ru d (fun u r => R_ocost d s r * y (yo u r))))
   ∧ Forall2 (mutated_row d s xrsol yrsol) (constrs SP) (constrs SP'))
  ∧ (well_named d →
     ∀ ub xv yv dem obj sol,
       mapM (U_balance_of d) (users d) = Ok ub →
       SP = SP_at d xv yv dem ub obj →
       xrsol = get_xrsol d sol → yrsol = get_yrsol d sol →
       SP' = SP_at d (fun u v p => X sol (xr u v p))
                   (fun u r => X sol (yr u r))
                   (fun u v => VM_demands d s u v) ub (SP_objective d s)).
Proof.
  intros H. split.
  { destruct (modifyAndSolveSP_frame _ _ _ _ _ _ _ _ H)
      as (H1 & H2 & H3 & H4 & H5).
    split; [done|]. split; [done|]. split; [done|]. split; [done|].
    rewrite H4. split; [done|]. split; [done|]. split; [|done].
    intros y. cbn [terms SP_objective]. rewrite !eval_terms_app.
    unfold eval_terms. rewrite !map_for_pvu, !map_for_ru. simpl. lra. }
  intros Hwn ub xv yv dem obj sol Hub -> -> ->.
  destruct (evaluate_well_named optimize d Hwn ub
              (SP_at d xv yv dem ub obj) sol s Hub)
    as (SP'' & q & du & Hm & -> & _); [by repeat eexists|].
  rewrite H in Hm. by injection Hm as ->.
Qed.

End EvaluatorFrame.

(** ** The small instance, run *)

Lemma C1_counterexample :
  ∃ st o,
    run Small.optimize Small.d 6 (1 # 10000) 1 = Returned st
    ∧ MPobj st = Some o
    ∧ multiBenders Small.optimize Small.d 6 (1 # 10000) 1
      = Returned (o, 1%nat, 0%nat)
    ∧ cutFound st = false
    ∧ ¬ gap (bestUB st) o <= 1 # 10000.
Proof.
  destruct (run Small.optimize Small.d 6 (1 # 10000) 1) as [st|e|] eqn:Hrun;
    [|by vm_compute in Hrun..].
  vm_compute in Hrun. injection Hrun as <-.
  eexists _, _. split; [reflexivity|]. split; [reflexivity|].
  split; [reflexivity|]. split; [reflexivity|].
  vm_compute. intros H. by apply H.
Qed.

Lemma small_engine_consistent cuts :
  consistent (master_with_cuts Small.d cuts)
             (Small.optimize (master_with_cuts Small.d cuts)).
Proof.
  unfold consistent, objective_at, Small.optimize.
  cbn [modelName master_with_cuts String.eqb constrs objective const].
  change (String.eqb "MP" "MP") with true. cbv iota.
  destruct (Small.master_point (length cuts)) as [[a b] e] eqn:Hp.
  cbn [objVal X]. unfold eval_terms, Qsum. simpl.
  split; lra.
Qed.

Lemma C1_witness :
  ∃ st o,
    run Small.optimize Small.d (1 # 10000) (1 # 10000) 3 = Returned st
    ∧ MPobj st = Some o
    ∧ gap (bestUB st) o <= 1 # 10000.
Proof.
  destruct (run Small.optimize Small.d (1 # 10000) (1 # 10000) 3)
    as [st|e|] eqn:Hrun; [|by vm_compute in Hrun..].
  destruct (C1_returns_within_gap _ _ _ _ _ _ Hrun)
    as (o & Ho & _ & _ & _ & Hgap).
  exists st, o. split; [reflexivity|]. split; [exact Ho|].
  apply Hgap.
  - intros s _. simpl. lra.
  - vm_compute. discriminate.
  - lra.
  - lra.
  - apply small_engine_consistent.
Defined.

Lemma C4_witness :
  ∃ st,
    init Small.d_unlimited = Ok st
    ∧ body Small.optimize Small.d_unlimited (1 # 10000) (1 # 10000) st
      = Err (AssertionError "Strong duality").
Proof.
  destruct (init Small.d_unlimited) as [st|e] eqn:Hinit;
    [|by vm_compute in Hinit].
  exists st. split; [reflexivity|].
  vm_compute in Hinit. injection Hinit as <-.
  eapply (C4_strong_duality_assertion Small.optimize Small.d_unlimited
            (1 # 10000) (1 # 10000) _ [] "S1"%string []).
  - reflexivity.
  - vm_compute. reflexivity.
  - reflexivity.
  - vm_compute. reflexivity.
  - vm_compute. reflexivity.
  - reflexivity.
Defined.

Lemma small_master_point_in_domain k vd :
  vd ∈ vars (buildMP Small.d) →
  in_domain (X (Small.optimize (master_with_cuts Small.d k))) vd.
Proof.
  intros Hvd. apply list_elem_of_In in Hvd. simpl in Hvd.
  unfold Small.optimize.
  cbn [modelName master_with_cuts constrs].
  change (String.eqb "MP" "MP") with true. cbv iota.
  destruct (length k) as [|[|m]]; simpl;
    destruct Hvd as [<-|[<-|[<-|[]]]]; unfold in_domain; simpl;
    (split; [vm_compute; discriminate|]);
    (split; [vm_compute; discriminate|]);
    intros _; first [by exists 0%Z | by exists 1%Z | by exists 2%Z].
Qed.

Lemma small_master_optimum :
  reports_optimum (master_with_cuts Small.d [])
                  (Small.optimize (master_with_cuts Small.d [])).
Proof.
  split; [|split].
  - split; [|constructor]. apply Forall_forall. intros vd Hvd.
    by apply small_master_point_in_domain.
  - apply small_engine_consistent.
  - intros y [Hdom _]. simpl in Hdom.
    apply Forall_cons in Hdom as [(H1 & _) Hdom].
    apply Forall_cons in Hdom as [(H2 & _) Hdom].
    apply Forall_cons in Hdom as [(H3 & _) _].
    simpl in H1, H2, H3.
    unfold objective_at, eval_terms, Qsum. simpl. unfold xr, yr, n. lra.
Qed.

Lemma C5_witness :
  ∃ st0 st1 st2 oA oB,
    init Small.d = Ok st0
    ∧ loop_step Small.optimize Small.d (1 # 10000) (1 # 10000)
        (st0, false) (st1, false)
    ∧ loop_step Small.optimize Small.d (1 # 10000) (1 # 10000)
        (st1, false) (st2, false)
    ∧ bestUB st1 <= bestUB st0
    ∧ bestUB st2 <= bestUB st1
    ∧ UB st1 = Some 5 ∧ bestUB st1 = 5 ∧ bestUB st2 <= 5
    ∧ MPobj st1 = Some oA ∧ MPobj st2 = Some oB ∧ oA <= oB.
Proof.
  destruct (init Small.d) as [st0|e] eqn:Hinit; [|by vm_compute in Hinit].
  assert (HM0 : MP st0 = master_with_cuts Small.d []).
  { vm_compute in Hinit. by injection Hinit as <-. }
  assert (Hc0 : cutFound st0 = true).
  { vm_compute in Hinit. by injection Hinit as <-. }
  destruct (body Small.optimize Small.d (1 # 10000) (1 # 10000) st0)
    as [[st1 b1]|e] eqn:Hb1.
  2:{ exfalso. vm_compute in Hinit. injection Hinit as <-.
      by vm_compute in Hb1. }
  assert (b1 = false ∧ cutFound st1 = true
          ∧ ∃ c, MP st1 = master_with_cuts Small.d [c]
                 ∧ sat_constr (X (Small.optimize
                                    (master_with_cuts Small.d [c]))) c)
    as (-> & Hc1 & c & HM1 & Hsat).
  { vm_compute in Hinit. injection Hinit as <-. vm_compute in Hb1.
    injection Hb1 as <- <-. split; [done|]. split; [done|].
    eexists. split; [reflexivity|]. vm_compute. discriminate. }
  destruct (body Small.optimize Small.d (1 # 10000) (1 # 10000) st1)
    as [[st2 b2]|e] eqn:Hb2.
  2:{ exfalso. vm_compute in Hinit. injection Hinit as <-.
      vm_compute in Hb1. injection Hb1 as <-. by vm_compute in Hb2. }
  assert (b2 = false) as ->.
  { vm_compute in Hinit. injection Hinit as <-. vm_compute in Hb1.
    injection Hb1 as <-. vm_compute in Hb2. by injection Hb2. }
  pose proof (loop_iter _ _ _ _ _ _ _ Hc0 Hb1) as HA.
  pose proof (loop_iter _ _ _ _ _ _ _ Hc1 Hb2) as HB.
  destruct (C5_bounds_monotone _ _ _ _ _ _ _ _ _ _ HA (rtc_refl _ _) HB)
    as ((UB0 & outs & _ & _ & _ & HUB & Hsum & _ & _ & Hmin & HleB)
        & H1 & H2 & Hobj).
  assert (HUB5 : UB st1 = Some 5 ∧ bestUB st1 = 5).
  { clear -Hinit Hb1. vm_compute in Hinit. injection Hinit as <-.
    vm_compute in Hb1. by injection Hb1 as <-. }
  destruct HUB5 as [HUB5 Hbest5].
  assert (Hle5 : bestUB st2 <= 5).
  { rewrite HUB5 in HUB. injection HUB as HUB. by rewrite HUB. }
  destruct Hobj as (oA & oB & HoA & HoB & Hle).
  - rewrite HM0. apply small_master_optimum.
  - rewrite HM1. split.
    + apply Forall_forall. intros vd Hvd.
      by apply small_master_point_in_domain.
    + by constructor.
  - rewrite HM1. apply small_engine_consistent.
  - exists st0, st1, st2, oA, oB. split_and!; try done.
Defined.

Lemma C6_witness :
  ∃ o, multiBenders Small.optimize Small.d_idle (1 # 10000) (1 # 10000) 1
       = Returned (o, 1%nat, 0%nat).
Proof.
  destruct (init Small.d_idle) as [st|e] eqn:Hinit; [|by vm_compute in Hinit].
  assert (Hc : cutFound st = true).
  { vm_compute in Hinit. by injection Hinit as <-. }
  destruct (body Small.optimize Small.d_idle (1 # 10000) (1 # 10000) st)
    as [[st' b]|e] eqn:Hb.
  2:{ exfalso. vm_compute in Hinit. injection Hinit as <-.
      by vm_compute in Hb. }
  destruct (mapM (scenario_outcome Small.optimize Small.d_idle (1 # 10000)
                    (SP st)
                    (get_xrsol Small.d_idle (Small.optimize (MP st)))
                    (get_yrsol Small.d_idle (Small.optimize (MP st)))
                    (get_nsol Small.d_idle (Small.optimize (MP st))))
                 (scenarios Small.d_idle)) as [outs|e] eqn:Hm.
  2:{ exfalso. vm_compute in Hinit. injection Hinit as <-.
      by vm_compute in Hm. }
  exists (objVal (Small.optimize (MP st))).
  refine (proj2 (proj2 (proj2 (proj2
            (C6_no_violation_one_iteration _ _ _ _ _ _ _ _ Hc Hb Hm _))))
            Hinit 0%nat).
  intros i s q du e viol Hs Ho.
  vm_compute in Hinit. injection Hinit as <-.
  vm_compute in Hm. injection Hm as <-.
  destruct i as [|i]; [|by destruct i].
  injection Hs as <-. injection Ho as <- _ _ _.
  vm_compute. discriminate.
Defined.

Lemma small_well_named : well_named Small.d.
Proof. repeat split; repeat constructor; done. Qed.

Lemma C8_witness :
  ∃ SP0 SP' out ub,
    buildSP Small.d = Ok SP0
    ∧ mapM (U_balance_of Small.d) (users Small.d) = Ok ub
    ∧ modifyAndSolveSP Small.optimize Small.d "S1"
        (get_xrsol Small.d (Small.optimize (master_with_cuts Small.d [])))
        (get_yrsol Small.d (Small.optimize (master_with_cuts Small.d [])))
        SP0 = Ok (SP', out)
    ∧ vars SP' = vars SP0
    ∧ terms (objective SP')
      = [(0, xu "U1" "V1" "P1"); (0, yu "U1" "R1");
         (3, xo "U1" "V1" "P1"); (2, yo "U1" "R1")]
    ∧ Forall2 (mutated_row Small.d "S1"
                 (get_xrsol Small.d
                    (Small.optimize (master_with_cuts Small.d [])))
                 (get_yrsol Small.d
                    (Small.optimize (master_with_cuts Small.d []))))
              (constrs SP0) (constrs SP')
    ∧ SP' = SP_at Small.d
              (fun u v p =>
                 X (Small.optimize (master_with_cuts Small.d [])) (xr u v p))
              (fun u r =>
                 X (Small.optimize (master_with_cuts Small.d [])) (yr u r))
              (fun u v => VM_demands Small.d "S1" u v) ub
              (SP_objective Small.d "S1").
Proof.
  destruct (mapM (U_balance_of Small.d) (users Small.d)) as [ub|e] eqn:Hub;
    [|by vm_compute in Hub].
  pose proof (buildSP_well_named Small.d ub Hub) as HSP.
  set (SP0 := SP_at Small.d (fun _ _ _ => 0) (fun _ _ => 0) (fun _ _ => 0)
                    ub (mkLinExpr [] (Fin 0))) in *.
  set (sol := Small.optimize (master_with_cuts Small.d [])).
  destruct (modifyAndSolveSP Small.optimize Small.d "S1"
              (get_xrsol Small.d sol) (get_yrsol Small.d sol) SP0)
    as [[SP' out]|e] eqn:Hm.
  2:{ exfalso. vm_compute in Hub. injection Hub as <-.
      by vm_compute in Hm. }
  destruct (C8_modify_frame _ _ _ _ _ _ _ _ Hm)
    as ((_ & Hv & _ & _ & Hobj & _ & _ & Hrows) & Hbuilt).
  exists SP0, SP', out, ub. split; [exact HSP|]. split; [reflexivity|].
  split; [exact Hm|]. split; [exact Hv|]. split; [exact Hobj|].
  split; [exact Hrows|].
  eapply (Hbuilt small_well_named); [exact Hub|reflexivity..].
Defined.

Lemma C9_witness :
  ∃ SP0 SP1 out,
    buildSP Small.d = Ok SP0
    ∧ modifyAndSolveSP Small.optimize Small.d "S1"
        {[ ("U1", "V1", "P1")%string := 2 ]} {[ ("U1", "R1")%string := 0 ]}
        SP0 = Ok (SP1, out)
    ∧ modifyAndSolveSP Small.optimize Small.d "S1"
        {[ ("U1", "V1", "P1")%string := 2 ]} {[ ("U1", "R1")%string := 0 ]}
        SP1 = Ok (SP1, out).
Proof.
  destruct (buildSP Small.d) as [SP0|e] eqn:HSP; [|by vm_compute in HSP].
  destruct (modifyAndSolveSP Small.optimize Small.d "S1"
              {[ ("U1", "V1", "P1")%string := 2 ]}
              {[ ("U1", "R1")%string := 0 ]} SP0) as [[SP1 out]|e] eqn:Hm.
  2:{ exfalso. vm_compute in HSP. injection HSP as <-.
      by vm_compute in Hm. }
  exists SP0, SP1, out. split; [reflexivity|]. split; [exact Hm|].
  exact (proj1 (C9_reevaluation _ _ _ _ _ _ _ _ Hm)).
Defined.

Lemma small_unlimited_well_named : well_named Small.d_unlimited.
Proof. repeat split; repeat constructor; done. Qed.

Lemma C2_witness :
  guarded_capacity_term {[ "P1"%string := 1 ]}
    (P_CCapacity Small.d_unlimited) "P1" = Ok (Fin 0)
  ∧ (∃ v, bandwidth_term Small.d_unlimited {[ "R1"%string := 0 ]} "R1" = Ok v
          ∧ PyFloat.is_finite v = false ∧ v = NaN)
  ∧ multiBenders Small.optimize Small.d_unlimited (1 # 10000) (1 # 10000) 1
    = Raised (AssertionError "Strong duality").
Proof.
  destruct (C2_infinite_capacity_terms Small.optimize Small.d_unlimited
              (1 # 10000) (1 # 10000)) as (H1 & H2 & H3).
  split; [|split].
  - apply H1. reflexivity.
  - apply (H2 {[ "R1"%string := 0 ]} "R1"%string 0); reflexivity.
  - apply (H3 small_unlimited_well_named "R1"%string).
    + by left.
    + reflexivity.
    + discriminate.
Defined.

(** * Further properties *)

Lemma split_nonempty sep s : PyStr.split sep s ≠ [].
Proof.
  destruct s as [|c s]; simpl; [done|].
  destruct (Ascii.eqb c sep); [done|]. by destruct (PyStr.split sep s).
Qed.

Lemma split_length sep s :
  length (PyStr.split sep s) = S (occurrences sep s).
Proof.
  induction s as [|c s IH]; simpl; [done|].
  destruct (Ascii.eqb c sep); simpl; [by rewrite IH|].
  destruct (PyStr.split sep s) eqn:E; simpl in *; lia.
Qed.

Lemma lacks_occurrences c s : lacks c s = true ↔ occurrences c s = 0%nat.
Proof.
  induction s as [|c' s IH]; simpl; [done|].
  destruct (Ascii.eqb c' c); simpl; [split; [done|lia]|]. exact IH.
Qed.

Lemma occurrences_app c a b :
  occurrences c (a +:+ b) = (occurrences c a + occurrences c b)%nat.
Proof.
  induction a as [|x a IH]; [done|].
  rewrite append_cons. cbn [occurrences]. rewrite IH. lia.
Qed.

Lemma join_cons sep a b l :
  PyStr.join sep (a :: b :: l) = (a +:+ sep +:+ PyStr.join sep (b :: l))%string.
Proof. reflexivity. Qed.

Lemma split_join idx :
  idx ≠ [] → Forall (fun a => lacks "," a = true) idx →
  PyStr.split "," (PyStr.join "," idx) = idx.
Proof.
  induction idx as [|a [|b l] IH]; intros Hne H; [done| |].
  - apply Forall_cons in H as [Ha _]. simpl. by apply split_lacks.
  - apply Forall_cons in H as [Ha H]. rewrite join_cons.
    change (a +:+ "," +:+ PyStr.join "," (b :: l))%string
      with (a +:+ String "," (PyStr.join "," (b :: l)))%string.
    rewrite split_app by done. by rewrite IH.
Qed.

Lemma join_split sep s : PyStr.join (String sep EmptyString) (PyStr.split sep s) = s.
Proof.
  induction s as [|c s IH]; [done|]. cbn [PyStr.split].
  destruct (Ascii.eqb c sep) eqn:E.
  - apply Ascii.eqb_eq in E as ->.
    destruct (PyStr.split sep s) as [|h tl] eqn:Es.
    { by apply split_nonempty in Es. }
    rewrite join_cons, IH. reflexivity.
  - destruct (PyStr.split sep s) as [|h tl] eqn:Es.
    { by apply split_nonempty in Es. }
    destruct tl as [|h' tl].
    + simpl in *. by rewrite IH.
    + rewrite join_cons in *. rewrite append_cons. by rewrite IH.
Qed.

Lemma split_inj sep a b : PyStr.split sep a = PyStr.split sep b → a = b.
Proof.
  intros H. by rewrite <- (join_split sep a), H, join_split.
Qed.

Lemma lacks_join c sep idx :
  lacks c sep = true → Forall (fun a => lacks c a = true) idx →
  lacks c (PyStr.join sep idx) = true.
Proof.
  intros Hs. induction idx as [|a [|b l] IH]; intros H; [done| |].
  - by apply Forall_cons in H as [Ha _].
  - apply Forall_cons in H as [Ha H]. rewrite join_cons, !lacks_app, Ha, Hs.
    by rewrite IH.
Qed.

Lemma occurrences_join c sep idx :
  occurrences c (PyStr.join sep idx)
  = (list_sum (map (occurrences c) idx)
     + occurrences c sep * pred (length idx))%nat.
Proof.
  induction idx as [|a [|b l] IH]; [simpl; lia|simpl; lia|].
  rewrite join_cons, !occurrences_app, IH. simpl. lia.
Qed.

(** X3: a constraint name as [addConstrs] writes it, [name[i1,...,ik]],
    is read back by [constrName[:-1].split('[')] and [index.split(',')]
    as the family name and the index list it was written from, when the
    family name holds no '[', there is at least one index and no index
    holds '[' or ','. *)
Theorem X3_constraint_name_round_trip name idx :
  lacks "[" name = true → idx ≠ [] → Forall plain idx →
  ∃ index, split_name (indexed_name name idx) = Ok (name, index)
           ∧ PyStr.split "," index = idx.
Proof.
  intros Hn Hne Hp. exists (PyStr.join "," idx). split.
  - apply split_name_indexed; [done|]. apply lacks_join; [done|].
    eapply Forall_impl; [exact Hp|]. by intros a [? ?].
  - apply split_join; [done|].
    eapply Forall_impl; [exact Hp|]. by intros a [? ?].
Qed.

(** ** buildSP: the only exception *)

Lemma flow_sum_from_P_Err u l e :
  flow_sum_from_P u l = Err e →
  e = IndexError ∧ Exists (fun '(e_out, _) => e_out = EmptyString) l.
Proof.
  induction l as [|[e_out e_in] l IH]; simpl; [done|].
  destruct e_out as [|c e_out]; simpl.
  - intros [= <-]. split; [done|]. by left.
  - destruct (flow_sum_from_P u l) as [r|e'] eqn:E; simpl; [done|].
    intros [= ->]. destruct (IH eq_refl) as [-> H]. split; [done|].
    by right.
Qed.

Lemma flow_sum_from_P_empty_tail u l :
  Exists (fun '(e_out, _) => e_out = EmptyString) l →
  flow_sum_from_P u l = Err IndexError.
Proof.
  induction 1 as [[e_out e_in] l ->|[e_out e_in] l _ IH]; simpl; [done|].
  destruct (PyStr.head_is "P" e_out); [|done]. by rewrite IH.
Qed.

Lemma mapM_Err_inv {A B} (g : A → Res B) l e :
  mapM g l = Err e → ∃ a, In a l ∧ g a = Err e.
Proof.
  induction l as [|a l IH]; simpl; [done|].
  destruct (g a) as [b|e'] eqn:E; simpl.
  - destruct (mapM g l) as [bs|e'] eqn:E'; simpl; [done|].
    intros [= ->]. destruct (IH eq_refl) as (a' & Ha & Hg). eauto.
  - intros [= ->]. eauto.
Qed.

Lemma mapM_Err_first {A B} (g : A → Res B) l e :
  (∀ a, In a l → (∃ b, g a = Ok b) ∨ g a = Err e) →
  (∃ a, In a l ∧ g a = Err e) → mapM g l = Err e.
Proof.
  induction l as [|a l IH]; intros Hall (a' & Hin & Ha'); [done|].
  simpl. destruct (Hall a (or_introl eq_refl)) as [[b Hb]| ->]; [|done].
  rewrite Hb. simpl. destruct Hin as [->|Hin]; [congruence|].
  rewrite IH; [done| |eauto]. intros a0 H0. apply Hall. by right.
Qed.

Lemma mapM_app_Err {A B} (g : A → Res B) l1 l2 e :
  mapM g l1 = Err e → mapM g (l1 ++ l2) = Err e.
Proof. intros H. by rewrite mapM_app, H. Qed.

Lemma flow_sum_from_P_Ok_tails u l r :
  flow_sum_from_P u l = Ok r →
  Forall (fun '(e_out, _) => e_out ≠ EmptyString) l.
Proof.
  revert r. induction l as [|[e_out e_in] l IH]; intros r Er; [constructor|].
  simpl in Er. destruct e_out as [|c e_out]; [done|]. simpl in Er.
  destruct (flow_sum_from_P u l) as [r'|] eqn:E'; [|done].
  constructor; [done|]. by eapply IH.
Qed.

Lemma buildSP_Ok_iff d :
  (∃ M, buildSP d = Ok M)
  ↔ users d = [] ∨ Forall (fun '(e_out, _) => e_out ≠ EmptyString) (arcs d).
Proof.
  unfold buildSP, U_balance. split.
  - intros [M H]. destruct (users d) as [|u us]; [by left|right].
    destruct (mapM (U_balance_of d) (u :: us)) as [ub|e] eqn:E; [|done].
    cbn [mapM] in E.
    destruct (U_balance_of d u) as [c|e] eqn:Eu; [|discriminate E].
    unfold U_balance_of in Eu.
    destruct (flow_sum_from_P u (arcs d)) as [r|e] eqn:Er;
      [|discriminate Eu].
    by eapply flow_sum_from_P_Ok_tails.
  - intros [Hu|Ha].
    + rewrite Hu. simpl. eauto.
    + destruct (mapM_total (U_balance_of d) (users d)) as [ub Hub].
      * intros u _. unfold U_balance_of.
        destruct (flow_sum_from_P_total u _ Ha) as [r ->]. simpl. eauto.
      * rewrite Hub. simpl. eauto.
Qed.

(** X2: [buildSP] raises IndexError when there is a user and some arc
    has the empty string as its tail (the test [e_out[0] == 'P'] of the
    user balance); that is the only exception it can raise, and it
    returns a model whenever there is no user or no arc has an empty
    tail. *)
Theorem X2_buildSP_raises_on_empty_tail d :
  (users d ≠ [] →
   Exists (fun '(e_out, _) => e_out = EmptyString) (arcs d) →
   buildSP d = Err IndexError)
  ∧ (∀ e, buildSP d = Err e →
          e = IndexError ∧ users d ≠ []
          ∧ Exists (fun '(e_out, _) => e_out = EmptyString) (arcs d))
  ∧ (users d = [] ∨ Forall (fun '(e_out, _) => e_out ≠ EmptyString) (arcs d) →
     ∃ M, buildSP d = Ok M).
Proof.
  split; [|split].
  - intros Hu Ha. unfold buildSP, U_balance.
    destruct (users d) as [|u us]; [done|]. cbn [mapM].
    assert (Eu : U_balance_of d u = Err IndexError).
    { unfold U_balance_of. by rewrite flow_sum_from_P_empty_tail. }
    by rewrite Eu.
  - intros e H. unfold buildSP, U_balance in H.
    destruct (mapM (U_balance_of d) (users d)) as [ub|e'] eqn:E; [done|].
    simpl in H. injection H as ->.
    apply mapM_Err_inv in E as (u & Hu & E). unfold U_balance_of in E.
    destruct (flow_sum_from_P u (arcs d)) as [r|e'] eqn:Er; [done|].
    simpl in E. injection E as ->.
    apply flow_sum_from_P_Err in Er as [-> Hex].
    split; [done|]. split; [|done]. intros Hnil. by rewrite Hnil in Hu.
  - apply buildSP_Ok_iff.
Qed.

Lemma split_name_indexed_bracket name idx :
  lacks "[" name = true → lacks "[" (PyStr.join "," idx) = false →
  split_name (indexed_name name idx) = Err ValueError.
Proof.
  intros Hn Hi. unfold split_name, indexed_name.
  assert (E : (name +:+ "[" +:+ PyStr.join "," idx +:+ "]")%string
              = ((name +:+ String "[" (PyStr.join "," idx)) +:+ "]")%string).
  { rewrite append_assoc. reflexivity. }
  rewrite E, drop_last_app, split_app by done.
  pose proof (split_length "[" (PyStr.join "," idx)) as Hl.
  assert (occurrences "[" (PyStr.join "," idx) ≠ 0%nat) as Ho.
  { intros H0. apply lacks_occurrences in H0. congruence. }
  destruct (PyStr.split "[" (PyStr.join "," idx)) as [|a [|b l]];
    simpl in Hl; [lia|lia|done].
Qed.

Lemma plain_dec s : plain s ∨ ¬ plain s.
Proof.
  unfold plain. destruct (lacks "[" s), (lacks "," s);
    [by left|right|right|right]; by intros [? ?].
Qed.

Lemma not_three {A} (l : list A) :
  length l ≠ 3%nat →
  ∀ {B} (k : A → A → A → B) (e : B),
    match l with [p; v; u] => k p v u | _ => e end = e.
Proof.
  intros H B k e. destruct l as [|a [|b [|c [|x l]]]]; simpl in *; done.
Qed.

Lemma not_two {A} (l : list A) :
  length l ≠ 2%nat →
  ∀ {B} (k : A → A → B) (e : B),
    match l with [r; u] => k r u | _ => e end = e.
Proof.
  intros H B k e. destruct l as [|a [|b [|x l]]]; simpl in *; done.
Qed.

Section BadNames.

Variable optimize : Model → Solution.
Variable d : Instance.
Variable tol : Q.
Variable epsilon : Q.

Lemma modify_VM_utilization_unplain s xrsol yrsol u v p l sn rt q0 :
  ¬ (plain u ∧ plain v ∧ plain p) →
  modify_rhs d s xrsol yrsol
    (mkConstr (indexed_name "VM utilization bound" [p; v; u]) l sn rt q0)
  = Err ValueError.
Proof.
  intros Hnp. unfold modify_rhs. cbn [constrName].
  destruct (lacks "[" (PyStr.join "," [p; v; u])) eqn:Hb.
  - rewrite split_name_indexed by done.
    cbv beta iota zeta delta [mbind Res_bind].
    change (String.eqb "VM utilization bound" "VM utilization bound")
      with true. cbv iota.
    apply not_three. rewrite split_length, occurrences_join.
    intros Hlen. apply Hnp.
    cbn [PyStr.join] in Hb. rewrite !lacks_app in Hb.
    apply andb_true_iff in Hb as [Hp Hb].
    apply andb_true_iff in Hb as [_ Hb].
    apply andb_true_iff in Hb as [Hv Hb].
    apply andb_true_iff in Hb as [_ Hu].
    simpl in Hlen.
    repeat split; try done; apply lacks_occurrences; lia.
  - by rewrite split_name_indexed_bracket.
Qed.

Lemma modify_VM_utilization_missing s xrsol yrsol u v p l sn rt q0 :
  plain u → plain v → plain p → xrsol !! (u, v, p) = None →
  modify_rhs d s xrsol yrsol
    (mkConstr (indexed_name "VM utilization bound" [p; v; u]) l sn rt q0)
  = Err KeyError.
Proof.
  intros Hu Hv Hp Hx. unfold modify_rhs. cbn [constrName].
  rewrite split_name_indexed; [|done|by apply plain_join3].
  cbv beta iota zeta delta [mbind Res_bind].
  rewrite split_join3; [|apply Hp|apply Hv|apply Hu].
  unfold getitem. rewrite Hx. reflexivity.
Qed.

Lemma modify_R_utilization_missing s xrsol yrsol u r l sn rt q0 :
  plain u → plain r → yrsol !! (u, r) = None →
  modify_rhs d s xrsol yrsol
    (mkConstr (indexed_name "R utilization bound" [r; u]) l sn rt q0)
  = Err KeyError.
Proof.
  intros Hu Hr Hy. unfold modify_rhs. cbn [constrName].
  rewrite split_name_indexed; [|done|by apply plain_join2].
  cbv beta iota zeta delta [mbind Res_bind].
  rewrite split_join2; [|apply Hr|apply Hu].
  unfold getitem. rewrite Hy. reflexivity.
Qed.

Lemma in_for_pvu_inv {A} (h : string → string → string → A) a :
  In a (for_pvu d h) →
  ∃ u v p, In u (users d) ∧ In v (VMs d) ∧ In p (providers d) ∧ a = h u v p.
Proof.
  unfold for_pvu. intros H.
  apply in_flat_map in H as (p & Hp & H).
  apply in_flat_map in H as (v & Hv & H).
  apply in_map_iff in H as (u & <- & Hu). by exists u, v, p.
Qed.

Lemma in_for_ru_inv {A} (h : string → string → A) a :
  In a (for_ru d h) →
  ∃ u r, In u (users d) ∧ In r (routers d) ∧ a = h u r.
Proof.
  unfold for_ru. intros H.
  apply in_flat_map in H as (r & Hr & H).
  apply in_map_iff in H as (u & <- & Hu). by exists u, r.
Qed.

Lemma VM_utilization_rows_unplain s sol yrsol xv rest u v p :
  In u (users d) → In v (VMs d) → In p (providers d) →
  ¬ (plain u ∧ plain v ∧ plain p) →
  mapM (modify_rhs d s (get_xrsol d sol) yrsol)
       (for_pvu d (fun u v p =>
          mkConstr (indexed_name "VM utilization bound" [p; v; u])
                   [(1, xu u v p)] LESS_EQUAL [] (Fin (xv u v p)))
        ++ rest)
  = Err ValueError.
Proof.
  intros Hu Hv Hp Hnp. apply mapM_app_Err, mapM_Err_first.
  - intros a Ha.
    apply in_for_pvu_inv in Ha as (u' & v' & p' & Hu' & Hv' & Hp' & ->).
    destruct (plain_dec u') as [Pu|Pu];
      [|right; apply modify_VM_utilization_unplain; tauto].
    destruct (plain_dec v') as [Pv|Pv];
      [|right; apply modify_VM_utilization_unplain; tauto].
    destruct (plain_dec p') as [Pp|Pp];
      [|right; apply modify_VM_utilization_unplain; tauto].
    left. eexists. apply modify_VM_utilization_row; [done..|].
    apply get_xrsol_lookup. by apply elem_of_keys_uvp.
  - eexists. split; [by apply (in_for_pvu d _ u v p)|].
    by apply modify_VM_utilization_unplain.
Qed.

Lemma scenario_step_Err xrsol yrsol nsol it s e :
  modifyAndSolveSP optimize d s xrsol yrsol (it_SP it) = Err e →
  scenario_step optimize d tol xrsol yrsol nsol it s = Err e.
Proof. intros H. unfold scenario_step. by rewrite H. Qed.

(** X4: when some user, VM type or provider identifier holds a '[' or a
    ',', every call of [modifyAndSolveSP] on the model [buildSP] built,
    with the reservation values the driver reads from the master, raises
    ValueError (the name of a 'VM utilization bound' row no longer
    unpacks), and so does the driver in its first iteration when there is
    a scenario. *)
Theorem X4_unplain_identifier_ValueError u v p SP0 :
  In u (users d) → In v (VMs d) → In p (providers d) →
  ¬ (plain u ∧ plain v ∧ plain p) →
  buildSP d = Ok SP0 →
  (∀ s sol yrsol,
     modifyAndSolveSP optimize d s (get_xrsol d sol) yrsol SP0
     = Err ValueError)
  ∧ (scenarios d ≠ [] →
     ∀ fuel, multiBenders optimize d tol epsilon (S fuel)
             = Raised ValueError).
Proof.
  intros Hu Hv Hp Hnp HSP.
  assert (Hev : ∀ s sol yrsol,
             modifyAndSolveSP optimize d s (get_xrsol d sol) yrsol SP0
             = Err ValueError).
  { intros s sol yrsol. unfold buildSP in HSP.
    destruct (U_balance d) as [ub|e]; [|discriminate HSP].
    injection HSP as <-. unfold modifyAndSolveSP. cbn [constrs].
    unfold VM_utilization_bound.
    by rewrite (VM_utilization_rows_unplain s sol yrsol (fun _ _ _ => 0)
                  _ u v p). }
  split; [exact Hev|]. intros Hs fuel.
  unfold multiBenders, run, init. rewrite HSP.
  cbv beta iota zeta delta [mbind Res_bind].
  erewrite while_cutFound_raises; [done|done|].
  unfold body. rewrite first_stage_cost_value.
  cbv beta iota zeta delta [mbind Res_bind].
  destruct (scenarios d) as [|s ss]; [done|]. cbn [foldM].
  rewrite (scenario_step_Err _ _ _ _ _ ValueError); [done|].
  cbn [it_SP SP]. apply Hev.
Qed.

(** X5: on the subproblem model of a well-named instance,
    [modifyAndSolveSP] raises KeyError when [xrsol] or [yrsol] lacks the
    value of some (user, VM, provider) or (user, router), and otherwise
    returns the model with the values of [xrsol], [yrsol] and the
    scenario's demand as right-hand sides of the placeholder rows. *)
Theorem X5_missing_reservation_KeyError ub s xrsol yrsol xv yv dem obj :
  well_named d → mapM (U_balance_of d) (users d) = Ok ub →
  ((∃ u v p, In u (users d) ∧ In v (VMs d) ∧ In p (providers d)
             ∧ xrsol !! (u, v, p) = None)
   ∨ (∃ u r, In u (users d) ∧ In r (routers d) ∧ yrsol !! (u, r) = None) →
   modifyAndSolveSP optimize d s xrsol yrsol (SP_at d xv yv dem ub obj)
   = Err KeyError)
  ∧ ((∀ u v p, In u (users d) → In v (VMs d) → In p (providers d) →
               is_Some (xrsol !! (u, v, p))) →
     (∀ u r, In u (users d) → In r (routers d) →
             is_Some (yrsol !! (u, r))) →
     ∃ q du,
       modifyAndSolveSP optimize d s xrsol yrsol (SP_at d xv yv dem ub obj)
       = Ok (SP_at d (fun u v p => default 0 (xrsol !! (u, v, p)))
                     (fun u r => default 0 (yrsol !! (u, r)))
                     (VM_demands d s) ub (SP_objective d s), (q, du))).
Proof.
  intros Hwn Hub. split.
  - intros Hmiss.
    assert (H1 : ∀ a,
      In a (for_pvu d (fun u v p =>
              mkConstr (indexed_name "VM utilization bound" [p; v; u])
                       [(1, xu u v p)] LESS_EQUAL [] (Fin (xv u v p)))) →
      (∃ b, modify_rhs d s xrsol yrsol a = Ok b)
      ∨ modify_rhs d s xrsol yrsol a = Err KeyError).
    { intros a Ha.
      apply in_for_pvu_inv in Ha as (u & v & p & Hu & Hv & Hp & ->).
      destruct (xrsol !! (u, v, p)) as [q|] eqn:E.
      - left. eexists. apply modify_VM_utilization_row; [| | |exact E].
        + by apply (plain_user d Hwn).
        + by apply (plain_VM d Hwn).
        + by apply (plain_provider d Hwn).
      - right. apply modify_VM_utilization_missing; [| | |exact E].
        + by apply (plain_user d Hwn).
        + by apply (plain_VM d Hwn).
        + by apply (plain_provider d Hwn). }
    assert (H2 : ∀ a,
      In a (for_ru d (fun u r =>
              mkConstr (indexed_name "R utilization bound" [r; u])
                       [(1, yu u r)] LESS_EQUAL [] (Fin (yv u r)))) →
      (∃ b, modify_rhs d s xrsol yrsol a = Ok b)
      ∨ modify_rhs d s xrsol yrsol a = Err KeyError).
    { intros a Ha.
      apply in_for_ru_inv in Ha as (u & r & Hu & Hr & ->).
      destruct (yrsol !! (u, r)) as [q|] eqn:E.
      - left. eexists. apply modify_R_utilization_row; [| |exact E].
        + by apply (plain_user d Hwn).
        + by apply (plain_router d Hwn).
      - right. apply modify_R_utilization_missing; [| |exact E].
        + by apply (plain_user d Hwn).
        + by apply (plain_router d Hwn). }
    unfold modifyAndSolveSP, SP_at. cbn [constrs]. unfold SP_rows_at.
    destruct Hmiss as [(u & v & p & Hu & Hv & Hp & E)|(u & r & Hu & Hr & E)].
    + rewrite (mapM_app_Err _ _ _ KeyError); [done|]. apply mapM_Err_first; [exact H1|].
      eexists. split; [by apply (in_for_pvu d _ u v p)|].
      apply modify_VM_utilization_missing; [| | |exact E].
      * by apply (plain_user d Hwn).
      * by apply (plain_VM d Hwn).
      * by apply (plain_provider d Hwn).
    + rewrite mapM_app.
      destruct (mapM (modify_rhs d s xrsol yrsol)
                  (for_pvu d (fun u v p =>
                     mkConstr (indexed_name "VM utilization bound" [p; v; u])
                              [(1, xu u v p)] LESS_EQUAL []
                              (Fin (xv u v p))))) as [b1|e] eqn:E1.
      * cbv beta iota zeta delta [mbind Res_bind].
        rewrite (mapM_app_Err _ _ _ KeyError); [done|]. apply mapM_Err_first; [exact H2|].
        eexists. split; [by apply (in_for_ru d _ u r)|].
        apply modify_R_utilization_missing; [| |exact E].
        -- by apply (plain_user d Hwn).
        -- by apply (plain_router d Hwn).
      * apply mapM_Err_inv in E1 as (a & Ha & E1).
        destruct (H1 a Ha) as [[b Hb]|Hb]; [congruence|].
        rewrite Hb in E1. by injection E1 as <-.
  - intros Hx Hy.
    destruct (modifyAndSolveSP_Ok optimize d s xrsol yrsol
                (SP_at d xv yv dem ub obj)
                (SP_rows_at d (fun u v p => default 0 (xrsol !! (u, v, p)))
                   (fun u r => default 0 (yrsol !! (u, r)))
                   (VM_demands d s) ub)) as (du & Hev & _).
    + apply modify_SP_rows; [done| | |done].
      * intros u v p Hu Hv Hp. by destruct (Hx u v p Hu Hv Hp) as [q ->].
      * intros u r Hu Hr. by destruct (Hy u r Hu Hr) as [q ->].
    + eexists _, du. exact Hev.
Qed.

End BadNames.

(** ** The counters *)

Lemma violated_cuts_length l : (length (violated_cuts l) ≤ length l)%nat.
Proof.
  induction l as [|[s [[[q du] e] viol]] l IH]; simpl; [lia|].
  destruct viol; simpl; lia.
Qed.

Lemma violated_cuts_some (ss : list string)
    (outs : list (Q * Duals * LinExpr * bool)) :
  length ss = length outs → existsb (fun o => o.2) outs = true →
  (1 ≤ length (violated_cuts (zip ss outs)))%nat.
Proof.
  revert ss. induction outs as [|[[[q du] e] viol] outs IH];
    intros [|s ss] Hl Hex; simpl in *; try done.
  destruct viol; simpl in *; [lia|]. apply IH; [lia|done].
Qed.

Lemma violated_cuts_none (ss : list string)
    (outs : list (Q * Duals * LinExpr * bool)) :
  existsb (fun o => o.2) outs = false → violated_cuts (zip ss outs) = [].
Proof.
  revert ss. induction outs as [|[[[q du] e] viol] outs IH];
    intros [|s ss] Hex; simpl in *; try done.
  apply orb_false_iff in Hex as [-> Hex]. by apply IH.
Qed.

Section Counters.

Variable optimize : Model → Solution.
Variable d : Instance.
Variable tol : Q.
Variable epsilon : Q.

Local Abbreviation body := (body optimize d tol epsilon).
Local Abbreviation while_cutFound := (while_cutFound optimize d tol epsilon).

Lemma body_counters st st' b :
  body st = Ok (st', b) →
  noIters st' = S (noIters st)
  ∧ (noCuts st ≤ noCuts st' ≤ noCuts st + length (scenarios d))%nat
  ∧ (length (constrs (MP st')) - noCuts st'
     = length (constrs (MP st)) - noCuts st)%nat
  ∧ (length (constrs (MP st')) + noCuts st
     = length (constrs (MP st)) + noCuts st')%nat
  ∧ (cutFound st' = true → noCuts st < noCuts st')%nat
  ∧ (cutFound st' = false → noCuts st' = noCuts st ∧ MP st' = MP st).
Proof.
  intros H. apply body_outcome in H. cbv zeta in H.
  destruct H as (UB0 & outs & _ & Hm & HMP & _ & _ & Hcf & Hit & Hnc & _).
  pose proof (mapM_length _ _ _ Hm) as Hl.
  pose proof (violated_cuts_length (zip (scenarios d) outs)) as Hv.
  rewrite length_zip in Hv.
  rewrite HMP, fold_addConstr_constrs, length_app, Hnc, Hcf.
  split; [done|]. split; [lia|]. split; [lia|]. split; [lia|]. split.
  - intros Hex. apply (violated_cuts_some (scenarios d)) in Hex; [lia|].
    by rewrite Hl.
  - intros Hex. rewrite (violated_cuts_none _ _ Hex). simpl.
    split; [lia|done].
Qed.

Lemma while_counters fuel : ∀ st st',
  while_cutFound fuel st = Returned st' →
  (if cutFound st then noIters st < noIters st' else st' = st)%nat
  ∧ (noIters st' ≤ noIters st + fuel)%nat
  ∧ (length (constrs (MP st')) + noCuts st
     = length (constrs (MP st)) + noCuts st')%nat
  ∧ (noCuts st' - noCuts st
     ≤ (noIters st' - noIters st) * length (scenarios d))%nat
  ∧ (noCuts st ≤ noCuts st')%nat
  ∧ (noIters st' - noIters st ≤ S (noCuts st' - noCuts st))%nat.
Proof.
  induction fuel as [|fuel IH]; intros st st' H; simpl in H.
  - destruct (cutFound st) eqn:Hc; [done|]. injection H as <-.
    repeat split; try lia; done.
  - destruct (cutFound st) eqn:Hc;
      [|injection H as <-; repeat split; try lia; done].
    destruct (body st) as [[st1 b]|e] eqn:Hb; [|done].
    pose proof (body_counters _ _ _ Hb) as (Hit & Hnc & _ & Hlen & Hcf & Hnf).
    destruct b.
    + injection H as <-.
      replace (noIters st1 - noIters st)%nat with 1%nat by lia.
      repeat split; lia.
    + specialize (IH _ _ H)
        as (Hstep & Hfuel & Hlen' & Hcuts & Hmono & Hlow).
      destruct (cutFound st1) eqn:Hc1.
      * specialize (Hcf eq_refl).
        replace (noIters st' - noIters st)%nat
          with (S (noIters st' - noIters st1)) by lia.
        repeat split; simpl; lia.
      * subst st'. destruct (Hnf eq_refl) as [Hsame _].
        replace (noIters st1 - noIters st)%nat with 1%nat by lia.
        repeat split; lia.
Qed.

(** X6: when the driver returns, the number of iterations is at least 1
    and at most the fuel; the number of cuts is at least the number of
    iterations minus one (every iteration but the last found a cut) and
    at most the number of iterations times the number of scenarios; and
    it is the number of constraints of the master model. *)
Theorem X6_returned_counters fuel o iters cuts :
  multiBenders optimize d tol epsilon fuel = Returned (o, iters, cuts) →
  (1 ≤ iters ≤ fuel)%nat
  ∧ (iters - 1 ≤ cuts ≤ iters * length (scenarios d))%nat
  ∧ ∃ st, run optimize d tol epsilon fuel = Returned st
          ∧ noIters st = iters ∧ noCuts st = cuts
          ∧ length (constrs (MP st)) = cuts.
Proof.
  unfold multiBenders, run, init. intros H.
  destruct (buildSP d) as [SP0|e]; [|done].
  cbv beta iota zeta delta [mbind Res_bind] in *.
  destruct (while_cutFound fuel _) as [st| |] eqn:Hw; [|done..].
  destruct (MPobj st) as [o'|]; [|done]. injection H as <- <- <-.
  apply while_counters in Hw. simpl in Hw.
  destruct Hw as (Hstep & Hfuel & Hlen & Hcuts & _ & Hlow).
  rewrite !Nat.sub_0_r in *. rewrite Nat.add_0_r in Hlen.
  repeat split; try lia. exists st. repeat split; done.
Qed.

End Counters.

(** ** The convergence test *)

Lemma gap_test b o eps :
  Qle_bool (gap b o) eps = true ↔ b - o <= eps * (1 + Qabs b).
Proof.
  rewrite Qle_bool_iff. unfold gap.
  assert (HD : 0 < 1 + Qabs b).
  { pose proof (Qabs_nonneg b). lra. }
  split; intros H.
  - assert (E : b - o == (b - o) / (1 + Qabs b) * (1 + Qabs b)).
    { field. lra. }
    rewrite E. apply Qmult_le_compat_r; [done|lra].
  - apply Qle_shift_div_r; done.
Qed.

(** ** The cut and the dual objective *)

Lemma fold_add_Fin l a :
  fold_left PyFloat.add (map PyFloat.Fin l) (Fin a)
  = Fin (fold_left Qplus l a).
Proof.
  revert a. induction l as [|x l IH]; intros a; simpl; [done|]. apply IH.
Qed.

Lemma sum_Fin l : PyFloat.sum (map PyFloat.Fin l) = Fin (Qsum l).
Proof. apply fold_add_Fin. Qed.

Lemma Qsum_map_ext {A} (g h : A → Q) l :
  (∀ a, In a l → g a == h a) → Qsum (map g l) == Qsum (map h l).
Proof.
  induction l as [|a l IH]; intros H; simpl; [reflexivity|].
  rewrite !Qsum_cons, IH, (H a) by (by left || (intros; apply H; by right)).
  reflexivity.
Qed.

Section CutValue.

Variable d : Instance.

Lemma for_pvu_as_map {A} (g : string → string → string → A) :
  for_pvu d g
  = map (fun t : string * string * string => g t.1.1 t.1.2 t.2)
        (for_pvu d (fun u v p => (u, v, p))).
Proof. symmetry. apply (map_for_pvu d). Qed.

Lemma for_ru_as_map {A} (g : string → string → A) :
  for_ru d g
  = map (fun t : string * string => g t.1 t.2)
        (for_ru d (fun u r => (u, r))).
Proof. symmetry. apply (map_for_ru d). Qed.

Lemma mapM_id_for_pvu_inv {B} (h : string → string → string → Res B) bs
    u v p :
  mapM id (for_pvu d h) = Ok bs →
  In u (users d) → In v (VMs d) → In p (providers d) →
  ∃ b, h u v p = Ok b.
Proof.
  rewrite for_pvu_as_map. intros H Hu Hv Hp.
  destruct (mapM_id_map_elem _ _ _ (u, v, p) H) as (b & Hb & _); [|eauto].
  apply list_elem_of_In. by apply (in_for_pvu d (fun u v p => (u, v, p))).
Qed.

Lemma mapM_id_for_ru_inv {B} (h : string → string → Res B) bs u r :
  mapM id (for_ru d h) = Ok bs →
  In u (users d) → In r (routers d) → ∃ b, h u r = Ok b.
Proof.
  rewrite for_ru_as_map. intros H Hu Hr.
  destruct (mapM_id_map_elem _ _ _ (u, r) H) as (b & Hb & _); [|eauto].
  apply list_elem_of_In. by apply (in_for_ru d (fun u r => (u, r))).
Qed.

Lemma Qsum_for_pvu_ext (g h : string → string → string → Q) :
  (∀ u v p, g u v p == h u v p) →
  Qsum (for_pvu d g) == Qsum (for_pvu d h).
Proof.
  intros H. rewrite (for_pvu_as_map g), (for_pvu_as_map h).
  apply Qsum_map_ext. intros [[u v] p] _. apply H.
Qed.

Lemma Qsum_for_ru_ext (g h : string → string → Q) :
  (∀ u r, g u r == h u r) → Qsum (for_ru d g) == Qsum (for_ru d h).
Proof.
  intros H. rewrite (for_ru_as_map g), (for_ru_as_map h).
  apply Qsum_map_ext. intros [u r] _. apply H.
Qed.

(** The reservation part of the dual objective is the reservation part
    of the cut at the master's point. *)
Lemma reservation_terms_value (sol : Solution) (pisol : gmap (string * string * string) Q)
    t1 l1 :
  fsum_of (for_pvu d (fun u v p =>
     q ← getitem (get_xrsol d sol) (u, v, p);
     pi ← getitem pisol (u, v, p); Ok (Fin (q * pi)))) = Ok t1 →
  mapM id (for_pvu d (fun u v p =>
     pi ← getitem pisol (u, v, p); Ok (pi, xr u v p))) = Ok l1 →
  ∃ q1, t1 = Fin q1 ∧ eval_terms (X sol) l1 == q1.
Proof.
  intros H1 L1. unfold fsum_of in H1. bind_inv H1 as xs Hxs.
  injection H1 as <-.
  set (pi_ := fun u v p => default 0 (pisol !! (u, v, p))).
  assert (Hpi : ∀ u v p, In u (users d) → In v (VMs d) → In p (providers d) →
                         getitem pisol (u, v, p) = Ok (pi_ u v p)).
  { intros u v p Hu Hv Hp.
    destruct (mapM_id_for_pvu_inv _ _ u v p L1 Hu Hv Hp) as [b Hb].
    unfold getitem, pi_ in *. by destruct (pisol !! (u, v, p)). }
  rewrite (mapM_id_for_pvu d _
             (fun u v p => Fin (X sol (xr u v p) * pi_ u v p))) in Hxs.
  2:{ intros u v p Hu Hv Hp. rewrite (Hpi u v p Hu Hv Hp).
      unfold getitem.
      rewrite get_xrsol_lookup by (by apply elem_of_keys_uvp). done. }
  rewrite (mapM_id_for_pvu d _ (fun u v p => (pi_ u v p, xr u v p))) in L1.
  2:{ intros u v p Hu Hv Hp. by rewrite (Hpi u v p Hu Hv Hp). }
  injection Hxs as <-. injection L1 as <-.
  exists (Qsum (for_pvu d (fun u v p => X sol (xr u v p) * pi_ u v p))).
  split.
  - rewrite <- sum_Fin. f_equal. symmetry. apply (map_for_pvu d).
  - unfold eval_terms. rewrite map_for_pvu.
    apply Qsum_for_pvu_ext. intros u v p. ring.
Qed.

Lemma router_terms_value (sol : Solution) (pisol : gmap (string * string) Q) t2 l2 :
  fsum_of (for_ru d (fun u r =>
     q ← getitem (get_yrsol d sol) (u, r);
     pi ← getitem pisol (u, r); Ok (Fin (q * pi)))) = Ok t2 →
  mapM id (for_ru d (fun u r =>
     pi ← getitem pisol (u, r); Ok (pi, yr u r))) = Ok l2 →
  ∃ q2, t2 = Fin q2 ∧ eval_terms (X sol) l2 == q2.
Proof.
  intros H2 L2. unfold fsum_of in H2. bind_inv H2 as xs Hxs.
  injection H2 as <-.
  set (pi_ := fun u r => default 0 (pisol !! (u, r))).
  assert (Hpi : ∀ u r, In u (users d) → In r (routers d) →
                       getitem pisol (u, r) = Ok (pi_ u r)).
  { intros u r Hu Hr.
    destruct (mapM_id_for_ru_inv _ _ u r L2 Hu Hr) as [b Hb].
    unfold getitem, pi_ in *. by destruct (pisol !! (u, r)). }
  rewrite (mapM_id_for_ru d _
             (fun u r => Fin (X sol (yr u r) * pi_ u r))) in Hxs.
  2:{ intros u r Hu Hr. rewrite (Hpi u r Hu Hr).
      unfold getitem.
      rewrite get_yrsol_lookup by (by apply elem_of_keys_ur). done. }
  rewrite (mapM_id_for_ru d _ (fun u r => (pi_ u r, yr u r))) in L2.
  2:{ intros u r Hu Hr. by rewrite (Hpi u r Hu Hr). }
  injection Hxs as <-. injection L2 as <-.
  exists (Qsum (for_ru d (fun u r => X sol (yr u r) * pi_ u r))).
  split.
  - rewrite <- sum_Fin. f_equal. symmetry. apply (map_for_ru d).
  - unfold eval_terms. rewrite map_for_ru.
    apply Qsum_for_ru_ext. intros u r. ring.
Qed.

(** The dual objective that the assertion checks is the value of the
    cut's right-hand side at the master's point. *)
Lemma cut_value_at_master_point sol s du v e :
  dualSPobj d (get_xrsol d sol) (get_yrsol d sol) s du = Ok (Fin v) →
  expr d s du = Ok e →
  ∃ c, const e = Fin c ∧ v == eval_terms (X sol) (terms e) + c.
Proof.
  intros Hd He. unfold dualSPobj in Hd. unfold expr in He.
  bind_inv Hd as t1 H1. bind_inv Hd as t2 H2. bind_inv Hd as t3 H3.
  bind_inv Hd as t4 H4. bind_inv Hd as t5 H5. bind_inv Hd as t6 H6.
  bind_inv Hd as t7 H7. injection Hd as Hd.
  bind_inv He as l1 L1. bind_inv He as l2 L2.
  rewrite H3, H4, H5, H6, H7 in He.
  cbv beta iota zeta delta [mbind Res_bind] in He. injection He as <-.
  destruct (reservation_terms_value _ _ _ _ H1 L1) as (q1 & -> & E1).
  destruct (router_terms_value _ _ _ _ H2 L2) as (q2 & -> & E2).
  cbn [terms const].
  destruct t3 as [q3| | |], t4 as [q4| | |], t5 as [q5| | |],
    t6 as [q6| | |], t7 as [q7| | |]; simpl in Hd; try discriminate Hd.
  injection Hd as <-. eexists. split; [reflexivity|].
  rewrite eval_terms_app, E1, E2. ring.
Qed.

End CutValue.

Lemma elem_of_zip_lookup {A B} (l : list A) (k : list B) a b :
  (a, b) ∈ zip l k → ∃ i, l !! i = Some a ∧ k !! i = Some b.
Proof.
  intros H. apply list_elem_of_lookup in H as [i Hi]. exists i.
  by apply lookup_zip_with_Some in Hi as (x & y & [= <- <-] & ? & ?).
Qed.

Section CutOff.

Variable optimize : Model → Solution.
Variable d : Instance.
Variable tol : Q.
Variable epsilon : Q.

(** X8: with a cut violation tolerance of at least 1e-4 (the tolerance
    of the strong-duality assertion), every cut an iteration appends is
    violated by the master point the iteration started from; so when an
    iteration found a cut, that point is infeasible for the master the
    next iteration solves. *)
Theorem X8_cut_excludes_master_point st st' b :
  1 # 10000 <= tol →
  body optimize d tol epsilon st = Ok (st', b) →
  ∃ more,
    constrs (MP st') = constrs (MP st) ++ more
    ∧ Forall (fun c => ¬ sat_constr (X (optimize (MP st))) c) more
    ∧ (cutFound st' = true → more ≠ [])
    ∧ (more ≠ [] → ¬ feasible (MP st') (X (optimize (MP st)))).
Proof.
  intros Htol Hb. pose proof (body_counters _ _ _ _ _ _ _ Hb) as Hcnt.
  apply body_outcome in Hb. cbv zeta in Hb.
  destruct Hb as (UB0 & outs & _ & Hm & HMP & _ & _ & Hcf & _ & Hnc & _).
  set (sol := optimize (MP st)) in *.
  exists (violated_cuts (zip (scenarios d) outs)).
  assert (Hcut : Forall (fun c => ¬ sat_constr (X sol) c)
                        (violated_cuts (zip (scenarios d) outs))).
  { apply Forall_forall. intros c Hc.
    apply elem_of_violated_cuts in Hc as (s & q & du & e & Hin & ->).
    apply elem_of_zip_lookup in Hin as (i & Hs & Ho).
    apply mapM_Forall2 in Hm.
    pose proof (Forall2_lookup_lr _ _ _ _ _ _ Hm Hs Ho) as Hout.
    apply scenario_outcome_inv in Hout
      as (SP' & dual & eta & _ & Hd & Hsd & Heta & He & Hv).
    apply strong_duality_spec in Hsd as (v & -> & Hsd).
    rewrite get_nsol_lookup in Heta
      by (by eapply list_elem_of_lookup_2).
    injection Heta as <-.
    destruct (cut_value_at_master_point d sol s du v e Hd He)
      as (c & Hc & Hval).
    symmetry in Hv. apply Qltb_lt in Hv.
    apply Qabs_Qlt_condition in Hsd as [Hlo _].
    unfold sat_constr, cut. cbn [sense lhs rhs_terms rhs].
    rewrite Hc. simpl. unfold eval_terms at 2. unfold Qsum. simpl.
    intros Hsat. lra. }
  split; [by rewrite HMP, fold_addConstr_constrs|]. split; [done|]. split.
  { intros Hc Hnil. destruct Hcnt as (_ & _ & _ & _ & Hlt & _).
    specialize (Hlt Hc). rewrite Hnc, Hnil in Hlt. simpl in Hlt. lia. }
  intros Hne [_ Hfeas]. rewrite HMP, fold_addConstr_constrs in Hfeas.
  apply Forall_app in Hfeas as [_ Hfeas].
  destruct (violated_cuts (zip (scenarios d) outs)) as [|c cs]; [done|].
  apply Forall_cons in Hfeas as [Hsat _].
  apply Forall_cons in Hcut as [Hnot _]. by apply Hnot.
Qed.

End CutOff.

Section Trichotomy.
Variable optimize : Model → Solution.
Variable d : Instance.
Variable tol : Q.
Variable epsilon : Q.

(** X1: on a well-named instance (no identifier holds '[' or ',', no arc
    tail is empty) [buildSP] returns a model and the driver, whatever the
    engine answers, returns, runs out of fuel or raises the assertion
    'Strong duality': it raises no KeyError, ValueError, IndexError or
    UnboundLocalError. *)
Theorem X1_well_named_only_assertion :
  well_named d →
  (∃ SP0, buildSP d = Ok SP0)
  ∧ ∀ fuel,
      (∃ r, multiBenders optimize d tol epsilon fuel = Returned r)
      ∨ multiBenders optimize d tol epsilon fuel = OutOfFuel
      ∨ multiBenders optimize d tol epsilon fuel
        = Raised (AssertionError "Strong duality").
Proof.
  intros Hwn. split.
  - apply buildSP_Ok_iff. right. apply Hwn.
  - intros fuel.
    destruct (multiBenders optimize d tol epsilon fuel) as [r|e|] eqn:E.
    + left. by exists r.
    + right; right. f_equal.
      by apply (well_named_raises_only_strong_duality optimize d tol epsilon
                  Hwn fuel).
    + right; by left.
Qed.

End Trichotomy.

Lemma X1_witness :
  (∃ SP0, buildSP Small.d_unlimited = Ok SP0)
  ∧ ((∃ r, multiBenders Small.optimize Small.d_unlimited (1 # 10000)
             (1 # 10000) 1 = Returned r)
     ∨ multiBenders Small.optimize Small.d_unlimited (1 # 10000) (1 # 10000) 1
       = OutOfFuel
     ∨ multiBenders Small.optimize Small.d_unlimited (1 # 10000) (1 # 10000) 1
       = Raised (AssertionError "Strong duality")).
Proof.
  destruct (X1_well_named_only_assertion Small.optimize Small.d_unlimited
              (1 # 10000) (1 # 10000) small_unlimited_well_named) as [H1 H2].
  split; [exact H1|apply H2].
Defined.

Lemma X2_witness :
  buildSP Edge.d_no_tail = Err IndexError
  ∧ ∃ M, buildSP Small.d = Ok M.
Proof.
  split.
  - apply (proj1 (X2_buildSP_raises_on_empty_tail Edge.d_no_tail)).
    + discriminate.
    + by left.
  - apply (proj2 (proj2 (X2_buildSP_raises_on_empty_tail Small.d))).
    right. repeat constructor; discriminate.
Defined.

Lemma X3_witness :
  ∃ index,
    split_name (indexed_name "VM utilization bound" ["P1"; "V1"; "U1"]%string)
    = Ok ("VM utilization bound"%string, index)
    ∧ PyStr.split "," index = ["P1"; "V1"; "U1"]%string.
Proof.
  apply X3_constraint_name_round_trip.
  - reflexivity.
  - discriminate.
  - repeat constructor.
Defined.

Lemma X4_witness :
  multiBenders Small.optimize Edge.d_comma (1 # 10000) (1 # 10000) 1
  = Raised ValueError.
Proof.
  destruct (buildSP Edge.d_comma) as [SP0|e] eqn:HSP;
    [|by vm_compute in HSP].
  destruct (X4_unplain_identifier_ValueError Small.optimize Edge.d_comma
              (1 # 10000) (1 # 10000) "U,1"%string "V1"%string "P1"%string
              SP0) as [_ H].
  - by left.
  - by left.
  - by left.
  - intros [[_ H] _]. discriminate H.
  - exact HSP.
  - apply H. discriminate.
Defined.

Lemma X5_witness :
  ∃ ub,
    mapM (U_balance_of Small.d) (users Small.d) = Ok ub
    ∧ modifyAndSolveSP Small.optimize Small.d "S1" ∅
        {[ ("U1", "R1")%string := 0 ]}
        (SP_at Small.d (fun _ _ _ => 0) (fun _ _ => 0) (fun _ _ => 0) ub
               (mkLinExpr [] (Fin 0)))
      = Err KeyError.
Proof.
  destruct (mapM (U_balance_of Small.d) (users Small.d)) as [ub|e] eqn:Hub;
    [|by vm_compute in Hub].
  exists ub. split; [reflexivity|].
  apply (X5_missing_reservation_KeyError Small.optimize Small.d ub "S1"%string
           ∅ {[ ("U1", "R1")%string := 0 ]} _ _ _ _ small_well_named Hub).
  left. exists "U1"%string, "V1"%string, "P1"%string.
  repeat split; by left.
Defined.

Lemma X6_witness :
  (1 ≤ 3 ≤ 3)%nat ∧ (3 - 1 ≤ 2 ≤ 3 * length (scenarios Small.d))%nat
  ∧ ∃ st, run Small.optimize Small.d (1 # 10000) (1 # 10000) 3 = Returned st
          ∧ noIters st = 3%nat ∧ noCuts st = 2%nat
          ∧ length (constrs (MP st)) = 2%nat.
Proof.
  apply (X6_returned_counters Small.optimize Small.d (1 # 10000) (1 # 10000)
           3 2 3 2).
  reflexivity.
Defined.

Lemma X8_witness :
  ∃ st st' more,
    init Small.d = Ok st
    ∧ body Small.optimize Small.d (1 # 10000) (1 # 10000) st = Ok (st', false)
    ∧ constrs (MP st') = constrs (MP st) ++ more
    ∧ Forall (fun c => ¬ sat_constr (X (Small.optimize (MP st))) c) more
    ∧ ¬ feasible (MP st') (X (Small.optimize (MP st))).
Proof.
  destruct (init Small.d) as [st|e] eqn:Hinit; [|by vm_compute in Hinit].
  destruct (body Small.optimize Small.d (1 # 10000) (1 # 10000) st)
    as [[st' b]|e] eqn:Hb.
  2:{ exfalso. vm_compute in Hinit. injection Hinit as <-.
      by vm_compute in Hb. }
  assert (b = false) as ->.
  { vm_compute in Hinit. injection Hinit as <-. vm_compute in Hb.
    by injection Hb. }
  assert (Hc' : cutFound st' = true).
  { vm_compute in Hinit. injection Hinit as <-. vm_compute in Hb.
    by injection Hb as <-. }
  destruct (X8_cut_excludes_master_point Small.optimize Small.d (1 # 10000)
              (1 # 10000) st st' false) as (more & Hm & Hcut & Hne & Hinf).
  - apply Qle_refl.
  - exact Hb.
  - exists st, st', more. split; [reflexivity|]. split; [exact Hb|].
    split; [exact Hm|]. split; [exact Hcut|]. apply Hinf, Hne, Hc'.
Defined.

(** ** Weak duality *)

Lemma Qsum_map_le {A} (g h : A → Q) l :
  (∀ a, In a l → g a <= h a) → Qsum (map g l) <= Qsum (map h l).
Proof.
  induction l as [|a l IH]; intros H; simpl; [apply Qle_refl|].
  rewrite !Qsum_cons. apply Qplus_le_compat.
  - apply H. by left.
  - apply IH. intros b Hb. apply H. by right.
Qed.

Lemma row_bound y c pi :
  sat_constr y c → price_admissible c pi →
  pi * finite_part (rhs c) <= pi * row_form y c.
Proof.
  unfold sat_constr, price_admissible, row_form.
  intros Hsat [Hsign Hinf].
  destruct (rhs c) as [b| | |] eqn:Hr; simpl in *.
  - set (L := eval_terms y (lhs c)) in *.
    set (R := eval_terms y (rhs_terms c)) in *.
    destruct (sense c); simpl in *.
    + assert (0 <= (- pi) * (b - (L - R))) by (apply Qmult_le_0_compat; lra).
      lra.
    + assert (0 <= pi * ((L - R) - b)) by (apply Qmult_le_0_compat; lra).
      lra.
    + destruct Hsat as [H1 H2].
      assert (E : L - R == b) by lra. rewrite E. lra.
  - rewrite (Hinf eq_refl). lra.
  - rewrite (Hinf eq_refl). lra.
  - rewrite (Hinf eq_refl). lra.
Qed.

Lemma in_with_pi sol cs c pi :
  In (c, pi) (with_pi sol cs) → ∃ i, cs !! i = Some c ∧ pi = Pi sol i.
Proof.
  unfold with_pi. intros H.
  apply list_elem_of_In, elem_of_lookup_imap in H as (i & c' & [= -> ->] & Hi).
  eauto.
Qed.

Lemma weak_duality M sol y :
  dual_feasible M sol → feasible M y →
  Qsum (map (fun cp : Constr * Q => cp.2 * finite_part (rhs cp.1))
            (with_pi sol (constrs M)))
  <= eval_terms y (terms (objective M)).
Proof.
  intros [Hadm Hdual] [Hdom Hrows].
  eapply Qle_trans; [|apply (Hdual y Hdom)].
  apply Qsum_map_le. intros [c pi] Hin. simpl.
  apply row_bound.
  - apply in_with_pi in Hin as (i & Hi & _).
    rewrite Forall_forall in Hrows. apply Hrows.
    by eapply list_elem_of_lookup_2.
  - rewrite Forall_forall in Hadm.
    by apply (Hadm (c, pi)), list_elem_of_In.
Qed.

(** ** Dual feasibility does not depend on finite right-hand sides *)

Lemma imap_same_form (g : nat → Q) cs cs' :
  Forall2 same_form cs cs' →
  Forall2 (fun cp cp' : Constr * Q => cp'.2 = cp.2 ∧ same_form cp.1 cp'.1)
          (imap (fun i c => (c, g i)) cs) (imap (fun i c => (c, g i)) cs').
Proof.
  intros H. revert g. induction H as [|c c' cs cs' Hc H IH]; intros g.
  - constructor.
  - simpl. constructor; [done|]. apply (IH (g ∘ S)).
Qed.

Lemma dual_feasible_same_form M M' sol :
  vars M' = vars M → objective M' = objective M →
  Forall2 same_form (constrs M) (constrs M') →
  dual_feasible M sol → dual_feasible M' sol.
Proof.
  intros Hv Ho Hrows [Hadm Hdual]. unfold dual_feasible, with_pi in *.
  pose proof (imap_same_form (Pi sol) _ _ Hrows) as H2.
  split.
  - clear Hdual. induction H2 as [|[c pi] [c' pi'] l l' Hcp H2 IH];
      [constructor|].
    apply Forall_cons in Hadm as [Ha Hadm].
    constructor; [|by apply IH].
    destruct Hcp as [Hp (_ & _ & Hs & _ & Hf)]. simpl in *. subst pi'.
    unfold price_admissible in *. by rewrite Hs, Hf.
  - intros y Hy. rewrite Hv in Hy. specialize (Hdual y Hy).
    rewrite Ho.
    assert (E : map (fun cp : Constr * Q => cp.2 * row_form y cp.1)
                    (imap (fun i c => (c, Pi sol i)) (constrs M'))
                = map (fun cp : Constr * Q => cp.2 * row_form y cp.1)
                    (imap (fun i c => (c, Pi sol i)) (constrs M))).
    { clear -H2. induction H2 as [|[c pi] [c' pi'] l l' Hcp H2 IH];
        [done|].
      simpl. rewrite IH. f_equal.
      destruct Hcp as [Hp (_ & Hl & _ & Hr & _)]. simpl in *. subst pi'.
      unfold row_form. by rewrite Hl, Hr. }
    by rewrite E.
Qed.

(** ** Recording the prices *)

Lemma record_dual_price acc c pi acc' name index :
  record_dual acc (c, pi) = Ok acc' →
  split_name (constrName c) = Ok (name, index) →
  priced_family name = true →
  recorded_price acc' (constrName c) = Some pi.
Proof.
  unfold record_dual, recorded_price, priced_family. intros H Hs Hp.
  rewrite Hs in *. cbv beta iota zeta delta [mbind Res_bind] in H.
  destruct (String.eqb name "VM utilization bound").
  { destruct (PyStr.split "," index) as [|p [|v [|u [|? ?]]]];
      try discriminate H.
    injection H as <-. apply lookup_insert_eq. }
  destruct (String.eqb name "R utilization bound").
  { destruct (PyStr.split "," index) as [|r [|u [|? ?]]];
      try discriminate H.
    injection H as <-. apply lookup_insert_eq. }
  destruct (String.eqb name "CPU capacity").
  { injection H as <-. apply lookup_insert_eq. }
  destruct (String.eqb name "Storage capacity").
  { injection H as <-. apply lookup_insert_eq. }
  destruct (String.eqb name "Memory capacity").
  { injection H as <-. apply lookup_insert_eq. }
  destruct (String.eqb name "Bandwidth capacity").
  { injection H as <-. apply lookup_insert_eq. }
  destruct (String.eqb name "VM demand"); [|discriminate Hp].
  destruct (PyStr.split "," index) as [|v [|u [|? ?]]];
    try discriminate H.
  injection H as <-. apply lookup_insert_eq.
Qed.

Lemma split3_inj a b p v u :
  PyStr.split "," a = [p; v; u] → PyStr.split "," b = [p; v; u] → a = b.
Proof. intros Ha Hb. apply (split_inj ","). congruence. Qed.

Lemma split2_inj a b r u :
  PyStr.split "," a = [r; u] → PyStr.split "," b = [r; u] → a = b.
Proof. intros Ha Hb. apply (split_inj ","). congruence. Qed.

(** The tests of [recorded_price] that do not concern the family at
    hand. *)
Ltac skip_family name0 s :=
  let F := fresh "F" in
  destruct (String.eqb name0 s) eqn:F; [reflexivity|].

Ltac this_family name0 s F :=
  destruct (String.eqb name0 s) eqn:F;
  [apply String.eqb_eq in F; subst name0|reflexivity].

Lemma record_dual_other acc c pi acc' cn :
  record_dual acc (c, pi) = Ok acc' →
  split_name (constrName c) ≠ split_name cn →
  recorded_price acc' cn = recorded_price acc cn.
Proof.
  unfold record_dual, recorded_price. intros H Hne.
  destruct (split_name (constrName c)) as [[name index]|e];
    [|discriminate H].
  cbv beta iota zeta delta [mbind Res_bind] in H.
  destruct (split_name cn) as [[name0 index0]|e0]; [|done].
  assert (Hk : name = name0 → index ≠ index0) by congruence. clear Hne.
  destruct (String.eqb name "VM utilization bound") eqn:E1.
  { apply String.eqb_eq in E1. subst name.
    destruct (PyStr.split "," index) as [|p [|v [|u [|? ?]]]] eqn:Es;
      try discriminate H.
    injection H as <-. cbn [vu_pisol ru_pisol c_pisol s_pisol m_pisol
                            b_pisol d_pisol].
    this_family name0 "VM utilization bound" Fk.
    destruct (PyStr.split "," index0) as [|p0 [|v0 [|u0 [|? ?]]]] eqn:Es0;
      try reflexivity.
    apply lookup_insert_ne. intros [= -> -> ->].
    apply Hk; [done|]. by eapply split3_inj. }
  destruct (String.eqb name "R utilization bound") eqn:E2.
  { apply String.eqb_eq in E2. subst name.
    destruct (PyStr.split "," index) as [|r [|u [|? ?]]] eqn:Es;
      try discriminate H.
    injection H as <-. cbn [vu_pisol ru_pisol c_pisol s_pisol m_pisol
                            b_pisol d_pisol].
    skip_family name0 "VM utilization bound".
    this_family name0 "R utilization bound" Fk.
    destruct (PyStr.split "," index0) as [|r0 [|u0 [|? ?]]] eqn:Es0;
      try reflexivity.
    apply lookup_insert_ne. intros [= -> ->].
    apply Hk; [done|]. by eapply split2_inj. }
  destruct (String.eqb name "CPU capacity") eqn:E3.
  { apply String.eqb_eq in E3. subst name. injection H as <-.
    cbn [vu_pisol ru_pisol c_pisol s_pisol m_pisol b_pisol d_pisol].
    skip_family name0 "VM utilization bound".
    skip_family name0 "R utilization bound".
    this_family name0 "CPU capacity" Fk.
    apply lookup_insert_ne. by apply Hk. }
  destruct (String.eqb name "Storage capacity") eqn:E4.
  { apply String.eqb_eq in E4. subst name. injection H as <-.
    cbn [vu_pisol ru_pisol c_pisol s_pisol m_pisol b_pisol d_pisol].
    skip_family name0 "VM utilization bound".
    skip_family name0 "R utilization bound".
    skip_family name0 "CPU capacity".
    this_family name0 "Storage capacity" Fk.
    apply lookup_insert_ne. by apply Hk. }
  destruct (String.eqb name "Memory capacity") eqn:E5.
  { apply String.eqb_eq in E5. subst name. injection H as <-.
    cbn [vu_pisol ru_pisol c_pisol s_pisol m_pisol b_pisol d_pisol].
    skip_family name0 "VM utilization bound".
    skip_family name0 "R utilization bound".
    skip_family name0 "CPU capacity".
    skip_family name0 "Storage capacity".
    this_family name0 "Memory capacity" Fk.
    apply lookup_insert_ne. by apply Hk. }
  destruct (String.eqb name "Bandwidth capacity") eqn:E6.
  { apply String.eqb_eq in E6. subst name. injection H as <-.
    cbn [vu_pisol ru_pisol c_pisol s_pisol m_pisol b_pisol d_pisol].
    skip_family name0 "VM utilization bound".
    skip_family name0 "R utilization bound".
    skip_family name0 "CPU capacity".
    skip_family name0 "Storage capacity".
    skip_family name0 "Memory capacity".
    this_family name0 "Bandwidth capacity" Fk.
    apply lookup_insert_ne. by apply Hk. }
  destruct (String.eqb name "VM demand") eqn:E7;
    [|by injection H as <-].
  apply String.eqb_eq in E7. subst name.
  destruct (PyStr.split "," index) as [|v [|u [|? ?]]] eqn:Es;
    try discriminate H.
  injection H as <-.
  cbn [vu_pisol ru_pisol c_pisol s_pisol m_pisol b_pisol d_pisol].
  skip_family name0 "VM utilization bound".
  skip_family name0 "R utilization bound".
  skip_family name0 "CPU capacity".
  skip_family name0 "Storage capacity".
  skip_family name0 "Memory capacity".
  skip_family name0 "Bandwidth capacity".
  this_family name0 "VM demand" Fk.
  destruct (PyStr.split "," index0) as [|v0 [|u0 [|? ?]]] eqn:Es0;
    try reflexivity.
  apply lookup_insert_ne. intros [= -> ->].
  apply Hk; [done|]. by eapply split2_inj.
Qed.

Lemma foldM_record_other l cn : ∀ acc acc',
  foldM record_dual l acc = Ok acc' →
  (∀ c pi, In (c, pi) l → split_name (constrName c) ≠ split_name cn) →
  recorded_price acc' cn = recorded_price acc cn.
Proof.
  induction l as [|[c pi] l IH]; intros acc acc' H Hne; simpl in H.
  - by injection H as <-.
  - bind_inv H as acc1 H1. rewrite (IH _ _ H).
    + eapply record_dual_other; [exact H1|]. apply (Hne c pi). by left.
    + intros c' pi' Hin. apply (Hne c' pi'). by right.
Qed.

Lemma foldM_record_price l : ∀ acc acc' i c pi name index,
  foldM record_dual l acc = Ok acc' →
  l !! i = Some (c, pi) →
  (∀ j c' pi', (i < j)%nat → l !! j = Some (c', pi') →
               split_name (constrName c') ≠ split_name (constrName c)) →
  split_name (constrName c) = Ok (name, index) →
  priced_family name = true →
  recorded_price acc' (constrName c) = Some pi.
Proof.
  induction l as [|[c0 pi0] l IH];
    intros acc acc' i c pi name index H Hi Hlater Hs Hp; [done|].
  simpl in H. bind_inv H as acc1 H1. destruct i as [|i].
  - injection Hi as -> ->.
    rewrite (foldM_record_other _ _ _ _ H).
    + by eapply record_dual_price.
    + intros c' pi' Hin. apply list_elem_of_In, list_elem_of_lookup in Hin
        as [j Hj].
      apply (Hlater (S j) c' pi'); [lia|done].
  - eapply (IH _ _ i); try done.
    intros j c' pi' Hij Hj. apply (Hlater (S j) c' pi'); [lia|done].
Qed.

Lemma with_pi_lookup sol cs i c :
  cs !! i = Some c → with_pi sol cs !! i = Some (c, Pi sol i).
Proof.
  intros H. unfold with_pi. by rewrite list_lookup_imap, H.
Qed.

Lemma with_pi_lookup_inv sol cs i c pi :
  with_pi sol cs !! i = Some (c, pi) → cs !! i = Some c ∧ pi = Pi sol i.
Proof.
  unfold with_pi. rewrite list_lookup_imap.
  destruct (cs !! i); simpl; [|done]. by intros [= -> ->].
Qed.

(** With rows whose names parse to different pairs, the price found
    under a row's name is the engine's price of that row. *)
Lemma recorded_prices sol cs du i c name index :
  foldM record_dual (with_pi sol cs) no_duals = Ok du →
  NoDup (map (fun c => split_name (constrName c)) cs) →
  cs !! i = Some c →
  split_name (constrName c) = Ok (name, index) →
  priced_family name = true →
  recorded_price du (constrName c) = Some (Pi sol i).
Proof.
  intros H Hnd Hi Hs Hp.
  eapply (foldM_record_price _ _ _ i); try done.
  - by apply with_pi_lookup.
  - intros j c' pi' Hij Hj Heq.
    apply with_pi_lookup_inv in Hj as [Hj _].
    assert (i = j); [|lia].
    eapply NoDup_lookup; [exact Hnd| |].
    + by rewrite list_lookup_fmap, Hi.
    + change (map ?f ?l) with (f <$> l).
      rewrite list_lookup_fmap, Hj. simpl. by rewrite Heq.
Qed.

(** ** The names of the subproblem's rows are distinct *)

Lemma NoDup_map_in {A B} (g : A → B) l :
  (∀ x y, In x l → In y l → g x = g y → x = y) →
  NoDup l → NoDup (map g l).
Proof.
  intros Hinj Hl. change (map g l) with (g <$> l).
  apply NoDup_fmap_2_strong; [|done].
  intros x y Hx Hy. apply Hinj; by apply list_elem_of_In.
Qed.

Lemma NoDup_flat_map_in {A B} (g : A → list B) l :
  (∀ x1 x2 y, In x1 l → In x2 l → In y (g x1) → In y (g x2) → x1 = x2) →
  (∀ x, In x l → NoDup (g x)) → NoDup l → NoDup (flat_map g l).
Proof.
  intros Hinj Hg Hl. change (flat_map g l) with (l ≫= g).
  apply NoDup_bind; [| |done].
  - intros x1 x2 y H1 H2 Hy1 Hy2.
    apply (Hinj x1 x2 y); by apply list_elem_of_In.
  - intros x Hx. by apply Hg, list_elem_of_In.
Qed.

Lemma NoDup_pairs {A} (g : string → string → A) l1 l2 :
  NoDup l1 → NoDup l2 →
  (∀ a b a' b', g a b = g a' b' → a = a' ∧ b = b') →
  NoDup (flat_map (fun a => map (g a) l2) l1).
Proof.
  intros H1 H2 Hinj. apply NoDup_flat_map_in; [| |done].
  - intros a a' y _ _ Hy Hy'.
    apply in_map_iff in Hy as (b & <- & _).
    apply in_map_iff in Hy' as (b' & Hy' & _).
    symmetry in Hy'. by destruct (Hinj _ _ _ _ Hy').
  - intros a _. apply NoDup_map_in; [|done].
    intros b b' _ _ Hb. by destruct (Hinj _ _ _ _ Hb).
Qed.

Lemma NoDup_triples {A} (g : string → string → string → A) l1 l2 l3 :
  NoDup l1 → NoDup l2 → NoDup l3 →
  (∀ a b c a' b' c', g a b c = g a' b' c' → a = a' ∧ b = b' ∧ c = c') →
  NoDup (flat_map (fun a => flat_map (fun b => map (g a b) l3) l2) l1).
Proof.
  intros H1 H2 H3 Hinj. apply NoDup_flat_map_in; [| |done].
  - intros a a' y _ _ Hy Hy'.
    apply in_flat_map in Hy as (b & _ & Hy).
    apply in_map_iff in Hy as (c & <- & _).
    apply in_flat_map in Hy' as (b' & _ & Hy').
    apply in_map_iff in Hy' as (c' & Hy' & _).
    symmetry in Hy'. by destruct (Hinj _ _ _ _ _ _ Hy').
  - intros a _. apply NoDup_pairs; [done..|].
    intros b c b' c' Hb. by destruct (Hinj _ _ _ _ _ _ Hb) as (_ & ? & ?).
Qed.

Lemma NoDup_app_tagged (l1 l2 : list (Res (string * string))) n ns :
  NoDup l1 ∧ (∀ k, In k l1 → family_of k = n) →
  NoDup l2 ∧ (∀ k, In k l2 → In (family_of k) ns) →
  ¬ In n ns →
  NoDup (l1 ++ l2) ∧ (∀ k, In k (l1 ++ l2) → In (family_of k) (n :: ns)).
Proof.
  intros [H1 T1] [H2 T2] Hn. split.
  - apply NoDup_app. split; [done|]. split; [|done].
    intros k Hk1 Hk2. apply list_elem_of_In in Hk1, Hk2.
    apply Hn. rewrite <- (T1 k Hk1). by apply T2.
  - intros k Hk. apply in_app_or in Hk as [Hk|Hk].
    + left. symmetry. by apply T1.
    + right. by apply T2.
Qed.

Lemma family_keys N (F : list Constr) (idxs : list (list string)) :
  lacks "[" N = true →
  map constrName F = map (indexed_name N) idxs →
  NoDup idxs → Forall (fun idx => idx ≠ [] ∧ Forall plain idx) idxs →
  NoDup (map (fun c => split_name (constrName c)) F)
  ∧ ∀ k, In k (map (fun c => split_name (constrName c)) F) → family_of k = N.
Proof.
  intros HN Hnames Hnd Hplain.
  assert (E : map (fun c => split_name (constrName c)) F
              = map (fun idx => Ok (N, PyStr.join "," idx)) idxs).
  { rewrite <- (map_map constrName split_name), Hnames, map_map.
    apply map_ext_in. intros idx Hin.
    rewrite Forall_forall in Hplain.
    destruct (Hplain idx) as [_ Hp]; [by apply list_elem_of_In|].
    apply split_name_indexed; [done|]. apply lacks_join; [done|].
    eapply Forall_impl; [exact Hp|]. by intros a [? ?]. }
  rewrite E. split.
  - apply NoDup_map_in; [|done]. intros idx idx' Hi Hi' [= Hj].
    rewrite Forall_forall in Hplain.
    destruct (Hplain idx) as [Hne Hp]; [by apply list_elem_of_In|].
    destruct (Hplain idx') as [Hne' Hp']; [by apply list_elem_of_In|].
    rewrite <- (split_join idx), <- (split_join idx'), Hj; try done.
    + eapply Forall_impl; [exact Hp'|]. by intros a [? ?].
    + eapply Forall_impl; [exact Hp|]. by intros a [? ?].
  - intros k Hk. apply in_map_iff in Hk as (idx & <- & _). done.
Qed.

Section RowNames.

Variable d : Instance.
Hypothesis Hwn : well_named d.
Hypothesis Hid : distinct_ids d.

Local Abbreviation key := (fun c : Constr => split_name (constrName c)).

Lemma plain_ids :
  (∀ u, In u (users d) → plain u) ∧ (∀ v, In v (VMs d) → plain v)
  ∧ (∀ p, In p (providers d) → plain p) ∧ (∀ r, In r (routers d) → plain r).
Proof.
  split; [|split; [|split]]; intros x Hx.
  - by apply (plain_user d Hwn).
  - by apply (plain_VM d Hwn).
  - by apply (plain_provider d Hwn).
  - by apply (plain_router d Hwn).
Qed.

Lemma Forall_pairs {A} (P : A → Prop) (g : string → string → A) l1 l2 :
  (∀ a b, In a l1 → In b l2 → P (g a b)) →
  Forall P (flat_map (fun a => map (g a) l2) l1).
Proof.
  intros H. apply Forall_forall. intros x Hx.
  apply list_elem_of_In, in_flat_map in Hx as (a & Ha & Hx).
  apply in_map_iff in Hx as (b & <- & Hb). by apply H.
Qed.

Lemma Forall_triples {A} (P : A → Prop) (g : string → string → string → A)
    l1 l2 l3 :
  (∀ a b c, In a l1 → In b l2 → In c l3 → P (g a b c)) →
  Forall P (flat_map (fun a => flat_map (fun b => map (g a b) l3) l2) l1).
Proof.
  intros H. apply Forall_forall. intros x Hx.
  apply list_elem_of_In, in_flat_map in Hx as (a & Ha & Hx).
  apply in_flat_map in Hx as (b & Hb & Hx).
  apply in_map_iff in Hx as (c & <- & Hc). by apply H.
Qed.

Lemma Forall_singles {A} (P : A → Prop) (g : string → A) l :
  (∀ a, In a l → P (g a)) → Forall P (map g l).
Proof.
  intros H. apply Forall_forall. intros x Hx.
  apply list_elem_of_In, in_map_iff in Hx as (a & <- & Ha). by apply H.
Qed.

Lemma row_keys_pvu N (row : string → string → string → Constr) :
  lacks "[" N = true →
  (∀ u v p, constrName (row u v p) = indexed_name N [p; v; u]) →
  NoDup (map key (for_pvu d row))
  ∧ ∀ k, In k (map key (for_pvu d row)) → family_of k = N.
Proof.
  intros HN Hrow. destruct Hid as (Hu & Hv & Hp & Hr).
  destruct plain_ids as (Pu & Pv & Pp & Pr).
  apply (family_keys N _ (for_pvu d (fun u v p => [p; v; u]))); [done| | |].
  - rewrite !map_for_pvu. unfold for_pvu.
    apply flat_map_ext. intros p. apply flat_map_ext. intros v.
    apply map_ext. intros u. apply Hrow.
  - unfold for_pvu.
    apply (NoDup_triples (fun p v u => [p; v; u])); [done..|].
    by intros a b c a' b' c' [= -> -> ->].
  - unfold for_pvu.
    apply (Forall_triples _ (fun p v u => [p; v; u])).
    intros p v u Hp' Hv' Hu'. split; [done|].
    do 3 (constructor; [auto|]). constructor.
Qed.

Lemma row_keys_ru N (row : string → string → Constr) :
  lacks "[" N = true →
  (∀ u r, constrName (row u r) = indexed_name N [r; u]) →
  NoDup (map key (for_ru d row))
  ∧ ∀ k, In k (map key (for_ru d row)) → family_of k = N.
Proof.
  intros HN Hrow. destruct Hid as (Hu & Hv & Hp & Hr).
  destruct plain_ids as (Pu & Pv & Pp & Pr).
  apply (family_keys N _ (for_ru d (fun u r => [r; u]))); [done| | |].
  - rewrite !map_for_ru. unfold for_ru.
    apply flat_map_ext. intros r. apply map_ext. intros u. apply Hrow.
  - unfold for_ru. apply (NoDup_pairs (fun r u => [r; u])); [done..|].
    by intros a b a' b' [= -> ->].
  - unfold for_ru. apply (Forall_pairs _ (fun r u => [r; u])).
    intros r u Hr' Hu'. split; [done|].
    do 2 (constructor; [auto|]). constructor.
Qed.

Lemma row_keys_vu N (row : string → string → Constr) :
  lacks "[" N = true →
  (∀ u v, constrName (row u v) = indexed_name N [v; u]) →
  NoDup (map key (for_vu d row))
  ∧ ∀ k, In k (map key (for_vu d row)) → family_of k = N.
Proof.
  intros HN Hrow. destruct Hid as (Hu & Hv & Hp & Hr).
  destruct plain_ids as (Pu & Pv & Pp & Pr).
  apply (family_keys N _ (for_vu d (fun u v => [v; u]))); [done| | |].
  - unfold for_vu. rewrite !map_flat_map.
    apply flat_map_ext. intros v. rewrite !map_map.
    apply map_ext. intros u. apply Hrow.
  - unfold for_vu. apply (NoDup_pairs (fun v u => [v; u])); [done..|].
    by intros a b a' b' [= -> ->].
  - unfold for_vu. apply (Forall_pairs _ (fun v u => [v; u])).
    intros v u Hv' Hu'. split; [done|].
    do 2 (constructor; [auto|]). constructor.
Qed.

Lemma row_keys_ur N (row : string → string → Constr) :
  lacks "[" N = true →
  (∀ u r, constrName (row u r) = indexed_name N [u; r]) →
  NoDup (map key (for_ur d row))
  ∧ ∀ k, In k (map key (for_ur d row)) → family_of k = N.
Proof.
  intros HN Hrow. destruct Hid as (Hu & Hv & Hp & Hr).
  destruct plain_ids as (Pu & Pv & Pp & Pr).
  apply (family_keys N _ (for_ur d (fun u r => [u; r]))); [done| | |].
  - unfold for_ur. rewrite !map_flat_map.
    apply flat_map_ext. intros u. rewrite !map_map.
    apply map_ext. intros r. apply Hrow.
  - unfold for_ur. apply (NoDup_pairs (fun u r => [u; r])); [done..|].
    by intros a b a' b' [= -> ->].
  - unfold for_ur. apply (Forall_pairs _ (fun u r => [u; r])).
    intros u r Hu' Hr'. split; [done|].
    do 2 (constructor; [auto|]). constructor.
Qed.

Lemma row_keys_singles N (row : string → Constr) l :
  lacks "[" N = true → NoDup l → (∀ a, In a l → plain a) →
  (∀ a, constrName (row a) = indexed_name N [a]) →
  NoDup (map key (map row l))
  ∧ ∀ k, In k (map key (map row l)) → family_of k = N.
Proof.
  intros HN Hl Hp Hrow.
  apply (family_keys N _ (map (fun a => [a]) l)); [done| | |].
  - rewrite !map_map. apply map_ext. intros a. apply Hrow.
  - apply NoDup_map_in; [|done]. by intros a b _ _ [= ->].
  - apply Forall_singles. intros a Ha. split; [done|].
    constructor; [auto|]. constructor.
Qed.

Lemma keys_R_demand :
  NoDup (map key (R_demand d))
  ∧ ∀ k, In k (map key (R_demand d)) → family_of k = "R demand"%string.
Proof.
  destruct Hid as (Hu & Hv & Hp & Hr).
  destruct plain_ids as (Pu & Pv & Pp & Pr).
  apply (family_keys _ _
           (flat_map (fun p => map (fun u => [p; u]) (users d))
                     (providers d))); [done| | |].
  - unfold R_demand. rewrite !map_flat_map.
    apply flat_map_ext. intros p. rewrite !map_map. by apply map_ext.
  - apply (NoDup_pairs (fun p u => [p; u])); [done..|].
    by intros a b a' b' [= -> ->].
  - apply (Forall_pairs _ (fun p u => [p; u])).
    intros p u Hp' Hu'. split; [done|].
    do 2 (constructor; [auto|]). constructor.
Qed.

Lemma U_balance_names ub :
  mapM (U_balance_of d) (users d) = Ok ub →
  map constrName ub = map (fun u => indexed_name "U balance" [u]) (users d)
  ∧ Forall (fun c => rhs c = Fin 0) ub.
Proof.
  intros H. apply mapM_Forall2 in H.
  induction H as [|u c us cs Hc H IH]; [done|].
  unfold U_balance_of in Hc. bind_inv Hc as r Hr. injection Hc as <-.
  destruct IH as [IH1 IH2]. simpl. rewrite IH1. split; [done|].
  by constructor.
Qed.

Lemma keys_U_balance ub :
  mapM (U_balance_of d) (users d) = Ok ub →
  NoDup (map key ub)
  ∧ ∀ k, In k (map key ub) → family_of k = "U balance"%string.
Proof.
  intros Hub. destruct Hid as (Hu & Hv & Hp & Hr).
  destruct plain_ids as (Pu & Pv & Pp & Pr).
  apply (family_keys _ _ (map (fun u => [u]) (users d))); [done| | |].
  - rewrite (proj1 (U_balance_names ub Hub)), map_map. done.
  - apply NoDup_map_in; [|done]. by intros a b _ _ [= ->].
  - apply Forall_singles. intros a Ha. split; [done|].
    constructor; [auto|]. constructor.
Qed.

Lemma tag_singleton (l : list (Res (string * string))) n :
  NoDup l ∧ (∀ k, In k l → family_of k = n) →
  NoDup l ∧ (∀ k, In k l → In (family_of k) [n]).
Proof. intros [H T]. split; [done|]. intros k Hk. left. symmetry. auto. Qed.

Ltac not_in_names :=
  let H := fresh "H" in
  simpl; intros H; repeat destruct H as [H|H]; try discriminate H; done.

Lemma SP_rows_keys xv yv dem ub :
  mapM (U_balance_of d) (users d) = Ok ub →
  NoDup (map key (SP_rows_at d xv yv dem ub)).
Proof.
  intros Hub. destruct Hid as (Hu & Hv & Hp & Hr).
  destruct plain_ids as (Pu & Pv & Pp & Pr).
  unfold SP_rows_at. rewrite !map_app.
  refine (proj1 (NoDup_app_tagged _ _ "VM utilization bound"
            ["R utilization bound"; "CPU capacity"; "Storage capacity"; "Memory capacity"; "Bandwidth capacity"; "VM demand"; "R balance"; "R usage"; "R demand"; "U balance"]%string
            (row_keys_pvu "VM utilization bound" _ eq_refl _) _ _));
    [done| |not_in_names].
  refine (NoDup_app_tagged _ _ "R utilization bound"
            ["CPU capacity"; "Storage capacity"; "Memory capacity"; "Bandwidth capacity"; "VM demand"; "R balance"; "R usage"; "R demand"; "U balance"]%string
            (row_keys_ru "R utilization bound" _ eq_refl _) _ _);
    [done| |not_in_names].
  refine (NoDup_app_tagged _ _ "CPU capacity"
            ["Storage capacity"; "Memory capacity"; "Bandwidth capacity"; "VM demand"; "R balance"; "R usage"; "R demand"; "U balance"]%string
            (row_keys_singles "CPU capacity" _ _ eq_refl Hp Pp _) _ _);
    [done| |not_in_names].
  refine (NoDup_app_tagged _ _ "Storage capacity"
            ["Memory capacity"; "Bandwidth capacity"; "VM demand"; "R balance"; "R usage"; "R demand"; "U balance"]%string
            (row_keys_singles "Storage capacity" _ _ eq_refl Hp Pp _) _ _);
    [done| |not_in_names].
  refine (NoDup_app_tagged _ _ "Memory capacity"
            ["Bandwidth capacity"; "VM demand"; "R balance"; "R usage"; "R demand"; "U balance"]%string
            (row_keys_singles "Memory capacity" _ _ eq_refl Hp Pp _) _ _);
    [done| |not_in_names].
  refine (NoDup_app_tagged _ _ "Bandwidth capacity"
            ["VM demand"; "R balance"; "R usage"; "R demand"; "U balance"]%string
            (row_keys_singles "Bandwidth capacity" _ _ eq_refl Hr Pr _) _ _);
    [done| |not_in_names].
  refine (NoDup_app_tagged _ _ "VM demand"
            ["R balance"; "R usage"; "R demand"; "U balance"]%string
            (row_keys_vu "VM demand" _ eq_refl _) _ _);
    [done| |not_in_names].
  refine (NoDup_app_tagged _ _ "R balance"
            ["R usage"; "R demand"; "U balance"]%string
            (row_keys_ur "R balance" _ eq_refl _) _ _);
    [done| |not_in_names].
  refine (NoDup_app_tagged _ _ "R usage"
            ["R demand"; "U balance"]%string
            (row_keys_ur "R usage" _ eq_refl _) _ _);
    [done| |not_in_names].
  refine (NoDup_app_tagged _ _ "R demand"
            ["U balance"]%string
            keys_R_demand _ _);
    [|not_in_names].
  apply tag_singleton. by apply keys_U_balance.
Qed.

End RowNames.

(** ** The dual bound, row by row *)

Lemma Qsum_imap (g : nat → Q) (h k : Constr → Q) cs :
  (∀ i c, cs !! i = Some c → g i * h c == k c) →
  Qsum (map (fun cp : Constr * Q => cp.2 * h cp.1)
            (imap (fun i c => (c, g i)) cs))
  == Qsum (map k cs).
Proof.
  revert g. induction cs as [|c cs IH]; intros g H; [reflexivity|].
  simpl. rewrite !Qsum_cons. rewrite (H 0%nat c eq_refl).
  rewrite (IH (g ∘ S)); [reflexivity|].
  intros i c' Hi. apply (H (S i) c' Hi).
Qed.

Lemma Qsum_map_zero {A} (g : A → Q) l :
  (∀ a, In a l → g a == 0) → Qsum (map g l) == 0.
Proof.
  induction l as [|a l IH]; intros H; [reflexivity|].
  simpl. rewrite Qsum_cons, (H a), IH; [reflexivity| |by left].
  intros b Hb. apply H. by right.
Qed.

Lemma recorded_price_vu du p v u :
  plain p → plain v → plain u →
  recorded_price du (indexed_name "VM utilization bound" [p; v; u])
  = vu_pisol du !! (u, v, p).
Proof.
  intros Hp Hv Hu. unfold recorded_price.
  rewrite split_name_indexed; [|done|by apply plain_join3].
  change (String.eqb "VM utilization bound" "VM utilization bound")
    with true. cbv iota.
  rewrite split_join3; [done|apply Hp|apply Hv|apply Hu].
Qed.

Lemma recorded_price_ru du r u :
  plain r → plain u →
  recorded_price du (indexed_name "R utilization bound" [r; u])
  = ru_pisol du !! (u, r).
Proof.
  intros Hr Hu. unfold recorded_price.
  rewrite split_name_indexed; [|done|by apply plain_join2].
  change (String.eqb "R utilization bound" "VM utilization bound")
    with false.
  change (String.eqb "R utilization bound" "R utilization bound")
    with true. cbv iota.
  rewrite split_join2; [done|apply Hr|apply Hu].
Qed.

Lemma recorded_price_demand du v u :
  plain v → plain u →
  recorded_price du (indexed_name "VM demand" [v; u]) = d_pisol du !! (u, v).
Proof.
  intros Hv Hu. unfold recorded_price.
  rewrite split_name_indexed; [|done|by apply plain_join2].
  change (String.eqb "VM demand" "VM utilization bound") with false.
  change (String.eqb "VM demand" "R utilization bound") with false.
  change (String.eqb "VM demand" "CPU capacity") with false.
  change (String.eqb "VM demand" "Storage capacity") with false.
  change (String.eqb "VM demand" "Memory capacity") with false.
  change (String.eqb "VM demand" "Bandwidth capacity") with false.
  change (String.eqb "VM demand" "VM demand") with true. cbv iota.
  rewrite split_join2; [done|apply Hv|apply Hu].
Qed.

Lemma recorded_price_CPU du p :
  plain p →
  recorded_price du (indexed_name "CPU capacity" [p]) = c_pisol du !! p.
Proof.
  intros Hp. unfold recorded_price.
  rewrite split_name_indexed; [|done|by apply plain_join1]. reflexivity.
Qed.

Lemma recorded_price_Storage du p :
  plain p →
  recorded_price du (indexed_name "Storage capacity" [p]) = s_pisol du !! p.
Proof.
  intros Hp. unfold recorded_price.
  rewrite split_name_indexed; [|done|by apply plain_join1]. reflexivity.
Qed.

Lemma recorded_price_Memory du p :
  plain p →
  recorded_price du (indexed_name "Memory capacity" [p]) = m_pisol du !! p.
Proof.
  intros Hp. unfold recorded_price.
  rewrite split_name_indexed; [|done|by apply plain_join1]. reflexivity.
Qed.

Lemma recorded_price_Bandwidth du r :
  plain r →
  recorded_price du (indexed_name "Bandwidth capacity" [r])
  = b_pisol du !! r.
Proof.
  intros Hr. unfold recorded_price.
  rewrite split_name_indexed; [|done|by apply plain_join1]. reflexivity.
Qed.

Section DualBound.

Variable d : Instance.
Hypothesis Hwn : well_named d.

Lemma Qsum_for_pvu_ext_in (g h : string → string → string → Q) :
  (∀ u v p, In u (users d) → In v (VMs d) → In p (providers d) →
            g u v p == h u v p) →
  Qsum (for_pvu d g) == Qsum (for_pvu d h).
Proof.
  intros H. rewrite (for_pvu_as_map d g), (for_pvu_as_map d h).
  apply Qsum_map_ext. intros [[u v] p] Hin.
  apply in_for_pvu_inv in Hin as (u' & v' & p' & Hu & Hv & Hp & [= -> -> ->]).
  by apply H.
Qed.

Lemma Qsum_for_ru_ext_in (g h : string → string → Q) :
  (∀ u r, In u (users d) → In r (routers d) → g u r == h u r) →
  Qsum (for_ru d g) == Qsum (for_ru d h).
Proof.
  intros H. rewrite (for_ru_as_map d g), (for_ru_as_map d h).
  apply Qsum_map_ext. intros [u r] Hin.
  apply in_for_ru_inv in Hin as (u' & r' & Hu & Hr & [= -> ->]).
  by apply H.
Qed.

Lemma for_vu_as_map {A} (g : string → string → A) :
  for_vu d g
  = map (fun t : string * string => g t.1 t.2)
        (for_vu d (fun u v => (u, v))).
Proof.
  unfold for_vu. rewrite map_flat_map. apply flat_map_ext. intros v.
  by rewrite map_map.
Qed.

Lemma in_for_vu_inv {A} (h : string → string → A) a :
  In a (for_vu d h) → ∃ u v, In u (users d) ∧ In v (VMs d) ∧ a = h u v.
Proof.
  unfold for_vu. intros H.
  apply in_flat_map in H as (v & Hv & H).
  apply in_map_iff in H as (u & <- & Hu). by exists u, v.
Qed.

Lemma Qsum_for_vu_ext_in (g h : string → string → Q) :
  (∀ u v, In u (users d) → In v (VMs d) → g u v == h u v) →
  Qsum (for_vu d g) == Qsum (for_vu d h).
Proof.
  intros H. rewrite (for_vu_as_map g), (for_vu_as_map h).
  apply Qsum_map_ext. intros [u v] Hin.
  apply in_for_vu_inv in Hin as (u' & v' & Hu & Hv & [= -> ->]).
  by apply H.
Qed.

Lemma map_for_vu {A B} (g : A → B) (h : string → string → A) :
  map g (for_vu d h) = for_vu d (fun u v => g (h u v)).
Proof.
  unfold for_vu. rewrite map_flat_map. apply flat_map_ext. intros v.
  by rewrite map_map.
Qed.

Lemma flow_rows_zero ub :
  mapM (U_balance_of d) (users d) = Ok ub →
  Forall (fun c => rhs c = Fin 0)
         (R_balance d ++ R_usage d ++ R_demand d ++ ub).
Proof.
  intros Hub. rewrite !Forall_app. repeat split.
  - unfold R_balance, for_ur. by apply Forall_pairs.
  - unfold R_usage, for_ur. by apply Forall_pairs.
  - unfold R_demand. by apply Forall_pairs.
  - apply (U_balance_names d ub Hub).
Qed.

Lemma capacity_sum du name c cap (pisol : gmap string Q) :
  (∀ p, plain p → recorded_price du (indexed_name name [p]) = pisol !! p) →
  Qsum (map (priced_rhs du) (capacity d name c cap))
  == Qsum (map (fun p => default 0 (pisol !! p) * finite_part (cap p))
               (providers d)).
Proof.
  intros H. destruct (plain_ids d Hwn) as (Pu & Pv & Pp & Pr).
  unfold capacity. rewrite map_map. apply Qsum_map_ext. intros p Hp.
  unfold priced_rhs. cbn [constrName rhs]. rewrite H by auto. reflexivity.
Qed.

Lemma Bandwidth_sum du :
  Qsum (map (priced_rhs du) (Bandwidth_capacity d))
  == Qsum (map (fun r => default 0 (b_pisol du !! r)
                         * finite_part (R_BCapacity d r)) (routers d)).
Proof.
  destruct (plain_ids d Hwn) as (Pu & Pv & Pp & Pr).
  unfold Bandwidth_capacity. rewrite map_map. apply Qsum_map_ext.
  intros r Hr. unfold priced_rhs. cbn [constrName rhs].
  rewrite recorded_price_Bandwidth by auto. reflexivity.
Qed.

Lemma dual_bound_rows du xv yv dem ub :
  mapM (U_balance_of d) (users d) = Ok ub →
  Qsum (map (priced_rhs du) (SP_rows_at d xv yv dem ub))
  == dual_bound d du xv yv dem.
Proof.
  intros Hub. destruct (plain_ids d Hwn) as (Pu & Pv & Pp & Pr).
  unfold SP_rows_at, dual_bound.
  rewrite !map_app, !Qsum_app.
  assert (Hflow : ∀ l, Forall (fun c => rhs c = Fin 0) l →
                       Qsum (map (priced_rhs du) l) == 0).
  { intros l Hl. apply Qsum_map_zero. intros c Hc.
    rewrite Forall_forall in Hl. unfold priced_rhs.
    rewrite (Hl c) by (by apply list_elem_of_In). simpl. ring. }
  pose proof (flow_rows_zero ub Hub) as Hz.
  rewrite !Forall_app in Hz. destruct Hz as (Z1 & Z2 & Z3 & Z4).
  rewrite (Hflow _ Z1), (Hflow _ Z2), (Hflow _ Z3), (Hflow _ Z4).
  rewrite (capacity_sum du "CPU capacity" _ _ (c_pisol du))
    by (intros; by apply recorded_price_CPU).
  rewrite (capacity_sum du "Storage capacity" _ _ (s_pisol du))
    by (intros; by apply recorded_price_Storage).
  rewrite (capacity_sum du "Memory capacity" _ _ (m_pisol du))
    by (intros; by apply recorded_price_Memory).
  rewrite Bandwidth_sum.
  rewrite map_for_pvu, map_for_ru, map_for_vu.
  rewrite (Qsum_for_pvu_ext_in _
             (fun u v p => default 0 (vu_pisol du !! (u, v, p)) * xv u v p)).
  2:{ intros u v p Hu Hv Hp. unfold priced_rhs. cbn [constrName rhs].
      rewrite recorded_price_vu by auto. reflexivity. }
  rewrite (Qsum_for_ru_ext_in _
             (fun u r => default 0 (ru_pisol du !! (u, r)) * yv u r)).
  2:{ intros u r Hu Hr. unfold priced_rhs. cbn [constrName rhs].
      rewrite recorded_price_ru by auto. reflexivity. }
  rewrite (Qsum_for_vu_ext_in _
             (fun u v => default 0 (d_pisol du !! (u, v)) * dem u v)).
  2:{ intros u v Hu Hv. unfold priced_rhs. cbn [constrName rhs].
      rewrite recorded_price_demand by auto. reflexivity. }
  ring.
Qed.

End DualBound.

(** ** The value of the cut's right-hand side *)

Lemma fold_sum_value {A} (g : A → Res float) (v : A → Q) l : ∀ xs a0 q,
  mapM id (map g l) = Ok xs →
  fold_left PyFloat.add xs (Fin a0) = Fin q →
  (∀ a x, In a l → g a = Ok (Fin x) → x == v a) →
  q == a0 + Qsum (map v l).
Proof.
  induction l as [|a l IH]; intros xs a0 q Hm Hf Hv; simpl in Hm.
  - injection Hm as <-. simpl in Hf. injection Hf as <-.
    unfold Qsum. simpl. ring.
  - bind_inv Hm as b Hb. bind_inv Hm as bs Hbs. injection Hm as <-.
    cbn [fold_left] in Hf.
    destruct (fold_add_finite bs (PyFloat.add (Fin a0) b)) as [Hfin _];
      [by rewrite Hf|].
    apply add_finite in Hfin as [_ Hfin].
    destruct b as [x| | |]; try discriminate Hfin.
    change (PyFloat.add (Fin a0) (Fin x)) with (Fin (a0 + x)) in Hf.
    rewrite (IH _ _ _ Hbs Hf) by (intros; apply Hv; [by right|done]).
    simpl. rewrite Qsum_cons, (Hv a x (or_introl eq_refl) Hb). ring.
Qed.

Lemma fsum_of_value {A} (g : A → Res float) (v : A → Q) l q :
  fsum_of (map g l) = Ok (Fin q) →
  (∀ a x, In a l → g a = Ok (Fin x) → x == v a) →
  q == Qsum (map v l).
Proof.
  unfold fsum_of. intros H Hv. bind_inv H as xs Hxs. injection H as H.
  rewrite (fold_sum_value g v l xs 0 q Hxs H Hv). ring.
Qed.

Lemma guarded_capacity_term_value pisol cap p x :
  guarded_capacity_term pisol cap p = Ok (Fin x) →
  x == default 0 (pisol !! p) * finite_part (cap p).
Proof.
  unfold guarded_capacity_term, getitem.
  destruct (cap p) as [k| | |]; simpl.
  - destruct (pisol !! p); simpl; [|done]. by intros [= <-].
  - intros [= <-]. ring.
  - destruct (pisol !! p) as [pi|]; simpl; [|done].
    unfold PyFloat.scale_inf. by destruct (pi ?= 0).
  - by destruct (pisol !! p).
Qed.

Lemma bandwidth_term_value d pisol r x :
  bandwidth_term d pisol r = Ok (Fin x) →
  x == default 0 (pisol !! r) * finite_part (R_BCapacity d r).
Proof.
  unfold bandwidth_term, getitem.
  destruct (pisol !! r) as [pi|]; simpl; [|done].
  destruct (R_BCapacity d r) as [k| | |]; simpl.
  - by intros [= <-].
  - unfold PyFloat.scale_inf. by destruct (pi ?= 0).
  - unfold PyFloat.scale_inf. by destruct (pi ?= 0).
  - done.
Qed.

Section ExprValue.

Variable d : Instance.

Lemma cut_terms_pvu (pisol : gmap (string * string * string) Q) l1 :
  mapM id (for_pvu d (fun u v p =>
     pi ← getitem pisol (u, v, p); Ok (pi, xr u v p))) = Ok l1 →
  l1 = for_pvu d (fun u v p => (default 0 (pisol !! (u, v, p)), xr u v p)).
Proof.
  intros L1.
  rewrite (mapM_id_for_pvu d _
             (fun u v p => (default 0 (pisol !! (u, v, p)), xr u v p)))
    in L1; [by injection L1|].
  intros u v p Hu Hv Hp.
  destruct (mapM_id_for_pvu_inv d _ _ u v p L1 Hu Hv Hp) as [b Hb].
  unfold getitem in *. by destruct (pisol !! (u, v, p)).
Qed.

Lemma cut_terms_ru (pisol : gmap (string * string) Q) l2 :
  mapM id (for_ru d (fun u r =>
     pi ← getitem pisol (u, r); Ok (pi, yr u r))) = Ok l2 →
  l2 = for_ru d (fun u r => (default 0 (pisol !! (u, r)), yr u r)).
Proof.
  intros L2.
  rewrite (mapM_id_for_ru d _
             (fun u r => (default 0 (pisol !! (u, r)), yr u r)))
    in L2; [by injection L2|].
  intros u r Hu Hr.
  destruct (mapM_id_for_ru_inv d _ _ u r L2 Hu Hr) as [b Hb].
  unfold getitem in *. by destruct (pisol !! (u, r)).
Qed.

Lemma demand_constant_value s du q :
  demand_constant d s du = Ok (Fin q) →
  q == Qsum (for_vu d (fun u v =>
               default 0 (d_pisol du !! (u, v)) * VM_demands d s u v)).
Proof.
  unfold demand_constant. rewrite (for_vu_as_map d). intros H.
  rewrite (fsum_of_value _
             (fun t : string * string =>
                default 0 (d_pisol du !! (t.1, t.2))
                * VM_demands d s t.1 t.2) _ _ H).
  - by rewrite (for_vu_as_map d (fun u v => _ * _)).
  - intros [u v] x _. simpl. unfold getitem.
    destruct (d_pisol du !! (u, v)); simpl; [|done]. by intros [= <-].
Qed.

(** The right-hand side of a cut with a finite constant, at any point
    of the master's variables, is the dual bound of the subproblem for
    that point. *)
Lemma expr_value s du e c x :
  expr d s du = Ok e → const e = Fin c →
  eval_terms x (terms e) + c
  == dual_bound d du (fun u v p => x (xr u v p)) (fun u r => x (yr u r))
       (VM_demands d s).
Proof.
  unfold expr. intros He Hc.
  bind_inv He as l1 L1. bind_inv He as l2 L2. bind_inv He as t3 H3.
  bind_inv He as t4 H4. bind_inv He as t5 H5. bind_inv He as t6 H6.
  bind_inv He as t7 H7. injection He as <-. cbn [terms const] in *.
  apply cut_terms_pvu in L1 as ->. apply cut_terms_ru in L2 as ->.
  destruct t3 as [q3| | |], t4 as [q4| | |], t5 as [q5| | |],
    t6 as [q6| | |], t7 as [q7| | |]; simpl in Hc; try discriminate Hc.
  injection Hc as <-.
  unfold CPU_constant in H3. unfold Storage_constant in H4.
  unfold Memory_constant in H5. unfold Bandwidth_constant in H6.
  apply (fsum_of_value _ (fun p => default 0 (c_pisol du !! p)
                                   * finite_part (P_CCapacity d p))) in H3;
    [|intros p x' _; apply guarded_capacity_term_value].
  apply (fsum_of_value _ (fun p => default 0 (s_pisol du !! p)
                                   * finite_part (P_SCapacity d p))) in H4;
    [|intros p x' _; apply guarded_capacity_term_value].
  apply (fsum_of_value _ (fun p => default 0 (m_pisol du !! p)
                                   * finite_part (P_MCapacity d p))) in H5;
    [|intros p x' _; apply guarded_capacity_term_value].
  apply (fsum_of_value _ (fun r => default 0 (b_pisol du !! r)
                                   * finite_part (R_BCapacity d r))) in H6;
    [|intros r x' _; apply bandwidth_term_value].
  apply demand_constant_value in H7.
  unfold dual_bound. rewrite <- H3, <- H4, <- H5, <- H6, <- H7.
  rewrite eval_terms_app. unfold eval_terms.
  rewrite map_for_pvu, map_for_ru. ring.
Qed.

End ExprValue.

(** ** Every cut is valid *)

Section CutValid.

Variable optimize : Model → Solution.
Variable d : Instance.
Hypothesis Hwn : well_named d.
Hypothesis Hid : distinct_ids d.

Lemma evaluate_kept ub SPk sol s SP' q du :
  mapM (U_balance_of d) (users d) = Ok ub → SP_kept d ub SPk →
  modifyAndSolveSP optimize d s (get_xrsol d sol) (get_yrsol d sol) SPk
  = Ok (SP', (q, du)) →
  SP' = SP_at d (fun u v p => X sol (xr u v p)) (fun u r => X sol (yr u r))
              (VM_demands d s) ub (SP_objective d s)
  ∧ q = objVal (optimize SP')
  ∧ foldM record_dual (with_pi (optimize SP') (constrs SP')) no_duals
    = Ok du.
Proof.
  intros Hub (xv0 & yv0 & dem0 & obj0 & ->) H.
  unfold modifyAndSolveSP in H. cbn [constrs SP_at] in H.
  rewrite (modify_SP_rows d Hwn s _ _ (fun u v p => X sol (xr u v p)) xv0
             (fun u r => X sol (yr u r)) yv0 dem0 ub) in H; [| |  |done].
  - cbv beta iota zeta delta [mbind Res_bind] in H.
    match type of H with
    | match ?m with _ => _ end = _ => destruct m as [du'|e] eqn:Hf
    end; [|discriminate H].
    injection H as <- <- <-. repeat split; done.
  - intros u v p Hu Hv Hp. apply get_xrsol_lookup.
    by apply elem_of_keys_uvp.
  - intros u r Hu Hr. apply get_yrsol_lookup. by apply elem_of_keys_ur.
Qed.

Lemma Forall2_flat_map_same {A B} (R : B → B → Prop) (g h : A → list B) l :
  (∀ a, Forall2 R (g a) (h a)) → Forall2 R (flat_map g l) (flat_map h l).
Proof.
  intros H. induction l as [|a l IH]; simpl; [constructor|].
  by apply Forall2_app.
Qed.

Lemma Forall2_map_same {A B} (R : B → B → Prop) (g h : A → B) l :
  (∀ a, R (g a) (h a)) → Forall2 R (map g l) (map h l).
Proof.
  intros H. induction l as [|a l IH]; simpl; constructor; auto.
Qed.

Lemma SP_rows_same_form xv yv dem xv' yv' dem' ub :
  Forall2 same_form (SP_rows_at d xv yv dem ub)
          (SP_rows_at d xv' yv' dem' ub).
Proof.
  assert (Hrefl : ∀ l : list Constr, Forall2 same_form l l).
  { intros l. induction l; constructor; [|done]. by repeat split. }
  unfold SP_rows_at. repeat apply Forall2_app; try apply Hrefl.
  - unfold for_pvu. apply Forall2_flat_map_same. intros p.
    apply Forall2_flat_map_same. intros v.
    apply Forall2_map_same. intros u. by repeat split.
  - unfold for_ru. apply Forall2_flat_map_same. intros r.
    apply Forall2_map_same. intros u. by repeat split.
  - unfold for_vu. apply Forall2_flat_map_same. intros v.
    apply Forall2_map_same. intros u. by repeat split.
Qed.

End CutValid.

Section CutValidity.

Variable optimize : Model → Solution.
Variable d : Instance.
Hypothesis Hwn : well_named d.
Hypothesis Hid : distinct_ids d.

Lemma SP_rows_priced_or_zero xv yv dem ub :
  mapM (U_balance_of d) (users d) = Ok ub →
  Forall (fun c =>
            (∃ name index, split_name (constrName c) = Ok (name, index)
                           ∧ priced_family name = true)
            ∨ finite_part (rhs c) = 0)
         (SP_rows_at d xv yv dem ub).
Proof.
  intros Hub. destruct (plain_ids d Hwn) as (Pu & Pv & Pp & Pr).
  pose proof (flow_rows_zero d ub Hub) as Hz.
  unfold SP_rows_at. rewrite !Forall_app in *.
  destruct Hz as (Z1 & Z2 & Z3 & Z4).
  assert (Hzero : ∀ l, Forall (fun c => rhs c = Fin 0) l →
            Forall (fun c =>
              (∃ name index, split_name (constrName c) = Ok (name, index)
                             ∧ priced_family name = true)
              ∨ finite_part (rhs c) = 0) l).
  { intros l Hl. eapply Forall_impl; [exact Hl|].
    intros c Hc. right. by rewrite Hc. }
  repeat split; try (by apply Hzero).
  - apply Forall_forall. intros c Hc.
    apply list_elem_of_In, in_for_pvu_inv in Hc
      as (u & v & p & Hu & Hv & Hp & ->).
    left. exists "VM utilization bound"%string, (PyStr.join "," [p; v; u]).
    split; [cbn [constrName]|reflexivity].
    apply split_name_indexed; [done|]. apply plain_join3; auto.
  - apply Forall_forall. intros c Hc.
    apply list_elem_of_In, in_for_ru_inv in Hc as (u & r & Hu & Hr & ->).
    left. exists "R utilization bound"%string, (PyStr.join "," [r; u]).
    split; [cbn [constrName]|reflexivity].
    apply split_name_indexed; [done|]. apply plain_join2; auto.
  - apply Forall_forall. intros c Hc.
    apply list_elem_of_In, in_map_iff in Hc as (p & <- & Hp).
    left. exists "CPU capacity"%string, (PyStr.join "," [p]).
    split; [cbn [constrName]|reflexivity].
    apply split_name_indexed; [done|]. apply plain_join1; auto.
  - apply Forall_forall. intros c Hc.
    apply list_elem_of_In, in_map_iff in Hc as (p & <- & Hp).
    left. exists "Storage capacity"%string, (PyStr.join "," [p]).
    split; [cbn [constrName]|reflexivity].
    apply split_name_indexed; [done|]. apply plain_join1; auto.
  - apply Forall_forall. intros c Hc.
    apply list_elem_of_In, in_map_iff in Hc as (p & <- & Hp).
    left. exists "Memory capacity"%string, (PyStr.join "," [p]).
    split; [cbn [constrName]|reflexivity].
    apply split_name_indexed; [done|]. apply plain_join1; auto.
  - apply Forall_forall. intros c Hc.
    apply list_elem_of_In, in_map_iff in Hc as (r & <- & Hr).
    left. exists "Bandwidth capacity"%string, (PyStr.join "," [r]).
    split; [cbn [constrName]|reflexivity].
    apply split_name_indexed; [done|]. apply plain_join1; auto.
  - apply Forall_forall. intros c Hc.
    apply list_elem_of_In, (in_for_vu_inv d) in Hc as (u & v & Hu & Hv & ->).
    left. exists "VM demand"%string, (PyStr.join "," [v; u]).
    split; [cbn [constrName]|reflexivity].
    apply split_name_indexed; [done|]. apply plain_join2; auto.
Qed.

(** The engine's price of a row is the price the driver finds under the
    row's name, for every row whose price is returned. *)
Lemma recorded_price_of_row sol du xv yv dem ub i c name index :
  mapM (U_balance_of d) (users d) = Ok ub →
  foldM record_dual (with_pi sol (SP_rows_at d xv yv dem ub)) no_duals
  = Ok du →
  SP_rows_at d xv yv dem ub !! i = Some c →
  split_name (constrName c) = Ok (name, index) →
  priced_family name = true →
  recorded_price du (constrName c) = Some (Pi sol i).
Proof.
  intros Hub Hf Hi Hs Hp.
  eapply recorded_prices; try done. by apply SP_rows_keys.
Qed.

(** The prices of the engine, each times the right-hand side of its row
    in the subproblem of another first-stage point, add up to the dual
    bound the driver computes from the recorded prices. *)
Lemma priced_sum sol du xv yv dem xv' yv' dem' ub :
  mapM (U_balance_of d) (users d) = Ok ub →
  foldM record_dual (with_pi sol (SP_rows_at d xv yv dem ub)) no_duals
  = Ok du →
  Qsum (map (fun cp : Constr * Q => cp.2 * finite_part (rhs cp.1))
            (with_pi sol (SP_rows_at d xv' yv' dem' ub)))
  == dual_bound d du xv' yv' dem'.
Proof.
  intros Hub Hf. rewrite <- (dual_bound_rows d Hwn du xv' yv' dem' ub Hub).
  unfold with_pi.
  apply (Qsum_imap (Pi sol) (fun c => finite_part (rhs c)) (priced_rhs du)).
  intros i c' Hi. unfold priced_rhs.
  pose proof (SP_rows_priced_or_zero xv' yv' dem' ub Hub) as Hpz.
  rewrite Forall_forall in Hpz.
  destruct (Hpz c') as [(name & index & Hs & Hp)|Hz];
    [by eapply list_elem_of_lookup_2| |by rewrite Hz; ring].
  pose proof (SP_rows_same_form d xv' yv' dem' xv yv dem ub) as Hsf.
  destruct (Forall2_lookup_l _ _ _ _ _ Hsf Hi) as (c & Hc & Hn & _).
  rewrite <- Hn in Hs.
  rewrite <- Hn, (recorded_price_of_row sol du xv yv dem ub i c name index);
    done.
Qed.

(** A cut built from dual-feasible prices holds at every first-stage
    point, for the cost of every feasible recourse. *)
Lemma cut_valid ub SPk sol s SP' q du e :
  mapM (U_balance_of d) (users d) = Ok ub → SP_kept d ub SPk →
  modifyAndSolveSP optimize d s (get_xrsol d sol) (get_yrsol d sol) SPk
  = Ok (SP', (q, du)) →
  expr d s du = Ok e → PyFloat.is_finite (const e) = true →
  dual_feasible SP' (optimize SP') →
  ∀ x y,
    feasible (SP_at d (fun u v p => x (xr u v p)) (fun u r => x (yr u r))
                    (VM_demands d s) ub (SP_objective d s)) y →
    eval_terms y (terms (SP_objective d s)) <= x (n s) →
    sat_constr x (cut s e).
Proof.
  intros Hub Hk Hev He Hfin Hdual x y Hy Hcost.
  destruct (evaluate_kept optimize d Hwn ub SPk sol s SP' q du Hub Hk Hev)
    as (HSP' & _ & Hf).
  set (M' := SP_at d (fun u v p => x (xr u v p)) (fun u r => x (yr u r))
                   (VM_demands d s) ub (SP_objective d s)) in *.
  assert (Hdual' : dual_feasible M' (optimize SP')).
  { apply (dual_feasible_same_form SP'); [by rewrite HSP'..| |done].
    rewrite HSP'. apply SP_rows_same_form. }
  pose proof (weak_duality M' (optimize SP') y Hdual' Hy) as Hw.
  rewrite HSP' in Hf at 2. cbn [constrs SP_at] in Hf.
  unfold M' in Hw at 1. cbn [constrs SP_at] in Hw.
  rewrite (priced_sum _ du _ _ _ _ _ _ ub Hub Hf) in Hw.
  destruct (const e) as [c| | |] eqn:Hc; try discriminate Hfin.
  rewrite <- (expr_value d s du e c x He Hc) in Hw.
  unfold M' in Hw. cbn [objective SP_at] in Hw.
  assert (Hgoal : eval_terms x (terms e) + c <= x (n s)).
  { eapply Qle_trans; [exact Hw|exact Hcost]. }
  unfold sat_constr, cut. cbn [sense lhs rhs_terms rhs]. rewrite Hc.
  assert (E : eval_terms x [(1, n s)] == x (n s)).
  { unfold eval_terms, Qsum. simpl. ring. }
  simpl. rewrite E. exact Hgoal.
Qed.

End CutValidity.

Lemma in_domain_ext x x' vd :
  x' (vd_var vd) = x (vd_var vd) → in_domain x vd → in_domain x' vd.
Proof. unfold in_domain. by intros ->. Qed.

Lemma Qsum_nonneg l : Forall (fun q => 0 <= q) l → 0 <= Qsum l.
Proof.
  induction 1 as [|q l Hq _ IH]; [by vm_compute|].
  rewrite Qsum_cons. lra.
Qed.

Section TwoStage.

Variable d : Instance.

Lemma recourse_cost_nonneg s y :
  recourse_costs_nonneg d → Forall (in_domain y) (SP_vars d) →
  0 <= recourse_cost d s y.
Proof.
  intros Hc Hy. unfold SP_vars in Hy. rewrite !Forall_app in Hy.
  destruct Hy as (Hxu & Hyu & Hxo & Hyo & _).
  assert (H3 : ∀ nm, Forall (in_domain y)
                       (addVars (product3 (users d) (VMs d) (providers d))
                                CONTINUOUS nm) →
            ∀ u v p, In u (users d) → In v (VMs d) → In p (providers d) →
                     0 <= y (mkVar nm [u; v; p])).
  { intros nm H u v p Hu Hv Hp. rewrite Forall_forall in H.
    destruct (H (mkVarDecl (mkVar nm [u; v; p]) CONTINUOUS (Fin 0)
                           (Fin GRB_INFINITY))) as [H0 _]; [|exact H0].
    apply elem_of_addVars. exists [u; v; p]. split; [|done].
    apply elem_of_product3. exists u, v, p.
    by rewrite !list_elem_of_In. }
  assert (H2 : ∀ nm, Forall (in_domain y)
                       (addVars (product2 (users d) (routers d))
                                CONTINUOUS nm) →
            ∀ u r, In u (users d) → In r (routers d) →
                   0 <= y (mkVar nm [u; r])).
  { intros nm H u r Hu Hr. rewrite Forall_forall in H.
    destruct (H (mkVarDecl (mkVar nm [u; r]) CONTINUOUS (Fin 0)
                           (Fin GRB_INFINITY))) as [H0 _]; [|exact H0].
    apply elem_of_addVars. exists [u; r]. split; [|done].
    apply elem_of_product2. exists u, r. by rewrite !list_elem_of_In. }
  unfold recourse_cost. cbn [terms SP_objective].
  rewrite !eval_terms_app. unfold eval_terms.
  rewrite !(map_for_pvu d), !(map_for_ru d).
  assert (P1 : 0 <= Qsum (for_pvu d (fun u v p =>
                             VM_ucost d s v * y (xu u v p)))).
  { apply Qsum_nonneg, Forall_forall. intros q Hq.
    apply list_elem_of_In, in_for_pvu_inv in Hq
      as (u & v & p & Hu & Hv & Hp & ->).
    apply Qmult_le_0_compat; [apply Hc|by apply (H3 "xu"%string)]. }
  assert (P2 : 0 <= Qsum (for_ru d (fun u r =>
                             R_ucost d s r * y (yu u r)))).
  { apply Qsum_nonneg, Forall_forall. intros q Hq.
    apply list_elem_of_In, in_for_ru_inv in Hq as (u & r & Hu & Hr & ->).
    apply Qmult_le_0_compat; [apply Hc|by apply (H2 "yu"%string)]. }
  assert (P3 : 0 <= Qsum (for_pvu d (fun u v p =>
                             VM_ocost d s v * y (xo u v p)))).
  { apply Qsum_nonneg, Forall_forall. intros q Hq.
    apply list_elem_of_In, in_for_pvu_inv in Hq
      as (u & v & p & Hu & Hv & Hp & ->).
    apply Qmult_le_0_compat; [apply Hc|by apply (H3 "xo"%string)]. }
  assert (P4 : 0 <= Qsum (for_ru d (fun u r =>
                             R_ocost d s r * y (yo u r)))).
  { apply Qsum_nonneg, Forall_forall. intros q Hq.
    apply list_elem_of_In, in_for_ru_inv in Hq as (u & r & Hu & Hr & ->).
    apply Qmult_le_0_compat; [apply Hc|by apply (H2 "yo"%string)]. }
  simpl. lra.
Qed.

(** A plan, with the costs of its recourses for [eta], is a point of the
    master's variables, provided no recourse cost is negative or beyond
    the upper bound of [eta]. *)
Lemma plan_lifts ub x ys :
  recourse_costs_nonneg d → two_stage_plan d ub x ys →
  (∀ s, s ∈ scenarios d → recourse_cost d s (ys s) <= GRB_INFINITY) →
  covered_plan d ub (with_eta x (fun s => recourse_cost d s (ys s))) ys
  ∧ Forall (in_domain (with_eta x (fun s => recourse_cost d s (ys s))))
           (vars (buildMP d))
  ∧ plan_cost d (with_eta x (fun s => recourse_cost d s (ys s)))
    = two_stage_cost d x ys.
Proof.
  intros Hc [Hdom Hfeas] Hcap. split; [|split; [|reflexivity]].
  - intros s Hs. split; [exact (Hfeas s Hs)|]. apply Qle_refl.
  - unfold first_stage_vars in Hdom. unfold buildMP, vars.
    rewrite !Forall_app in *. destruct Hdom as [Hx Hy]. repeat split.
    + unfold addVars in *. rewrite Forall_forall in *. intros vd Hvd.
      pose proof (Hx vd Hvd) as H.
      apply list_elem_of_In, in_map_iff in Hvd as (idx & <- & _).
      by eapply in_domain_ext; [|exact H].
    + unfold addVars in *. rewrite Forall_forall in *. intros vd Hvd.
      pose proof (Hy vd Hvd) as H.
      apply list_elem_of_In, in_map_iff in Hvd as (idx & <- & _).
      by eapply in_domain_ext; [|exact H].
    + unfold addVars. apply Forall_forall. intros vd Hvd.
      apply list_elem_of_In, in_map_iff in Hvd as (idx & <- & Hidx).
      apply in_map_iff in Hidx as (s & <- & Hs).
      apply list_elem_of_In in Hs.
      unfold in_domain. cbn [vd_var vd_lb vd_ub vd_vtype].
      change (with_eta x (fun s => recourse_cost d s (ys s))
                       {| varFamily := "eta"; varIndex := [s] |})
        with (recourse_cost d s (ys s)).
      split; [|split; [by apply Hcap|done]].
      apply recourse_cost_nonneg; [done|]. apply (Hfeas s Hs).
Qed.

End TwoStage.

Section Prices.

Variable optimize : Model → Solution.
Variable d : Instance.
Variable tol : Q.
Variable epsilon : Q.

(** X9: when the subproblem is well named with distinct identifiers,
    [modifyAndSolveSP] returns the engine's objective value and files
    the engine's price of each row of a priced family (utilization
    bounds, capacities, demand) under the row's own indices: the price
    of the row at position [i] is the entry of the family's dict at the
    key parsed from the row's name. *)
Theorem X9_recorded_prices ub SPk sol s SP' q du i c :
  well_named d → distinct_ids d →
  mapM (U_balance_of d) (users d) = Ok ub → SP_kept d ub SPk →
  modifyAndSolveSP optimize d s (get_xrsol d sol) (get_yrsol d sol) SPk
  = Ok (SP', (q, du)) →
  constrs SP' !! i = Some c →
  q = objVal (optimize SP')
  ∧ (∀ u v p, In u (users d) → In v (VMs d) → In p (providers d) →
       constrName c = indexed_name "VM utilization bound" [p; v; u] →
       vu_pisol du !! (u, v, p) = Some (Pi (optimize SP') i))
  ∧ (∀ u r, In u (users d) → In r (routers d) →
       constrName c = indexed_name "R utilization bound" [r; u] →
       ru_pisol du !! (u, r) = Some (Pi (optimize SP') i))
  ∧ (∀ p, In p (providers d) →
       (constrName c = indexed_name "CPU capacity" [p] →
        c_pisol du !! p = Some (Pi (optimize SP') i))
       ∧ (constrName c = indexed_name "Storage capacity" [p] →
          s_pisol du !! p = Some (Pi (optimize SP') i))
       ∧ (constrName c = indexed_name "Memory capacity" [p] →
          m_pisol du !! p = Some (Pi (optimize SP') i)))
  ∧ (∀ r, In r (routers d) →
       constrName c = indexed_name "Bandwidth capacity" [r] →
       b_pisol du !! r = Some (Pi (optimize SP') i))
  ∧ (∀ u v, In u (users d) → In v (VMs d) →
       constrName c = indexed_name "VM demand" [v; u] →
       d_pisol du !! (u, v) = Some (Pi (optimize SP') i)).
Proof.
  intros Hwn Hid Hub Hk Hev Hi.
  destruct (evaluate_kept optimize d Hwn ub SPk sol s SP' q du Hub Hk Hev)
    as (HSP' & Hq & Hf).
  destruct (plain_ids d Hwn) as (Pu & Pv & Pp & Pr).
  rewrite HSP' in Hf at 2. rewrite HSP' in Hi. cbn [constrs SP_at] in Hf, Hi.
  assert (Hrow : ∀ name idx,
            constrName c = indexed_name name idx →
            lacks "[" name = true → lacks "[" (PyStr.join "," idx) = true →
            priced_family name = true →
            recorded_price du (indexed_name name idx)
            = Some (Pi (optimize SP') i)).
  { intros name idx Hn H1 H2 H3. rewrite <- Hn.
    eapply (recorded_price_of_row d Hwn Hid); try done.
    rewrite Hn. by apply split_name_indexed. }
  split; [done|]. repeat split.
  - intros u v p Hu Hv Hp Hn.
    rewrite <- recorded_price_vu by auto.
    apply Hrow; [done|done| |done]. apply plain_join3; auto.
  - intros u r Hu Hr Hn.
    rewrite <- recorded_price_ru by auto.
    apply Hrow; [done|done| |done]. apply plain_join2; auto.
  - intros Hn. rewrite <- recorded_price_CPU by auto.
    apply Hrow; [done|done| |done]. apply plain_join1; auto.
  - intros Hn. rewrite <- recorded_price_Storage by auto.
    apply Hrow; [done|done| |done]. apply plain_join1; auto.
  - intros Hn. rewrite <- recorded_price_Memory by auto.
    apply Hrow; [done|done| |done]. apply plain_join1; auto.
  - intros r Hr Hn. rewrite <- recorded_price_Bandwidth by auto.
    apply Hrow; [done|done| |done]. apply plain_join1; auto.
  - intros u v Hu Hv Hn. rewrite <- recorded_price_demand by auto.
    apply Hrow; [done|done| |done]. apply plain_join2; auto.
Qed.

(** X10: a cut the driver builds for scenario [s] is tight at the
    master's point (its right-hand side there is within 1e-4 of the
    subproblem's objective value), and, when the engine's prices are
    feasible for the subproblem's dual, it is valid: any first-stage
    point with a feasible recourse for [s] whose cost its [eta] covers
    satisfies the cut. *)
Theorem X10_cut_valid_and_tight ub SPk sol s q du e viol :
  well_named d → distinct_ids d →
  mapM (U_balance_of d) (users d) = Ok ub → SP_kept d ub SPk →
  scenario_outcome optimize d tol SPk (get_xrsol d sol) (get_yrsol d sol)
    (get_nsol d sol) s = Ok (q, du, e, viol) →
  (∃ c, const e = Fin c
        ∧ Qabs (eval_terms (X sol) (terms e) + c - q) < 1 # 10000)
  ∧ (dual_feasible
       (SP_at d (fun u v p => X sol (xr u v p)) (fun u r => X sol (yr u r))
              (VM_demands d s) ub (SP_objective d s))
       (optimize
          (SP_at d (fun u v p => X sol (xr u v p))
                 (fun u r => X sol (yr u r))
                 (VM_demands d s) ub (SP_objective d s))) →
     ∀ x y,
       feasible (SP_at d (fun u v p => x (xr u v p)) (fun u r => x (yr u r))
                       (VM_demands d s) ub (SP_objective d s)) y →
       eval_terms y (terms (SP_objective d s)) <= x (n s) →
       sat_constr x (cut s e)).
Proof.
  intros Hwn Hid Hub Hk Hout.
  apply scenario_outcome_inv in Hout
    as (SP' & dual & eta & Hev & Hd & Hsd & _ & He & _).
  apply strong_duality_spec in Hsd as (v & -> & Hsd).
  destruct (cut_value_at_master_point d sol s du v e Hd He) as (c & Hc & Hv).
  split.
  - exists c. split; [done|]. by rewrite <- Hv.
  - intros Hdual x y Hy Hcost.
    destruct (evaluate_kept optimize d Hwn ub SPk sol s SP' q du Hub Hk Hev)
      as (HSP' & _ & _).
    eapply (cut_valid optimize d Hwn Hid); try done.
    + by rewrite Hc.
    + by rewrite HSP'.
Qed.

Local Abbreviation body := (body optimize d tol epsilon).
Local Abbreviation loop_step := (loop_step optimize d tol epsilon).

Lemma body_cuts_valid ub st st' b :
  well_named d → distinct_ids d →
  mapM (U_balance_of d) (users d) = Ok ub → SP_kept d ub (SP st) →
  prices_dual_feasible optimize d ub →
  body st = Ok (st', b) →
  SP_kept d ub (SP st')
  ∧ ∀ x ys, covered_plan d ub x ys →
            Forall (sat_constr x) (constrs (MP st)) →
            Forall (sat_constr x) (constrs (MP st')).
Proof.
  intros Hwn Hid Hub Hk Hdual Hb. split.
  { destruct (body_well_named optimize d tol epsilon Hwn ub st Hub Hk)
      as [(st2 & b2 & Hb2 & Hk2)|Hb2]; [|congruence].
    rewrite Hb in Hb2. by injection Hb2 as <- <-. }
  intros x ys Hplan Hsat.
  apply body_outcome in Hb. cbv zeta in Hb.
  destruct Hb as (UB0 & outs & _ & Hm & HMP & _).
  rewrite HMP, fold_addConstr_constrs. apply Forall_app. split; [done|].
  apply Forall_forall. intros c Hc.
  apply elem_of_violated_cuts in Hc as (s & q & du & e & Hin & ->).
  apply elem_of_zip_lookup in Hin as (i & Hs & Ho).
  apply mapM_Forall2 in Hm.
  pose proof (Forall2_lookup_lr _ _ _ _ _ _ Hm Hs Ho) as Hout.
  assert (Hsin : s ∈ scenarios d) by (by eapply list_elem_of_lookup_2).
  apply scenario_outcome_inv in Hout
    as (SP' & dual & eta & Hev & Hd & Hsd & _ & He & _).
  apply strong_duality_spec in Hsd as (v & -> & Hsd).
  destruct (cut_value_at_master_point d _ s du v e Hd He) as (c & Hc & Hv).
  destruct (evaluate_kept optimize d Hwn ub _ _ s SP' q du Hub Hk Hev)
    as (HSP' & _ & _).
  destruct (Hplan s Hsin) as [Hfeas Hcost].
  eapply (cut_valid optimize d Hwn Hid ub (SP st)); try done.
  - by rewrite Hc.
  - rewrite HSP'. by apply Hdual.
Qed.

Lemma run_cuts_valid ub st0 c2 :
  well_named d → distinct_ids d →
  mapM (U_balance_of d) (users d) = Ok ub →
  prices_dual_feasible optimize d ub →
  init d = Ok st0 → rtc loop_step (st0, false) c2 →
  SP_kept d ub (SP c2.1)
  ∧ ∀ x ys, covered_plan d ub x ys →
            Forall (sat_constr x) (constrs (MP c2.1)).
Proof.
  intros Hwn Hid Hub Hdual Hinit. revert c2.
  apply (rtc_ind_r
           (fun c2 => SP_kept d ub (SP c2.1)
                      ∧ ∀ x ys, covered_plan d ub x ys →
                                Forall (sat_constr x) (constrs (MP c2.1)))).
  - unfold init in Hinit. rewrite (buildSP_well_named d ub Hub) in Hinit.
    injection Hinit as <-. simpl. split; [by repeat eexists|].
    intros x ys _. constructor.
  - intros c1 c2 Hrtc Hstep [Hk Hvalid].
    inversion Hstep as [st st' b Hc Hb]; subst. simpl in *.
    destruct (body_cuts_valid ub st st' b Hwn Hid Hub Hk Hdual Hb)
      as [Hk' Hstep'].
    split; [done|]. intros x ys Hplan. apply (Hstep' x ys Hplan).
    by apply (Hvalid x ys).
Qed.

(** The optimum of the master is below the cost of every point of its
    variables that satisfies the cuts added so far. *)
Lemma optimum_below_point st0 st b x :
  init d = Ok st0 → rtc loop_step (st0, false) (st, b) →
  Forall (sat_constr x) (constrs (MP st)) →
  Forall (in_domain x) (vars (buildMP d)) →
  reports_optimum (MP st) (optimize (MP st)) →
  objVal (optimize (MP st))
  <= Qsum (for_pvu d (fun u v p => VM_rcost d v * x (xr u v p)))
     + Qsum (for_ru d (fun u r => R_rcost d r * x (yr u r)))
     + Qsum (map (fun s => prob d s * x (n s)) (scenarios d)).
Proof.
  intros Hinit Hrtc Hvalid Hdom (_ & _ & Hopt).
  destruct (loop_steps_constrs optimize d tol epsilon _ _ Hrtc)
    as (more & _ & _ & Hvars & Hobj & _).
  simpl in Hvars, Hobj.
  assert (HMP0 : MP st0 = buildMP d).
  { unfold init in Hinit. destruct (buildSP d); [|done].
    by injection Hinit as <-. }
  rewrite HMP0 in Hvars, Hobj.
  specialize (Hopt x). unfold feasible, objective_at in Hopt.
  rewrite Hvars, Hobj in Hopt. specialize (Hopt (conj Hdom Hvalid)).
  change (const (objective (buildMP d))) with (Fin 0) in Hopt.
  change (terms (objective (buildMP d))) with (terms (MP_objective d))
    in Hopt.
  cbn [PyFloat.add fle] in Hopt.
  rewrite <- (MP_objective_eval d x). lra.
Qed.

(** X11: take a run with an engine whose subproblem prices are dual
    feasible, on an instance whose second-stage unit costs are all
    non-negative, and any plan of the two-stage problem: reservations
    within their bounds with a feasible recourse for every scenario,
    none costing more than [GRB.INFINITY].  After any number of
    iterations the plan, with the costs of its recourses for [eta],
    satisfies every cut of the master; so when the engine solves the
    master to optimality, its objective value is at most the cost of the
    plan, reservations plus probability-weighted recourse costs. *)
Theorem X11_master_lower_bound ub st0 st b x ys :
  well_named d → distinct_ids d →
  mapM (U_balance_of d) (users d) = Ok ub →
  prices_dual_feasible optimize d ub →
  recourse_costs_nonneg d →
  init d = Ok st0 → rtc loop_step (st0, false) (st, b) →
  two_stage_plan d ub x ys →
  (∀ s, s ∈ scenarios d → recourse_cost d s (ys s) <= GRB_INFINITY) →
  reports_optimum (MP st) (optimize (MP st)) →
  Forall (sat_constr (with_eta x (fun s => recourse_cost d s (ys s))))
         (constrs (MP st))
  ∧ objVal (optimize (MP st)) <= two_stage_cost d x ys.
Proof.
  intros Hwn Hid Hub Hdual Hc Hinit Hrtc Hplan Hcap Hopt.
  destruct (plan_lifts d ub x ys Hc Hplan Hcap) as (Hcov & Hdom & Hcost).
  destruct (run_cuts_valid ub st0 (st, b) Hwn Hid Hub Hdual Hinit Hrtc)
    as [_ Hvalid].
  specialize (Hvalid _ ys Hcov). simpl in Hvalid. split; [done|].
  rewrite <- Hcost. by eapply optimum_below_point.
Qed.

End Prices.

Lemma small_distinct_ids : distinct_ids Small.d.
Proof.
  repeat split; apply NoDup_cons; (split; [apply not_elem_of_nil|]);
    apply NoDup_nil; done.
Qed.

Lemma priced_engine_dual_feasible ub :
  mapM (U_balance_of Small.d) (users Small.d) = Ok ub →
  prices_dual_feasible Priced.solve Small.d ub.
Proof.
  intros Hub. vm_compute in Hub. injection Hub as <-.
  intros xv yv s _. unfold dual_feasible, with_pi.
  simpl.
  destruct (PyFloat.Qltb (xv "U1"%string "V1"%string "P1"%string) 1),
           (PyFloat.Qltb (yv "U1"%string "R1"%string) 1);
    (split;
     [repeat (apply Forall_cons_2;
              [unfold price_admissible; simpl; split;
               [try lra; try exact I
               |intros; try discriminate; try lra; try reflexivity]|]);
      apply Forall_nil_2
     |intros y Hy; unfold SP_vars in Hy; simpl in Hy;
      repeat (apply Forall_cons in Hy as [[? _] Hy]);
      unfold row_form, eval_terms, Qsum, flow_sum, load_sum; simpl in *;
      unfold xu, yu, xo, yo, f in *; lra]).
Qed.

Lemma X9_witness :
  ∃ ub SP' q du c,
    mapM (U_balance_of Small.d) (users Small.d) = Ok ub
    ∧ modifyAndSolveSP Priced.solve Small.d "S1"
        (get_xrsol Small.d (Priced.solve (buildMP Small.d)))
        (get_yrsol Small.d (Priced.solve (buildMP Small.d)))
        (SP_at Small.d (fun _ _ _ => 0) (fun _ _ => 0) (fun _ _ => 0) ub
               (mkLinExpr [] (Fin 0)))
      = Ok (SP', (q, du))
    ∧ constrs SP' !! 6%nat = Some c
    ∧ q = objVal (Priced.solve SP')
    ∧ d_pisol du !! ("U1", "V1")%string = Some (Pi (Priced.solve SP') 6).
Proof.
  destruct (mapM (U_balance_of Small.d) (users Small.d)) as [ub|e] eqn:Hub;
    [|by vm_compute in Hub].
  destruct (modifyAndSolveSP Priced.solve Small.d "S1"
              (get_xrsol Small.d (Priced.solve (buildMP Small.d)))
              (get_yrsol Small.d (Priced.solve (buildMP Small.d)))
              (SP_at Small.d (fun _ _ _ => 0) (fun _ _ => 0) (fun _ _ => 0)
                     ub (mkLinExpr [] (Fin 0))))
    as [[SP' [q du]]|e] eqn:Hev.
  2:{ exfalso. vm_compute in Hub. injection Hub as <-. by vm_compute in Hev. }
  destruct (constrs SP' !! 6%nat) as [c|] eqn:Hi.
  2:{ exfalso. vm_compute in Hub. injection Hub as <-. vm_compute in Hev.
      injection Hev as <- _ _. by vm_compute in Hi. }
  destruct (X9_recorded_prices Priced.solve Small.d ub _ _ "S1"%string
              SP' q du 6%nat c small_well_named small_distinct_ids Hub
              ltac:(by repeat eexists) Hev Hi)
    as (Hq & _ & _ & _ & _ & Hd).
  exists ub, SP', q, du, c. split; [reflexivity|]. split; [exact Hev|].
  split; [exact Hi|]. split; [exact Hq|].
  apply Hd; [by left|by left|].
  vm_compute in Hub. injection Hub as <-. vm_compute in Hev.
  injection Hev as <- _ _. vm_compute in Hi. by injection Hi as <-.
Defined.

Lemma priced_recourse_covers ub :
  mapM (U_balance_of Small.d) (users Small.d) = Ok ub →
  covered_plan Small.d ub Priced.plan (fun _ => Priced.recourse).
Proof.
  intros Hub. vm_compute in Hub. injection Hub as <-.
  intros s Hs. apply list_elem_of_In in Hs as [<-|[]].
  split; [split|by vm_compute].
  - unfold SP_at, vars, SP_vars.
    repeat (apply Forall_cons_2; [by vm_compute|]). apply Forall_nil_2.
  - unfold SP_at, constrs.
    repeat (apply Forall_cons_2; [by vm_compute|]). apply Forall_nil_2.
Qed.

Lemma X10_witness :
  ∃ ub q du e viol,
    mapM (U_balance_of Small.d) (users Small.d) = Ok ub
    ∧ scenario_outcome Priced.solve Small.d (1 # 10000)
        (SP_at Small.d (fun _ _ _ => 0) (fun _ _ => 0) (fun _ _ => 0) ub
               (mkLinExpr [] (Fin 0)))
        (get_xrsol Small.d (Priced.solve (buildMP Small.d)))
        (get_yrsol Small.d (Priced.solve (buildMP Small.d)))
        (get_nsol Small.d (Priced.solve (buildMP Small.d))) "S1"
      = Ok (q, du, e, viol)
    ∧ (∃ c, const e = Fin c
            ∧ Qabs (eval_terms (X (Priced.solve (buildMP Small.d)))
                               (terms e) + c - q) < 1 # 10000)
    ∧ sat_constr Priced.plan (cut "S1" e).
Proof.
  destruct (mapM (U_balance_of Small.d) (users Small.d)) as [ub|e] eqn:Hub;
    [|by vm_compute in Hub].
  destruct (scenario_outcome Priced.solve Small.d (1 # 10000)
              (SP_at Small.d (fun _ _ _ => 0) (fun _ _ => 0) (fun _ _ => 0)
                     ub (mkLinExpr [] (Fin 0)))
              (get_xrsol Small.d (Priced.solve (buildMP Small.d)))
              (get_yrsol Small.d (Priced.solve (buildMP Small.d)))
              (get_nsol Small.d (Priced.solve (buildMP Small.d))) "S1")
    as [[[[q du] e] viol]|err] eqn:Hout.
  2:{ exfalso. vm_compute in Hub. injection Hub as <-.
      by vm_compute in Hout. }
  destruct (X10_cut_valid_and_tight Priced.solve Small.d (1 # 10000) ub
              _ _ "S1"%string q du e viol small_well_named
              small_distinct_ids Hub ltac:(by repeat eexists) Hout)
    as [Htight Hvalid].
  exists ub, q, du, e, viol. split; [reflexivity|]. split; [exact Hout|].
  split; [exact Htight|].
  destruct (priced_recourse_covers ub Hub "S1"%string ltac:(by left))
    as [Hfeas Hcost].
  apply (Hvalid (priced_engine_dual_feasible ub Hub _ _ "S1"%string
                   ltac:(by left))
                Priced.plan Priced.recourse Hfeas Hcost).
Defined.

Lemma small_costs_nonneg : recourse_costs_nonneg Small.d.
Proof. intros s x. by vm_compute. Qed.

Lemma priced_plan ub :
  mapM (U_balance_of Small.d) (users Small.d) = Ok ub →
  two_stage_plan Small.d ub Priced.plan (fun _ => Priced.recourse).
Proof.
  intros Hub. split.
  - unfold first_stage_vars.
    repeat (apply Forall_cons_2;
            [repeat split; try (by vm_compute); intros _; by exists 1%Z|]).
    apply Forall_nil_2.
  - intros s Hs. apply (priced_recourse_covers ub Hub s Hs).
Qed.

Lemma X11_witness :
  ∃ ub st0 st,
    mapM (U_balance_of Small.d) (users Small.d) = Ok ub
    ∧ init Small.d = Ok st0
    ∧ body Priced.solve Small.d (1 # 10000) (1 # 10000) st0
      = Ok (st, false)
    ∧ length (constrs (MP st)) = 1%nat
    ∧ two_stage_plan Small.d ub Priced.plan (fun _ => Priced.recourse)
    ∧ Forall (sat_constr
                (with_eta Priced.plan
                   (fun s => recourse_cost Small.d s Priced.recourse)))
             (constrs (MP st))
    ∧ objVal (Priced.solve (MP st))
      <= two_stage_cost Small.d Priced.plan (fun _ => Priced.recourse).
Proof.
  destruct (mapM (U_balance_of Small.d) (users Small.d)) as [ub|e] eqn:Hub;
    [|by vm_compute in Hub].
  destruct (init Small.d) as [st0|e] eqn:Hinit; [|by vm_compute in Hinit].
  destruct (body Priced.solve Small.d (1 # 10000) (1 # 10000) st0)
    as [[st b]|e] eqn:Hb.
  2:{ exfalso. vm_compute in Hinit. injection Hinit as <-.
      by vm_compute in Hb. }
  assert (b = false) as ->.
  { vm_compute in Hinit. injection Hinit as <-. vm_compute in Hb.
    by injection Hb. }
  assert (Hc : cutFound st0 = true).
  { vm_compute in Hinit. by injection Hinit as <-. }
  assert (Hlen : length (constrs (MP st)) = 1%nat).
  { vm_compute in Hinit. injection Hinit as <-. vm_compute in Hb.
    by injection Hb as <-. }
  exists ub, st0, st. split; [reflexivity|]. split; [reflexivity|].
  split; [exact Hb|]. split; [exact Hlen|].
  split; [exact (priced_plan ub Hub)|].
  apply (X11_master_lower_bound Priced.solve Small.d (1 # 10000)
           (1 # 10000) ub st0 st false Priced.plan
           (fun _ => Priced.recourse) small_well_named small_distinct_ids
           Hub (priced_engine_dual_feasible ub Hub) small_costs_nonneg Hinit
           (rtc_once _ _ (loop_iter _ _ _ _ _ _ _ Hc Hb))
           (priced_plan ub Hub)).
  - intros s _. by vm_compute.
  - vm_compute in Hinit. injection Hinit as <-. vm_compute in Hb.
    injection Hb as <-.
    cbn [MP]. split; [split|split; [by vm_compute|]].
    + repeat (apply Forall_cons_2;
              [repeat split; try (by vm_compute); intros _; exists 2%Z;
               by vm_compute|]).
      apply Forall_nil_2.
    + repeat (apply Forall_cons_2; [by vm_compute|]). apply Forall_nil_2.
    + intros y [Hdom Hsat]. cbn [vars constrs] in Hdom, Hsat.
      apply Forall_cons in Hdom as [(Hx & _ & Hint) Hdom].
      apply Forall_cons in Hdom as [(Hy & _) Hdom].
      apply Forall_cons in Hdom as [(Hn & _) _].
      apply Forall_cons in Hsat as [Hcut _].
      destruct (Hint eq_refl) as [z Hz].
      unfold sat_constr, eval_terms, Qsum in Hcut.
      unfold objective_at, eval_terms, Qsum.
      simpl in *.
      assert (Hcase : (z <= 0 ∨ z = 1 ∨ 2 <= z)%Z) by lia.
      destruct Hcase as [H0|[->|H2]].
      * rewrite Zle_Qle in H0. change (inject_Z 0) with 0 in H0. lra.
      * change (inject_Z 1) with 1 in Hz. lra.
      * rewrite Zle_Qle in H2. change (inject_Z 2) with 2 in H2. lra.
Defined.

Lemma py_min_cases a b : py_min a b = a ∨ py_min a b = b.
Proof. unfold py_min. destruct (PyFloat.Qltb b a); auto. Qed.

Lemma Qsum_recourse (pr q : string → Q) ss
    (outs : list (Q * Duals * LinExpr * bool)) :
  Forall2 (fun s o => o.1.1.1 = q s) ss outs →
  Qsum (map (fun '(s, (q', _, _, _)) => pr s * q') (zip ss outs))
  == Qsum (map (fun s => pr s * q s) ss).
Proof.
  induction 1 as [|s [[[q' du] e] viol] ss outs Hq _ IH]; simpl; [done|].
  rewrite !Qsum_cons, IH. simpl in Hq. rewrite Hq. reflexivity.
Qed.

Section Bracket.

Variable optimize : Model → Solution.
Variable d : Instance.
Variable tol : Q.
Variable epsilon : Q.
Variable ub : list Constr.
Hypothesis Hwn : well_named d.
Hypothesis Hid : distinct_ids d.
Hypothesis Hub : mapM (U_balance_of d) (users d) = Ok ub.

Local Abbreviation body := (body optimize d tol epsilon).
Local Abbreviation loop_step := (loop_step optimize d tol epsilon).

Lemma iteration_recourse_cost st s :
  recourse_solved optimize d ub (X (optimize (MP st))) → s ∈ scenarios d →
  recourse_cost d s (iteration_recourse optimize d ub st s)
  == objVal (optimize (SP_of d ub (X (optimize (MP st))) s)).
Proof.
  intros Hrec Hs. destruct (Hrec s Hs) as (_ & [H1 H2] & _).
  unfold objective_at in H1, H2.
  change (objective (SP_of d ub (X (optimize (MP st))) s))
    with (SP_objective d s) in H1, H2.
  cbn [const SP_objective PyFloat.add fle] in H1, H2.
  unfold recourse_cost, iteration_recourse. lra.
Qed.

Lemma iteration_is_plan st :
  vars (MP st) = vars (buildMP d) →
  solved_at optimize d ub st →
  two_stage_plan d ub (X (optimize (MP st)))
                 (iteration_recourse optimize d ub st)
  ∧ ∀ s, s ∈ scenarios d →
         recourse_cost d s (iteration_recourse optimize d ub st s)
         <= GRB_INFINITY.
Proof.
  intros Hv [([Hdom _] & _) Hrec]. rewrite Hv in Hdom. split; [split|].
  - unfold first_stage_vars. unfold buildMP, vars in Hdom.
    rewrite !Forall_app in *. tauto.
  - intros s Hs. apply (Hrec s Hs).
  - intros s Hs. rewrite (iteration_recourse_cost st s Hrec Hs).
    apply (Hrec s Hs).
Qed.

Lemma iteration_plan_cost st st' b :
  SP_kept d ub (SP st) →
  recourse_solved optimize d ub (X (optimize (MP st))) →
  body st = Ok (st', b) →
  ∃ u, UB st' = Some u
       ∧ u == two_stage_cost d (X (optimize (MP st)))
                (iteration_recourse optimize d ub st).
Proof.
  intros Hk Hrec Hb. apply body_outcome in Hb. cbv zeta in Hb.
  destruct Hb as (UB0 & outs & H0 & Hm & _ & HUB & _).
  rewrite first_stage_cost_value in H0. injection H0 as <-.
  eexists. split; [exact HUB|].
  rewrite plus_recourse_sum. unfold two_stage_cost.
  rewrite (Qsum_recourse (prob d)
             (fun s => objVal (optimize
                                 (SP_of d ub (X (optimize (MP st))) s)))).
  - rewrite (Qsum_map_ext
               (fun s => prob d s
                         * objVal (optimize
                                     (SP_of d ub (X (optimize (MP st))) s)))
               (fun s => prob d s
                         * recourse_cost d s
                             (iteration_recourse optimize d ub st s))).
    + reflexivity.
    + intros s Hs.
      rewrite (iteration_recourse_cost st s Hrec); [reflexivity|].
      by apply list_elem_of_In.
  - apply mapM_Forall2 in Hm. eapply Forall2_impl; [exact Hm|].
    intros s [[[q du] e] viol] Hout. simpl.
    apply scenario_outcome_inv in Hout as (SP' & _ & _ & Hev & _).
    destruct (evaluate_kept optimize d Hwn ub _ _ s SP' q du Hub Hk Hev)
      as (-> & -> & _).
    reflexivity.
Qed.

(** What the loop keeps, with a sound engine and no negative recourse
    cost: the upper bounds are costs of plans, and the master objective
    is below the cost of every plan. *)
Lemma run_bracket st0 c2 :
  prices_dual_feasible optimize d ub →
  recourse_costs_nonneg d →
  init d = Ok st0 →
  (∀ st1, rtc loop_step (st0, false) (st1, false) → cutFound st1 = true →
          solved_at optimize d ub st1) →
  rtc loop_step (st0, false) c2 →
  (bestUB c2.1 = GRB_INFINITY
   ∨ ∃ x ys, two_stage_plan d ub x ys
             ∧ (∀ s, s ∈ scenarios d →
                     recourse_cost d s (ys s) <= GRB_INFINITY)
             ∧ bestUB c2.1 == two_stage_cost d x ys)
  ∧ (∀ o, MPobj c2.1 = Some o →
          (∃ u x ys, UB c2.1 = Some u ∧ two_stage_plan d ub x ys
                     ∧ (∀ s, s ∈ scenarios d →
                             recourse_cost d s (ys s) <= GRB_INFINITY)
                     ∧ u == two_stage_cost d x ys)
          ∧ ∀ x ys, two_stage_plan d ub x ys →
                    (∀ s, s ∈ scenarios d →
                          recourse_cost d s (ys s) <= GRB_INFINITY) →
                    o <= two_stage_cost d x ys).
Proof.
  intros Hdual Hcosts Hinit Hsolved. revert c2.
  apply (rtc_ind_r
           (fun c2 =>
              (bestUB c2.1 = GRB_INFINITY
               ∨ ∃ x ys, two_stage_plan d ub x ys
                         ∧ (∀ s, s ∈ scenarios d →
                                 recourse_cost d s (ys s) <= GRB_INFINITY)
                         ∧ bestUB c2.1 == two_stage_cost d x ys)
              ∧ (∀ o, MPobj c2.1 = Some o →
                      (∃ u x ys, UB c2.1 = Some u ∧ two_stage_plan d ub x ys
                                 ∧ (∀ s, s ∈ scenarios d →
                                         recourse_cost d s (ys s)
                                         <= GRB_INFINITY)
                                 ∧ u == two_stage_cost d x ys)
                      ∧ ∀ x ys, two_stage_plan d ub x ys →
                                (∀ s, s ∈ scenarios d →
                                      recourse_cost d s (ys s)
                                      <= GRB_INFINITY) →
                                o <= two_stage_cost d x ys))).
  - unfold init in Hinit. destruct (buildSP d); [|done].
    injection Hinit as <-. simpl. split; [by left|done].
  - intros c1 c2 Hrtc Hstep [Hbest _].
    inversion Hstep as [st st' b Hc Hb]; subst. simpl in *.
    pose proof (Hsolved st Hrtc Hc) as Hsol.
    destruct Hsol as [Hopt Hrec].
    destruct (run_cuts_valid optimize d tol epsilon ub st0 (st, false)
                Hwn Hid Hub Hdual Hinit Hrtc) as [Hk Hvalid].
    simpl in Hk, Hvalid.
    assert (Hvars : vars (MP st) = vars (buildMP d)).
    { destruct (loop_steps_constrs optimize d tol epsilon _ _ Hrtc)
        as (_ & _ & _ & Hv & _).
      simpl in Hv. rewrite Hv. unfold init in Hinit.
      destruct (buildSP d); [|done]. by injection Hinit as <-. }
    destruct (iteration_plan_cost st st' b Hk Hrec Hb) as (u & Hu & Hcost).
    destruct (iteration_is_plan st Hvars (conj Hopt Hrec)) as [Hplan Hcap].
    pose proof Hb as Hout. apply body_outcome in Hout. cbv zeta in Hout.
    destruct Hout as (UB0 & outs & _ & _ & _ & HUB & HbestUB & _ & _ & _
                      & Hobj & _).
    split.
    + rewrite HbestUB. rewrite Hu in HUB. injection HUB as <-.
      destruct (py_min_cases u (bestUB st)) as [-> | ->]; [|done].
      right. eauto 10.
    + intros o Ho. rewrite Hobj in Ho. injection Ho as <-.
      split; [eauto 10|].
      intros x ys Hx Hxcap.
      destruct (plan_lifts d ub x ys Hcosts Hx Hxcap)
        as (Hcov & Hdom & Hxcost).
      rewrite <- Hxcost.
      apply (optimum_below_point optimize d tol epsilon st0 st false _
               Hinit Hrtc (Hvalid _ ys Hcov) Hdom Hopt).
Qed.

(** X12: take a run on an instance whose second-stage unit costs are
    all non-negative, in which the engine solves every master to
    optimality and every subproblem to a feasible recourse with its cost
    as objective value, at most [GRB.INFINITY], and with dual-feasible
    prices.  After every iteration the bounds bracket the two-stage
    problem: the iteration's upper bound is the cost of a plan (the
    master's reservations with the engine's recourses), the best upper
    bound is still [GRB.INFINITY] or the cost of a plan, and the master
    objective is at most the cost of every plan whose recourses cost no
    more than [GRB.INFINITY], hence at most the iteration's upper bound
    and the best one. *)
Theorem X12_bounds_bracket st0 st b o :
  prices_dual_feasible optimize d ub →
  recourse_costs_nonneg d →
  init d = Ok st0 →
  (∀ st1, rtc loop_step (st0, false) (st1, false) → cutFound st1 = true →
          solved_at optimize d ub st1) →
  rtc loop_step (st0, false) (st, b) →
  MPobj st = Some o →
  (∃ u x ys, UB st = Some u ∧ two_stage_plan d ub x ys
             ∧ u == two_stage_cost d x ys ∧ o <= u)
  ∧ (bestUB st = GRB_INFINITY
     ∨ ∃ x ys, two_stage_plan d ub x ys
               ∧ bestUB st == two_stage_cost d x ys ∧ o <= bestUB st)
  ∧ ∀ x ys, two_stage_plan d ub x ys →
            (∀ s, s ∈ scenarios d →
                  recourse_cost d s (ys s) <= GRB_INFINITY) →
            o <= two_stage_cost d x ys.
Proof.
  intros Hdual Hcosts Hinit Hsolved Hrtc Ho.
  destruct (run_bracket st0 (st, b) Hdual Hcosts Hinit Hsolved Hrtc)
    as [Hbest Hobj].
  simpl in *.
  destruct (Hobj o Ho) as [(u & x & ys & Hu & Hx & Hcap & Hcost) Hlow].
  split; [|split; [|done]].
  - exists u, x, ys. split; [done|]. split; [done|]. split; [done|].
    rewrite Hcost. by apply Hlow.
  - destruct Hbest as [?|(x' & ys' & Hx' & Hcap' & Hcost')]; [by left|right].
    exists x', ys'. split; [done|]. split; [done|].
    rewrite Hcost'. by apply Hlow.
Qed.

End Bracket.

(** The configurations of a run of three iterations. *)
Lemma three_iterations optimize d tol epsilon st0 st1 st2 st3 b3 c :
  body optimize d tol epsilon st0 = Ok (st1, false) →
  body optimize d tol epsilon st1 = Ok (st2, false) →
  body optimize d tol epsilon st2 = Ok (st3, b3) →
  cutFound st3 = false ∨ b3 = true →
  rtc (loop_step optimize d tol epsilon) (st0, false) c →
  c = (st0, false) ∨ c = (st1, false) ∨ c = (st2, false) ∨ c = (st3, b3).
Proof.
  intros H1 H2 H3 Hend. revert c.
  apply (rtc_ind_r
           (fun c => c = (st0, false) ∨ c = (st1, false) ∨ c = (st2, false)
                     ∨ c = (st3, b3))); [by left|].
  intros c1 c2 _ Hstep Hc1.
  inversion Hstep as [st st' b Hc Hb]; subst.
  destruct Hc1 as [E|[E|[E|E]]]; injection E as ->; try subst b3.
  - rewrite H1 in Hb. injection Hb as <- <-. auto.
  - rewrite H2 in Hb. injection Hb as <- <-. auto.
  - rewrite H3 in Hb. injection Hb as <- <-. auto.
  - destruct Hend as [Hend|Hend]; congruence.
Qed.

Ltac solve_master :=
  split; [split|split; [by vm_compute|]];
  [repeat (apply Forall_cons_2;
           [repeat split; try (by vm_compute); intros _;
            first [exists 0%Z; by vm_compute | exists 1%Z; by vm_compute
                  | exists 2%Z; by vm_compute]|]);
   apply Forall_nil_2
  |repeat (apply Forall_cons_2; [by vm_compute|]); apply Forall_nil_2
  |let y := fresh "y" in
   let Hdom := fresh "Hdom" in
   let Hsat := fresh "Hsat" in
   let Hint := fresh "Hint" in
   let z := fresh "z" in
   let Hz := fresh "Hz" in
   let Hcase := fresh "Hcase" in
   intros y [Hdom Hsat]; cbn [vars constrs] in Hdom, Hsat;
   apply Forall_cons in Hdom as [(? & _ & Hint) Hdom];
   apply Forall_cons in Hdom as [(? & _) Hdom];
   apply Forall_cons in Hdom as [(? & _) _];
   repeat (apply Forall_cons in Hsat as [? Hsat]);
   destruct (Hint eq_refl) as [z Hz];
   unfold sat_constr, eval_terms, Qsum in *;
   unfold objective_at, eval_terms, Qsum;
   simpl in *;
   assert (Hcase : (z <= 0 ∨ z = 1 ∨ 2 <= z)%Z) by lia;
   destruct Hcase as [Hcase|[->|Hcase]];
   [rewrite Zle_Qle in Hcase; change (inject_Z 0) with 0 in Hcase; lra
   |change (inject_Z 1) with 1 in Hz; lra
   |rewrite Zle_Qle in Hcase; change (inject_Z 2) with 2 in Hcase; lra]].

Ltac solve_recourse :=
  let s := fresh "s" in
  let Hs := fresh "Hs" in
  intros s Hs; apply list_elem_of_In in Hs as [<-|[]];
  split; [split|split; by vm_compute];
  [unfold SP_of, SP_at, vars, SP_vars
  |unfold SP_of, SP_at, constrs];
  repeat (apply Forall_cons_2; [by vm_compute|]); apply Forall_nil_2.

(** The run of the driver on [Small.d] with the engine [Priced]: three
    iterations, each with the master and the subproblem solved. *)
Lemma priced_run ub st0 :
  mapM (U_balance_of Small.d) (users Small.d) = Ok ub →
  init Small.d = Ok st0 →
  ∃ st1 st2 st3,
    body Priced.solve Small.d (1 # 10000) (1 # 10000) st0
    = Ok (st1, false)
    ∧ body Priced.solve Small.d (1 # 10000) (1 # 10000) st1
      = Ok (st2, false)
    ∧ body Priced.solve Small.d (1 # 10000) (1 # 10000) st2
      = Ok (st3, true)
    ∧ cutFound st0 = true ∧ cutFound st1 = true ∧ cutFound st2 = true
    ∧ noIters st3 = 3%nat ∧ MPobj st3 = Some 2
    ∧ solved_at Priced.solve Small.d ub st0
    ∧ solved_at Priced.solve Small.d ub st1
    ∧ solved_at Priced.solve Small.d ub st2.
Proof.
  intros Hub Hinit.
  destruct (body Priced.solve Small.d (1 # 10000) (1 # 10000) st0)
    as [[st1 b1]|e] eqn:Hb1.
  2:{ exfalso. vm_compute in Hinit. injection Hinit as <-.
      by vm_compute in Hb1. }
  destruct (body Priced.solve Small.d (1 # 10000) (1 # 10000) st1)
    as [[st2 b2]|e] eqn:Hb2.
  2:{ exfalso. vm_compute in Hinit. injection Hinit as <-.
      vm_compute in Hb1. injection Hb1 as <- _. by vm_compute in Hb2. }
  destruct (body Priced.solve Small.d (1 # 10000) (1 # 10000) st2)
    as [[st3 b3]|e] eqn:Hb3.
  2:{ exfalso. vm_compute in Hinit. injection Hinit as <-.
      vm_compute in Hb1. injection Hb1 as <- _.
      vm_compute in Hb2. injection Hb2 as <- _. by vm_compute in Hb3. }
  exists st1, st2, st3.
  vm_compute in Hub. injection Hub as <-.
  vm_compute in Hinit. injection Hinit as <-.
  vm_compute in Hb1. injection Hb1 as <- <-.
  vm_compute in Hb2. injection Hb2 as <- <-.
  vm_compute in Hb3. injection Hb3 as <- <-.
  do 8 (split; [reflexivity|]).
  split; [|split];
    (split; [cbn [MP]; solve_master|cbn [MP]; solve_recourse]).
Qed.

Lemma priced_solved ub st0 st :
  mapM (U_balance_of Small.d) (users Small.d) = Ok ub →
  init Small.d = Ok st0 →
  rtc (loop_step Priced.solve Small.d (1 # 10000) (1 # 10000))
      (st0, false) (st, false) →
  cutFound st = true → solved_at Priced.solve Small.d ub st.
Proof.
  intros Hub Hinit Hst Hc.
  destruct (priced_run ub st0 Hub Hinit)
    as (st1 & st2 & st3 & Hb1 & Hb2 & Hb3 & _ & _ & _ & _ & _ & S0 & S1 & S2).
  destruct (three_iterations _ _ _ _ _ _ _ _ _ _ Hb1 Hb2 Hb3
              (or_intror eq_refl) Hst) as [E|[E|[E|E]]];
    injection E as ->; done.
Qed.

Lemma X12_witness :
  ∃ ub st0 st o,
    mapM (U_balance_of Small.d) (users Small.d) = Ok ub
    ∧ init Small.d = Ok st0
    ∧ rtc (loop_step Priced.solve Small.d (1 # 10000) (1 # 10000))
          (st0, false) (st, true)
    ∧ noIters st = 3%nat ∧ MPobj st = Some o
    ∧ (∃ u x ys, UB st = Some u ∧ two_stage_plan Small.d ub x ys
                 ∧ u == two_stage_cost Small.d x ys ∧ o <= u)
    ∧ (bestUB st = GRB_INFINITY
       ∨ ∃ x ys, two_stage_plan Small.d ub x ys
                 ∧ bestUB st == two_stage_cost Small.d x ys
                 ∧ o <= bestUB st)
    ∧ ∀ x ys, two_stage_plan Small.d ub x ys →
              (∀ s, s ∈ scenarios Small.d →
                    recourse_cost Small.d s (ys s) <= GRB_INFINITY) →
              o <= two_stage_cost Small.d x ys.
Proof.
  destruct (mapM (U_balance_of Small.d) (users Small.d)) as [ub|e] eqn:Hub;
    [|by vm_compute in Hub].
  destruct (init Small.d) as [st0|e] eqn:Hinit; [|by vm_compute in Hinit].
  destruct (priced_run ub st0 Hub Hinit)
    as (st1 & st2 & st3 & Hb1 & Hb2 & Hb3 & Hc0 & Hc1 & Hc2 & Hn & Ho & _).
  assert (Hrtc : rtc (loop_step Priced.solve Small.d (1 # 10000)
                                (1 # 10000)) (st0, false) (st3, true)).
  { eapply rtc_l; [by apply loop_iter|].
    eapply rtc_l; [by apply loop_iter|]. by apply rtc_once, loop_iter. }
  exists ub, st0, st3, 2. split; [reflexivity|]. split; [reflexivity|].
  split; [exact Hrtc|]. split; [exact Hn|]. split; [exact Ho|].
  apply (X12_bounds_bracket Priced.solve Small.d (1 # 10000) (1 # 10000)
           ub small_well_named small_distinct_ids Hub st0 st3 true 2
           (priced_engine_dual_feasible ub Hub) small_costs_nonneg Hinit
           (fun st1 => priced_solved ub st0 st1 Hub Hinit) Hrtc Ho).
Defined.

Section Returned.

Variable optimize : Model → Solution.
Variable d : Instance.
Variable tol : Q.
Variable epsilon : Q.
Variable ub : list Constr.
Hypothesis Hwn : well_named d.
Hypothesis Hid : distinct_ids d.
Hypothesis Hub : mapM (U_balance_of d) (users d) = Ok ub.

Local Abbreviation body := (body optimize d tol epsilon).
Local Abbreviation loop_step := (loop_step optimize d tol epsilon).
Local Abbreviation while_cutFound := (while_cutFound optimize d tol epsilon).

(** The iterations behind a returned state. *)
Lemma while_cutFound_path fuel : ∀ st st',
  cutFound st = true → while_cutFound fuel st = Returned st' →
  ∃ stp b, rtc loop_step (st, false) (stp, false)
           ∧ cutFound stp = true ∧ body stp = Ok (st', b)
           ∧ (b = true ∨ cutFound st' = false).
Proof.
  induction fuel as [|fuel IH]; intros st st' Hc H; simpl in H;
    rewrite Hc in H; [done|].
  destruct (body st) as [[st1 [|]]|e] eqn:Hb; [| |done].
  - injection H as <-. exists st, true. split; [apply rtc_refl|]. auto.
  - destruct (cutFound st1) eqn:Hc1.
    + destruct (IH st1 st' Hc1 H) as (stp & b & Hrtc & Hcp & Hbp & Hend).
      exists stp, b. split; [|done].
      eapply rtc_l; [|exact Hrtc]. by apply loop_iter.
    + destruct fuel; simpl in H; rewrite Hc1 in H; injection H as <-;
        exists st, false; (split; [apply rtc_refl|]); auto.
Qed.

Lemma reachable_master st0 c :
  init d = Ok st0 → rtc loop_step (st0, false) c →
  MP c.1 = master_with_cuts d (constrs (MP c.1)).
Proof.
  intros Hinit Hrtc.
  destruct (loop_steps_constrs optimize d tol epsilon _ _ Hrtc)
    as (_ & _ & Hn & Hv & Ho & Hs).
  assert (HMP0 : MP st0 = buildMP d).
  { unfold init in Hinit. destruct (buildSP d); [|done].
    by injection Hinit as <-. }
  simpl in Hn, Hv, Ho, Hs. rewrite HMP0 in Hn, Hv, Ho, Hs.
  destruct (MP c.1) as [nm vs cs ob se]. simpl in *. by subst.
Qed.

(** X13: take a run on an instance whose second-stage unit costs are
    all non-negative, in which the engine solves every master to
    optimality and every subproblem to a feasible recourse with its cost
    as objective value, at most [GRB.INFINITY], and with dual-feasible
    prices; let the probabilities be non-negative with sum at most 1 and
    the cut tolerance lie between 0 and epsilon.  When [multiBenders]
    returns the objective [o], no plan of the two-stage problem whose
    recourses cost at most [GRB.INFINITY] costs less than [o], and some
    plan costs at most [o + epsilon * (1 + |cost|)], unless the best
    upper bound is still [GRB.INFINITY] and [o] is within the gap of
    it. *)
Theorem X13_returned_objective_near_optimal fuel o iters cuts :
  prices_dual_feasible optimize d ub →
  recourse_costs_nonneg d →
  (∀ st0 st1, init d = Ok st0 →
              rtc loop_step (st0, false) (st1, false) →
              cutFound st1 = true → solved_at optimize d ub st1) →
  (∀ s, s ∈ scenarios d → 0 <= prob d s) →
  Qsum (map (prob d) (scenarios d)) <= 1 →
  0 <= tol → tol <= epsilon →
  multiBenders optimize d tol epsilon fuel = Returned (o, iters, cuts) →
  (∀ x ys, two_stage_plan d ub x ys →
           (∀ s, s ∈ scenarios d →
                 recourse_cost d s (ys s) <= GRB_INFINITY) →
           o <= two_stage_cost d x ys)
  ∧ ((∃ x ys, two_stage_plan d ub x ys
              ∧ two_stage_cost d x ys - o
                <= epsilon * (1 + Qabs (two_stage_cost d x ys)))
     ∨ GRB_INFINITY - o <= epsilon * (1 + Qabs GRB_INFINITY)).
Proof.
  intros Hdual Hcosts Hsolved Hprob Hsum Htol Hte Hret.
  unfold multiBenders, run in Hret.
  destruct (init d) as [st0|e] eqn:Hinit; [|done].
  destruct (while_cutFound fuel st0) as [st| |] eqn:Hw; try done.
  destruct (MPobj st) as [o'|] eqn:Ho; [|done]. injection Hret as -> _ _.
  assert (Hc0 : cutFound st0 = true).
  { unfold init in Hinit. destruct (buildSP d); [|done].
    by injection Hinit as <-. }
  destruct (while_cutFound_path fuel st0 st Hc0 Hw)
    as (stp & b & Hrtc & Hcp & Hbp & Hend).
  destruct (Hsolved st0 stp eq_refl Hrtc Hcp) as [(_ & Hcons & _) _].
  assert (Hb : b = true).
  { destruct Hend as [->|Hcf]; [done|].
    eapply (no_cut_within_gap optimize d tol epsilon Hprob Hsum Htol Hte);
      [|exact Hcons|exact Hbp|exact Hcf].
    apply (reachable_master st0 (stp, false) Hinit Hrtc). }
  subst b.
  assert (Hrtc' : rtc loop_step (st0, false) (st, true)).
  { eapply rtc_r; [exact Hrtc|]. by apply loop_iter. }
  destruct (run_bracket optimize d tol epsilon ub Hwn Hid Hub st0 (st, true)
              Hdual Hcosts Hinit (fun st1 => Hsolved st0 st1 eq_refl) Hrtc')
    as [Hbest Hobj].
  simpl in Hbest, Hobj. destruct (Hobj o Ho) as [_ Hlow].
  split; [exact Hlow|].
  destruct (break_within_gap optimize d tol epsilon stp st Hbp)
    as (o2 & Ho2 & Hgap).
  rewrite Ho in Ho2. injection Ho2 as <-.
  apply Qle_bool_iff, gap_test in Hgap.
  destruct Hbest as [E|(x & ys & Hx & _ & E)].
  - right. by rewrite <- E.
  - left. exists x, ys. split; [done|]. by rewrite <- E.
Qed.

End Returned.

Lemma X13_witness :
  multiBenders Priced.solve Small.d (1 # 10000) (1 # 10000) 3
  = Returned (2, 3%nat, 2%nat)
  ∧ ∃ ub,
      mapM (U_balance_of Small.d) (users Small.d) = Ok ub
      ∧ (∀ x ys, two_stage_plan Small.d ub x ys →
                 (∀ s, s ∈ scenarios Small.d →
                       recourse_cost Small.d s (ys s) <= GRB_INFINITY) →
                 2 <= two_stage_cost Small.d x ys)
      ∧ ((∃ x ys, two_stage_plan Small.d ub x ys
                  ∧ two_stage_cost Small.d x ys - 2
                    <= (1 # 10000)
                       * (1 + Qabs (two_stage_cost Small.d x ys)))
         ∨ GRB_INFINITY - 2 <= (1 # 10000) * (1 + Qabs GRB_INFINITY)).
Proof.
  assert (Hret : multiBenders Priced.solve Small.d (1 # 10000) (1 # 10000)
                   3 = Returned (2, 3%nat, 2%nat)) by (by vm_compute).
  split; [exact Hret|].
  destruct (mapM (U_balance_of Small.d) (users Small.d)) as [ub|e] eqn:Hub;
    [|by vm_compute in Hub].
  exists ub. split; [reflexivity|].
  apply (X13_returned_objective_near_optimal Priced.solve Small.d
           (1 # 10000) (1 # 10000) ub small_well_named small_distinct_ids
           Hub 3 2 3%nat 2%nat (priced_engine_dual_feasible ub Hub)
           small_costs_nonneg
           (fun st0 st1 Hinit => priced_solved ub st0 st1 Hub Hinit)).
  - intros s _. by vm_compute.
  - by vm_compute.
  - by vm_compute.
  - by vm_compute.
  - exact Hret.
Defined.

Lemma fold_add_is_finite l : ∀ a,
  PyFloat.is_finite a = true →
  Forall (fun x => PyFloat.is_finite x = true) l →
  PyFloat.is_finite (fold_left PyFloat.add l a) = true.
Proof.
  induction l as [|b l IH]; intros a Ha Hl; simpl; [done|].
  apply Forall_cons in Hl as [Hb Hl]. apply IH; [|done].
  by destruct a, b.
Qed.

Lemma mapM_id_map_Forall {A B} (g : A → Res B) (P : B → Prop) l : ∀ bs,
  mapM id (map g l) = Ok bs →
  (∀ a x, In a l → g a = Ok x → P x) → Forall P bs.
Proof.
  induction l as [|a l IH]; intros bs H HP; simpl in H.
  - injection H as <-. constructor.
  - bind_inv H as b Hb. bind_inv H as bs' Hbs. injection H as <-.
    constructor; [by apply (HP a); [left|]|].
    apply IH; [done|]. intros a' x Ha'. apply HP. by right.
Qed.

Lemma fsum_of_finite {A} (g : A → Res float) l t :
  fsum_of (map g l) = Ok t →
  (∀ a x, In a l → g a = Ok x → PyFloat.is_finite x = true) →
  PyFloat.is_finite t = true.
Proof.
  unfold fsum_of. intros H Hg. bind_inv H as xs Hxs. injection H as <-.
  apply fold_add_is_finite; [done|].
  by eapply mapM_id_map_Forall.
Qed.

Lemma guarded_capacity_term_finite pisol cap p x :
  number_or_inf (cap p) → guarded_capacity_term pisol cap p = Ok x →
  PyFloat.is_finite x = true.
Proof.
  unfold guarded_capacity_term, getitem.
  destruct (cap p) as [k| | |]; simpl; try done.
  - intros _. destruct (pisol !! p); simpl; [|done]. by intros [= <-].
  - intros _. by intros [= <-].
Qed.

Lemma bandwidth_term_finite d pisol r x :
  PyFloat.is_finite (R_BCapacity d r) = true →
  bandwidth_term d pisol r = Ok x → PyFloat.is_finite x = true.
Proof.
  unfold bandwidth_term, getitem.
  destruct (R_BCapacity d r) as [k| | |]; simpl; try done.
  intros _. destruct (pisol !! r); simpl; [|done]. by intros [= <-].
Qed.

Section NoAssertion.

Variable optimize : Model → Solution.
Variable d : Instance.
Variable tol : Q.
Variable epsilon : Q.
Variable ub : list Constr.
Hypothesis Hwn : well_named d.
Hypothesis Hid : distinct_ids d.
Hypothesis Hcap : proper_capacities d.
Hypothesis Hub : mapM (U_balance_of d) (users d) = Ok ub.

Lemma dualSPobj_finite xrsol yrsol s du dual :
  dualSPobj d xrsol yrsol s du = Ok dual → PyFloat.is_finite dual = true.
Proof.
  intros H. destruct Hcap as [HP HR]. unfold dualSPobj in H.
  bind_inv H as t1 H1. bind_inv H as t2 H2. bind_inv H as t3 H3.
  bind_inv H as t4 H4. bind_inv H as t5 H5. bind_inv H as t6 H6.
  bind_inv H as t7 H7. injection H as <-.
  rewrite (for_pvu_as_map d) in H1. rewrite (for_ru_as_map d) in H2.
  unfold CPU_constant in H3. unfold Storage_constant in H4.
  unfold Memory_constant in H5. unfold Bandwidth_constant in H6.
  unfold demand_constant in H7. rewrite (for_vu_as_map d) in H7.
  apply fsum_of_finite in H1, H2, H3, H4, H5, H6, H7.
  - by destruct t1, t2, t3, t4, t5, t6, t7.
  - intros [u v] x _. simpl. unfold getitem.
    destruct (d_pisol du !! (u, v)); simpl; [|done]. by intros [= <-].
  - intros r x Hr. apply bandwidth_term_finite. by apply HR.
  - intros p x Hp. apply guarded_capacity_term_finite. by apply HP.
  - intros p x Hp. apply guarded_capacity_term_finite. by apply HP.
  - intros p x Hp. apply guarded_capacity_term_finite. by apply HP.
  - intros [u r] x _. simpl. unfold getitem.
    destruct (yrsol !! (u, r)); simpl; [|done].
    destruct (ru_pisol du !! (u, r)); simpl; [|done]. by intros [= <-].
  - intros [[u v] p] x _. simpl. unfold getitem.
    destruct (xrsol !! (u, v, p)); simpl; [|done].
    destruct (vu_pisol du !! (u, v, p)); simpl; [|done]. by intros [= <-].
Qed.

(** The dual objective the driver rebuilds from the returned prices is
    the dual objective of the engine's answer. *)
Lemma dualSPobj_engine SPk sol s SP' q du dual :
  SP_kept d ub SPk →
  modifyAndSolveSP optimize d s (get_xrsol d sol) (get_yrsol d sol) SPk
  = Ok (SP', (q, du)) →
  dualSPobj d (get_xrsol d sol) (get_yrsol d sol) s du = Ok dual →
  ∃ v, dual = Fin v ∧ v == dual_objective SP' (optimize SP').
Proof.
  intros Hk Hev Hd.
  destruct (evaluate_well_named optimize d Hwn ub SPk sol s Hub Hk)
    as (SP2 & q2 & du2 & Hev2 & _ & _ & Hdu).
  rewrite Hev in Hev2. injection Hev2 as <- <- <-.
  destruct (evaluate_kept optimize d Hwn ub SPk sol s SP' q du Hub Hk Hev)
    as (HSP' & _ & Hf).
  pose proof (dualSPobj_finite _ _ _ _ _ Hd) as Hfin.
  destruct dual as [v| | |]; try discriminate Hfin.
  exists v. split; [done|].
  destruct (expr_total d s du Hdu) as [e He].
  destruct (cut_value_at_master_point d sol s du v e Hd He) as (c & Hc & ->).
  rewrite (expr_value d s du e c (X sol) He Hc).
  unfold dual_objective. rewrite HSP' in Hf at 2. rewrite HSP' at 2.
  cbn [constrs SP_at] in *.
  symmetry.
  exact (priced_sum d Hwn Hid (optimize SP') du
           (fun u v p => X sol (xr u v p)) (fun u r => X sol (yr u r))
           (VM_demands d s)
           (fun u v p => X sol (xr u v p)) (fun u r => X sol (yr u r))
           (VM_demands d s) ub Hub Hf).
Qed.

Hypothesis Hengine : engine_strong_duality optimize d ub.

Lemma scenario_step_passes sol it s :
  SP_kept d ub (it_SP it) → s ∈ scenarios d →
  ∃ it', scenario_step optimize d tol (get_xrsol d sol) (get_yrsol d sol)
           (get_nsol d sol) it s = Ok it'
         ∧ SP_kept d ub (it_SP it').
Proof.
  intros Hk Hs.
  destruct (scenario_step_well_named optimize d tol Hwn ub sol it s Hub Hk Hs)
    as [?|Herr]; [done|exfalso].
  destruct (evaluate_well_named optimize d Hwn ub (it_SP it) sol s Hub Hk)
    as (SP' & q & du & Hev & HSP' & Hq & Hdu).
  destruct (dualSPobj_total d sol s du Hdu) as [dual Hd].
  destruct (dualSPobj_engine _ _ _ _ _ _ _ Hk Hev Hd) as (v & -> & Hv).
  unfold scenario_step in Herr. rewrite Hev in Herr. simpl in Herr.
  rewrite Hd in Herr. simpl in Herr.
  assert (Hsd : strong_duality (Fin v) q = true).
  { apply strong_duality_spec. exists v. split; [done|].
    rewrite Hv, Hq, HSP'. by apply Hengine. }
  rewrite Hsd in Herr. simpl in Herr. unfold after_check in Herr.
  rewrite (getitem_Some _ _ _ (get_nsol_lookup d sol s Hs)) in Herr.
  simpl in Herr. destruct (expr_total d s du Hdu) as [e He].
  rewrite He in Herr. simpl in Herr. by destruct (PyFloat.Qltb _ _).
Qed.

Lemma scenario_loop_passes sol ss : ∀ it,
  SP_kept d ub (it_SP it) → (∀ s, s ∈ ss → s ∈ scenarios d) →
  ∃ it', foldM (scenario_step optimize d tol (get_xrsol d sol)
                  (get_yrsol d sol) (get_nsol d sol)) ss it = Ok it'
         ∧ SP_kept d ub (it_SP it').
Proof.
  induction ss as [|s ss IH]; intros it Hk Hin; simpl; [eauto|].
  destruct (scenario_step_passes sol it s Hk) as (it1 & -> & Hk1);
    [apply Hin; by left|].
  simpl. apply IH; [done|]. intros s' Hs'. apply Hin. by right.
Qed.

Lemma body_passes st :
  SP_kept d ub (SP st) →
  ∃ st' b, body optimize d tol epsilon st = Ok (st', b) ∧ SP_kept d ub (SP st').
Proof.
  intros Hk.
  destruct (body_well_named optimize d tol epsilon Hwn ub st Hub Hk)
    as [?|Herr]; [done|exfalso].
  unfold body in Herr. cbv zeta in Herr.
  rewrite first_stage_cost_value in Herr. simpl in Herr.
  match type of Herr with
  | context [foldM _ _ ?it] =>
      destruct (scenario_loop_passes (optimize (MP st)) (scenarios d) it)
        as (it' & Hit & _); [done|done|]
  end.
  rewrite Hit in Herr. by simpl in Herr.
Qed.

Lemma while_cutFound_passes fuel : ∀ st,
  SP_kept d ub (SP st) →
  (∃ st', while_cutFound optimize d tol epsilon fuel st = Returned st')
  ∨ while_cutFound optimize d tol epsilon fuel st = OutOfFuel.
Proof.
  induction fuel as [|fuel IH]; intros st Hk; simpl.
  - destruct (cutFound st); eauto.
  - destruct (cutFound st); [|eauto].
    destruct (body_passes st Hk) as (st' & b & -> & Hk').
    destruct b; [eauto|]. by apply IH.
Qed.

(** X14: the dual objective that the driver rebuilds for the assertion
    is the dual objective of the engine's answer, its prices times the
    right-hand sides of their rows.  So on a well-named instance with
    distinct identifiers, provider capacities that are numbers or
    infinite and router capacities that are numbers, an engine whose
    prices satisfy strong duality within 1e-4 on every subproblem never
    makes the driver raise: [multiBenders] returns its result or is
    still running when the fuel ends. *)
Theorem X14_no_exception_with_exact_prices fuel :
  (∀ SPk sol s SP' q du dual,
     SP_kept d ub SPk →
     modifyAndSolveSP optimize d s (get_xrsol d sol) (get_yrsol d sol) SPk
     = Ok (SP', (q, du)) →
     dualSPobj d (get_xrsol d sol) (get_yrsol d sol) s du = Ok dual →
     ∃ v, dual = Fin v ∧ v == dual_objective SP' (optimize SP'))
  ∧ ((∃ o iters cuts,
        multiBenders optimize d tol epsilon fuel = Returned (o, iters, cuts))
     ∨ multiBenders optimize d tol epsilon fuel = OutOfFuel).
Proof.
  split; [apply dualSPobj_engine|].
  unfold multiBenders, run, init.
  rewrite (buildSP_well_named d ub Hub). simpl.
  match goal with
  | |- context [while_cutFound _ _ _ _ _ ?st0] =>
      destruct (while_cutFound_passes fuel st0) as [[st Hw]| ->];
        [by repeat eexists| |by right];
        pose proof (while_cutFound_path optimize d tol epsilon fuel st0 st
                      eq_refl Hw) as (stp & b & _ & _ & Hb & _)
  end.
  rewrite Hw. apply body_outcome in Hb. cbv zeta in Hb.
  destruct Hb as (UB0 & outs & _ & _ & _ & _ & _ & _ & _ & _ & -> & _).
  left. eauto.
Qed.

End NoAssertion.

Lemma small_proper_capacities : proper_capacities Small.d.
Proof. split; [intros p _|intros r _]; by vm_compute. Qed.

Lemma priced_engine_strong_duality ub :
  mapM (U_balance_of Small.d) (users Small.d) = Ok ub →
  engine_strong_duality Priced.solve Small.d ub.
Proof.
  intros Hub. vm_compute in Hub. injection Hub as <-.
  intros xv yv s _. apply Qabs_Qlt_condition.
  unfold dual_objective, with_pi, Qsum. simpl.
  destruct (PyFloat.Qltb (xv "U1"%string "V1"%string "P1"%string) 1),
           (PyFloat.Qltb (yv "U1"%string "R1"%string) 1);
    split; lra.
Qed.

Lemma X14_witness :
  ∃ o iters cuts,
    multiBenders Priced.solve Small.d (1 # 10000) (1 # 10000) 3
    = Returned (o, iters, cuts).
Proof.
  destruct (mapM (U_balance_of Small.d) (users Small.d)) as [ub|e] eqn:Hub;
    [|by vm_compute in Hub].
  destruct (X14_no_exception_with_exact_prices Priced.solve Small.d
              (1 # 10000) (1 # 10000) ub small_well_named small_distinct_ids
              small_proper_capacities Hub
              (priced_engine_strong_duality ub Hub) 3) as [_ [H|H]].
  - exact H.
  - by vm_compute in H.
Defined.

(** X15: with an empty list of scenarios, once the subproblem is built
    the driver solves the master once and returns its objective after
    one iteration with no cut, whatever the gap and the tolerances and
    without evaluating any subproblem. *)
Theorem X15_no_scenarios optimize d tol epsilon fuel SP0 :
  scenarios d = [] → buildSP d = Ok SP0 →
  multiBenders optimize d tol epsilon (S fuel)
  = Returned (objVal (optimize (buildMP d)), 1%nat, 0%nat).
Proof.
  intros Hs HSP. unfold multiBenders, run, init. rewrite HSP. simpl.
  unfold body. cbv zeta. simpl. rewrite first_stage_cost_value. simpl.
  rewrite Hs. simpl.
  destruct (Qle_bool _ _); [done|]. by destruct fuel.
Qed.

Lemma X15_witness :
  multiBenders Small.optimize d_no_scenario (1 # 10000) (1 # 10000) 1
  = Returned (objVal (Small.optimize (buildMP d_no_scenario)), 1%nat, 0%nat).
Proof.
  destruct (buildSP d_no_scenario) as [SP0|e] eqn:HSP;
    [|by vm_compute in HSP].
  exact (X15_no_scenarios Small.optimize d_no_scenario (1 # 10000)
           (1 # 10000) 0 SP0 eq_refl HSP).
Defined.

(** ** The cut, term by term *)

Section CutShape.

Variable optimize : Model → Solution.
Variable d : Instance.
Variable tol : Q.
Variable epsilon : Q.

Local Abbreviation body := (body optimize d tol epsilon).
Local Abbreviation loop_step := (loop_step optimize d tol epsilon).

(** What [expr] is when it is built: the returned prices of the
    utilization bounds on the reservation variables, and a constant that
    adds up the capacity prices times the capacities and the demand
    prices times the demand. *)
Lemma expr_shape s du e :
  expr d s du = Ok e →
  terms e
  = for_pvu d (fun u v p => (default 0 (vu_pisol du !! (u, v, p)), xr u v p))
    ++ for_ru d (fun u r => (default 0 (ru_pisol du !! (u, r)), yr u r))
  ∧ (∀ u v p, In u (users d) → In v (VMs d) → In p (providers d) →
              is_Some (vu_pisol du !! (u, v, p)))
  ∧ (∀ u r, In u (users d) → In r (routers d) →
            is_Some (ru_pisol du !! (u, r)))
  ∧ ∀ c, const e = Fin c →
         c == Qsum (map (fun p => default 0 (c_pisol du !! p)
                                  * finite_part (P_CCapacity d p))
                        (providers d))
              + Qsum (map (fun p => default 0 (s_pisol du !! p)
                                    * finite_part (P_SCapacity d p))
                          (providers d))
              + Qsum (map (fun p => default 0 (m_pisol du !! p)
                                    * finite_part (P_MCapacity d p))
                          (providers d))
              + Qsum (map (fun r => default 0 (b_pisol du !! r)
                                    * finite_part (R_BCapacity d r))
                          (routers d))
              + Qsum (for_vu d (fun u v => default 0 (d_pisol du !! (u, v))
                                           * VM_demands d s u v)).
Proof.
  unfold expr. intros He.
  bind_inv He as l1 L1. bind_inv He as l2 L2. bind_inv He as t3 H3.
  bind_inv He as t4 H4. bind_inv He as t5 H5. bind_inv He as t6 H6.
  bind_inv He as t7 H7. injection He as <-. cbn [terms const].
  split; [|split; [|split]].
  - apply cut_terms_pvu in L1 as ->. by apply cut_terms_ru in L2 as ->.
  - intros u v p Hu Hv Hp.
    destruct (mapM_id_for_pvu_inv d _ _ u v p L1 Hu Hv Hp) as [b Hb].
    unfold getitem in Hb. by destruct (vu_pisol du !! (u, v, p)).
  - intros u r Hu Hr.
    destruct (mapM_id_for_ru_inv d _ _ u r L2 Hu Hr) as [b Hb].
    unfold getitem in Hb. by destruct (ru_pisol du !! (u, r)).
  - intros c Hc.
    destruct t3 as [q3| | |], t4 as [q4| | |], t5 as [q5| | |],
      t6 as [q6| | |], t7 as [q7| | |]; simpl in Hc; try discriminate Hc.
    injection Hc as <-.
    unfold CPU_constant in H3. unfold Storage_constant in H4.
    unfold Memory_constant in H5. unfold Bandwidth_constant in H6.
    apply (fsum_of_value _ (fun p => default 0 (c_pisol du !! p)
                                     * finite_part (P_CCapacity d p))) in H3;
      [|intros p x' _; apply guarded_capacity_term_value].
    apply (fsum_of_value _ (fun p => default 0 (s_pisol du !! p)
                                     * finite_part (P_SCapacity d p))) in H4;
      [|intros p x' _; apply guarded_capacity_term_value].
    apply (fsum_of_value _ (fun p => default 0 (m_pisol du !! p)
                                     * finite_part (P_MCapacity d p))) in H5;
      [|intros p x' _; apply guarded_capacity_term_value].
    apply (fsum_of_value _ (fun r => default 0 (b_pisol du !! r)
                                     * finite_part (R_BCapacity d r))) in H6;
      [|intros r x' _; apply bandwidth_term_value].
    apply demand_constant_value in H7.
    rewrite <- H3, <- H4, <- H5, <- H6, <- H7. ring.
Qed.

(** C3: in an iteration that completes, the master's constraints are
    those it had before, followed by one cut for each scenario [s], in
    scenario order, whose eta value is below the scenario objective
    minus the cut-violation tolerance, and by nothing else.  The cut of
    [s] is the unnamed row [eta[s] >= expr]: its left-hand side is
    [eta[s]] alone; the terms of [expr] are, for every user, VM and
    provider, the returned price of the VM utilization bound times
    [xr[u,v,p]] and, for every user and router, the returned price of
    the router utilization bound times [yr[u,r]]; its constant is a
    number, the sum of the returned capacity prices times their
    capacities (an infinite provider capacity counting 0) and of the
    returned demand prices times the demand of [s].  The prices are
    those the evaluator returned for [s].  Whatever the master holds
    after the iteration it still holds after any number of further
    iterations. *)
Theorem C3_violated_cuts_appended st st' b :
  body st = Ok (st', b) →
  ∃ outs,
    mapM (scenario_outcome optimize d tol (SP st)
            (get_xrsol d (optimize (MP st))) (get_yrsol d (optimize (MP st)))
            (get_nsol d (optimize (MP st)))) (scenarios d) = Ok outs
    ∧ constrs (MP st')
      = constrs (MP st) ++ violated_cuts (zip (scenarios d) outs)
    ∧ (∀ c, c ∈ violated_cuts (zip (scenarios d) outs)
            ↔ ∃ i s q du e, scenarios d !! i = Some s
                            ∧ outs !! i = Some (q, du, e, true)
                            ∧ c = cut s e)
    ∧ (∀ i s q du e viol,
         scenarios d !! i = Some s → outs !! i = Some (q, du, e, viol) →
         (∃ SP', modifyAndSolveSP optimize d s
                   (get_xrsol d (optimize (MP st)))
                   (get_yrsol d (optimize (MP st))) (SP st)
                 = Ok (SP', (q, du)))
         ∧ expr d s du = Ok e
         ∧ viol = PyFloat.Qltb (X (optimize (MP st)) (n s)) (q - tol)
         ∧ cut s e
           = mkConstr "" [(1, n s)] GREATER_EQUAL
               (for_pvu d (fun u v p =>
                  (default 0 (vu_pisol du !! (u, v, p)), xr u v p))
                ++ for_ru d (fun u r =>
                     (default 0 (ru_pisol du !! (u, r)), yr u r)))
               (const e)
         ∧ (∀ u v p, In u (users d) → In v (VMs d) → In p (providers d) →
                     is_Some (vu_pisol du !! (u, v, p)))
         ∧ (∀ u r, In u (users d) → In r (routers d) →
                   is_Some (ru_pisol du !! (u, r)))
         ∧ ∃ c, const e = Fin c
                ∧ c == Qsum (map (fun p => default 0 (c_pisol du !! p)
                                           * finite_part (P_CCapacity d p))
                                 (providers d))
                     + Qsum (map (fun p => default 0 (s_pisol du !! p)
                                           * finite_part (P_SCapacity d p))
                                 (providers d))
                     + Qsum (map (fun p => default 0 (m_pisol du !! p)
                                           * finite_part (P_MCapacity d p))
                                 (providers d))
                     + Qsum (map (fun r => default 0 (b_pisol du !! r)
                                           * finite_part (R_BCapacity d r))
                                 (routers d))
                     + Qsum (for_vu d (fun u v =>
                               default 0 (d_pisol du !! (u, v))
                               * VM_demands d s u v)))
    ∧ (∀ c2, rtc loop_step (st', b) c2 →
             ∃ more, constrs (MP c2.1) = constrs (MP st') ++ more).
Proof.
  intros H. pose proof (body_outcome _ _ _ _ _ _ _ H) as Ho.
  cbv zeta in Ho.
  destruct Ho as (UB0 & outs & _ & Hm & HMP & _).
  exists outs. split; [done|]. split.
  { by rewrite HMP, fold_addConstr_constrs. }
  split.
  { intros c. rewrite elem_of_violated_cuts. split.
    - intros (s & q & du & e & Hin & ->).
      apply elem_of_lookup_zip_with in Hin as (i & s' & o & Heq & Hs & Ho).
      simplify_eq. eauto 10.
    - intros (i & s & q & du & e & Hs & Ho & ->).
      exists s, q, du, e. split; [|done].
      apply elem_of_lookup_zip_with. by exists i, s, (q, du, e, true). }
  split.
  { intros i s q du e viol Hs Ho.
    destruct (outcomes_decided _ _ _ _ _ _ Hm i s q du e viol Hs Ho)
      as (HSP & He & Hv).
    destruct (expr_shape s du e He) as (Ht & Hvu & Hru & Hconst).
    split; [done|]. split; [done|]. split; [done|].
    split; [unfold cut; by rewrite Ht|]. split; [done|]. split; [done|].
    pose proof (mapM_Forall2 _ _ _ Hm) as HF.
    pose proof (Forall2_lookup_lr _ _ _ _ _ _ HF Hs Ho) as Hout.
    apply scenario_outcome_inv in Hout
      as (SP' & dual & eta & _ & Hd & Hsd & _ & _ & _).
    apply strong_duality_spec in Hsd as (v & -> & _).
    destruct (cut_value_at_master_point d _ s du v e Hd He) as (c & Hc & _).
    exists c. split; [done|]. by apply Hconst. }
  intros c2 Hc2. apply loop_steps_constrs in Hc2 as (more & Hc & _).
  by exists more.
Qed.

End CutShape.

Lemma C3_witness :
  ∃ st st' outs,
    init Small.d = Ok st
    ∧ body Small.optimize Small.d (1 # 10000) (1 # 10000) st = Ok (st', false)
    ∧ mapM (scenario_outcome Small.optimize Small.d (1 # 10000) (SP st)
              (get_xrsol Small.d (Small.optimize (MP st)))
              (get_yrsol Small.d (Small.optimize (MP st)))
              (get_nsol Small.d (Small.optimize (MP st))))
           (scenarios Small.d) = Ok outs
    ∧ constrs (MP st')
      = constrs (MP st) ++ violated_cuts (zip (scenarios Small.d) outs)
    ∧ violated_cuts (zip (scenarios Small.d) outs)
      = [mkConstr "" [(1, n "S1")] GREATER_EQUAL
           [(- (3), xr "U1" "V1" "P1"); (- (2), yr "U1" "R1")] (Fin 5)].
Proof.
  destruct (init Small.d) as [st|e] eqn:Hinit; [|by vm_compute in Hinit].
  destruct (body Small.optimize Small.d (1 # 10000) (1 # 10000) st)
    as [[st' b]|e] eqn:Hb.
  2:{ exfalso. vm_compute in Hinit. injection Hinit as <-.
      by vm_compute in Hb. }
  assert (b = false) as ->.
  { vm_compute in Hinit. injection Hinit as <-. vm_compute in Hb.
    by injection Hb. }
  destruct (C3_violated_cuts_appended _ _ _ _ _ _ _ Hb)
    as (outs & Hm & Hc & _).
  exists st, st', outs. split; [reflexivity|]. split; [exact Hb|].
  split; [exact Hm|]. split; [exact Hc|].
  vm_compute in Hinit. injection Hinit as <-.
  vm_compute in Hm. injection Hm as <-. reflexivity.
Defined.

(** ** When the loop ends *)

Lemma Qltb_false a b : PyFloat.Qltb a b = false ↔ b <= a.
Proof.
  destruct (PyFloat.Qltb a b) eqn:E.
  - apply Qltb_lt in E. split; [done|]. intros H. exfalso.
    by apply (Qlt_not_le _ _ E).
  - split; [|done]. intros _. apply Qnot_lt_le. intros H.
    apply Qltb_lt in H. congruence.
Qed.

Section Exit.

Variable optimize : Model → Solution.
Variable d : Instance.
Variable tol : Q.
Variable epsilon : Q.
Variable ub : list Constr.
Hypothesis Hwn : well_named d.
Hypothesis Hub : mapM (U_balance_of d) (users d) = Ok ub.

(** The flag [cutFound] after an iteration, read off the scenarios: it
    is off exactly when the eta of every scenario reaches the objective
    value of its subproblem less the tolerance. *)
Lemma cutFound_scenarios st st' b :
  SP_kept d ub (SP st) →
  body optimize d tol epsilon st = Ok (st', b) →
  cutFound st' = false
  ↔ ∀ s, s ∈ scenarios d →
         objVal (optimize (SP_of d ub (X (optimize (MP st))) s)) - tol
         <= X (optimize (MP st)) (n s).
Proof.
  intros Hk Hb. apply body_outcome in Hb. cbv zeta in Hb.
  destruct Hb as (UB0 & outs & _ & Hm & _ & _ & _ & -> & _).
  pose proof (outcomes_decided _ _ _ _ _ _ Hm) as Hdec.
  pose proof (mapM_length _ _ _ Hm) as Hlen.
  assert (Hq : ∀ i s q du e viol,
            scenarios d !! i = Some s → outs !! i = Some (q, du, e, viol) →
            viol = PyFloat.Qltb (X (optimize (MP st)) (n s))
                     (objVal (optimize
                                (SP_of d ub (X (optimize (MP st))) s))
                      - tol)).
  { intros i s q du e viol Hs Ho.
    destruct (Hdec i s q du e viol Hs Ho) as ((SP' & Hev) & _ & ->).
    destruct (evaluate_kept optimize d Hwn ub _ _ s SP' q du Hub Hk Hev)
      as (-> & -> & _).
    reflexivity. }
  split.
  - intros Hex s Hs.
    apply list_elem_of_lookup in Hs as [i Hs].
    destruct (lookup_lt_is_Some_2 outs i) as [[[[q du] e] viol] Ho].
    { rewrite Hlen. by eapply lookup_lt_Some. }
    apply Qltb_false. rewrite <- (Hq i s q du e viol Hs Ho).
    destruct viol; [|done].
    assert (existsb (fun o : Q * Duals * LinExpr * bool => o.2) outs = true);
      [|congruence].
    apply existsb_exists. exists (q, du, e, true). split; [|done].
    apply list_elem_of_In. by eapply list_elem_of_lookup_2.
  - intros Hall.
    destruct (existsb (fun o : Q * Duals * LinExpr * bool => o.2) outs)
      eqn:E; [exfalso|done].
    apply existsb_exists in E as ([[[q du] e] viol] & Hin & Hv).
    simpl in Hv. subst viol.
    apply list_elem_of_In, list_elem_of_lookup in Hin as [i Ho].
    destruct (lookup_lt_is_Some_2 (scenarios d) i) as [s Hs].
    { rewrite <- Hlen. by eapply lookup_lt_Some. }
    pose proof (Hq i s q du e true Hs Ho) as Hv. symmetry in Hv.
    apply Qltb_lt in Hv.
    apply (Qlt_not_le _ _ Hv), Hall. by eapply list_elem_of_lookup_2.
Qed.

(** X7: an iteration of the loop on a well-named instance.  [MPobj] is
    the objective the engine reported for the master as it stood at the
    start of the iteration; the convergence test never divides by zero
    and holds exactly when [bestUB - MPobj <= epsilon * (1 + |bestUB|)];
    the flag [cutFound] is off exactly when, for every scenario, the
    eta of the master's point is at least the objective value of the
    scenario's subproblem at that point less the tolerance.  The loop
    ends with the iteration when the test holds or no scenario is
    violated in this sense, and goes on with the next iteration
    otherwise. *)
Theorem X7_exit_condition st st' b :
  SP_kept d ub (SP st) →
  cutFound st = true →
  body optimize d tol epsilon st = Ok (st', b) →
  ∃ o, MPobj st' = Some o ∧ o = objVal (optimize (MP st))
       ∧ 0 < 1 + Qabs (bestUB st')
       ∧ (b = true ↔ bestUB st' - o <= epsilon * (1 + Qabs (bestUB st')))
       ∧ (cutFound st' = false
          ↔ ∀ s, s ∈ scenarios d →
                 objVal (optimize (SP_of d ub (X (optimize (MP st))) s))
                 - tol
                 <= X (optimize (MP st)) (n s))
       ∧ (bestUB st' - o <= epsilon * (1 + Qabs (bestUB st'))
          ∨ (∀ s, s ∈ scenarios d →
                  objVal (optimize (SP_of d ub (X (optimize (MP st))) s))
                  - tol
                  <= X (optimize (MP st)) (n s)) →
          ∀ fuel, while_cutFound optimize d tol epsilon (S fuel) st
                  = Returned st')
       ∧ (¬ (bestUB st' - o <= epsilon * (1 + Qabs (bestUB st'))
             ∨ (∀ s, s ∈ scenarios d →
                     objVal (optimize
                               (SP_of d ub (X (optimize (MP st))) s))
                     - tol
                     <= X (optimize (MP st)) (n s))) →
          ∀ fuel, while_cutFound optimize d tol epsilon (S fuel) st
                  = while_cutFound optimize d tol epsilon fuel st').
Proof.
  intros Hk Hc Hb. pose proof Hb as Ho. apply body_outcome in Ho.
  cbv zeta in Ho.
  destruct Ho as (UB0 & outs & _ & _ & _ & _ & _ & _ & _ & _ & Ho & Hgap).
  pose proof (cutFound_scenarios st st' b Hk Hb) as Hcf.
  assert (Htest : b = true
                  ↔ bestUB st' - objVal (optimize (MP st))
                    <= epsilon * (1 + Qabs (bestUB st'))).
  { rewrite Hgap. apply gap_test. }
  exists (objVal (optimize (MP st))). split; [done|]. split; [done|]. split.
  { pose proof (Qabs_nonneg (bestUB st')). lra. }
  split; [done|]. split; [done|]. split.
  - intros Hend fuel. simpl. rewrite Hc, Hb.
    destruct b; [done|].
    destruct Hend as [Hend|Hend]; [by apply Htest in Hend|].
    apply Hcf in Hend. destruct fuel; simpl; by rewrite Hend.
  - intros Hgo fuel. simpl. rewrite Hc, Hb.
    destruct b; [exfalso; apply Hgo; left; by apply Htest|].
    destruct (cutFound st') eqn:Hc'; [done|].
    exfalso. apply Hgo. right. by apply Hcf.
Qed.

End Exit.

Lemma X7_witness :
  ∃ ub st st' o,
    mapM (U_balance_of Small.d) (users Small.d) = Ok ub
    ∧ init Small.d = Ok st
    ∧ body Small.optimize Small.d (1 # 10000) (1 # 10000) st = Ok (st', false)
    ∧ MPobj st' = Some o
    ∧ ¬ bestUB st' - o <= (1 # 10000) * (1 + Qabs (bestUB st'))
    ∧ ¬ (∀ s, s ∈ scenarios Small.d →
              objVal (Small.optimize
                        (SP_of Small.d ub (X (Small.optimize (MP st))) s))
              - (1 # 10000)
              <= X (Small.optimize (MP st)) (n s))
    ∧ while_cutFound Small.optimize Small.d (1 # 10000) (1 # 10000) 3 st
      = while_cutFound Small.optimize Small.d (1 # 10000) (1 # 10000) 2 st'.
Proof.
  destruct (mapM (U_balance_of Small.d) (users Small.d)) as [ub|e] eqn:Hub;
    [|by vm_compute in Hub].
  destruct (init Small.d) as [st|e] eqn:Hinit; [|by vm_compute in Hinit].
  destruct (body Small.optimize Small.d (1 # 10000) (1 # 10000) st)
    as [[st' b]|e] eqn:Hb.
  2:{ exfalso. vm_compute in Hinit. injection Hinit as <-.
      by vm_compute in Hb. }
  assert (b = false) as ->.
  { vm_compute in Hinit. injection Hinit as <-. vm_compute in Hb.
    by injection Hb. }
  assert (Hc : cutFound st = true).
  { vm_compute in Hinit. by injection Hinit as <-. }
  assert (Hc' : cutFound st' = true).
  { vm_compute in Hinit. injection Hinit as <-. vm_compute in Hb.
    by injection Hb as <-. }
  assert (Hk : SP_kept Small.d ub (SP st)).
  { unfold init in Hinit. rewrite (buildSP_well_named Small.d ub Hub) in Hinit.
    injection Hinit as <-. by repeat eexists. }
  destruct (X7_exit_condition Small.optimize Small.d (1 # 10000) (1 # 10000)
              ub small_well_named Hub st st' false Hk Hc Hb)
    as (o & Ho & _ & _ & Hiff & Hcf & _ & Hgo).
  assert (Hgap : ¬ bestUB st' - o <= (1 # 10000) * (1 + Qabs (bestUB st'))).
  { intros H. apply Hiff in H. discriminate H. }
  assert (Hviol : ¬ (∀ s, s ∈ scenarios Small.d →
                       objVal (Small.optimize
                                 (SP_of Small.d ub
                                    (X (Small.optimize (MP st))) s))
                       - (1 # 10000)
                       <= X (Small.optimize (MP st)) (n s))).
  { intros H. apply Hcf in H. congruence. }
  exists ub, st, st', o. split; [reflexivity|]. split; [reflexivity|].
  split; [exact Hb|]. split; [exact Ho|]. split; [exact Hgap|].
  split; [exact Hviol|]. apply Hgo. tauto.
Defined.

Lemma eta_bounded_below d s :
  s ∈ scenarios d →
  ∃ vd, vd ∈ vars (buildMP d) ∧ vd_var vd = n s ∧ vd_vtype vd = CONTINUOUS
        ∧ vd_lb vd = Fin 0 ∧ ¬ unrestricted_below vd.
Proof.
  intros Hs.
  exists (mkVarDecl (n s) CONTINUOUS (Fin 0) (Fin GRB_INFINITY)).
  split; [|split; [done|split; [done|split; [done|]]]].
  - apply (buildMP_model d). right; right. by exists s.
  - unfold unrestricted_below. simpl. vm_compute. intros H. by apply H.
Qed.

Lemma negative_plan :
  ∃ ub, mapM (U_balance_of Small.d_negative) (users Small.d_negative) = Ok ub
        ∧ two_stage_plan Small.d_negative ub Negative.reservation
            (fun _ => Negative.on_demand)
        ∧ two_stage_cost Small.d_negative Negative.reservation
            (fun _ => Negative.on_demand) == - (10).
Proof.
  destruct (mapM (U_balance_of Small.d_negative) (users Small.d_negative))
    as [ub|e] eqn:Hub; [|by vm_compute in Hub].
  exists ub. split; [reflexivity|]. vm_compute in Hub. injection Hub as <-.
  split; [split|by vm_compute].
  - unfold first_stage_vars.
    repeat (apply Forall_cons_2;
            [repeat split; try (by vm_compute); intros _; by exists 0%Z|]).
    apply Forall_nil_2.
  - intros s Hs. apply list_elem_of_In in Hs as [<-|[]]. split.
    + unfold SP_of, SP_at, vars, SP_vars.
      repeat (apply Forall_cons_2; [by vm_compute|]). apply Forall_nil_2.
    + unfold SP_of, SP_at, constrs.
      repeat (apply Forall_cons_2; [by vm_compute|]). apply Forall_nil_2.
Qed.

Lemma negative_engine_in_domain cs :
  Forall (in_domain (X (Negative.engine
                          (master_with_cuts Small.d_negative cs))))
         (vars (buildMP Small.d_negative)).
Proof.
  unfold Negative.engine.
  cbn [modelName master_with_cuts].
  change (String.eqb "MP" "MP") with true. cbv iota. cbn [X].
  apply Forall_forall. intros vd Hvd.
  apply list_elem_of_In in Hvd. simpl in Hvd.
  destruct Hvd as [<-|[<-|[<-|[]]]]; unfold in_domain; simpl;
    (split; [vm_compute; discriminate|]);
    (split; [vm_compute; discriminate|]);
    intros _; by exists 0%Z.
Qed.

Lemma negative_engine_consistent cs :
  consistent (master_with_cuts Small.d_negative cs)
             (Negative.engine (master_with_cuts Small.d_negative cs)).
Proof.
  unfold consistent, objective_at, Negative.engine.
  cbn [modelName master_with_cuts String.eqb constrs objective const].
  change (String.eqb "MP" "MP") with true. cbv iota.
  cbn [objVal X]. unfold eval_terms, Qsum. simpl.
  split; lra.
Qed.

(** C7: [buildMP] gives the eta of every scenario the lower bound 0 of
    a default [addVars], on every instance: eta is never unrestricted
    below, whatever the sign of the recourse cost.  On
    [Small.d_negative], whose on-demand VM cost is negative, the bound
    makes the driver wrong.  Whatever engine solves the models, as long
    as it reports for the master a point within the variables' bounds
    with its objective, the objective [multiBenders] returns is at
    least 0, while the two-stage problem has a plan of cost -10: five
    units of reserved bandwidth carrying five on-demand VMs. *)
Theorem C7_eta_lower_bound_defect optimize tol epsilon fuel o iters cuts :
  (∀ cs, Forall (in_domain
                   (X (optimize (master_with_cuts Small.d_negative cs))))
                (vars (buildMP Small.d_negative))
         ∧ consistent (master_with_cuts Small.d_negative cs)
                      (optimize (master_with_cuts Small.d_negative cs))) →
  multiBenders optimize Small.d_negative tol epsilon fuel
  = Returned (o, iters, cuts) →
  (∀ d s, s ∈ scenarios d →
          ∃ vd, vd ∈ vars (buildMP d) ∧ vd_var vd = n s
                ∧ vd_vtype vd = CONTINUOUS ∧ vd_lb vd = Fin 0
                ∧ ¬ unrestricted_below vd)
  ∧ ¬ recourse_costs_nonneg Small.d_negative
  ∧ 0 <= o
  ∧ ∃ ub x ys,
      mapM (U_balance_of Small.d_negative) (users Small.d_negative) = Ok ub
      ∧ two_stage_plan Small.d_negative ub x ys
      ∧ two_stage_cost Small.d_negative x ys == - (10)
      ∧ two_stage_cost Small.d_negative x ys < o.
Proof.
  intros Hengine Hret.
  assert (Ho : 0 <= o).
  { unfold multiBenders, run in Hret.
    destruct (init Small.d_negative) as [st0|e] eqn:Hinit; [|done].
    destruct (while_cutFound optimize Small.d_negative tol epsilon fuel st0)
      as [st| |] eqn:Hw; try done.
    destruct (MPobj st) as [o'|] eqn:Hobj; [|done].
    injection Hret as -> _ _.
    assert (Hc0 : cutFound st0 = true).
    { unfold init in Hinit. destruct (buildSP Small.d_negative); [|done].
      by injection Hinit as <-. }
    destruct (while_cutFound_path optimize Small.d_negative tol epsilon fuel
                st0 st Hc0 Hw) as (stp & b & Hrtc & _ & Hb & _).
    pose proof (reachable_master optimize Small.d_negative tol epsilon st0
                  (stp, false) Hinit Hrtc) as HM.
    simpl in HM.
    apply body_outcome in Hb. cbv zeta in Hb.
    destruct Hb as (_ & _ & _ & _ & _ & _ & _ & _ & _ & _ & Hobj' & _).
    rewrite Hobj in Hobj'. injection Hobj' as ->.
    destruct (Hengine (constrs (MP stp))) as [Hdom [_ Hcons]].
    rewrite HM. set (cs := constrs (MP stp)) in *.
    unfold objective_at in Hcons.
    cbn [objective master_with_cuts const MP_objective] in Hcons.
    change (terms (mkLinExpr ?t ?c)) with t in Hcons.
    simpl in Hdom, Hcons.
    apply Forall_cons in Hdom as [(Hx & _) Hdom].
    apply Forall_cons in Hdom as [(Hy & _) Hdom].
    apply Forall_cons in Hdom as [(Hn & _) _].
    unfold eval_terms, Qsum in Hcons. simpl in *.
    unfold xr, yr, n in *. lra. }
  split; [exact eta_bounded_below|]. split.
  { intros H. destruct (H "S1"%string "V1"%string) as (_ & H1 & _).
    simpl in H1. lra. }
  split; [exact Ho|].
  destruct negative_plan as (ub & Hub & Hplan & Hcost).
  exists ub, Negative.reservation, (fun _ => Negative.on_demand).
  split; [done|]. split; [done|]. split; [done|]. rewrite Hcost. lra.
Qed.

Lemma C7_witness :
  multiBenders Negative.engine Small.d_negative (1 # 10000) (1 # 10000) 1
  = Returned (0, 1%nat, 0%nat)
  ∧ (∃ st, run Negative.engine Small.d_negative (1 # 10000) (1 # 10000) 1
           = Returned st
           ∧ UB st = Some (- (5)) ∧ bestUB st = - (5))
  ∧ ∃ ub x ys,
      mapM (U_balance_of Small.d_negative) (users Small.d_negative) = Ok ub
      ∧ two_stage_plan Small.d_negative ub x ys
      ∧ two_stage_cost Small.d_negative x ys == - (10)
      ∧ two_stage_cost Small.d_negative x ys < 0.
Proof.
  assert (Hret : multiBenders Negative.engine Small.d_negative (1 # 10000)
                   (1 # 10000) 1 = Returned (0, 1%nat, 0%nat))
    by (by vm_compute).
  split; [exact Hret|]. split.
  { destruct (run Negative.engine Small.d_negative (1 # 10000) (1 # 10000) 1)
      as [st| |] eqn:Hrun; [|by vm_compute in Hrun..].
    exists st. split; [reflexivity|].
    vm_compute in Hrun. injection Hrun as <-. split; reflexivity. }
  assert (Hengine :
    ∀ cs, Forall (in_domain
                    (X (Negative.engine
                          (master_with_cuts Small.d_negative cs))))
                 (vars (buildMP Small.d_negative))
          ∧ consistent (master_with_cuts Small.d_negative cs)
                       (Negative.engine
                          (master_with_cuts Small.d_negative cs))).
  { intros cs. split.
    - apply negative_engine_in_domain.
    - apply negative_engine_consistent. }
  destruct (C7_eta_lower_bound_defect Negative.engine (1 # 10000)
              (1 # 10000) 1 0 1%nat 0%nat Hengine Hret) as (_ & _ & _ & H).
  exact H.
Defined.
